(** * Font management of the freetype text renderer

    A shallow embedding of
    [modules/text_renderer/freetype/platform_fonts.c] (VLC): the face cache
    ([LoadFace], [GetFace]), the style scorer ([GetBestFont]), the fallback
    search ([SearchFallbacks], [SearchFontByFamilyName]), the family list
    parser ([SplitIntoSingleFamily]), the variant registration ([NewFont]),
    the tiered selection ([SelectFontWithFamilyFallback],
    [SelectAndLoadFace]), the registration of families ([AppendFamily],
    [NewFamily], [InitDefaultList]), the static map of the platforms without
    a font service ([StaticMap_GetFamily], [MakeFilePath]) and the release of
    the lists ([FreeFamilies], [FreeFamiliesAndFonts]).

    Conventions of the embedding.
    - A C [int] is a [Z]; where the C code multiplies, the 32-bit
      wrap-around is written out with [int_wrap], and [/] is the truncating
      [Z.quot].  [atoi] is [(int) strtol]: the number read saturates at the
      bounds of [long] and its low 32 bits are kept.  The arithmetic on the
      [float] of a relative size is a parameter.
    - [vlc_font_t] and [vlc_family_t] records live in two stores of the
      state, addressed by pointers.  A chain of [p_next] links is the list of
      the pointers on it, which are distinct, [NULL] being the empty list.  A
      font record has one link, so the lists of two families that hold the
      same record go on alike after it; a family that takes over the chain
      of another holds the same list.  [AppendFont] writes the link of the
      last record of the chain: the font it appends is appended to the list
      of every family whose chain ends in that record.  A font put in front
      of a chain is in front for its parent only.  The face of a font
      ([p_face]) and the font list of a family ([p_fonts]) are written
      through the pointer, so every holder of the pointer sees the update.
    - [vlc_dictionary_t] is a [gmap] with string keys.
    - The callbacks [pf_get_family] and [pf_get_fallbacks] of the platform are
      fields of the state, as in [filter_sys_t]; they look families up and
      write nothing.
    - The FreeType library is a record of oracles over the source a face was
      opened from; handles are fresh addresses, and the messages and the
      calls of the engine a run makes are appended to a log kept in the
      state.
    - Memory allocation ([calloc], [strdup], [asprintf]) does not fail.
    - The functions that register and free families walk and write the
      [p_next] links of the families themselves.  For them the state is
      extended ([family_sys_t]) with the map of these links, the list of all
      families, the dictionary of families and the counter of the families
      without a name; a chain is then what the links say, and need not end.
      A call of these functions returns, or follows a chain without end,
      or, when it frees, comes to a record that is not in the store any more
      ([result]).  The walks take a bound on their steps; [AppendFamily]
      sets it beyond the number of links there are, which a chain that ends
      cannot exceed.  The chains of fonts stay lists, and a fallback list
      filed in the state is the list of the records of its chain when it is
      filed.  The counter of the names is incremented with the wrap-around
      of [int_wrap]. *)

From Stdlib Require Import ZArith Lia Ascii String List Bool.
From stdpp Require Import base gmap strings pretty list.

Open Scope Z_scope.

(** ** Machine integers *)

(** Two's complement value of [z] in a 32-bit [int]. *)
Definition int_wrap (z : Z) : Z := (z + 2 ^ 31) mod 2 ^ 32 - 2 ^ 31.

(** Conversion of an [int] to [FT_UInt] (unsigned, 32 bits). *)
Definition to_uint (z : Z) : Z := z mod 2 ^ 32.

(** The range of [int]. *)
Definition int_range (z : Z) : Prop := - 2 ^ 31 <= z < 2 ^ 31.

(** ** What the file takes from headers that are not part of it *)

(** Macros of [vlc_text_style.h] and [platform_fonts.h], the [float] type of
    [f_font_relsize] and the build flag [_WIN32].  They are parameters of the
    development.  [float_nonzero f] is the truth value of [f] in a
    condition, and [relsize_pixels h f] the [int] obtained from
    [(int) h * f / 100]. *)
Class Headers := {
  c_float : Type;
  float_nonzero : c_float → bool;
  relsize_pixels : Z → c_float → Z;
  STYLE_DEFAULT_FONT_SIZE : Z;
  STYLE_BOLD : Z;
  STYLE_ITALIC : Z;
  STYLE_HALFWIDTH : Z;
  STYLE_MONOSPACED : Z;
  STYLE_DOUBLEWIDTH : Z;
  FB_LIST_ATTACHMENTS : string;
  FB_LIST_DEFAULT : string;
  DEFAULT_FAMILY : string;
  WIN32 : bool
}.

(** Where a face was opened from: a file ([FT_New_Face]), the bytes of an
    attachment ([FT_New_Memory_Face]) or a platform stream ([FT_Open_Face]). *)
Inductive ft_source :=
  | FromFile (path : string)
  | FromMemory (data : list Byte.byte)
  | FromStream (i_index : Z).

(** The font engine.  Every function returns an [FT_Error] (0 on success),
    [FT_Get_Char_Index] a glyph index (0 when the face has no glyph).  What a
    face answers depends on the source and face index it was opened with. *)
Class FreeType := {
  FT_Open : ft_source → Z → Z;
  FT_Select_Charmap_unicode : ft_source → Z → Z;
  FT_Set_Pixel_Sizes_err : ft_source → Z → Z → Z → Z;
  FT_Char_Index : ft_source → Z → Z → Z;
  DWrite_GetFontStream : Z → bool
}.

(** ** Data model *)

Abbreviation FT_Face := positive (only parsing).
Abbreviation font_ptr := positive (only parsing).
Abbreviation family_ptr := positive (only parsing).
Abbreviation uni_char_t := Z (only parsing).

(** [FT_FaceRec]: the part of an opened face the file depends on. *)
Record FT_FaceRec := {
  face_source : ft_source;
  face_index : Z;
  face_pixel_width : Z;
  face_pixel_height : Z
}.

Record vlc_font_t := {
  psz_fontfile : string;
  i_index : Z;
  b_bold : bool;
  b_italic : bool;
  p_face : option FT_Face
}.

Record vlc_family_t := {
  psz_name : string;
  p_fonts : list font_ptr
}.

(** What a run leaves behind: messages and calls of the font engine, the
    newest first. *)
Inductive event :=
  | EvErr (msg : string)
  | EvWarn (msg : string)
  | EvOpen (src : ft_source) (idx : Z)
  | EvDone (face : FT_Face).

Section PlatformFonts.

Context {hdr : Headers} {ft : FreeType}.

Record text_style_t := {
  psz_fontname : option string;
  psz_monofontname : option string;
  i_style_flags : Z;
  i_font_size : Z;
  f_font_relsize : c_float
}.

(** The style [p_style] with its absolute size replaced. *)
Definition with_size (p_style : text_style_t) (size : Z) : text_style_t :=
  {| psz_fontname := psz_fontname p_style;
     psz_monofontname := psz_monofontname p_style;
     i_style_flags := i_style_flags p_style;
     i_font_size := size;
     f_font_relsize := f_font_relsize p_style |}.

(** [filter_sys_t], with the output height of the filter, the two stores and
    the state of the font engine.  The first six fields are configuration and
    are never written by this file. *)
Record filter_sys_t := {
  fmt_out_video_i_height : Z;
  i_scale : Z;
  p_default_style : text_style_t;
  pp_font_attachments : list (list Byte.byte);
  pf_get_family : string → option family_ptr;
  pf_get_fallbacks : option (string → uni_char_t → list family_ptr);
  face_map : gmap string FT_Face;
  fallback_map : gmap string (list family_ptr);
  font_store : gmap font_ptr vlc_font_t;
  family_store : gmap family_ptr vlc_family_t;
  ft_faces : gmap FT_Face FT_FaceRec;
  ft_next : FT_Face;
  sys_log : list event
}.

Definition set_face_map (m : gmap string FT_Face) (s : filter_sys_t) : filter_sys_t :=
  {| fmt_out_video_i_height := fmt_out_video_i_height s; i_scale := i_scale s;
     p_default_style := p_default_style s;
     pp_font_attachments := pp_font_attachments s;
     pf_get_family := pf_get_family s; pf_get_fallbacks := pf_get_fallbacks s;
     face_map := m; fallback_map := fallback_map s;
     font_store := font_store s; family_store := family_store s;
     ft_faces := ft_faces s; ft_next := ft_next s; sys_log := sys_log s |}.

Definition set_font_store (m : gmap font_ptr vlc_font_t) (s : filter_sys_t) : filter_sys_t :=
  {| fmt_out_video_i_height := fmt_out_video_i_height s; i_scale := i_scale s;
     p_default_style := p_default_style s;
     pp_font_attachments := pp_font_attachments s;
     pf_get_family := pf_get_family s; pf_get_fallbacks := pf_get_fallbacks s;
     face_map := face_map s; fallback_map := fallback_map s;
     font_store := m; family_store := family_store s;
     ft_faces := ft_faces s; ft_next := ft_next s; sys_log := sys_log s |}.

Definition set_family_store (m : gmap family_ptr vlc_family_t) (s : filter_sys_t) : filter_sys_t :=
  {| fmt_out_video_i_height := fmt_out_video_i_height s; i_scale := i_scale s;
     p_default_style := p_default_style s;
     pp_font_attachments := pp_font_attachments s;
     pf_get_family := pf_get_family s; pf_get_fallbacks := pf_get_fallbacks s;
     face_map := face_map s; fallback_map := fallback_map s;
     font_store := font_store s; family_store := m;
     ft_faces := ft_faces s; ft_next := ft_next s; sys_log := sys_log s |}.

Definition set_ft (faces : gmap FT_Face FT_FaceRec) (next : FT_Face) (s : filter_sys_t) : filter_sys_t :=
  {| fmt_out_video_i_height := fmt_out_video_i_height s; i_scale := i_scale s;
     p_default_style := p_default_style s;
     pp_font_attachments := pp_font_attachments s;
     pf_get_family := pf_get_family s; pf_get_fallbacks := pf_get_fallbacks s;
     face_map := face_map s; fallback_map := fallback_map s;
     font_store := font_store s; family_store := family_store s;
     ft_faces := faces; ft_next := next; sys_log := sys_log s |}.

Definition log_event (e : event) (s : filter_sys_t) : filter_sys_t :=
  {| fmt_out_video_i_height := fmt_out_video_i_height s; i_scale := i_scale s;
     p_default_style := p_default_style s;
     pp_font_attachments := pp_font_attachments s;
     pf_get_family := pf_get_family s; pf_get_fallbacks := pf_get_fallbacks s;
     face_map := face_map s; fallback_map := fallback_map s;
     font_store := font_store s; family_store := family_store s;
     ft_faces := ft_faces s; ft_next := ft_next s; sys_log := e :: sys_log s |}.

Definition msg_Err (msg : string) : filter_sys_t → filter_sys_t := log_event (EvErr msg).
Definition msg_Warn (msg : string) : filter_sys_t → filter_sys_t := log_event (EvWarn msg).

(** [flags & mask] as a condition. *)
Definition has_flag (flags mask : Z) : bool := negb (Z.land flags mask =? 0).

(** ** Face loading *)

(** [ConvertToLiveSize]: the size in pixels a style asks for. *)
Definition ConvertToLiveSize (p_sys : filter_sys_t) (p_style : text_style_t) : Z :=
  let i_size :=
    if negb (i_font_size p_style =? 0) then i_font_size p_style
    else if float_nonzero (f_font_relsize p_style)
    then relsize_pixels (fmt_out_video_i_height p_sys) (f_font_relsize p_style)
    else STYLE_DEFAULT_FONT_SIZE in
  if negb (i_scale p_sys =? 100)
  then Z.quot (int_wrap (i_size * i_scale p_sys)) 100
  else i_size.

(** The width that goes with a size: halved or doubled by the style. *)
Definition live_width (p_style : text_style_t) (i_size : Z) : Z :=
  if has_flag (i_style_flags p_style) STYLE_HALFWIDTH then Z.quot i_size 2
  else if has_flag (i_style_flags p_style) STYLE_DOUBLEWIDTH then int_wrap (i_size * 2)
  else i_size.

(** The key of the face cache, [asprintf] with the format
    [%s - %d - %d - %d]. *)
Definition face_key (psz_fontfile : string) (i_idx i_size i_width : Z) : string :=
  psz_fontfile +:+ " - " +:+ pretty i_idx +:+ " - " +:+ pretty i_size
               +:+ " - " +:+ pretty i_width.

(** [atoi], as the C library computes it: [(int) strtol( s, NULL, 10 )].
    [strtol] reads blanks, an optional sign, then decimal digits, and stays
    within the range of [long]: 64 bits, and 32 bits on Windows.  The
    conversion to [int] keeps the low 32 bits, so that a number as large as
    [2 ^ 32] reads as [0]. *)
Fixpoint skip_spaces (s : string) : string :=
  match s with
  | String c s' => if Ascii.is_space c then skip_spaces s' else s
  | EmptyString => s
  end.

Fixpoint atoi_digits (acc : Z) (s : string) : Z :=
  match s with
  | String c s' =>
      match Ascii.is_nat c with
      | Some d => atoi_digits (10 * acc + Z.of_nat d) s'
      | None => acc
      end
  | EmptyString => acc
  end.

Definition LONG_MAX : Z := if WIN32 then 2 ^ 31 - 1 else 2 ^ 63 - 1.
Definition LONG_MIN : Z := - LONG_MAX - 1.

Definition strtol (s : string) : Z :=
  let n :=
    match skip_spaces s with
    | String "-" s' => - atoi_digits 0 s'
    | String "+" s' => atoi_digits 0 s'
    | s' => atoi_digits 0 s'
    end in
  Z.max LONG_MIN (Z.min LONG_MAX n).

Definition atoi (s : string) : Z := int_wrap (strtol s).

(** *** The font engine on handles *)

Definition FT_Err_Invalid_Face_Handle : Z := 35.

(** A call that opens a face: logged, and on success a fresh handle. *)
Definition ft_open (src : ft_source) (i_idx : Z) (s : filter_sys_t)
  : option FT_Face * filter_sys_t :=
  let s := log_event (EvOpen src i_idx) s in
  if FT_Open src i_idx =? 0 then
    let h := ft_next s in
    let rec := {| face_source := src; face_index := i_idx;
                  face_pixel_width := 0; face_pixel_height := 0 |} in
    (Some h, set_ft (<[h := rec]> (ft_faces s)) (Pos.succ h) s)
  else (None, s).

Definition FT_New_Face (path : string) := ft_open (FromFile path).
Definition FT_New_Memory_Face (data : list Byte.byte) := ft_open (FromMemory data).
Definition FT_Open_Face (i_index : Z) := ft_open (FromStream i_index).

Definition FT_Done_Face (h : FT_Face) (s : filter_sys_t) : filter_sys_t :=
  log_event (EvDone h) (set_ft (delete h (ft_faces s)) (ft_next s) s).

Definition FT_Select_Charmap (h : FT_Face) (s : filter_sys_t) : Z :=
  match ft_faces s !! h with
  | Some r => FT_Select_Charmap_unicode (face_source r) (face_index r)
  | None => FT_Err_Invalid_Face_Handle
  end.

Definition FT_Set_Pixel_Sizes (h : FT_Face) (width height : Z) (s : filter_sys_t)
  : Z * filter_sys_t :=
  match ft_faces s !! h with
  | Some r =>
      let err := FT_Set_Pixel_Sizes_err (face_source r) (face_index r)
                   (to_uint width) (to_uint height) in
      if err =? 0 then
        let r' := {| face_source := face_source r; face_index := face_index r;
                     face_pixel_width := to_uint width;
                     face_pixel_height := to_uint height |} in
        (err, set_ft (<[h := r']> (ft_faces s)) (ft_next s) s)
      else (err, s)
  | None => (FT_Err_Invalid_Face_Handle, s)
  end.

Definition FT_Get_Char_Index (h : FT_Face) (codepoint : uni_char_t) (s : filter_sys_t) : Z :=
  match ft_faces s !! h with
  | Some r => FT_Char_Index (face_source r) (face_index r) codepoint
  | None => 0
  end.

(** *** [LoadFace] *)

(** [psz + n]: the string past its first [n] characters. *)
Fixpoint string_drop (n : nat) (psz : string) : string :=
  match n, psz with
  | S n', String _ rest => string_drop n' rest
  | _, _ => psz
  end.

(** What follows a failed call of the engine in [LoadFace]. *)
Definition creating (psz_key : string) (r : option FT_Face * filter_sys_t)
  : option FT_Face * filter_sys_t :=
  match r with
  | (None, s) => (None, msg_Err ("LoadFace: Error creating face for " +:+ psz_key) s)
  | (Some p_face, s) => (Some p_face, s)
  end.

(** The part of [LoadFace] that opens the source on a cache miss: an
    attachment for a name that starts with [:/], a platform stream for
    [:dw/] on Windows, a file otherwise. *)
Definition open_face (psz_fontfile : string) (i_idx : Z) (psz_key : string)
    (s : filter_sys_t) : option FT_Face * filter_sys_t :=
  if String.prefix ":/" psz_fontfile then
    let i_attach := atoi (string_drop 2 psz_fontfile) in
    if (i_attach <? 0) || (Z.of_nat (length (pp_font_attachments s)) <=? i_attach)
    then (None, msg_Err "LoadFace: Invalid font attachment index" s)
    else
      match pp_font_attachments s !! Z.to_nat i_attach with
      | Some p_attach => creating psz_key (FT_New_Memory_Face p_attach i_idx s)
      | None => (None, msg_Err "LoadFace: Invalid font attachment index" s)
      end
  else if WIN32 && String.prefix ":dw/" psz_fontfile then
    let i_index := atoi (string_drop 4 psz_fontfile) in
    if DWrite_GetFontStream i_index
    then creating psz_key (FT_Open_Face i_index i_idx s)
    else (None, msg_Err "LoadFace: Invalid font stream index" s)
  else creating psz_key (FT_New_Face psz_fontfile i_idx s).

Definition LoadFace (psz_fontfile : string) (i_idx : Z) (p_style : text_style_t)
    (p_sys : filter_sys_t) : option FT_Face * filter_sys_t :=
  let i_size := ConvertToLiveSize p_sys p_style in
  let i_width := live_width p_style i_size in
  let psz_key := face_key psz_fontfile i_idx i_size i_width in
  match face_map p_sys !! psz_key with
  | Some p_face => (Some p_face, p_sys)
  | None =>
      match open_face psz_fontfile i_idx psz_key p_sys with
      | (None, s1) => (None, s1)
      | (Some p_face, s1) =>
          if negb (FT_Select_Charmap p_face s1 =? 0) then
            (None, FT_Done_Face p_face
                     (msg_Err ("LoadFace: Error selecting charmap for " +:+ psz_key) s1))
          else
            match FT_Set_Pixel_Sizes p_face i_width i_size s1 with
            | (err, s2) =>
                if negb (err =? 0) then
                  (None, FT_Done_Face p_face
                           (msg_Err ("LoadFace: Failed to set font size for " +:+ psz_key) s2))
                else (Some p_face, set_face_map (<[psz_key := p_face]> (face_map s2)) s2)
            end
      end
  end.

(** *** [GetFace] *)

Definition set_p_face (p_font : font_ptr) (f : vlc_font_t) (face : option FT_Face)
    (s : filter_sys_t) : filter_sys_t :=
  set_font_store
    (<[p_font := {| psz_fontfile := psz_fontfile f; i_index := i_index f;
                    b_bold := b_bold f; b_italic := b_italic f;
                    p_face := face |}]> (font_store s)) s.

(** The face of a font, loaded at the default style on first use, if it has
    a glyph for the codepoint.  A pointer outside the store does not occur in
    the states the file builds; it yields no face. *)
Definition GetFace (p_font : font_ptr) (codepoint : uni_char_t) (p_sys : filter_sys_t)
  : option FT_Face * filter_sys_t :=
  match font_store p_sys !! p_font with
  | None => (None, p_sys)
  | Some f =>
      let '(face, s1) :=
        match p_face f with
        | Some h => (Some h, p_sys)
        | None =>
            let '(r, s1) := LoadFace (psz_fontfile f) (i_index f)
                              (p_default_style p_sys) p_sys in
            (r, set_p_face p_font f r s1)
        end in
      match face with
      | Some h =>
          if negb (FT_Get_Char_Index h codepoint s1 =? 0) then (Some h, s1)
          else (None, s1)
      | None => (None, s1)
      end
  end.

(** ** Families and their variants *)

(** [p_family->p_fonts], read through the pointer. *)
Definition family_fonts (p_family : family_ptr) (s : filter_sys_t) : list font_ptr :=
  match family_store s !! p_family with
  | Some fam => p_fonts fam
  | None => []
  end.

Definition set_p_fonts (p_family : family_ptr) (fam : vlc_family_t)
    (fonts : list font_ptr) (s : filter_sys_t) : filter_sys_t :=
  set_family_store
    (<[p_family := {| psz_name := psz_name fam; p_fonts := fonts |}]> (family_store s)) s.

(** *** [GetBestFont] *)

(** The body of the loop of [GetBestFont] for one variant: its score. *)
Definition font_score (p_font : font_ptr) (bold italic : bool)
    (codepoint : uni_char_t) (s : filter_sys_t) : Z * filter_sys_t :=
  let '(covers, s1) :=
    if negb (codepoint =? 0) then
      match GetFace p_font codepoint s with
      | (Some _, s1) => (true, s1)
      | (None, s1) => (false, s1)
      end
    else (false, s) in
  let i_score := if covers then 1000 else 0 in
  match font_store s1 !! p_font with
  | Some f =>
      let i_score := if eqb (b_bold f) bold then i_score + 100 else i_score in
      let i_score := if eqb (b_italic f) italic then i_score + 10 else i_score in
      (i_score, s1)
  | None => (i_score, s1)
  end.

Fixpoint GetBestFont_loop (fonts : list font_ptr) (bold italic : bool)
    (codepoint : uni_char_t) (p_best_font : option font_ptr) (i_best_score : Z)
    (s : filter_sys_t) : option font_ptr * filter_sys_t :=
  match fonts with
  | [] => (p_best_font, s)
  | p_font :: rest =>
      let '(i_score, s1) := font_score p_font bold italic codepoint s in
      if i_best_score <? i_score
      then GetBestFont_loop rest bold italic codepoint (Some p_font) i_score s1
      else GetBestFont_loop rest bold italic codepoint p_best_font i_best_score s1
  end.

Definition GetBestFont (p_family : family_ptr) (bold italic : bool)
    (codepoint : uni_char_t) (s : filter_sys_t) : option font_ptr * filter_sys_t :=
  let fonts := family_fonts p_family s in
  GetBestFont_loop fonts bold italic codepoint (head fonts) 0 s.

(** *** [SearchFallbacks] *)

(** The body of the loop of [SearchFallbacks] for one entry of the list:
    [true] when the entry is the answer, [false] where the C code says
    [continue]. *)
Definition probe_fallback (p_fallback : family_ptr) (codepoint : uni_char_t)
    (s : filter_sys_t) : bool * filter_sys_t :=
  match family_store s !! p_fallback with
  | None => (false, s)
  | Some fam =>
      let populated :=
        match p_fonts fam with
        | [] =>
            match pf_get_family s (psz_name fam) with
            | None => None
            | Some p_temp =>
                match family_fonts p_temp s with
                | [] => None
                | fonts => Some (fonts, set_p_fonts p_fallback fam fonts s)
                end
            end
        | fonts => Some (fonts, s)
        end in
      match populated with
      | Some (p_font :: _, s1) =>
          match GetFace p_font codepoint s1 with
          | (Some _, s2) => (true, s2)
          | (None, s2) => (false, s2)
          end
      | Some ([], s1) => (false, s1)
      | None => (false, s)
      end
  end.

Fixpoint SearchFallbacks (p_fallbacks : list family_ptr) (codepoint : uni_char_t)
    (s : filter_sys_t) : option family_ptr * filter_sys_t :=
  match p_fallbacks with
  | [] => (None, s)
  | p_fallback :: rest =>
      match probe_fallback p_fallback codepoint s with
      | (true, s1) => (Some p_fallback, s1)
      | (false, s1) => SearchFallbacks rest codepoint s1
      end
  end.

(** *** [SearchFontByFamilyName] *)

Definition tolower (c : ascii) : ascii :=
  let n := nat_of_ascii c in
  if ((65 <=? n) && (n <=? 90))%nat then ascii_of_nat (n + 32) else c.

Fixpoint ToLower (psz_src : string) : string :=
  match psz_src with
  | String c rest => String (tolower c) (ToLower rest)
  | EmptyString => EmptyString
  end.

(** [!strcasecmp( a, b )]. *)
Definition strcasecmp_eq (a b : string) : bool := String.eqb (ToLower a) (ToLower b).

Fixpoint SearchFontByFamilyName (p_list : list family_ptr) (psz_familyname : string)
    (codepoint : uni_char_t) (s : filter_sys_t) : option family_ptr * filter_sys_t :=
  match p_list with
  | [] => (None, s)
  | p :: rest =>
      match family_store s !! p with
      | Some fam =>
          if strcasecmp_eq (psz_name fam) psz_familyname then
            match p_fonts fam with
            | p_font :: _ =>
                match GetFace p_font codepoint s with
                | (Some _, s1) => (Some p, s1)
                | (None, s1) => SearchFontByFamilyName rest psz_familyname codepoint s1
                end
            | [] => SearchFontByFamilyName rest psz_familyname codepoint s
            end
          else SearchFontByFamilyName rest psz_familyname codepoint s
      | None => SearchFontByFamilyName rest psz_familyname codepoint s
      end
  end.

(** *** [NewFont] *)

(** [AppendFont] on the chain of the family [p_parent]: the loop follows
    the links to the one that is [NULL] and writes the font there.  For a
    family without fonts that link is its own [p_fonts].  Otherwise it is
    the [p_next] of the last record of the chain, and from then on the font
    is behind that record for every family whose chain ends there: a family
    that has taken the chain over, as [SearchFallbacks] and
    [InitDefaultList] make families do, sees the font as the parent does. *)
Definition AppendFont (p_parent : family_ptr) (fam : vlc_family_t)
    (p_font : font_ptr) (s : filter_sys_t) : filter_sys_t :=
  match last (p_fonts fam) with
  | None => set_p_fonts p_parent fam [p_font] s
  | Some p_last =>
      set_family_store
        ((λ other,
            if decide (last (p_fonts other) = Some p_last)
            then {| psz_name := psz_name other;
                    p_fonts := p_fonts other ++ [p_font] |}
            else other) <$> family_store s) s
  end.

(** Is the first variant of the list a bold or an italic one? *)
Definition first_is_styled (fonts : list font_ptr) (s : filter_sys_t) : bool :=
  match fonts with
  | p_first :: _ =>
      match font_store s !! p_first with
      | Some f => b_bold f || b_italic f
      | None => false
      end
  | [] => false
  end.

Definition NewFont (psz_file : string) (i_idx : Z) (bold italic : bool)
    (p_parent : option family_ptr) (s : filter_sys_t) : font_ptr * filter_sys_t :=
  let p_font := fresh (dom (font_store s)) in
  let font := {| psz_fontfile := psz_file; i_index := i_idx; b_bold := bold;
                 b_italic := italic; p_face := None |} in
  let s1 := set_font_store (<[p_font := font]> (font_store s)) s in
  match p_parent with
  | Some p =>
      match family_store s1 !! p with
      | Some fam =>
          (* Keep regular faces first *)
          if first_is_styled (p_fonts fam) s1 && negb bold && negb italic
          then (p_font, set_p_fonts p fam (p_font :: p_fonts fam) s1)
          else (p_font, AppendFont p fam p_font s1)
      | None => (p_font, s1)
      end
  | None => (p_font, s1)
  end.

(** ** The family list parser *)

Definition dquote : ascii := "034"%char.

Definition is_blank (c : ascii) : bool := (c =? " ")%char || (c =? "009")%char.

(** The first loop of [TrimWhiteSpace] moves the start forward. *)
Fixpoint trim_start (s : string) : string :=
  match s with
  | String c rest => if is_blank c then trim_start rest else s
  | EmptyString => EmptyString
  end.

(** The second loop moves the end backward, down to the start. *)
Fixpoint trim_end (s : string) : string :=
  match s with
  | String c rest =>
      match trim_end rest with
      | EmptyString => if is_blank c then EmptyString else String c EmptyString
      | r => String c r
      end
  | EmptyString => EmptyString
  end.

Definition TrimWhiteSpace (tok : string) : string := trim_end (trim_start tok).

Fixpoint last_char (s : string) : option ascii :=
  match s with
  | String c EmptyString => Some c
  | String _ rest => last_char rest
  | EmptyString => None
  end.

Fixpoint drop_last (s : string) : string :=
  match s with
  | String c EmptyString => EmptyString
  | String c rest => String c (drop_last rest)
  | EmptyString => EmptyString
  end.

(** The unquoting step of [AddSingleFamily] on the token between
    [psz_start] and [psz_end]: it tests the first and the last character and
    then moves both pointers.  On a token of one character the two tests read
    the same character and the pointers cross, which leaves an empty token. *)
Definition basic_unquote (t : string) : string :=
  match t with
  | String c rest =>
      if (c =? dquote)%char && bool_decide (last_char t = Some dquote)
      then drop_last rest else t
  | EmptyString => t
  end.

Definition AddSingleFamily (tok : string) (families : list string) : list string :=
  match basic_unquote (TrimWhiteSpace tok) with
  | EmptyString => families
  | t => families ++ [t]
  end.

Definition is_delim (c : ascii) : bool := (c =? ",")%char.

Fixpoint skip_delims (s : string) : string :=
  match s with
  | String c rest => if is_delim c then skip_delims rest else s
  | EmptyString => EmptyString
  end.

(** The token at the head of [s] and what follows its delimiter. *)
Fixpoint take_token (s : string) : string * string :=
  match s with
  | String c rest =>
      if is_delim c then (EmptyString, rest)
      else let '(tok, rest') := take_token rest in (String c tok, rest')
  | EmptyString => (EmptyString, EmptyString)
  end.

(** [strtok_r] with the delimiter [,]: the next token and the saved rest,
    or nothing when only delimiters are left. *)
Definition strtok_r (s : string) : option (string * string) :=
  match skip_delims s with
  | EmptyString => None
  | s' => Some (take_token s')
  end.

(** The loop of [SplitIntoSingleFamily]; [fuel] bounds its iterations. *)
Fixpoint split_loop (fuel : nat) (rest : string) (families : list string) : list string :=
  match fuel with
  | O => families
  | S fuel' =>
      match strtok_r rest with
      | None => families
      | Some (psz, rest') => split_loop fuel' rest' (AddSingleFamily psz families)
      end
  end.

Definition SplitIntoSingleFamily (psz_spec : option string) (families : list string)
  : list string :=
  match psz_spec with
  | None => families
  | Some spec => split_loop (S (String.length spec)) spec families
  end.

(** ** The tiered selection *)

(** [vlc_dictionary_value_for_key] on a dictionary of family lists. *)
Definition fallback_list (psz_key : string) (s : filter_sys_t) : list family_ptr :=
  default [] (fallback_map s !! psz_key).

(** First loop of [SelectFontWithFamilyFallback]: for each requested name,
    the attachment of that name, then the family the platform resolves. *)
Fixpoint select_same_family (families : list string) (codepoint : uni_char_t)
    (s : filter_sys_t) : option family_ptr * filter_sys_t :=
  match families with
  | [] => (None, s)
  | psz_name :: rest =>
      let '(p_family, s1) :=
        match fallback_list FB_LIST_ATTACHMENTS s with
        | [] => (None, s)
        | p_fallbacks => SearchFontByFamilyName p_fallbacks psz_name codepoint s
        end in
      match p_family with
      | Some p => (Some p, s1)
      | None =>
          match pf_get_family s1 psz_name with
          | Some p =>
              match family_fonts p s1 with
              | p_font :: _ =>
                  match GetFace p_font codepoint s1 with
                  | (Some _, s2) => (Some p, s2)
                  | (None, s2) => select_same_family rest codepoint s2
                  end
              | [] => select_same_family rest codepoint s1
              end
          | None => select_same_family rest codepoint s1
          end
      end
  end.

(** Second step: the whole attachment list. *)
Definition select_attachments (codepoint : uni_char_t) (s : filter_sys_t)
  : option family_ptr * filter_sys_t :=
  match fallback_list FB_LIST_ATTACHMENTS s with
  | [] => (None, s)
  | p_fallbacks => SearchFallbacks p_fallbacks codepoint s
  end.

(** Third step: the fallbacks of the platform, name by name. *)
Fixpoint select_system_fallbacks (get : string → uni_char_t → list family_ptr)
    (families : list string) (codepoint : uni_char_t) (s : filter_sys_t)
  : option family_ptr * filter_sys_t :=
  match families with
  | [] => (None, s)
  | psz_name :: rest =>
      match get psz_name codepoint with
      | [] => select_system_fallbacks get rest codepoint s
      | p_fallbacks =>
          match SearchFallbacks p_fallbacks codepoint s with
          | (Some p, s1) =>
              match family_fonts p s1 with
              | [] => select_system_fallbacks get rest codepoint s1
              | _ => (Some p, s1)
              end
          | (None, s1) => select_system_fallbacks get rest codepoint s1
          end
      end
  end.

(** Fourth step: the default fallback list. *)
Definition select_default_list (codepoint : uni_char_t) (s : filter_sys_t)
  : option family_ptr * filter_sys_t :=
  match fallback_list FB_LIST_DEFAULT s with
  | [] => (None, s)
  | p_fallbacks => SearchFallbacks p_fallbacks codepoint s
  end.

(** The block under [if( codepoint )]: each step runs only while
    [p_family] is still [NULL]. *)
Definition select_by_codepoint (families : list string) (codepoint : uni_char_t)
    (s : filter_sys_t) : option family_ptr * filter_sys_t :=
  let '(p_family, s1) := select_same_family families codepoint s in
  let '(p_family, s2) :=
    match p_family with
    | None => select_attachments codepoint s1
    | Some _ => (p_family, s1)
    end in
  let '(p_family, s3) :=
    match p_family, pf_get_fallbacks s2 with
    | None, Some get => select_system_fallbacks get families codepoint s2
    | _, _ => (p_family, s2)
    end in
  match p_family with
  | None => select_default_list codepoint s3
  | Some _ => (p_family, s3)
  end.

(** The end of [SelectFontWithFamilyFallback]: the default family where no
    family with fonts is at hand, then the best variant of the family. *)
Definition select_in_family (p_family : option family_ptr) (bold italic : bool)
    (codepoint : uni_char_t) (s : filter_sys_t) : option (string * Z) * filter_sys_t :=
  let p_family :=
    match p_family with
    | Some p =>
        match family_fonts p s with
        | [] => pf_get_family s DEFAULT_FAMILY
        | _ => Some p
        end
    | None => pf_get_family s DEFAULT_FAMILY
    end in
  match p_family with
  | Some p =>
      match GetBestFont p bold italic codepoint s with
      | (Some p_font, s1) =>
          match font_store s1 !! p_font with
          | Some f => (Some (psz_fontfile f, i_index f), s1)
          | None => (None, s1)
          end
      | (None, s1) => (None, s1)
      end
  | None => (None, s)
  end.

(** The result is the file of the chosen variant and, for [*pi_idx], its
    face index. *)
Definition SelectFontWithFamilyFallback (families : list string)
    (p_style : text_style_t) (codepoint : uni_char_t) (s : filter_sys_t)
  : option (string * Z) * filter_sys_t :=
  let bold := has_flag (i_style_flags p_style) STYLE_BOLD in
  let italic := has_flag (i_style_flags p_style) STYLE_ITALIC in
  if negb (codepoint =? 0) then
    match select_by_codepoint families codepoint s with
    | (None, s1) => (None, s1)
    | (Some p, s1) => select_in_family (Some p) bold italic codepoint s1
    end
  else select_in_family None bold italic codepoint s.

(** [SelectAndLoadFace]; the warning is logged without its arguments. *)
Definition SelectAndLoadFace (p_style : text_style_t) (codepoint : uni_char_t)
    (s : filter_sys_t) : option FT_Face * filter_sys_t :=
  let psz_name :=
    if has_flag (i_style_flags p_style) STYLE_MONOSPACED
    then psz_monofontname p_style else psz_fontname p_style in
  match SplitIntoSingleFamily psz_name [] with
  | [] => (None, s)
  | families =>
      match SelectFontWithFamilyFallback families p_style codepoint s with
      | (Some (String c file, i_idx), s1) => LoadFace (String c file) i_idx p_style s1
      | (_, s1) => (None, msg_Warn "SelectAndLoadFace: no font found" s1)
      end
  end.

End PlatformFonts.

(** * The parser as the specification words it

    Split on commas; trim spaces and tabs at both ends of every token; strip
    the quotes of a token wrapped in a pair of double quotes; drop the tokens
    that are empty by then. *)
Module FamilySpec.

Fixpoint split_on_commas (s : string) : list string :=
  match s with
  | String c rest =>
      if is_delim c then EmptyString :: split_on_commas rest
      else
        match split_on_commas rest with
        | tok :: toks => String c tok :: toks
        | [] => [String c EmptyString]
        end
  | EmptyString => [EmptyString]
  end.

(** A token is wrapped in a pair of quotes when an opening quote is
    followed by a rest that ends in a closing quote. *)
Definition unquote (tok : string) : string :=
  match tok with
  | String c rest =>
      if (c =? dquote)%char && bool_decide (last_char rest = Some dquote)
      then drop_last rest else tok
  | EmptyString => tok
  end.

Definition parse (spec : string) : list string :=
  filter (λ tok, tok ≠ EmptyString)
    (map (λ tok, unquote (TrimWhiteSpace tok)) (split_on_commas spec)).

End FamilySpec.

(** The string that is one double quote. *)
Definition lone_quote : string := String dquote EmptyString.

(** * Predicates on states *)

Section Predicates.

Context {hdr : Headers} {ft : FreeType}.

(** The source [LoadFace] opens for a file name, if the name denotes one. *)
Definition source_of (s : filter_sys_t) (psz_fontfile : string) : option ft_source :=
  if String.prefix ":/" psz_fontfile then
    let i_attach := atoi (string_drop 2 psz_fontfile) in
    if (i_attach <? 0) || (Z.of_nat (length (pp_font_attachments s)) <=? i_attach)
    then None
    else FromMemory <$> pp_font_attachments s !! Z.to_nat i_attach
  else if WIN32 && String.prefix ":dw/" psz_fontfile then
    let i_index := atoi (string_drop 4 psz_fontfile) in
    if DWrite_GetFontStream i_index then Some (FromStream i_index) else None
  else Some (FromFile psz_fontfile).

(** The engine opens the face, selects its Unicode charmap and accepts the
    pixel sizes. *)
Definition source_opens (src : ft_source) (idx width size : Z) : bool :=
  (FT_Open src idx =? 0)
  && (FT_Select_Charmap_unicode src idx =? 0)
  && (FT_Set_Pixel_Sizes_err src idx (to_uint width) (to_uint size) =? 0).

Definition face_opens (s : filter_sys_t) (psz_fontfile : string)
    (idx width size : Z) : bool :=
  match source_of s psz_fontfile with
  | Some src => source_opens src idx width size
  | None => false
  end.

(** The record of a face loaded for a key. *)
Definition loaded_face (src : ft_source) (idx width size : Z) : FT_FaceRec :=
  {| face_source := src; face_index := idx;
     face_pixel_width := to_uint width; face_pixel_height := to_uint size |}.

(** The size and width [GetFace] loads faces at. *)
Definition default_size (s : filter_sys_t) : Z :=
  ConvertToLiveSize s (p_default_style s).
Definition default_width (s : filter_sys_t) : Z :=
  live_width (p_default_style s) (default_size s).

(** The face of the font can be loaded at the default style and has a glyph
    for the codepoint. *)
Definition font_covers (s : filter_sys_t) (f : vlc_font_t) (codepoint : uni_char_t)
  : bool :=
  match source_of s (psz_fontfile f) with
  | Some src =>
      source_opens src (i_index f) (default_width s) (default_size s)
      && negb (FT_Char_Index src (i_index f) codepoint =? 0)
  | None => false
  end.

(** The same, for a pointer into the font store. *)
Definition covers (s : filter_sys_t) (p_font : font_ptr) (codepoint : uni_char_t)
  : bool :=
  match font_store s !! p_font with
  | Some f => font_covers s f codepoint
  | None => false
  end.

(** The score of a variant as the specification words it: 1000 for
    covering the codepoint when one is asked for, 100 for the bold flag
    asked for, 10 for the italic flag asked for. *)
Definition variant_score (s : filter_sys_t) (p_font : font_ptr)
    (bold italic : bool) (codepoint : uni_char_t) : Z :=
  match font_store s !! p_font with
  | Some f =>
      (if negb (codepoint =? 0) && font_covers s f codepoint then 1000 else 0)
      + (if eqb (b_bold f) bold then 100 else 0)
      + (if eqb (b_italic f) italic then 10 else 0)
  | None => 0
  end.

(** The first variant of the family covers the codepoint; a family without
    fonts covers nothing. *)
Definition first_covers (s : filter_sys_t) (p_family : family_ptr)
    (codepoint : uni_char_t) : bool :=
  match family_fonts p_family s with
  | p_font :: _ => covers s p_font codepoint
  | [] => false
  end.

(** The fonts an entry of a fallback list is tested with: its own, or, for
    an entry registered without fonts, those of the family the platform
    resolves for its name. *)
Definition fallback_fonts (s : filter_sys_t) (p_fallback : family_ptr) : list font_ptr :=
  match family_store s !! p_fallback with
  | Some fam =>
      match p_fonts fam with
      | [] =>
          match pf_get_family s (psz_name fam) with
          | Some p_temp => family_fonts p_temp s
          | None => []
          end
      | fonts => fonts
      end
  | None => []
  end.

(** The first of the fonts an entry of a fallback list is tested with
    covers the codepoint. *)
Definition fallback_covers (s : filter_sys_t) (p_fallback : family_ptr)
    (codepoint : uni_char_t) : bool :=
  match fallback_fonts s p_fallback with
  | p_font :: _ => covers s p_font codepoint
  | [] => false
  end.

(** The state of the face cache is consistent: a cached handle is a live
    face opened from the source its key names, with the sizes of the key; no
    handle is cached under two keys; handles in use are older than the next
    one; and the face a font holds is the cached one for the default style. *)
Record faces_wf (s : filter_sys_t) : Prop := {
  wf_cached : ∀ file idx size width h,
    face_map s !! face_key file idx size width = Some h →
    ∃ src, source_of s file = Some src
           ∧ source_opens src idx width size = true
           ∧ ft_faces s !! h = Some (loaded_face src idx width size);
  wf_live : ∀ key h, face_map s !! key = Some h → is_Some (ft_faces s !! h);
  wf_inj : ∀ key1 key2 h,
    face_map s !! key1 = Some h → face_map s !! key2 = Some h → key1 = key2;
  wf_fresh : ∀ h, is_Some (ft_faces s !! h) → (h < ft_next s)%positive;
  wf_fonts : ∀ p f h,
    font_store s !! p = Some f → p_face f = Some h →
    face_map s !! face_key (psz_fontfile f) (i_index f)
                    (default_size s) (default_width s) = Some h
}.

(** The configuration of two states is the same. *)
Record same_config (s s' : filter_sys_t) : Prop := {
  cfg_height : fmt_out_video_i_height s' = fmt_out_video_i_height s;
  cfg_scale : i_scale s' = i_scale s;
  cfg_style : p_default_style s' = p_default_style s;
  cfg_attachments : pp_font_attachments s' = pp_font_attachments s;
  cfg_get_family : pf_get_family s' = pf_get_family s;
  cfg_get_fallbacks : pf_get_fallbacks s' = pf_get_fallbacks s;
  cfg_fallback_map : fallback_map s' = fallback_map s
}.

(** What a font record keeps for life. *)
Definition same_font (f f' : vlc_font_t) : Prop :=
  psz_fontfile f' = psz_fontfile f ∧ i_index f' = i_index f
  ∧ b_bold f' = b_bold f ∧ b_italic f' = b_italic f.

(** [s'] is a later state of [s]: the same configuration; the cache, the
    log and the stores have only grown; a font keeps its file and style, and
    its face once it has one; a family keeps its name, and its fonts once it
    has some; a family without fonts stays so or gets the fonts of the family
    the platform resolves for its name. *)
Record later (s s' : filter_sys_t) : Prop := {
  later_config : same_config s s';
  later_face_map : face_map s ⊆ face_map s';
  later_log : ∃ events, sys_log s' = events ++ sys_log s;
  later_fonts : ∀ p f, font_store s !! p = Some f →
    ∃ f', font_store s' !! p = Some f' ∧ same_font f f'
          ∧ (is_Some (p_face f) → p_face f' = p_face f);
  later_fonts_dom : ∀ p, font_store s !! p = None → font_store s' !! p = None;
  later_families : ∀ q fam, family_store s !! q = Some fam →
    ∃ fam', family_store s' !! q = Some fam' ∧ psz_name fam' = psz_name fam
            ∧ (p_fonts fam ≠ [] → p_fonts fam' = p_fonts fam);
  later_families_dom : ∀ q, family_store s !! q = None → family_store s' !! q = None;
  later_populated : ∀ q fam fam',
    family_store s !! q = Some fam → family_store s' !! q = Some fam' →
    p_fonts fam = [] →
    p_fonts fam' = []
    ∨ ∃ p_temp, pf_get_family s (psz_name fam) = Some p_temp
                ∧ p_fonts fam' = family_fonts p_temp s'
                ∧ p_fonts fam' ≠ []
}.

(** The families the platform resolves names to are settled: one that has
    no fonts is not given any by the search either, since the platform
    resolves its own name to no family with fonts.  So it is when the
    platform resolves names to families with fonts only. *)
Definition resolves_settled (s : filter_sys_t) : Prop :=
  ∀ name t, pf_get_family s name = Some t →
    family_fonts t s = [] → fallback_fonts s t = [].

(** [s'] is a later state of [s] where every family has the fonts it had,
    or those it is tested with as an entry of a fallback list. *)
Definition populated_from (s s' : filter_sys_t) : Prop :=
  later s s'
  ∧ ∀ q, family_fonts q s' = family_fonts q s
         ∨ family_fonts q s' = fallback_fonts s q.

(** Does the string hold a space? *)
Fixpoint has_space (s : string) : bool :=
  match s with
  | String c rest => (c =? " ")%char || has_space rest
  | EmptyString => false
  end.

(** A variant that is neither bold nor italic. *)
Definition is_plain (p_font : font_ptr) (s : filter_sys_t) : bool :=
  match font_store s !! p_font with
  | Some f => negb (b_bold f) && negb (b_italic f)
  | None => false
  end.

(** Regular faces first: a list that holds a plain variant starts with
    one. *)
Definition regular_first (fonts : list font_ptr) (s : filter_sys_t) : Prop :=
  (∃ p, p ∈ fonts ∧ is_plain p s = true) →
  ∃ p rest, fonts = p :: rest ∧ is_plain p s = true.

(** Every pointer of the list is a font of the store. *)
Definition fonts_valid (fonts : list font_ptr) (s : filter_sys_t) : Prop :=
  Forall (λ p, is_Some (font_store s !! p)) fonts.

(** The second chain ends in the record the first ends in. *)
Definition same_end (l l' : list font_ptr) : bool :=
  match last l with
  | Some p_last => bool_decide (last l' = Some p_last)
  | None => false
  end.

End Predicates.

(** * A sample platform

    Concrete values for the parameters, used to run the definitions: the
    macros as VLC's headers give them on a platform other than Windows,
    relative sizes that are whole numbers, and a font engine that knows a
    handful of files. *)
Module Sample.

Definition headers : Headers :=
  {| c_float := Z;
     float_nonzero := λ f, negb (f =? 0);
     relsize_pixels := λ h f, Z.quot (h * f) 100;
     STYLE_DEFAULT_FONT_SIZE := 20;
     STYLE_BOLD := 1;
     STYLE_ITALIC := 2;
     STYLE_HALFWIDTH := 128;
     STYLE_MONOSPACED := 256;
     STYLE_DOUBLEWIDTH := 512;
     FB_LIST_ATTACHMENTS := "attachments";
     FB_LIST_DEFAULT := "default";
     DEFAULT_FAMILY := "Serif Family";
     WIN32 := false |}.

#[local] Existing Instance headers.

Definition style (flags size : Z) : text_style_t :=
  {| psz_fontname := Some "Arial, Noto";
     psz_monofontname := Some "Courier";
     i_style_flags := flags;
     i_font_size := size;
     f_font_relsize := 0 |}.

(** The files the sample engine can open, and the glyphs they hold: the
    letter A (65) in all of them, the ideograph 20013 in two only. *)
Definition known_files : list string :=
  ["arial.ttf"; "arial-bold.ttf"; "arial-italic.ttf"; "arial-bi.ttf";
   "serif.ttf"; "noto.ttf"; "symbol.ttf"; "bitmap.ttf"].

Definition file_of (src : ft_source) : string :=
  match src with
  | FromFile path => path
  | FromMemory _ => "memory"
  | FromStream _ => "stream"
  end.

Definition engine : FreeType :=
  {| FT_Open := λ src idx,
       match src with
       | FromFile path => if bool_decide (path ∈ known_files) then idx else 1
       | FromMemory data => if bool_decide (data = []) then 2 else idx
       | FromStream _ => 1
       end;
     FT_Select_Charmap_unicode := λ src idx,
       if String.eqb (file_of src) "symbol.ttf" then 6 else 0;
     FT_Set_Pixel_Sizes_err := λ src idx w h,
       if String.eqb (file_of src) "bitmap.ttf" && negb (h =? 16) then 23 else 0;
     FT_Char_Index := λ src idx c,
       if c =? 65 then 36
       else if (c =? 20013)
               && bool_decide (file_of src ∈ ["arial-italic.ttf"; "noto.ttf"; "memory"])
       then 1200 else 0;
     DWrite_GetFontStream := λ _, false |}.

#[local] Existing Instance engine.

Definition font (file : string) (bold italic : bool) : vlc_font_t :=
  {| psz_fontfile := file; i_index := 0; b_bold := bold; b_italic := italic;
     p_face := None |}.

(** Fonts 1 to 4 are the variants of Arial, 5 the default family's only
    font, 6 the font of Noto, 7 an attached font. *)
Definition fonts : gmap font_ptr vlc_font_t :=
  list_to_map
    [(1%positive, font "arial.ttf" false false);
     (2%positive, font "arial-bold.ttf" true false);
     (3%positive, font "arial-italic.ttf" false true);
     (4%positive, font "arial-bi.ttf" true true);
     (5%positive, font "serif.ttf" false false);
     (6%positive, font "noto.ttf" false false);
     (7%positive, font ":/0" false false)].

(** Families 1 to 3 are what the platform resolves; 4 and 5 are entries of
    the default fallback list registered without fonts, 6 is the family of
    the attachment, 7 a family known by its bold face only, 8 a family of
    two regular faces. *)
Definition families : gmap family_ptr vlc_family_t :=
  list_to_map
    [(1%positive, {| psz_name := "arial"; p_fonts := [1; 2; 3; 4]%positive |});
     (2%positive, {| psz_name := "serif family"; p_fonts := [5%positive] |});
     (3%positive, {| psz_name := "noto"; p_fonts := [6%positive] |});
     (4%positive, {| psz_name := "ghost"; p_fonts := [] |});
     (5%positive, {| psz_name := "noto"; p_fonts := [] |});
     (6%positive, {| psz_name := "embedded"; p_fonts := [7%positive] |});
     (7%positive, {| psz_name := "impact"; p_fonts := [2%positive] |});
     (8%positive, {| psz_name := "sans"; p_fonts := [5; 1]%positive |})].

Definition get_family (psz_family : string) : option family_ptr :=
  if strcasecmp_eq psz_family "arial" then Some 1%positive
  else if strcasecmp_eq psz_family "serif family" then Some 2%positive
  else if strcasecmp_eq psz_family "noto" then Some 3%positive
  else None.

(** A resolver that has opened nothing yet, with the given scale and
    dictionary of fallback lists. *)
Definition sys (scale : Z) (fallbacks : gmap string (list family_ptr))
  : filter_sys_t :=
  {| fmt_out_video_i_height := 720;
     i_scale := scale;
     p_default_style := style 0 0;
     pp_font_attachments := [[Byte.x00; Byte.x01]];
     pf_get_family := get_family;
     pf_get_fallbacks := None;
     face_map := ∅;
     fallback_map := fallbacks;
     font_store := fonts;
     family_store := families;
     ft_faces := ∅;
     ft_next := 1%positive;
     sys_log := [] |}.

End Sample.

(** * More predicates *)

(** Every character of the string passes the test. *)
Fixpoint every (P : ascii → bool) (s : string) : bool :=
  match s with
  | String c rest => P c && every P rest
  | EmptyString => true
  end.

Definition first_char (s : string) : option ascii :=
  match s with
  | String c _ => Some c
  | EmptyString => None
  end.

(** An upper-case letter of ASCII. *)
Definition is_upper (c : ascii) : bool :=
  let n := nat_of_ascii c in ((65 <=? n) && (n <=? 90))%nat.

(** A string of blanks. *)
Definition all_blank (s : string) : bool := every is_blank s.

(** A string without a comma, and one without a double quote. *)
Definition comma_free (s : string) : bool := every (λ c, negb (is_delim c)) s.
Definition quote_free (s : string) : bool := every (λ c, negb (c =? dquote)%char) s.

(** A string that neither starts nor ends with a blank. *)
Definition trimmed (s : string) : Prop :=
  (∀ c, first_char s = Some c → is_blank c = false)
  ∧ (∀ c, last_char s = Some c → is_blank c = false).

Section MorePredicates.

Context {hdr : Headers} {ft : FreeType}.

(** The family the pointer addresses bears the name, whatever the case of
    the letters. *)
Definition family_named (s : filter_sys_t) (p : family_ptr) (name : string) : bool :=
  match family_store s !! p with
  | Some fam => strcasecmp_eq (psz_name fam) name
  | None => false
  end.

(** The face of the font can be loaded at the default style. *)
Definition font_opens (s : filter_sys_t) (f : vlc_font_t) : bool :=
  face_opens s (psz_fontfile f) (i_index f) (default_width s) (default_size s).

End MorePredicates.

(** * The tiers of the selection, in terms of the state it starts from

    The four tiers as the specification words them, to compare the code
    with: what each step of the selection for a codepoint finds, as a family
    of the state the selection starts from.  No state is passed on from one
    step to the next, and a family is judged by the fonts it is tested with
    in that state. *)
Section Tiers.

Context {hdr : Headers} {ft : FreeType}.

(** The family a requested name stands for: the first entry of the
    attachment list that bears the name and whose first font covers the
    codepoint; failing that, the family the platform resolves the name to, if
    its first font covers the codepoint. *)
Definition named_covering (s : filter_sys_t) (name : string) (c : uni_char_t)
  : option family_ptr :=
  match List.find (λ p, family_named s p name && first_covers s p c)
          (fallback_list FB_LIST_ATTACHMENTS s) with
  | Some p => Some p
  | None =>
      match pf_get_family s name with
      | Some p => if first_covers s p c then Some p else None
      | None => None
      end
  end.

(** First tier: the first requested name that stands for a family. *)
Fixpoint tier_same_family (s : filter_sys_t) (families : list string)
    (c : uni_char_t) : option family_ptr :=
  match families with
  | [] => None
  | name :: rest =>
      match named_covering s name c with
      | Some p => Some p
      | None => tier_same_family s rest c
      end
  end.

(** Second and fourth tier: the first entry of a fallback list of the
    dictionary that covers the codepoint. *)
Definition tier_list (s : filter_sys_t) (psz_key : string) (c : uni_char_t)
  : option family_ptr :=
  List.find (λ q, fallback_covers s q c) (fallback_list psz_key s).

(** Third tier: for the first requested name that has one, the first entry
    of the fallback list of the platform for the name and the codepoint that
    covers the codepoint. *)
Fixpoint tier_system_fallbacks (s : filter_sys_t)
    (get : string → uni_char_t → list family_ptr) (families : list string)
    (c : uni_char_t) : option family_ptr :=
  match families with
  | [] => None
  | name :: rest =>
      match List.find (λ q, fallback_covers s q c) (get name c) with
      | Some p => Some p
      | None => tier_system_fallbacks s get rest c
      end
  end.

(** The four tiers in their order: the first that finds a family settles
    the answer. *)
Definition tiers (s : filter_sys_t) (families : list string) (c : uni_char_t)
  : option family_ptr :=
  match tier_same_family s families c with
  | Some p => Some p
  | None =>
      match tier_list s FB_LIST_ATTACHMENTS c with
      | Some p => Some p
      | None =>
          match
            match pf_get_fallbacks s with
            | Some get => tier_system_fallbacks s get families c
            | None => None
            end
          with
          | Some p => Some p
          | None => tier_list s FB_LIST_DEFAULT c
          end
      end
  end.

End Tiers.

(** * The families a platform registers *)

(** More of [platform_fonts.h] and [vlc_common.h]: the prefix of the names
    of families created without a name, the second default family, the font
    files of the two default families, the directory of the fonts of the
    system and the character that separates the directories of a path.
    [DIR_SEP] is that character as a string. *)
Class PlatformHeaders := {
  FB_NAME : string;
  DEFAULT_MONOSPACE_FAMILY : string;
  DEFAULT_FONT_FILE : string;
  DEFAULT_MONOSPACE_FONT_FILE : string;
  SYSTEM_FONT_PATH : string;
  DIR_SEP_CHAR : ascii
}.

(** ** What a call comes to *)

(** A call returns, or it reads or frees a record that has been freed, or
    it follows the links of a chain that has no end. *)
Inductive result (A : Type) : Type :=
  | Returns (a : A)
  | Faults
  | Loops.

Arguments Returns {A} a.
Arguments Faults {A}.
Arguments Loops {A}.

#[global] Instance result_ret : MRet result := λ A, Returns.

#[global] Instance result_bind : MBind result := λ A B f x,
  match x with
  | Returns a => f a
  | Faults => Faults
  | Loops => Loops
  end.

(** ** Formats *)

Fixpoint zeros (n : nat) : string :=
  match n with
  | O => EmptyString
  | S n' => String "0" (zeros n')
  end.

(** [printf] with [%04d]: the decimal digits, with zeros in front up to a
    width of four characters, the sign included. *)
Definition fmt_04d (n : Z) : string :=
  if n <? 0
  then "-" +:+ zeros (3 - String.length (pretty (- n))) +:+ pretty (- n)
  else zeros (4 - String.length (pretty n)) +:+ pretty n.

(** The first character of a C string: [NUL] for the empty one. *)
Definition char_at0 (s : string) : ascii :=
  match s with
  | String c _ => c
  | EmptyString => "000"%char
  end.

Section Families.

Context {hdr : Headers} {ft : FreeType} {phdr : PlatformHeaders}.

Definition DIR_SEP : string := String DIR_SEP_CHAR EmptyString.

(** [MakeFilePath]: a name that starts with the separator is a full path;
    any other name is a file of the directory of the system fonts. *)
Definition MakeFilePath (psz_filename : option string) : option string :=
  match psz_filename with
  | None => None
  | Some name =>
      if (char_at0 name =? DIR_SEP_CHAR)%char then Some name
      else Some (SYSTEM_FONT_PATH +:+ DIR_SEP +:+ name)
  end.

(** ** The state *)

Definition set_fallback_map (m : gmap string (list family_ptr)) (s : filter_sys_t)
  : filter_sys_t :=
  {| fmt_out_video_i_height := fmt_out_video_i_height s; i_scale := i_scale s;
     p_default_style := p_default_style s;
     pp_font_attachments := pp_font_attachments s;
     pf_get_family := pf_get_family s; pf_get_fallbacks := pf_get_fallbacks s;
     face_map := face_map s; fallback_map := m;
     font_store := font_store s; family_store := family_store s;
     ft_faces := ft_faces s; ft_next := ft_next s; sys_log := sys_log s |}.

(** [filter_sys_t] with the fields the registration of families works on:
    the list of all families ([p_families]), the dictionary of the families
    by name ([family_map]), the counter for the names of families created
    without one, and the font files the user has configured for the two
    default families ([psz_fontfile], [psz_monofontfile]).  The [p_next]
    link of every family record is kept beside the store of the records; a
    record without an entry has the link [NULL]. *)
Record family_sys_t := {
  base_sys : filter_sys_t;
  family_p_next : gmap family_ptr family_ptr;
  p_families : option family_ptr;
  family_map : gmap string family_ptr;
  i_fallback_counter : Z;
  sys_psz_fontfile : option string;
  sys_psz_monofontfile : option string
}.

Definition set_base_sys (s : filter_sys_t) (r : family_sys_t) : family_sys_t :=
  {| base_sys := s; family_p_next := family_p_next r;
     p_families := p_families r; family_map := family_map r;
     i_fallback_counter := i_fallback_counter r;
     sys_psz_fontfile := sys_psz_fontfile r;
     sys_psz_monofontfile := sys_psz_monofontfile r |}.

Definition set_family_p_next (next : gmap family_ptr family_ptr) (r : family_sys_t)
  : family_sys_t :=
  {| base_sys := base_sys r; family_p_next := next;
     p_families := p_families r; family_map := family_map r;
     i_fallback_counter := i_fallback_counter r;
     sys_psz_fontfile := sys_psz_fontfile r;
     sys_psz_monofontfile := sys_psz_monofontfile r |}.

Definition set_p_families (head : option family_ptr) (r : family_sys_t) : family_sys_t :=
  {| base_sys := base_sys r; family_p_next := family_p_next r;
     p_families := head; family_map := family_map r;
     i_fallback_counter := i_fallback_counter r;
     sys_psz_fontfile := sys_psz_fontfile r;
     sys_psz_monofontfile := sys_psz_monofontfile r |}.

Definition set_family_map (dict : gmap string family_ptr) (r : family_sys_t)
  : family_sys_t :=
  {| base_sys := base_sys r; family_p_next := family_p_next r;
     p_families := p_families r; family_map := dict;
     i_fallback_counter := i_fallback_counter r;
     sys_psz_fontfile := sys_psz_fontfile r;
     sys_psz_monofontfile := sys_psz_monofontfile r |}.

Definition set_i_fallback_counter (n : Z) (r : family_sys_t) : family_sys_t :=
  {| base_sys := base_sys r; family_p_next := family_p_next r;
     p_families := p_families r; family_map := family_map r;
     i_fallback_counter := n;
     sys_psz_fontfile := sys_psz_fontfile r;
     sys_psz_monofontfile := sys_psz_monofontfile r |}.

(** ** [AppendFamily] *)

(** The loop of [AppendFamily] once it stands on a record: it follows the
    links to the record that has none and writes the link there.  [fuel]
    bounds the links it follows. *)
Fixpoint AppendFamily_from (fuel : nat) (p p_family : family_ptr)
    (next : gmap family_ptr family_ptr) : result (gmap family_ptr family_ptr) :=
  match fuel with
  | O => Loops
  | S fuel' =>
      match next !! p with
      | Some q => AppendFamily_from fuel' q p_family next
      | None => Returns (<[p := p_family]> next)
      end
  end.

(** [AppendFamily] on the list whose head [*pp_list] is [p_list]; the
    result holds the head afterwards.  A chain that ends has no more links
    than there are links at all, so that the bound is no restriction. *)
Definition AppendFamily (p_list : option family_ptr) (p_family : family_ptr)
    (r : family_sys_t) : result (option family_ptr * family_sys_t) :=
  match p_list with
  | None => Returns (Some p_family, r)
  | Some p =>
      next ← AppendFamily_from (S (size (family_p_next r))) p p_family
               (family_p_next r);
      mret (Some p, set_family_p_next next r)
  end.

(** ** [NewFamily] *)

(** [calloc] and the write of the name: a record that was not in the store,
    without fonts and without a link. *)
Definition calloc_family (name : string) (r : family_sys_t)
  : family_ptr * family_sys_t :=
  let s := base_sys r in
  let p_family := fresh (dom (family_store s)) in
  (p_family,
   set_family_p_next (delete p_family (family_p_next r))
     (set_base_sys
        (set_family_store
           (<[p_family := {| psz_name := name; p_fonts := [] |}]> (family_store s)) s)
        r)).

(** [NewFamily].  The list [pp_list] and the dictionary [p_dict] are given
    by what they hold, [None] standing for a [NULL] pointer, and returned as
    the call leaves them; the caller writes them back where they live. *)
Definition NewFamily (psz_family : option string)
    (pp_list : option (option family_ptr))
    (p_dict : option (gmap string family_ptr)) (psz_key : option string)
    (r : family_sys_t)
  : result (family_ptr * option (option family_ptr)
            * option (gmap string family_ptr) * family_sys_t) :=
  let '(name, r) :=
    match psz_family with
    | Some (String c rest) => (ToLower (String c rest), r)
    | _ => (FB_NAME +:+ "-" +:+ fmt_04d (i_fallback_counter r),
            set_i_fallback_counter (int_wrap (i_fallback_counter r + 1)) r)
    end in
  let psz_lc :=
    match psz_key with
    | None => name
    | Some key => ToLower key
    end in
  let '(p_family, r) := calloc_family name r in
  '(pp_list, r) ←
    match pp_list with
    | Some p_list =>
        '(p_list, r) ← AppendFamily p_list p_family r; mret (Some p_list, r)
    | None => mret (None, r)
    end;
  match p_dict with
  | Some dict =>
      match dict !! psz_lc with
      | Some p_root =>
          '(_, r) ← AppendFamily (Some p_root) p_family r;
          mret (p_family, pp_list, Some dict, r)
      | None => mret (p_family, pp_list, Some (<[psz_lc := p_family]> dict), r)
      end
  | None => mret (p_family, pp_list, None, r)
  end.

(** ** [InitDefaultList] *)

(** The chain of links from a head, as the list of its records. *)
Fixpoint family_chain (fuel : nat) (next : gmap family_ptr family_ptr)
    (p : option family_ptr) : result (list family_ptr) :=
  match p with
  | None => Returns []
  | Some q =>
      match fuel with
      | O => Loops
      | S fuel' => l ← family_chain fuel' next (next !! q); mret (q :: l)
      end
  end.

(** The loop of [InitDefaultList] over the names. *)
Fixpoint InitDefaultList_loop (ppsz_default : list string)
    (p_default : option family_ptr) (r : family_sys_t)
  : result (option family_ptr * family_sys_t) :=
  match ppsz_default with
  | [] => mret (p_default, r)
  | psz :: rest =>
      match pf_get_family (base_sys r) psz with
      | Some p_family =>
          '(p_temp, pp_list, _, r) ← NewFamily (Some psz) (Some p_default) None None r;
          let s := base_sys r in
          let r :=
            match family_store s !! p_temp with
            | Some fam =>
                set_base_sys (set_p_fonts p_temp fam (family_fonts p_family s) s) r
            | None => r
            end in
          InitDefaultList_loop rest (default p_default pp_list) r
      | None => InitDefaultList_loop rest p_default r
      end
  end.

(** [InitDefaultList] on the array of [i_size] names.  The dictionary of the
    fallback lists holds a chain as the list of its records. *)
Definition InitDefaultList (ppsz_default : list string) (r : family_sys_t)
  : result (option family_ptr * family_sys_t) :=
  '(p_default, r) ← InitDefaultList_loop ppsz_default None r;
  match p_default with
  | Some _ =>
      l ← family_chain (S (size (family_p_next r))) (family_p_next r) p_default;
      mret (p_default,
            set_base_sys
              (set_fallback_map (<[FB_LIST_DEFAULT := l]> (fallback_map (base_sys r)))
                 (base_sys r)) r)
  | None => mret (None, r)
  end.

(** ** [StaticMap_GetFamily] *)

Definition StaticMap_GetFamily (psz_family : string) (r : family_sys_t)
  : result (option family_ptr * family_sys_t) :=
  let psz_lc := ToLower psz_family in
  match family_map r !! psz_lc with
  | Some p_family => mret (Some p_family, r)
  | None =>
      let psz_file :=
        if strcasecmp_eq psz_family DEFAULT_FAMILY
        then Some (default DEFAULT_FONT_FILE (sys_psz_fontfile r))
        else if strcasecmp_eq psz_family DEFAULT_MONOSPACE_FAMILY
        then Some (default DEFAULT_MONOSPACE_FONT_FILE (sys_psz_monofontfile r))
        else None in
      match psz_file with
      | None => mret (None, r)
      | Some psz_file =>
          (* Create new entry *)
          '(p_family, pp_list, p_dict, r) ←
            NewFamily (Some psz_lc) (Some (p_families r)) (Some (family_map r))
              (Some psz_lc) r;
          let r := set_p_families (default (p_families r) pp_list)
                     (set_family_map (default (family_map r) p_dict) r) in
          match MakeFilePath (Some psz_file) with
          | Some psz_font_file =>
              let '(_, s) :=
                NewFont psz_font_file 0 false false (Some p_family) (base_sys r) in
              mret (Some p_family, set_base_sys s r)
          | None => mret (Some p_family, r)
          end
      end
  end.

(** ** [FreeFamilies] and [FreeFamiliesAndFonts] *)

(** [free] of a family record, with its name. *)
Definition free_family (p_family : family_ptr) (r : family_sys_t) : result family_sys_t :=
  let s := base_sys r in
  match family_store s !! p_family with
  | Some _ =>
      Returns (set_family_p_next (delete p_family (family_p_next r))
                 (set_base_sys
                    (set_family_store (delete p_family (family_store s)) s) r))
  | None => Faults
  end.

(** The loop of [FreeFamiliesAndFonts] over the fonts of a family: every
    record is read and then freed, with its file name. *)
Fixpoint free_fonts (fonts : list font_ptr) (s : filter_sys_t) : result filter_sys_t :=
  match fonts with
  | [] => Returns s
  | p_font :: rest =>
      match font_store s !! p_font with
      | Some _ => free_fonts rest (set_font_store (delete p_font (font_store s)) s)
      | None => Faults
      end
  end.

(** [FreeFamiliesAndFonts]; [fuel] bounds the depth of the recursion. *)
Fixpoint FreeFamiliesAndFonts (fuel : nat) (p_family : family_ptr) (r : family_sys_t)
  : result family_sys_t :=
  match fuel with
  | O => Loops
  | S fuel' =>
      match family_store (base_sys r) !! p_family with
      | None => Faults
      | Some _ =>
          r ← match family_p_next r !! p_family with
              | Some p_next => FreeFamiliesAndFonts fuel' p_next r
              | None => Returns r
              end;
          match family_store (base_sys r) !! p_family with
          | None => Faults
          | Some fam =>
              s ← free_fonts (p_fonts fam) (base_sys r);
              free_family p_family (set_base_sys s r)
          end
      end
  end.

(** [FreeFamilies]: the same without the fonts. *)
Fixpoint FreeFamilies (fuel : nat) (p_family : family_ptr) (r : family_sys_t)
  : result family_sys_t :=
  match fuel with
  | O => Loops
  | S fuel' =>
      match family_store (base_sys r) !! p_family with
      | None => Faults
      | Some _ =>
          r ← match family_p_next r !! p_family with
              | Some p_next => FreeFamilies fuel' p_next r
              | None => Returns r
              end;
          free_family p_family r
      end
  end.

End Families.

(** * Predicates on the lists of families *)

(** The links lead from [p] through the records of [l], in this order, and
    end there. *)
Fixpoint chain (next : gmap family_ptr family_ptr) (p : option family_ptr)
    (l : list family_ptr) : Prop :=
  match l with
  | [] => p = None
  | q :: l' => p = Some q ∧ chain next (next !! q) l'
  end.

Section FontChains.

Context {hdr : Headers} {ft : FreeType}.

(** The fonts on the lists of the families are records of the store. *)
Definition families_valid (s : filter_sys_t) : Prop :=
  ∀ q fam, family_store s !! q = Some fam → fonts_valid (p_fonts fam) s.

(** The lists of the families are the chains of their records, for the
    links [next] of the font records: the list of a family is what the
    links lead through from the first font of the family, and two families
    that hold a record in common hold the same records behind it. *)
Definition font_chains (next : gmap font_ptr font_ptr) (s : filter_sys_t) : Prop :=
  ∀ q fam, family_store s !! q = Some fam →
    chain next (head (p_fonts fam)) (p_fonts fam).

(** The links of the font records with the link [NewFont] writes: the link
    of the new font, to the first font of the parent, when the font goes in
    front; the link of the last font of the parent, to the new font, when it
    goes to the end.  For a parent without fonts, and without a parent, no
    link is written. *)
Definition font_link_written (p_parent : option family_ptr) (p_font : font_ptr)
    (bold italic : bool) (s : filter_sys_t) (next : gmap font_ptr font_ptr)
  : gmap font_ptr font_ptr :=
  match p_parent ≫= (λ p, family_store s !! p) with
  | Some fam =>
      if first_is_styled (p_fonts fam) s && negb bold && negb italic
      then match head (p_fonts fam) with
           | Some p_first => <[p_font := p_first]> next
           | None => next
           end
      else match last (p_fonts fam) with
           | Some p_last => <[p_last := p_font]> next
           | None => next
           end
  | None => next
  end.

End FontChains.

Section ListPredicates.

Context {hdr : Headers} {ft : FreeType} {phdr : PlatformHeaders}.

(** The records of the list are in the store. *)
Definition allocated (r : family_sys_t) (l : list family_ptr) : Prop :=
  Forall (λ p, is_Some (family_store (base_sys r) !! p)) l.

(** Only records of the store have a link, and to records of the store. *)
Definition links_closed (r : family_sys_t) : Prop :=
  ∀ p q, family_p_next r !! p = Some q →
    is_Some (family_store (base_sys r) !! p)
    ∧ is_Some (family_store (base_sys r) !! q).

(** The names of the list that the platform resolves, each with the family
    it resolves to. *)
Definition resolved_names (s : filter_sys_t) (names : list string)
  : list (string * family_ptr) :=
  omap (λ name, (λ q, (name, q)) <$> pf_get_family s name) names.

(** The families the platform resolves names to are records of the
    store. *)
Definition resolver_valid (s : filter_sys_t) : Prop :=
  ∀ name q, pf_get_family s name = Some q → is_Some (family_store s !! q).

(** The entry of a default list made for a name and the family the name
    resolves to: it bears the name in lower case and has the fonts the
    family had in the state [s]. *)
Definition default_entry (s s' : filter_sys_t) (p : family_ptr)
    (resolved : string * family_ptr) : Prop :=
  family_store s' !! p
  = Some {| psz_name := ToLower resolved.1;
            p_fonts := family_fonts resolved.2 s |}.

(** The state with one more family: the record [p] with the name and
    without fonts, linked behind the record [behind] if there is one, and
    the counter of the names set. *)
Definition family_added (r : family_sys_t) (p : family_ptr) (name : string)
    (behind : option family_ptr) (counter : Z) : family_sys_t :=
  {| base_sys :=
       set_family_store
         (<[p := {| psz_name := name; p_fonts := [] |}]> (family_store (base_sys r)))
         (base_sys r);
     family_p_next :=
       match behind with
       | Some x => <[x := p]> (family_p_next r)
       | None => family_p_next r
       end;
     p_families := p_families r; family_map := family_map r;
     i_fallback_counter := counter;
     sys_psz_fontfile := sys_psz_fontfile r;
     sys_psz_monofontfile := sys_psz_monofontfile r |}.

(** The name [NewFamily] gives to a family created without one. *)
Definition fallback_name (counter : Z) : string :=
  FB_NAME +:+ "-" +:+ fmt_04d counter.

(** The fonts of the families of a list, family after family. *)
Definition fonts_of (r : family_sys_t) (l : list family_ptr) : list font_ptr :=
  concat (map (λ p, family_fonts p (base_sys r)) l).

End ListPredicates.

(** * A sample registry

    Values for the macros of the registration, as VLC's headers give them on
    a platform with the static map, and states for the registration
    functions over the sample platform. *)
Module SampleLists.

#[local] Existing Instances Sample.headers Sample.engine.

Definition platform : PlatformHeaders :=
  {| FB_NAME := "fallback";
     DEFAULT_MONOSPACE_FAMILY := "Monospace";
     DEFAULT_FONT_FILE := "serif.ttf";
     DEFAULT_MONOSPACE_FONT_FILE := "mono.ttf";
     SYSTEM_FONT_PATH := "/usr/share/fonts";
     DIR_SEP_CHAR := "/" |}.

#[local] Existing Instance platform.

(** The families 1, 2 and 3 of the sample platform make the list of all
    families, in this order; the dictionary knows the first and the third by
    name.  The other families have no link. *)
Definition lists : family_sys_t :=
  {| base_sys := Sample.sys 100 ∅;
     family_p_next := {[ 1%positive := 2%positive; 2%positive := 3%positive ]};
     p_families := Some 1%positive;
     family_map := {[ "arial" := 1%positive; "noto" := 3%positive ]};
     i_fallback_counter := 0;
     sys_psz_fontfile := None;
     sys_psz_monofontfile := Some "/opt/fonts/mono.ttf" |}.

(** Two lists: the families 1, 7 and 8, which have fonts in common, and the
    families 2 and 3, which have not. *)
Definition two_lists : family_sys_t :=
  {| base_sys := Sample.sys 100 ∅;
     family_p_next := {[ 1%positive := 7%positive; 7%positive := 8%positive;
                         2%positive := 3%positive ]};
     p_families := Some 2%positive;
     family_map := ∅;
     i_fallback_counter := 0;
     sys_psz_fontfile := None;
     sys_psz_monofontfile := None |}.

(** The sample resolver with one more font, number 8, of the file given. *)
Definition with_font (file : string) : filter_sys_t :=
  set_font_store (<[8%positive := Sample.font file false false]> Sample.fonts)
    (Sample.sys 100 ∅).

(** The family of Arial, the family of Noto and an entry of a fallback list,
    number 9, that has taken over the fonts of Arial as [SearchFallbacks]
    makes an entry do: the two hold the chain of the four variants. *)
Definition shared : filter_sys_t :=
  set_family_store
    (list_to_map
       [(1%positive, {| psz_name := "arial"; p_fonts := [1; 2; 3; 4]%positive |});
        (3%positive, {| psz_name := "noto"; p_fonts := [6%positive] |});
        (9%positive, {| psz_name := "arial"; p_fonts := [1; 2; 3; 4]%positive |})])
    (Sample.sys 100 ∅).

(** The links of the font records of that state. *)
Definition shared_links : gmap font_ptr font_ptr :=
  {[ 1%positive := 2%positive; 2%positive := 3%positive; 3%positive := 4%positive ]}.

(** The sample platform with a default family of four variants: regular,
    bold, italic and bold italic, in this order. *)
Definition styled_default : filter_sys_t :=
  set_family_store
    (list_to_map
       [(2%positive,
         {| psz_name := "serif family"; p_fonts := [1; 2; 3; 4]%positive |});
        (3%positive, {| psz_name := "noto"; p_fonts := [6%positive] |})])
    (Sample.sys 100 ∅).

(** The fallbacks of a platform that has some: for Arial the families of
    the default and of Noto, for the other names none. *)
Definition get_fallbacks (psz_family : string) (codepoint : uni_char_t)
  : list family_ptr :=
  if strcasecmp_eq psz_family "arial" then [2; 3]%positive else [].

(** The sample platform with these fallbacks and the dictionary given. *)
Definition with_fallbacks (fallbacks : gmap string (list family_ptr))
  : filter_sys_t :=
  {| fmt_out_video_i_height := 720;
     i_scale := 100;
     p_default_style := Sample.style 0 0;
     pp_font_attachments := [[Byte.x00; Byte.x01]];
     pf_get_family := Sample.get_family;
     pf_get_fallbacks := Some get_fallbacks;
     face_map := ∅;
     fallback_map := fallbacks;
     font_store := Sample.fonts;
     family_store := Sample.families;
     ft_faces := ∅;
     ft_next := 1%positive;
     sys_log := [] |}.

(** A style whose font name names no family. *)
Definition blank_style : text_style_t :=
  {| psz_fontname := Some " , ,";
     psz_monofontname := None;
     i_style_flags := 0;
     i_font_size := 0;
     f_font_relsize := 0 |}.

End SampleLists.

(** * Properties *)

(** ** Sizes *)

Lemma int_wrap_id (z : Z) : int_range z → int_wrap z = z.
Proof.
  unfold int_range, int_wrap. intros Hz.
  rewrite Z.mod_small by lia. lia.
Qed.

Section LiveSize.

Context {hdr : Headers} {ft : FreeType}.

(** C10.  A style with no absolute and no relative size gets the default
    font size, multiplied by the scale and divided by 100 (truncating) when
    the scale is not 100.  The zero of the request is not what is scaled: the
    result is the one of a request for the default size, and it is not zero
    as soon as the scaled default is at least one pixel. *)
Theorem ConvertToLiveSize_default (p_sys : filter_sys_t) (p_style : text_style_t) :
  i_font_size p_style = 0 →
  float_nonzero (f_font_relsize p_style) = false →
  ConvertToLiveSize p_sys p_style =
    (if i_scale p_sys =? 100 then STYLE_DEFAULT_FONT_SIZE
     else Z.quot (int_wrap (STYLE_DEFAULT_FONT_SIZE * i_scale p_sys)) 100)
  ∧ (int_range (STYLE_DEFAULT_FONT_SIZE * i_scale p_sys) →
     i_scale p_sys ≠ 100 →
     ConvertToLiveSize p_sys p_style
     = Z.quot (STYLE_DEFAULT_FONT_SIZE * i_scale p_sys) 100)
  ∧ (STYLE_DEFAULT_FONT_SIZE ≠ 0 →
     ConvertToLiveSize p_sys p_style
     = ConvertToLiveSize p_sys (with_size p_style STYLE_DEFAULT_FONT_SIZE))
  ∧ (STYLE_DEFAULT_FONT_SIZE ≠ 0 →
     int_range (STYLE_DEFAULT_FONT_SIZE * i_scale p_sys) →
     100 <= Z.abs (STYLE_DEFAULT_FONT_SIZE * i_scale p_sys) →
     ConvertToLiveSize p_sys p_style ≠ 0).
Proof.
  intros Hsize Hrel.
  assert (Heq : ConvertToLiveSize p_sys p_style =
    (if i_scale p_sys =? 100 then STYLE_DEFAULT_FONT_SIZE
     else Z.quot (int_wrap (STYLE_DEFAULT_FONT_SIZE * i_scale p_sys)) 100)).
  { unfold ConvertToLiveSize. rewrite Hsize, Hrel. simpl.
    destruct (i_scale p_sys =? 100); reflexivity. }
  split; [exact Heq|]. split; [|split].
  - intros Hrange Hscale. rewrite Heq.
    destruct (Z.eqb_spec (i_scale p_sys) 100) as [|_]; [contradiction|].
    by rewrite int_wrap_id.
  - intros Hdef. rewrite Heq. unfold ConvertToLiveSize, with_size. simpl.
    destruct (Z.eqb_spec STYLE_DEFAULT_FONT_SIZE 0) as [|_]; [contradiction|].
    simpl. destruct (i_scale p_sys =? 100); reflexivity.
  - intros Hdef Hrange Habs. rewrite Heq.
    destruct (Z.eqb_spec (i_scale p_sys) 100) as [_|_]; [exact Hdef|].
    rewrite int_wrap_id by exact Hrange.
    intros Hq. apply Z.quot_small_iff in Hq; lia.
Qed.

End LiveSize.

(** The sample resolver at scale 150: the default size 20 becomes 30. *)
Lemma ConvertToLiveSize_default_witness :
  ConvertToLiveSize (Sample.sys 150 ∅) (Sample.style 0 0) = 30
  ∧ ConvertToLiveSize (Sample.sys 150 ∅) (Sample.style 0 0)
    = ConvertToLiveSize (Sample.sys 150 ∅) (Sample.style 0 20).
Proof.
  destruct (ConvertToLiveSize_default (Sample.sys 150 ∅) (Sample.style 0 0))
    as (Heq & _ & Hsame & _); [reflexivity|reflexivity|].
  split; [exact Heq|].
  apply Hsame. discriminate.
Defined.

(** ** The family list parser *)

Section Parser.

Import FamilySpec.

Lemma AddSingleFamily_app (tok : string) (families : list string) :
  AddSingleFamily tok families
  = families ++ filter (λ t, t ≠ EmptyString) [basic_unquote (TrimWhiteSpace tok)].
Proof.
  unfold AddSingleFamily.
  destruct (basic_unquote (TrimWhiteSpace tok)) as [|c t]; simpl.
  - by rewrite app_nil_r.
  - reflexivity.
Qed.

(** The tokens [strtok_r] hands out are the non-empty pieces between the
    commas. *)
Lemma split_on_commas_take (s : string) :
  ∃ toks, split_on_commas s = (take_token s).1 :: toks
          ∧ filter (λ t, t ≠ EmptyString) toks
            = filter (λ t, t ≠ EmptyString) (split_on_commas (take_token s).2).
Proof.
  induction s as [|c rest IH]; simpl.
  - exists []. done.
  - destruct (is_delim c); simpl.
    + exists (split_on_commas rest). done.
    + destruct IH as (toks & -> & Hf).
      destruct (take_token rest) as [tok r]; simpl in *.
      exists toks. done.
Qed.

Lemma split_on_commas_skip (s : string) :
  filter (λ t, t ≠ EmptyString) (split_on_commas (skip_delims s))
  = filter (λ t, t ≠ EmptyString) (split_on_commas s).
Proof.
  induction s as [|c rest IH]; simpl; [done|].
  destruct (is_delim c) eqn:Hc; simpl.
  - rewrite IH. by rewrite filter_cons_False by tauto.
  - by rewrite Hc.
Qed.

Lemma skip_delims_length (s : string) :
  (String.length (skip_delims s) <= String.length s)%nat.
Proof.
  induction s as [|c rest IH]; simpl; [lia|].
  destruct (is_delim c); simpl; lia.
Qed.

Lemma take_token_length (s : string) :
  (String.length (take_token s).2 <= String.length s)%nat.
Proof.
  induction s as [|c rest IH]; simpl; [lia|].
  destruct (is_delim c); simpl; [lia|].
  destruct (take_token rest); simpl in *. lia.
Qed.

(** With fuel beyond the length of the input the loop runs to the end, and
    what it pushes are the tokens between the commas, each trimmed and
    unquoted, the empty ones left out. *)
Lemma split_loop_tokens (fuel : nat) (s : string) (families : list string) :
  (String.length s < fuel)%nat →
  split_loop fuel s families
  = families ++ filter (λ t, t ≠ EmptyString)
                  (map (λ tok, basic_unquote (TrimWhiteSpace tok)) (split_on_commas s)).
Proof.
  revert s families.
  induction fuel as [|fuel IH]; intros s families Hlen; [lia|].
  simpl. unfold strtok_r.
  pose proof (skip_delims_length s) as Hskip.
  pose proof (split_on_commas_skip s) as Hsame.
  assert (Hmap : ∀ l : list string,
    filter (λ t, t ≠ EmptyString)
      (map (λ tok, basic_unquote (TrimWhiteSpace tok)) l)
    = filter (λ t, t ≠ EmptyString)
      (map (λ tok, basic_unquote (TrimWhiteSpace tok))
         (filter (λ t, t ≠ EmptyString) l))).
  { induction l as [|t l IHl]; [done|]. simpl.
    destruct (decide (t = EmptyString)) as [->|Hne].
    - rewrite filter_cons_False by (simpl; tauto).
      rewrite (filter_cons_False _ EmptyString) by tauto. exact IHl.
    - rewrite (filter_cons_True (λ t, t ≠ EmptyString) t l) by done.
      simpl. rewrite !filter_cons, IHl. done. }
  rewrite (Hmap (split_on_commas s)), <- Hsame, <- Hmap.
  destruct (skip_delims s) as [|c rest] eqn:Hs'.
  - simpl. by rewrite app_nil_r.
  - destruct (split_on_commas_take (String c rest)) as (toks & Hsplit & Hrest).
    pose proof (take_token_length (String c rest)) as Htake.
    assert (Hshrink : (String.length (take_token (String c rest)).2
                       < String.length (String c rest))%nat).
    { simpl. destruct (is_delim c); simpl; [lia|].
      pose proof (take_token_length rest).
      destruct (take_token rest); simpl in *. lia. }
    destruct (take_token (String c rest)) as [psz rest'] eqn:Htok.
    cbn [fst snd] in Hsplit, Hrest, Hshrink.
    rewrite IH by (simpl in *; lia).
    rewrite AddSingleFamily_app, Hsplit, <- app_assoc. f_equal.
    simpl map. rewrite !filter_cons, filter_nil.
    rewrite (Hmap toks), Hrest, <- Hmap.
    destruct (decide _); reflexivity.
Qed.

Lemma basic_unquote_spec (t : string) :
  t ≠ lone_quote → basic_unquote t = unquote t.
Proof.
  intros Hne. destruct t as [|c [|c' rest]]; [done| |done].
  simpl. destruct (Ascii.eqb_spec c dquote) as [->|]; [|done].
  by destruct Hne.
Qed.

(** What the parser returns, for every input. *)
Lemma SplitIntoSingleFamily_tokens (spec : string) (families : list string) :
  SplitIntoSingleFamily (Some spec) families
  = families ++ filter (λ t, t ≠ EmptyString)
                  (map (λ tok, basic_unquote (TrimWhiteSpace tok)) (split_on_commas spec)).
Proof. unfold SplitIntoSingleFamily. apply split_loop_tokens. lia. Qed.

(** The parser is the one of the specification on every input none of whose
    tokens is, once trimmed, a lone double quote. *)
Lemma SplitIntoSingleFamily_parse (spec : string) :
  Forall (λ tok, TrimWhiteSpace tok ≠ lone_quote) (split_on_commas spec) →
  SplitIntoSingleFamily (Some spec) [] = parse spec.
Proof.
  intros Hall. rewrite SplitIntoSingleFamily_tokens. simpl. unfold parse.
  f_equal. induction Hall as [|tok toks Htok _ IH]; [done|].
  simpl. by rewrite IH, basic_unquote_spec.
Qed.

Example parse_empty : SplitIntoSingleFamily (Some EmptyString) [] = [].
Proof. reflexivity. Qed.

Example parse_three :
  SplitIntoSingleFamily
    (Some ("A, " +:+ String dquote "B C" +:+ String dquote " ,D")) []
  = ["A"; "B C"; "D"].
Proof. reflexivity. Qed.

Example parse_blank_tokens :
  SplitIntoSingleFamily (Some (" , A ," +:+ String "009" " ,,B")) [] = ["A"; "B"].
Proof. reflexivity. Qed.

Example parse_unmatched_quote :
  SplitIntoSingleFamily (Some (String dquote "A, B" +:+ lone_quote)) []
  = [String dquote "A"; "B" +:+ lone_quote].
Proof. reflexivity. Qed.

(** C6.  On the input that is one double quote the parser returns no name:
    the quote is taken for an opening and a closing quote at once and the
    token is dropped as empty.  The parser of the specification keeps the
    unmatched quote as a name. *)
Theorem SplitIntoSingleFamily_lone_quote :
  SplitIntoSingleFamily (Some lone_quote) [] = []
  ∧ parse lone_quote = [lone_quote].
Proof. split; reflexivity. Qed.

End Parser.

(** ** Registration of a variant *)

Section Registration.

Context {hdr : Headers} {ft : FreeType}.

Lemma NewFont_fresh file idx bold italic p_parent (s : filter_sys_t) :
  font_store s !! (NewFont file idx bold italic p_parent s).1 = None.
Proof.
  assert (Hfresh : font_store s !! fresh (dom (font_store s)) = None).
  { apply not_elem_of_dom, is_fresh. }
  unfold NewFont. destruct p_parent as [p|]; [|exact Hfresh].
  simpl. destruct (family_store s !! p); [|exact Hfresh].
  destruct (_ && _); exact Hfresh.
Qed.

(** What [AppendFont] writes: the family store and nothing else.  The
    parent has the font at the end of its list, and so has every family whose
    list ends where the list of the parent ended. *)
Lemma AppendFont_store (p : family_ptr) (fam : vlc_family_t) (p_font : font_ptr)
    (s : filter_sys_t) (q : family_ptr) :
  family_store s !! p = Some fam →
  family_store (AppendFont p fam p_font s) !! q
  = (λ other,
       if bool_decide (q = p) || same_end (p_fonts fam) (p_fonts other)
       then {| psz_name := psz_name other; p_fonts := p_fonts other ++ [p_font] |}
       else other) <$> family_store s !! q.
Proof.
  intros Hfam. unfold AppendFont, same_end.
  destruct (last (p_fonts fam)) as [p_last|] eqn:Hlast; simpl.
  - rewrite lookup_fmap.
    destruct (family_store s !! q) as [other|] eqn:Hq; [|done]. simpl.
    destruct (decide (q = p)) as [->|Hne].
    + assert (other = fam) as -> by congruence.
      rewrite bool_decide_eq_true_2 by done. simpl.
      by rewrite decide_True by done.
    + rewrite (bool_decide_eq_false_2 (q = p)) by done. simpl.
      by destruct (decide (last (p_fonts other) = Some p_last));
        [rewrite bool_decide_eq_true_2|rewrite bool_decide_eq_false_2].
  - apply last_None in Hlast.
    destruct (decide (q = p)) as [->|Hne].
    + rewrite lookup_insert_eq, Hfam. simpl.
      rewrite bool_decide_eq_true_2 by done. simpl. by rewrite Hlast.
    + rewrite lookup_insert_ne by done.
      rewrite (bool_decide_eq_false_2 (q = p)) by done. simpl.
      by destruct (family_store s !! q).
Qed.

Lemma AppendFont_fields (p : family_ptr) (fam : vlc_family_t) (p_font : font_ptr)
    (s : filter_sys_t) :
  font_store (AppendFont p fam p_font s) = font_store s
  ∧ face_map (AppendFont p fam p_font s) = face_map s
  ∧ ft_faces (AppendFont p fam p_font s) = ft_faces s
  ∧ ft_next (AppendFont p fam p_font s) = ft_next s
  ∧ sys_log (AppendFont p fam p_font s) = sys_log s
  ∧ same_config s (AppendFont p fam p_font s).
Proof. unfold AppendFont. by destruct (last (p_fonts fam)). Qed.

(** [NewFont] for a family of the store. *)
Lemma NewFont_parent file idx bold italic (p : family_ptr) (fam : vlc_family_t)
    (s : filter_sys_t) :
  family_store s !! p = Some fam →
  let n := fresh (dom (font_store s)) in
  let s1 :=
    set_font_store
      (<[n := {| psz_fontfile := file; i_index := idx; b_bold := bold;
                 b_italic := italic; p_face := None |}]> (font_store s)) s in
  NewFont file idx bold italic (Some p) s
  = (n, if first_is_styled (p_fonts fam) s1 && negb bold && negb italic
        then set_p_fonts p fam (n :: p_fonts fam) s1
        else AppendFont p fam n s1).
Proof.
  intros Hfam n s1. unfold NewFont. fold n. fold s1.
  change (family_store s1) with (family_store s). rewrite Hfam.
  by destruct (first_is_styled (p_fonts fam) s1 && negb bold && negb italic).
Qed.

(** C9.  [NewFont] on a family allocates a font that was not in the store.
    If the first variant of the family is bold or italic and the new one is
    neither, the new one becomes the first; in every other case it becomes
    the last.  The variants already there keep their order, and a list that
    had regular faces first still has.  Another family keeps its name and
    its list, but for a family whose list ends in the record the list of
    the parent ended in: when the font goes to the end, it goes to the end
    of that list too. *)
Theorem NewFont_keeps_regular_first file idx bold italic
    (p : family_ptr) (fam : vlc_family_t) (s : filter_sys_t) :
  family_store s !! p = Some fam →
  fonts_valid (p_fonts fam) s →
  let p_font := (NewFont file idx bold italic (Some p) s).1 in
  let s' := (NewFont file idx bold italic (Some p) s).2 in
  let in_front := first_is_styled (p_fonts fam) s && negb bold && negb italic in
  font_store s !! p_font = None
  ∧ font_store s'
    = <[p_font := {| psz_fontfile := file; i_index := idx; b_bold := bold;
                     b_italic := italic; p_face := None |}]> (font_store s)
  ∧ family_fonts p s'
    = (if in_front then p_font :: p_fonts fam else p_fonts fam ++ [p_font])
  ∧ (∀ q other, q ≠ p → family_store s !! q = Some other →
       family_store s' !! q
       = Some {| psz_name := psz_name other;
                 p_fonts := if negb in_front && same_end (p_fonts fam) (p_fonts other)
                            then p_fonts other ++ [p_font]
                            else p_fonts other |})
  ∧ (∀ q, family_store s !! q = None → family_store s' !! q = None)
  ∧ (regular_first (p_fonts fam) s → regular_first (family_fonts p s') s').
Proof.
  intros Hfam Hvalid p_font s' in_front.
  pose proof (NewFont_fresh file idx bold italic (Some p) s) as Hfresh.
  fold p_font in Hfresh.
  set (n := fresh (dom (font_store s))).
  set (font := {| psz_fontfile := file; i_index := idx; b_bold := bold;
                  b_italic := italic; p_face := None |}).
  set (s1 := set_font_store (<[n := font]> (font_store s)) s).
  pose proof (NewFont_parent file idx bold italic p fam s Hfam) as Hnew0.
  cbv zeta in Hnew0. fold n font s1 in Hnew0.
  assert (Hn : p_font = n) by (subst p_font; by rewrite Hnew0).
  assert (Hold : ∀ q, q ∈ p_fonts fam → q ≠ n).
  { intros q Hq ->. unfold fonts_valid in Hvalid.
    rewrite Forall_forall in Hvalid. apply Hvalid in Hq as [f Hf]. congruence. }
  assert (Hhead : first_is_styled (p_fonts fam) s1 = first_is_styled (p_fonts fam) s).
  { destruct (p_fonts fam) as [|q rest] eqn:Hl; [done|]. simpl.
    rewrite lookup_insert_ne; [done|]. intros Heq. apply (Hold q); [by left|done]. }
  assert (Hs' : s' = if in_front then set_p_fonts p fam (n :: p_fonts fam) s1
                     else AppendFont p fam n s1).
  { subst s' in_front. by rewrite Hnew0, Hhead. }
  clearbody s' p_font. clear Hnew0.
  assert (Hplain : ∀ r, r ≠ n → is_plain r s' = is_plain r s).
  { intros r Hr. unfold is_plain. rewrite Hs'.
    destruct in_front; [simpl|rewrite (proj1 (AppendFont_fields _ _ _ _)); simpl];
      by rewrite lookup_insert_ne. }
  assert (Hnew : is_plain n s' = negb bold && negb italic).
  { unfold is_plain. rewrite Hs'.
    destruct in_front; [simpl|rewrite (proj1 (AppendFont_fields _ _ _ _)); simpl];
      by rewrite lookup_insert_eq. }
  assert (Hlist : family_fonts p s'
                  = if in_front then n :: p_fonts fam else p_fonts fam ++ [n]).
  { unfold family_fonts. rewrite Hs'. destruct in_front.
    - simpl. by rewrite lookup_insert_eq.
    - rewrite (AppendFont_store p fam n s1 p) by done.
      change (family_store s1) with (family_store s). rewrite Hfam. simpl.
      by rewrite bool_decide_eq_true_2. }
  rewrite Hn. split; [by rewrite <- Hn|]. split.
  { rewrite Hs'. destruct in_front; [done|].
    by rewrite (proj1 (AppendFont_fields _ _ _ _)). }
  split; [exact Hlist|]. split; [|split].
  - intros q other Hq Hother. rewrite Hs'. destruct in_front; simpl.
    + rewrite lookup_insert_ne by done. rewrite Hother. by destruct other.
    + rewrite (AppendFont_store p fam n s1 q) by done.
      change (family_store s1) with (family_store s). rewrite Hother. simpl.
      rewrite (bool_decide_eq_false_2 (q = p)) by done. simpl.
      destruct (same_end _ _); [done|by destruct other].
  - intros q Hq. rewrite Hs'. destruct in_front; simpl.
    + rewrite lookup_insert_ne; [done|congruence].
    + rewrite (AppendFont_store p fam n s1 q) by done.
      change (family_store s1) with (family_store s). by rewrite Hq.
  - rewrite Hlist. intros Hinv. destruct in_front eqn:Hfront.
    + intros _. exists n, (p_fonts fam). split; [done|]. rewrite Hnew.
      subst in_front. by apply andb_true_iff in Hfront as [[_ ->]%andb_true_iff ->].
    + intros (q & Hq & Hqplain).
      destruct (p_fonts fam) as [|h rest] eqn:Hl.
      * apply list_elem_of_singleton in Hq as ->. by exists n, [].
      * exists h, (rest ++ [n]). split; [done|].
        assert (Hh : h ≠ n) by (apply Hold; by left).
        rewrite Hplain by done.
        apply elem_of_app in Hq as [Hq|Hq].
        -- destruct Hinv as (h' & rest' & [= <- <-] & Hh'); [|done].
           exists q. split; [done|]. rewrite <- (Hplain q); [done|by apply Hold].
        -- apply list_elem_of_singleton in Hq as ->.
           rewrite Hnew in Hqplain. apply andb_true_iff in Hqplain as [Hb Hi].
           subst in_front. rewrite Hb, Hi, !andb_true_r in Hfront.
           simpl in Hfront.
           unfold fonts_valid in Hvalid. apply Forall_cons in Hvalid as [[f Hf] _].
           unfold is_plain. rewrite Hf in *.
           by apply orb_false_iff in Hfront as [-> ->].
Qed.

End Registration.

(** A plain face added to the sample family that has only a bold one goes
    to the front.  A bold face added to Arial goes to the end; where an entry
    of a fallback list holds the fonts of Arial, it goes to the end of the
    list of the entry too, and the family of Noto keeps its list. *)
Lemma NewFont_keeps_regular_first_witness :
  (let r := NewFont "impact.ttf" 0 false false (Some 7%positive) (Sample.sys 100 ∅) in
   family_fonts 7%positive r.2 = [r.1; 2%positive]
   ∧ regular_first (family_fonts 7%positive r.2) r.2)
  ∧ (let r := NewFont "arial-black.ttf" 0 true false (Some 1%positive)
                SampleLists.shared in
     family_fonts 1%positive r.2 = [1; 2; 3; 4; r.1]%positive
     ∧ family_store r.2 !! 9%positive
       = Some {| psz_name := "arial"; p_fonts := [1; 2; 3; 4; r.1]%positive |}
     ∧ family_store r.2 !! 3%positive
       = Some {| psz_name := "noto"; p_fonts := [6%positive] |}).
Proof.
  split.
  - destruct (NewFont_keeps_regular_first "impact.ttf" 0 false false 7%positive
                {| psz_name := "impact"; p_fonts := [2%positive] |}
                (Sample.sys 100 ∅))
      as (_ & _ & Hfonts & _ & _ & Hinv).
    + reflexivity.
    + repeat constructor. by eexists.
    + split; [exact Hfonts|]. apply Hinv.
      intros (q & ->%list_elem_of_singleton & Hq). discriminate Hq.
  - destruct (NewFont_keeps_regular_first "arial-black.ttf" 0 true false 1%positive
                {| psz_name := "arial"; p_fonts := [1; 2; 3; 4]%positive |}
                SampleLists.shared)
      as (_ & _ & Hfonts & Hothers & _).
    + reflexivity.
    + repeat constructor; by eexists.
    + split; [exact Hfonts|]. split.
      * by apply (Hothers 9%positive
                    {| psz_name := "arial"; p_fonts := [1; 2; 3; 4]%positive |}).
      * by apply (Hothers 3%positive
                    {| psz_name := "noto"; p_fonts := [6%positive] |}).
Defined.

(** ** The key of the face cache *)

Section FaceKey.

Lemma string_app_cons (x : ascii) (a b : string) :
  String x a +:+ b = String x (a +:+ b).
Proof. reflexivity. Qed.

Lemma string_app_nil_l (a : string) : EmptyString +:+ a = a.
Proof. reflexivity. Qed.

Lemma string_app_assoc (a b c : string) : (a +:+ b) +:+ c = a +:+ (b +:+ c).
Proof.
  induction a as [|x a IH]; [done|]. by rewrite !string_app_cons, IH.
Qed.

Lemma has_space_app (a b : string) :
  has_space (a +:+ b) = has_space a || has_space b.
Proof.
  induction a as [|x a IH]; [done|].
  rewrite string_app_cons. simpl. by rewrite IH, orb_assoc.
Qed.

Lemma pretty_N_go_no_space (x : N) (s : string) :
  has_space s = false → has_space (pretty_N_go x s) = false.
Proof.
  revert s. induction (N.lt_wf_0 x) as [x _ IH]; intros s Hs.
  destruct (decide (x = 0)%N) as [->|Hx]; [by rewrite pretty_N_go_0|].
  rewrite pretty_N_go_step by lia.
  apply IH; [apply N.div_lt; lia|].
  simpl. rewrite Hs, orb_false_r.
  unfold pretty_N_char. by repeat case_match.
Qed.

Lemma pretty_Z_no_space (z : Z) : has_space (pretty z) = false.
Proof.
  assert (HN : ∀ n : N, has_space (pretty n) = false).
  { intros n. unfold pretty, pretty_N. case_decide; [done|].
    by apply pretty_N_go_no_space. }
  destruct z as [|p|p]; [done|apply HN|].
  unfold pretty, pretty_Z. simpl. apply HN.
Qed.

(** A string is cut in one way only at its last separator. *)
Lemma separator_unique (a a' b b' : string) :
  has_space b = false → has_space b' = false →
  a +:+ " - " +:+ b = a' +:+ " - " +:+ b' → a = a' ∧ b = b'.
Proof.
  intros Hb Hb'.
  assert (Hhead : ∀ x y z, has_space y = false →
            " - " +:+ y = x +:+ " - " +:+ z → x = EmptyString).
  { intros x y z Hy Heq.
    destruct x as [|c1 [|c2 [|c3 x]]]; [done|..];
      rewrite ?string_app_cons, ?string_app_nil_l in Heq.
    - by injection Heq.
    - injection Heq as _ _ Heq. subst y. done.
    - injection Heq as _ _ _ Heq. subst y.
      rewrite has_space_app in Hy. simpl in Hy.
      by rewrite orb_true_r in Hy. }
  revert a'. induction a as [|c a IH]; intros a' Heq.
  - apply Hhead in Heq as Ha'; [|done]. subst a'.
    split; [done|]. rewrite !string_app_nil_l in Heq.
    by apply (inj (String.append " - ")) in Heq.
  - destruct a' as [|c' a'].
    + symmetry in Heq. by apply Hhead in Heq.
    + rewrite !string_app_cons in Heq. injection Heq as -> Heq.
      apply IH in Heq as [-> ->]. done.
Qed.

Lemma face_key_shape (file : string) (idx size width : Z) :
  face_key file idx size width
  = ((file +:+ " - " +:+ pretty idx) +:+ " - " +:+ pretty size)
    +:+ " - " +:+ pretty width.
Proof. unfold face_key. by rewrite !string_app_assoc. Qed.

Lemma face_key_inj (file file' : string) (idx idx' size size' width width' : Z) :
  face_key file idx size width = face_key file' idx' size' width' →
  file = file' ∧ idx = idx' ∧ size = size' ∧ width = width'.
Proof.
  rewrite !face_key_shape. intros Heq.
  apply separator_unique in Heq as [Heq Hw]; [|apply pretty_Z_no_space..].
  apply separator_unique in Heq as [Heq Hs]; [|apply pretty_Z_no_space..].
  apply separator_unique in Heq as [Heq Hi]; [|apply pretty_Z_no_space..].
  by apply (inj pretty) in Hw, Hs, Hi.
Qed.

End FaceKey.

(** ** Later states *)

Section Later.

Context {hdr : Headers} {ft : FreeType}.

Lemma same_config_refl (s : filter_sys_t) : same_config s s.
Proof. by split. Qed.

Lemma same_config_trans (s1 s2 s3 : filter_sys_t) :
  same_config s1 s2 → same_config s2 s3 → same_config s1 s3.
Proof. intros [] []. split; congruence. Qed.

Lemma same_config_size (s s' : filter_sys_t) (p_style : text_style_t) :
  same_config s s' → ConvertToLiveSize s' p_style = ConvertToLiveSize s p_style.
Proof. intros [Hh Hs _ _ _ _ _]. unfold ConvertToLiveSize. by rewrite Hh, Hs. Qed.

Lemma same_config_default_size (s s' : filter_sys_t) :
  same_config s s' → default_size s' = default_size s.
Proof.
  intros Hc. unfold default_size. rewrite (same_config_size s s') by done.
  by destruct Hc as [_ _ -> _ _ _ _].
Qed.

Lemma same_config_default_width (s s' : filter_sys_t) :
  same_config s s' → default_width s' = default_width s.
Proof.
  intros Hc. unfold default_width. rewrite (same_config_default_size s s') by done.
  by destruct Hc as [_ _ -> _ _ _ _].
Qed.

Lemma same_config_source (s s' : filter_sys_t) (file : string) :
  same_config s s' → source_of s' file = source_of s file.
Proof. intros [_ _ _ Ha _ _ _]. unfold source_of. by rewrite Ha. Qed.

Lemma same_config_covers (s s' : filter_sys_t) (f : vlc_font_t) (c : Z) :
  same_config s s' → font_covers s' f c = font_covers s f c.
Proof.
  intros Hc. unfold font_covers.
  by rewrite (same_config_source s s'), (same_config_default_size s s'),
    (same_config_default_width s s').
Qed.

Lemma same_font_refl (f : vlc_font_t) : same_font f f.
Proof. by repeat split. Qed.

Lemma same_font_trans (f1 f2 f3 : vlc_font_t) :
  same_font f1 f2 → same_font f2 f3 → same_font f1 f3.
Proof. unfold same_font. intros (?&?&?&?) (?&?&?&?). repeat split; congruence. Qed.

Lemma same_font_covers (s : filter_sys_t) (f f' : vlc_font_t) (c : Z) :
  same_font f f' → font_covers s f' c = font_covers s f c.
Proof. intros (Hfile & Hidx & _). unfold font_covers. by rewrite Hfile, Hidx. Qed.

Lemma later_refl (s : filter_sys_t) : later s s.
Proof.
  split.
  - apply same_config_refl.
  - done.
  - by exists [].
  - intros p f Hf. exists f. split; [done|]. split; [apply same_font_refl|done].
  - done.
  - intros q fam Hq. by exists fam.
  - done.
  - intros q fam fam' Hq Hq' Hempty. left. congruence.
Qed.

Lemma later_trans (s1 s2 s3 : filter_sys_t) : later s1 s2 → later s2 s3 → later s1 s3.
Proof.
  intros H12 H23. split.
  - eapply same_config_trans; [apply H12|apply H23].
  - etrans; [apply H12|apply H23].
  - destruct (later_log _ _ H12) as [e1 He1], (later_log _ _ H23) as [e2 He2].
    exists (e2 ++ e1). by rewrite He2, He1, app_assoc.
  - intros p f Hf.
    destruct (later_fonts _ _ H12 p f Hf) as (f2 & Hf2 & Hsame2 & Hface2).
    destruct (later_fonts _ _ H23 p f2 Hf2) as (f3 & Hf3 & Hsame3 & Hface3).
    exists f3. split; [done|]. split; [by eapply same_font_trans|].
    intros Hsome. rewrite <- (Hface2 Hsome). apply Hface3.
    by rewrite (Hface2 Hsome).
  - intros p Hp. by apply (later_fonts_dom _ _ H23), (later_fonts_dom _ _ H12).
  - intros q fam Hq.
    destruct (later_families _ _ H12 q fam Hq) as (fam2 & Hq2 & Hn2 & Hl2).
    destruct (later_families _ _ H23 q fam2 Hq2) as (fam3 & Hq3 & Hn3 & Hl3).
    exists fam3. split; [done|]. split; [congruence|].
    intros Hne. rewrite <- (Hl2 Hne). apply Hl3. by rewrite (Hl2 Hne).
  - intros q Hq. by apply (later_families_dom _ _ H23), (later_families_dom _ _ H12).
  - intros q fam fam3 Hq Hq3 Hempty.
    destruct (later_families _ _ H12 q fam Hq) as (fam2 & Hq2 & Hn2 & _).
    destruct (later_populated _ _ H12 q fam fam2 Hq Hq2 Hempty)
      as [Hempty2|(t & Hget & Hfonts2 & Hne2)].
    + destruct (later_populated _ _ H23 q fam2 fam3 Hq2 Hq3 Hempty2)
        as [?|(t & Hget & Hfonts3 & Hne3)]; [by left|].
      right. exists t. split; [|done].
      by rewrite <- (cfg_get_family _ _ (later_config _ _ H12)), <- Hn2.
    + right. exists t. split; [done|].
      destruct (later_families _ _ H23 q fam2 Hq2) as (fam3' & Hq3' & _ & Hkeep).
      assert (fam3' = fam3) as -> by congruence.
      rewrite (Hkeep Hne2). split; [|done].
      rewrite Hfonts2. symmetry.
      unfold family_fonts in *.
      destruct (family_store s2 !! t) as [famt|] eqn:Ht; [|by rewrite Hfonts2 in Hne2].
      destruct (later_families _ _ H23 t famt Ht) as (famt' & -> & _ & Hkeept).
      apply Hkeept. by rewrite <- Hfonts2.
Qed.

(** A message leaves everything but the log as it is. *)
Lemma later_log_event (e : event) (s : filter_sys_t) : later s (log_event e s).
Proof.
  split.
  - by split.
  - done.
  - by exists [e].
  - intros p f Hf. exists f. split; [done|]. split; [apply same_font_refl|done].
  - done.
  - intros q fam Hq. by exists fam.
  - done.
  - intros q fam fam' Hq Hq' Hempty. left. simpl in Hq'. congruence.
Qed.

Lemma later_covers (s s' : filter_sys_t) (p : font_ptr) (c : Z) :
  later s s' → is_Some (font_store s !! p) → covers s' p c = covers s p c.
Proof.
  intros Hl [f Hf]. unfold covers. rewrite Hf.
  destruct (later_fonts _ _ Hl p f Hf) as (f' & -> & Hsame & _).
  rewrite (same_config_covers s s') by apply Hl.
  by apply same_font_covers.
Qed.

End Later.

(** ** The face cache *)

Section FaceCache.

Context {hdr : Headers} {ft : FreeType}.

Lemma open_face_source (file : string) (idx : Z) (key : string) (s : filter_sys_t) :
  match source_of s file with
  | Some src => open_face file idx key s = creating key (ft_open src idx s)
  | None => ∃ msg, open_face file idx key s = (None, msg_Err msg s)
  end.
Proof.
  unfold open_face, source_of.
  destruct (String.prefix ":/" file).
  - destruct (_ || _); [by eexists|].
    destruct (pp_font_attachments s !! _); simpl; [done|by eexists].
  - destruct (WIN32 && _); [|done].
    destruct (DWrite_GetFontStream _); [done|by eexists].
Qed.

(** A hit returns the cached handle and leaves the state as it is. *)
Lemma LoadFace_hit (file : string) (idx : Z) (p_style : text_style_t)
    (s : filter_sys_t) (h : FT_Face) :
  face_map s !! face_key file idx (ConvertToLiveSize s p_style)
                  (live_width p_style (ConvertToLiveSize s p_style)) = Some h →
  LoadFace file idx p_style s = (Some h, s).
Proof. intros Hhit. unfold LoadFace. by rewrite Hhit. Qed.

(** A miss on a face that opens: a fresh handle is cached under the key,
    after one call that opens the source. *)
Lemma LoadFace_miss_opens (file : string) (idx : Z) (p_style : text_style_t)
    (s : filter_sys_t) (src : ft_source) :
  let size := ConvertToLiveSize s p_style in
  let width := live_width p_style size in
  let key := face_key file idx size width in
  face_map s !! key = None →
  source_of s file = Some src →
  source_opens src idx width size = true →
  ∃ s', LoadFace file idx p_style s = (Some (ft_next s), s')
        ∧ face_map s' = <[key := ft_next s]> (face_map s)
        ∧ ft_faces s' = <[ft_next s := loaded_face src idx width size]> (ft_faces s)
        ∧ ft_next s' = Pos.succ (ft_next s)
        ∧ sys_log s' = EvOpen src idx :: sys_log s
        ∧ font_store s' = font_store s
        ∧ family_store s' = family_store s
        ∧ same_config s s'.
Proof.
  intros size width key Hmiss Hsrc Hopens.
  unfold source_opens in Hopens.
  apply andb_true_iff in Hopens as [[Hopen Hcmap]%andb_true_iff Hsize].
  unfold LoadFace. fold size width key. rewrite Hmiss.
  pose proof (open_face_source file idx key s) as Hof. rewrite Hsrc in Hof.
  rewrite Hof. unfold ft_open. rewrite Hopen. simpl.
  unfold FT_Select_Charmap. simpl. rewrite lookup_insert_eq. simpl.
  rewrite Hcmap. simpl.
  unfold FT_Set_Pixel_Sizes. simpl. rewrite lookup_insert_eq. simpl.
  repeat (rewrite Hsize; simpl).
  eexists. split; [reflexivity|]. simpl.
  rewrite insert_insert_eq. by repeat split.
Qed.

(** A miss on a face that does not open: nothing is cached, the engine is
    left with the faces it had, and the log tells of the attempt. *)
Lemma LoadFace_miss_fails (file : string) (idx : Z) (p_style : text_style_t)
    (s : filter_sys_t) :
  let size := ConvertToLiveSize s p_style in
  let width := live_width p_style size in
  let key := face_key file idx size width in
  face_map s !! key = None →
  ft_faces s !! ft_next s = None →
  face_opens s file idx width size = false →
  ∃ s' events, LoadFace file idx p_style s = (None, s')
        ∧ face_map s' = face_map s
        ∧ ft_faces s' = ft_faces s
        ∧ (ft_next s <= ft_next s')%positive
        ∧ sys_log s' = events ++ sys_log s
        ∧ events ≠ []
        ∧ (∀ src, source_of s file = Some src → EvOpen src idx ∈ events)
        ∧ font_store s' = font_store s
        ∧ family_store s' = family_store s
        ∧ same_config s s'.
Proof.
  intros size width key Hmiss Hfresh Hfails.
  unfold face_opens in Hfails.
  unfold LoadFace. fold size width key. rewrite Hmiss.
  pose proof (open_face_source file idx key s) as Hof.
  destruct (source_of s file) as [src|] eqn:Hsrc.
  - rewrite Hof. unfold ft_open.
    unfold source_opens in Hfails.
    destruct (FT_Open src idx =? 0) eqn:Hopen; simpl.
    + unfold FT_Select_Charmap. simpl. rewrite lookup_insert_eq. simpl.
      destruct (FT_Select_Charmap_unicode src idx =? 0) eqn:Hcmap; simpl.
      * unfold FT_Set_Pixel_Sizes. simpl. rewrite lookup_insert_eq. simpl.
        simpl in Hfails. repeat (rewrite Hfails; simpl).
        eexists _, [_; _; _]. split; [reflexivity|]. simpl.
        rewrite delete_insert_id by done.
        repeat split; try done; try lia.
        intros ? [= <-]. set_solver.
      * eexists _, [_; _; _]. split; [reflexivity|]. simpl.
        rewrite delete_insert_id by done.
        repeat split; try done; try lia.
        intros ? [= <-]. set_solver.
    + eexists _, [_; _]. split; [reflexivity|]. simpl.
      repeat split; try done.
      intros ? [= <-]. set_solver.
  - destruct Hof as [msg ->].
    eexists _, [_]. split; [reflexivity|]. simpl. repeat split; done.
Qed.

Lemma later_same_stores (s s' : filter_sys_t) :
  same_config s s' → face_map s ⊆ face_map s' →
  (∃ events, sys_log s' = events ++ sys_log s) →
  font_store s' = font_store s → family_store s' = family_store s →
  later s s'.
Proof.
  intros Hc Hm Hl Hfonts Hfams. split; [done..| | | | |].
  - intros p f Hf. exists f. rewrite Hfonts.
    split; [done|]. split; [apply same_font_refl|done].
  - intros p. by rewrite Hfonts.
  - intros q fam Hq. exists fam. by rewrite Hfams.
  - intros q. by rewrite Hfams.
  - intros q fam fam' Hq. rewrite Hfams, Hq. intros [= <-] Hempty. by left.
Qed.

Lemma faces_wf_next_free (s : filter_sys_t) :
  faces_wf s → ft_faces s !! ft_next s = None.
Proof.
  intros Hwf. destruct (ft_faces s !! ft_next s) eqn:Hh; [|done].
  assert (ft_next s < ft_next s)%positive by (apply Hwf; by eexists). lia.
Qed.

(** [LoadFace] by cases, on a consistent state: it keeps the state
    consistent, touches neither store, and returns a face exactly when the
    face opens; the face it returns is cached under the key. *)
Lemma LoadFace_wf (file : string) (idx : Z) (p_style : text_style_t)
    (s s' : filter_sys_t) (r : option FT_Face) :
  let size := ConvertToLiveSize s p_style in
  let width := live_width p_style size in
  faces_wf s →
  LoadFace file idx p_style s = (r, s') →
  faces_wf s' ∧ later s s'
  ∧ font_store s' = font_store s ∧ family_store s' = family_store s
  ∧ (is_Some r ↔ face_opens s file idx width size = true)
  ∧ (∀ h, r = Some h → face_map s' !! face_key file idx size width = Some h).
Proof.
  intros size width Hwf Hload.
  set (key := face_key file idx size width).
  destruct (face_map s !! key) as [h|] eqn:Hkey.
  { rewrite (LoadFace_hit _ _ _ _ h) in Hload by done.
    injection Hload as <- <-.
    split; [done|]. split; [apply later_refl|]. do 2 (split; [done|]).
    split; [|by intros ? [= <-]].
    split; [intros _|by eexists].
    destruct (wf_cached _ Hwf _ _ _ _ _ Hkey) as (src & Hsrc & Hopens & _).
    unfold face_opens. by rewrite Hsrc. }
  pose proof (faces_wf_next_free s Hwf) as Hfree.
  destruct (face_opens s file idx width size) eqn:Hopens.
  - unfold face_opens in Hopens.
    destruct (source_of s file) as [src|] eqn:Hsrc; [|done].
    destruct (LoadFace_miss_opens file idx p_style s src Hkey Hsrc Hopens)
      as (s1 & Hload1 & Hmap & Hfaces & Hnext & Hlog & Hfonts & Hfams & Hcfg).
    rewrite Hload in Hload1. injection Hload1 as -> ->.
    fold size width key in Hmap, Hfaces.
    split; [|split; [|split; [done|split; [done|split]]]].
    + split.
      * intros file' idx' size' width' h.
        rewrite (same_config_source s s1) by done. rewrite Hmap, Hfaces.
        destruct (decide (key = face_key file' idx' size' width')) as [Heq|Hne].
        -- rewrite <- Heq, lookup_insert_eq. intros [= <-].
           apply face_key_inj in Heq as (<- & <- & <- & <-).
           exists src. by rewrite lookup_insert_eq.
        -- rewrite lookup_insert_ne by done. intros Hh.
           destruct (wf_cached _ Hwf _ _ _ _ _ Hh) as (src' & ? & ? & Hrec).
           exists src'. do 2 (split; [done|]).
           rewrite lookup_insert_ne; [done|]. intros <-. congruence.
      * intros key' h. rewrite Hmap, Hfaces.
        destruct (decide (key = key')) as [<-|Hne].
        -- rewrite lookup_insert_eq. intros [= <-]. by rewrite lookup_insert_eq.
        -- rewrite lookup_insert_ne by done. intros Hh.
           apply (wf_live _ Hwf) in Hh as [rec Hrec].
           rewrite lookup_insert_ne; [by eexists|]. intros <-. congruence.
      * assert (Hold : ∀ k h, face_map s !! k = Some h → h ≠ ft_next s).
        { intros k h Hh Heq. subst h.
          apply (wf_live _ Hwf) in Hh as [? ?]. congruence. }
        intros key1 key2 h. rewrite Hmap.
        destruct (decide (key = key1)) as [<-|Hne1];
          destruct (decide (key = key2)) as [<-|Hne2]; [done|..].
        -- rewrite lookup_insert_eq, lookup_insert_ne by done.
           intros [= <-] Hh. by destruct (Hold _ _ Hh).
        -- rewrite lookup_insert_eq, lookup_insert_ne by done.
           intros Hh [= <-]. by destruct (Hold _ _ Hh).
        -- rewrite !lookup_insert_ne by done. apply Hwf.
      * intros h. rewrite Hfaces, Hnext.
        destruct (decide (ft_next s = h)) as [<-|Hne]; [lia|].
        rewrite lookup_insert_ne by done. intros Hh.
        apply (wf_fresh _ Hwf) in Hh. lia.
      * intros p f h. rewrite Hfonts, Hmap.
        rewrite (same_config_default_size s s1), (same_config_default_width s s1)
          by done.
        intros Hf Hface. pose proof (wf_fonts _ Hwf _ _ _ Hf Hface) as Hh.
        rewrite lookup_insert_ne; [done|]. intros Heq. congruence.
    + apply later_same_stores; try done.
      * rewrite Hmap. by apply insert_subseteq.
      * exists [EvOpen src idx]. by rewrite Hlog.
    + split; [done|by eexists].
    + intros h [= <-]. rewrite Hmap. by rewrite lookup_insert_eq.
  - destruct (LoadFace_miss_fails file idx p_style s Hkey Hfree Hopens)
      as (s1 & events & Hload1 & Hmap & Hfaces & Hnext & Hlog & _ & _
          & Hfonts & Hfams & Hcfg).
    rewrite Hload in Hload1. injection Hload1 as -> ->.
    split; [|split; [|split; [done|split; [done|split]]]].
    + split.
      * intros file' idx' size' width' h.
        rewrite (same_config_source s s1) by done. rewrite Hmap, Hfaces.
        apply Hwf.
      * intros key' h. rewrite Hmap, Hfaces. apply Hwf.
      * intros key1 key2 h. rewrite Hmap. apply Hwf.
      * intros h. rewrite Hfaces. intros Hh. apply (wf_fresh _ Hwf) in Hh. lia.
      * intros p f h. rewrite Hfonts, Hmap.
        rewrite (same_config_default_size s s1), (same_config_default_width s s1)
          by done.
        apply Hwf.
    + apply later_same_stores; try done.
      * by rewrite Hmap.
      * by exists events.
    + split; [by intros [? ?]|done].
    + done.
Qed.

(** The steps of [LoadFace] on a miss do not touch the configuration. *)
Lemma open_face_config (file : string) (idx : Z) (key : string) (s : filter_sys_t) :
  same_config s (open_face file idx key s).2.
Proof.
  pose proof (open_face_source file idx key s) as Hof.
  destruct (source_of s file) as [src|].
  - rewrite Hof. unfold ft_open. by destruct (FT_Open src idx =? 0).
  - by destruct Hof as [msg ->].
Qed.

(** A face that [LoadFace] returns is in the cache under its key, whatever
    the state it ran in. *)
Lemma LoadFace_caches (file : string) (idx : Z) (p_style : text_style_t)
    (s s' : filter_sys_t) (h : FT_Face) :
  LoadFace file idx p_style s = (Some h, s') →
  same_config s s'
  ∧ face_map s' !! face_key file idx (ConvertToLiveSize s p_style)
                     (live_width p_style (ConvertToLiveSize s p_style)) = Some h.
Proof.
  unfold LoadFace.
  set (key := face_key _ _ _ _).
  destruct (face_map s !! key) as [h0|] eqn:Hkey.
  { intros [= <- <-]. split; [apply same_config_refl|done]. }
  pose proof (open_face_config file idx key s) as Hcfg.
  destruct (open_face file idx key s) as [[p_face|] s1]; [|done].
  destruct (negb (FT_Select_Charmap p_face s1 =? 0)); [done|].
  unfold FT_Set_Pixel_Sizes.
  destruct (ft_faces s1 !! p_face) as [r|]; [|done].
  destruct (FT_Set_Pixel_Sizes_err _ _ _ _ =? 0) eqn:Herr; simpl;
    rewrite Herr; simpl; [|done].
  intros [= <- <-]. simpl. split; [|by rewrite lookup_insert_eq].
  simpl in Hcfg. destruct Hcfg. by split.
Qed.

(** C7.  Once [LoadFace] has returned a face, every later call with the same
    file, face index, size and width returns that very handle and leaves the
    state, the log of the engine included, as it is: the source is not opened
    again.  A call for the same file and index whose size differs never
    returns that handle. *)
Theorem LoadFace_cache_identity (file : string) (idx : Z)
    (style1 style2 : text_style_t) (s s1 s2 : filter_sys_t) (h : FT_Face) :
  LoadFace file idx style1 s = (Some h, s1) →
  later s1 s2 →
  (ConvertToLiveSize s style2 = ConvertToLiveSize s style1 →
   live_width style2 (ConvertToLiveSize s style2)
   = live_width style1 (ConvertToLiveSize s style1) →
   LoadFace file idx style2 s2 = (Some h, s2))
  ∧ (faces_wf s2 →
     ConvertToLiveSize s style2 ≠ ConvertToLiveSize s style1 →
     ∀ h' s3, LoadFace file idx style2 s2 = (Some h', s3) → h' ≠ h).
Proof.
  intros Hload Hlater.
  apply LoadFace_caches in Hload as [Hcfg Hkey].
  assert (Hcfg2 : same_config s s2).
  { eapply same_config_trans; [done|apply Hlater]. }
  assert (Hkey2 : face_map s2 !! face_key file idx (ConvertToLiveSize s style1)
                    (live_width style1 (ConvertToLiveSize s style1)) = Some h).
  { eapply lookup_weaken; [done|apply Hlater]. }
  split.
  - intros Hsize Hwidth. apply LoadFace_hit.
    rewrite (same_config_size s s2) by done. by rewrite Hwidth, Hsize.
  - intros Hwf Hsize h' s3 Hload2 ->.
    destruct (face_map s2 !! face_key file idx (ConvertToLiveSize s2 style2)
                (live_width style2 (ConvertToLiveSize s2 style2))) as [h0|] eqn:Hhit.
    + rewrite (LoadFace_hit _ _ _ _ h0) in Hload2 by done.
      injection Hload2 as -> _.
      pose proof (wf_inj _ Hwf _ _ _ Hhit Hkey2) as Heq.
      apply face_key_inj in Heq as (_ & _ & Heq & _).
      rewrite (same_config_size s s2) in Heq by done. done.
    + destruct (LoadFace_wf file idx style2 s2 s3 (Some h) Hwf Hload2)
        as (_ & _ & _ & _ & [Hopens _] & _).
      unfold face_opens in Hopens.
      destruct (source_of s2 file) as [src|] eqn:Hsrc;
        [|by discriminate Hopens; eexists].
      destruct (LoadFace_miss_opens file idx style2 s2 src Hhit Hsrc)
        as (s4 & Hload4 & _); [by apply Hopens; eexists|].
      rewrite Hload2 in Hload4. injection Hload4 as Hh _.
      apply (wf_live _ Hwf) in Hkey2. apply (wf_fresh _ Hwf) in Hkey2. lia.
Qed.

(** C8.  When the key is not cached and the open fails (the name denotes no
    source, as with a bad attachment index, or the engine refuses to open the
    source, to select the Unicode charmap or to set the pixel sizes),
    [LoadFace] returns no face and caches nothing; and as long as the key
    stays out of the cache, a later call makes the attempt again, as the log
    shows, and fails again. *)
Theorem LoadFace_failure_not_cached (file : string) (idx : Z)
    (p_style : text_style_t) (s : filter_sys_t) :
  let size := ConvertToLiveSize s p_style in
  let width := live_width p_style size in
  let key := face_key file idx size width in
  faces_wf s →
  face_map s !! key = None →
  (source_of s file = None
   ∨ ∃ src, source_of s file = Some src
            ∧ (FT_Open src idx ≠ 0
               ∨ FT_Select_Charmap_unicode src idx ≠ 0
               ∨ FT_Set_Pixel_Sizes_err src idx (to_uint width) (to_uint size) ≠ 0)) →
  ∃ s1, LoadFace file idx p_style s = (None, s1)
        ∧ face_map s1 = face_map s
        ∧ faces_wf s1
        ∧ ∀ s2, later s1 s2 → faces_wf s2 → face_map s2 !! key = None →
            ∃ s3 events, LoadFace file idx p_style s2 = (None, s3)
                  ∧ face_map s3 = face_map s2
                  ∧ sys_log s3 = events ++ sys_log s2
                  ∧ events ≠ []
                  ∧ (∀ src, source_of s file = Some src → EvOpen src idx ∈ events).
Proof.
  intros size width key Hwf Hmiss Hcause.
  assert (Hfails : face_opens s file idx width size = false).
  { unfold face_opens, source_opens.
    destruct Hcause as [->|(src & -> & Hcause)]; [done|].
    apply not_true_is_false. rewrite !andb_true_iff, !Z.eqb_eq. tauto. }
  destruct (LoadFace_miss_fails file idx p_style s Hmiss
              (faces_wf_next_free s Hwf) Hfails)
    as (s1 & events & Hload & Hmap & _).
  exists s1. split; [done|]. split; [done|].
  destruct (LoadFace_wf file idx p_style s s1 None Hwf Hload) as (Hwf1 & Hl1 & _).
  split; [done|].
  intros s2 Hlater Hwf2 Hmiss2.
  assert (Hcfg : same_config s s2).
  { eapply same_config_trans; [apply Hl1|apply Hlater]. }
  pose proof (same_config_size s s2 p_style Hcfg) as Hsize.
  destruct (LoadFace_miss_fails file idx p_style s2) as
    (s3 & events2 & Hload3 & Hmap3 & _ & _ & Hlog3 & Hne3 & Hopen3 & _).
  - by rewrite Hsize.
  - by apply faces_wf_next_free.
  - rewrite Hsize. unfold face_opens.
    rewrite (same_config_source s s2) by done. exact Hfails.
  - exists s3, events2. do 4 (split; [done|]).
    intros src Hsrc. apply Hopen3.
    by rewrite (same_config_source s s2).
Qed.

(** An attachment index that is negative or not below the number of
    attachments denotes no source. *)
Lemma source_of_bad_attachment (s : filter_sys_t) (file : string) :
  String.prefix ":/" file = true →
  ¬ (0 <= atoi (string_drop 2 file) < Z.of_nat (length (pp_font_attachments s))) →
  source_of s file = None.
Proof.
  intros Hprefix Hbad. unfold source_of. rewrite Hprefix.
  destruct (atoi _ <? 0) eqn:Hneg; [done|].
  destruct (_ <=? atoi _) eqn:Hbig; [done|]. lia.
Qed.

(** A resolver that has loaded nothing is consistent. *)
Lemma faces_wf_fresh_state (s : filter_sys_t) :
  face_map s = ∅ → ft_faces s = ∅ →
  map_Forall (λ _ f, p_face f = None) (font_store s) →
  faces_wf s.
Proof.
  intros Hmap Hfaces Hfonts. split.
  - intros ?????. by rewrite Hmap, lookup_empty.
  - intros ??. by rewrite Hmap, lookup_empty.
  - intros ???. by rewrite Hmap, lookup_empty.
  - intros h. rewrite Hfaces, lookup_empty. by intros [? ?].
  - intros p f h Hf Hface. apply Hfonts in Hf. congruence.
Qed.

End FaceCache.

Section FaceCacheSample.

#[local] Existing Instances Sample.headers Sample.engine.

Lemma sample_faces_wf (scale : Z) (fallbacks : gmap string (list family_ptr)) :
  faces_wf (Sample.sys scale fallbacks).
Proof.
  apply faces_wf_fresh_state; [done..|].
  apply map_Forall_lookup. intros p f Hf.
  apply (map_Forall_lookup_1 (λ _ f, p_face f = None) Sample.fonts p f);
    [|exact Hf].
  apply (bool_decide_unpack _). by vm_compute.
Qed.

(** On the sample resolver: the face of [arial.ttf] loaded at the default
    size is returned again, after another file has been loaded, for an italic
    style of the same size, and the state stays as it is; at size 30 another
    handle is returned. *)
Lemma LoadFace_cache_identity_witness :
  let s1 := (LoadFace "arial.ttf" 0 (Sample.style 0 0) (Sample.sys 100 ∅)).2 in
  let s2 := (LoadFace "noto.ttf" 0 (Sample.style 0 0) s1).2 in
  LoadFace "arial.ttf" 0 (Sample.style 2 0) s2 = (Some 1%positive, s2)
  ∧ (LoadFace "arial.ttf" 0 (Sample.style 0 30) s2).1 ≠ Some 1%positive.
Proof.
  intros s1 s2.
  assert (Hload1 : LoadFace "arial.ttf" 0 (Sample.style 0 0) (Sample.sys 100 ∅)
                   = (Some 1%positive, s1)).
  { apply injective_projections; [by vm_compute|done]. }
  destruct (LoadFace_wf "arial.ttf" 0 (Sample.style 0 0) _ _ _
              (sample_faces_wf 100 ∅) Hload1) as (Hwf1 & _).
  destruct (LoadFace_wf "noto.ttf" 0 (Sample.style 0 0) s1 s2
              (LoadFace "noto.ttf" 0 (Sample.style 0 0) s1).1 Hwf1)
    as (Hwf2 & Hlater & _); [apply surjective_pairing|].
  destruct (LoadFace_cache_identity "arial.ttf" 0 (Sample.style 0 0)
              (Sample.style 2 0) _ s1 s2 1%positive Hload1 Hlater)
    as [Hsame _].
  destruct (LoadFace_cache_identity "arial.ttf" 0 (Sample.style 0 0)
              (Sample.style 0 30) _ s1 s2 1%positive Hload1 Hlater)
    as [_ Hother].
  split; [by apply Hsame|].
  intros Heq.
  apply (Hother Hwf2 ltac:(by vm_compute) 1%positive
           (LoadFace "arial.ttf" 0 (Sample.style 0 30) s2).2);
    [|done].
  rewrite <- Heq. apply surjective_pairing.
Defined.

(** On the sample resolver: [symbol.ttf] opens but has no Unicode charmap.
    Loading it fails and caches nothing, and the next call opens the file
    again. *)
Lemma LoadFace_failure_not_cached_witness :
  ∃ s1, LoadFace "symbol.ttf" 0 (Sample.style 0 0) (Sample.sys 100 ∅) = (None, s1)
        ∧ face_map s1 = ∅
        ∧ ∃ s3 events,
            LoadFace "symbol.ttf" 0 (Sample.style 0 0) s1 = (None, s3)
            ∧ face_map s3 = ∅
            ∧ sys_log s3 = events ++ sys_log s1
            ∧ EvOpen (FromFile "symbol.ttf") 0 ∈ events.
Proof.
  destruct (LoadFace_failure_not_cached "symbol.ttf" 0 (Sample.style 0 0)
              (Sample.sys 100 ∅) (sample_faces_wf 100 ∅))
    as (s1 & Hload & Hmap & Hwf1 & Hretry).
  - done.
  - right. exists (FromFile "symbol.ttf"). split; [done|].
    right. left. by vm_compute.
  - exists s1. split; [done|]. split; [done|].
    destruct (Hretry s1 (later_refl s1) Hwf1) as
      (s3 & events & Hload3 & Hmap3 & Hlog3 & _ & Hopen).
    + by rewrite Hmap.
    + exists s3, events. split; [done|]. split; [by rewrite Hmap3, Hmap|].
      split; [done|]. by apply Hopen.
Defined.

End FaceCacheSample.

(** ** The face of a font *)

Section FontFace.

Context {hdr : Headers} {ft : FreeType}.

(** On a consistent state, what the engine answers for a cached handle is
    what it answers for the source of the key. *)
Lemma FT_Get_Char_Index_cached (s : filter_sys_t) (file : string)
    (idx size width : Z) (h : FT_Face) (c : Z) :
  faces_wf s →
  face_map s !! face_key file idx size width = Some h →
  ∃ src, source_of s file = Some src
         ∧ source_opens src idx width size = true
         ∧ FT_Get_Char_Index h c s = FT_Char_Index src idx c.
Proof.
  intros Hwf Hh. destruct (wf_cached _ Hwf _ _ _ _ _ Hh) as (src & ? & ? & Hrec).
  exists src. do 2 (split; [done|]).
  unfold FT_Get_Char_Index. by rewrite Hrec.
Qed.

(** [GetFace] on a consistent state: it returns a face exactly when the font
    covers the codepoint, keeps the state consistent, and writes nothing but
    the face of the font, the cache and the log. *)
Lemma GetFace_wf (p : font_ptr) (c : Z) (s s' : filter_sys_t)
    (f : vlc_font_t) (r : option FT_Face) :
  faces_wf s →
  font_store s !! p = Some f →
  GetFace p c s = (r, s') →
  faces_wf s' ∧ later s s'
  ∧ family_store s' = family_store s
  ∧ (is_Some r ↔ font_covers s f c = true).
Proof.
  intros Hwf Hf. unfold GetFace. rewrite Hf.
  destruct (p_face f) as [h|] eqn:Hface.
  - pose proof (wf_fonts _ Hwf _ _ _ Hf Hface) as Hh.
    destruct (FT_Get_Char_Index_cached s _ _ _ _ h c Hwf Hh)
      as (src & Hsrc & Hopens & Hglyph).
    rewrite Hglyph.
    assert (Hcov : font_covers s f c = negb (FT_Char_Index src (i_index f) c =? 0)).
    { unfold font_covers. rewrite Hsrc. unfold default_width, default_size in *.
      by rewrite Hopens. }
    rewrite Hcov.
    destruct (negb _); intros [= <- <-];
      (split; [done|]; split; [apply later_refl|]; split; [done|]).
    + split; [done|by eexists].
    + split; [by intros [? ?]|done].
  - destruct (LoadFace (psz_fontfile f) (i_index f) (p_default_style s) s)
      as [r0 s1] eqn:Hload.
    destruct (LoadFace_wf _ _ _ _ _ _ Hwf Hload)
      as (Hwf1 & Hlater1 & Hfonts1 & Hfams1 & Hopens & Hcached).
    fold (default_size s) in Hopens, Hcached.
    fold (default_width s) in Hopens, Hcached.
    set (s2 := set_p_face p f r0 s1).
    assert (Hwf2 : faces_wf s2).
    { split; [apply Hwf1..|].
      intros q g h. simpl.
      change (default_size s2) with (default_size s1).
      change (default_width s2) with (default_width s1).
      rewrite (same_config_default_size s s1), (same_config_default_width s s1)
        by apply Hlater1.
      destruct (decide (p = q)) as [<-|Hne].
      - rewrite lookup_insert_eq. intros [= <-]. simpl. intros ->.
        by apply Hcached.
      - rewrite lookup_insert_ne by done. intros Hq Hg.
        pose proof (wf_fonts _ Hwf1 _ _ _ Hq Hg) as Hh.
        by rewrite (same_config_default_size s s1),
          (same_config_default_width s s1) in Hh by apply Hlater1. }
    assert (Hlater2 : later s s2).
    { split; [|apply Hlater1..| | |apply Hlater1|apply Hlater1|apply Hlater1].
      - destruct (later_config _ _ Hlater1). by split.
      - intros q g Hq. simpl.
        destruct (decide (p = q)) as [<-|Hne].
        + rewrite lookup_insert_eq. eexists. split; [done|].
          assert (g = f) as -> by congruence.
          split; [by repeat split|]. rewrite Hface. by intros [? ?].
        + rewrite lookup_insert_ne by done. rewrite Hfonts1.
          exists g. split; [done|]. split; [apply same_font_refl|done].
      - intros q Hq. simpl. rewrite lookup_insert_ne; [by rewrite Hfonts1|].
        intros <-. congruence. }
    assert (Hcov : font_covers s f c
                   = match r0 with
                     | Some h => negb (FT_Get_Char_Index h c s2 =? 0)
                     | None => false
                     end).
    { unfold font_covers. unfold face_opens in Hopens.
      destruct r0 as [h|].
      - destruct (FT_Get_Char_Index_cached s1 _ _ _ _ h c Hwf1 (Hcached h eq_refl))
          as (src & Hsrc & Hok & Hglyph).
        rewrite (same_config_source s s1) in Hsrc by apply Hlater1.
        rewrite Hsrc, Hok. simpl.
        change (FT_Get_Char_Index h c s2) with (FT_Get_Char_Index h c s1).
        by rewrite Hglyph.
      - destruct (source_of s (psz_fontfile f)) as [src|]; [|done].
        destruct (source_opens src _ _ _); [|done].
        by destruct Hopens as [_ [? ?]]. }
    rewrite Hcov. fold s2.
    destruct r0 as [h|].
    + destruct (negb _); intros [= <- <-];
        (split; [done|]; split; [done|]; split; [done|]).
      * split; [done|by eexists].
      * split; [by intros [? ?]|done].
    + intros [= <- <-]. split; [done|]. split; [done|]. split; [done|].
      split; [by intros [? ?]|done].
Qed.

End FontFace.

(** ** The best variant of a family *)

Section Scorer.

Context {hdr : Headers} {ft : FreeType}.

Lemma variant_score_later (s s' : filter_sys_t) (p : font_ptr)
    (bold italic : bool) (c : Z) :
  later s s' →
  variant_score s' p bold italic c = variant_score s p bold italic c.
Proof.
  intros Hl. unfold variant_score.
  destruct (font_store s !! p) as [f|] eqn:Hf.
  - destruct (later_fonts _ _ Hl p f Hf) as (f' & -> & Hsame & _).
    rewrite (same_config_covers s s') by apply Hl.
    rewrite (same_font_covers s f f') by done.
    destruct Hsame as (_ & _ & -> & ->). done.
  - by rewrite (later_fonts_dom _ _ Hl p Hf).
Qed.

Lemma variant_score_bounds (s : filter_sys_t) (p : font_ptr)
    (bold italic : bool) (c : Z) :
  0 <= variant_score s p bold italic c <= 1110.
Proof. unfold variant_score. repeat case_match; lia. Qed.

(** The score the loop computes for a variant is the score of the
    specification. *)
Lemma font_score_wf (p : font_ptr) (bold italic : bool) (c : Z)
    (s s' : filter_sys_t) (i_score : Z) :
  faces_wf s →
  font_score p bold italic c s = (i_score, s') →
  i_score = variant_score s p bold italic c
  ∧ faces_wf s' ∧ later s s' ∧ family_store s' = family_store s.
Proof.
  intros Hwf. unfold font_score, variant_score.
  destruct (font_store s !! p) as [f|] eqn:Hf.
  2:{ unfold GetFace. rewrite Hf.
      destruct (negb (c =? 0)); simpl; rewrite Hf; intros [= <- <-];
        (split; [done|]; split; [done|]; split; [apply later_refl|done]). }
  destruct (negb (c =? 0)) eqn:Hc; simpl.
  - destruct (GetFace p c s) as [r s1] eqn:Hget.
    destruct (GetFace_wf p c s s1 f r Hwf Hf Hget) as (Hwf1 & Hl1 & Hfam1 & Hcov).
    destruct (later_fonts _ _ Hl1 p f Hf) as (f' & Hf' & (_ & _ & Hb & Hi) & _).
    destruct r as [h|]; rewrite Hf', Hb, Hi.
    + rewrite (proj1 Hcov) by by eexists.
      intros [= <- <-]. split; [|done].
      destruct (eqb _ _), (eqb _ _); lia.
    + destruct (font_covers s f c); [by destruct Hcov as [_ [? ?]]|].
      intros [= <- <-]. split; [|done].
      destruct (eqb _ _), (eqb _ _); lia.
  - rewrite Hf. intros [= <- <-]. split; [|split; [done|]].
    + destruct (eqb _ _), (eqb _ _); lia.
    + split; [apply later_refl|done].
Qed.

(** The loop of [GetBestFont]: either no variant beats the score it starts
    with, or it ends on the first variant of maximal score. *)
Lemma GetBestFont_loop_wf (fonts : list font_ptr) (bold italic : bool) (c : Z)
    (best : option font_ptr) (best_score : Z) (s s' : filter_sys_t)
    (r : option font_ptr) :
  faces_wf s →
  GetBestFont_loop fonts bold italic c best best_score s = (r, s') →
  (faces_wf s' ∧ later s s' ∧ family_store s' = family_store s)
  ∧ ((r = best ∧ ∀ q, q ∈ fonts → variant_score s q bold italic c <= best_score)
     ∨ ∃ pre q post,
         fonts = pre ++ q :: post ∧ r = Some q
         ∧ best_score < variant_score s q bold italic c
         ∧ (∀ x, x ∈ pre →
              variant_score s x bold italic c < variant_score s q bold italic c)
         ∧ (∀ x, x ∈ post →
              variant_score s x bold italic c <= variant_score s q bold italic c)).
Proof.
  revert best best_score s.
  induction fonts as [|p rest IH]; intros best best_score s Hwf; simpl.
  { intros [= <- <-]. split; [split; [done|split; [apply later_refl|done]]|].
    left. split; [done|]. intros q Hq. by apply elem_of_nil in Hq. }
  destruct (font_score p bold italic c s) as [i_score s1] eqn:Hscore.
  destruct (font_score_wf p bold italic c s s1 i_score Hwf Hscore)
    as (-> & Hwf1 & Hl1 & Hfam1).
  assert (Hsame : ∀ q, q ∈ rest →
            variant_score s1 q bold italic c = variant_score s q bold italic c).
  { intros q _. by apply variant_score_later. }
  destruct (best_score <? variant_score s p bold italic c) eqn:Hlt; intros Hloop;
    destruct (IH _ _ _ Hwf1 Hloop)
      as [(Hwf' & Hl' & Hfam') [[-> Hle]|(pre & q & post & -> & -> & Hq & Hpre & Hpost)]];
    (split; [split; [done|split; [by eapply later_trans|congruence]]|]).
  - apply Z.ltb_lt in Hlt. right. exists [], p, rest.
    split; [done|]. split; [done|]. split; [done|].
    split; [intros x Hx; by apply elem_of_nil in Hx|].
    intros x Hx. rewrite <- (Hsame x Hx). by apply Hle.
  - apply Z.ltb_lt in Hlt. right. exists (p :: pre), q, post.
    assert (Hqin : q ∈ pre ++ q :: post) by (apply elem_of_app; right; by left).
    rewrite (Hsame q Hqin) in Hq, Hpre, Hpost.
    split; [done|]. split; [done|]. split; [lia|]. split.
    + intros x [->|Hx]%elem_of_cons; [lia|].
      rewrite <- (Hsame x) by (apply elem_of_app; by left). by apply Hpre.
    + intros x Hx.
      rewrite <- (Hsame x) by (apply elem_of_app; right; by right).
      by apply Hpost.
  - apply Z.ltb_ge in Hlt. left. split; [done|].
    intros x [->|Hx]%elem_of_cons; [done|].
    rewrite <- (Hsame x Hx). by apply Hle.
  - apply Z.ltb_ge in Hlt. right. exists (p :: pre), q, post.
    assert (Hqin : q ∈ pre ++ q :: post) by (apply elem_of_app; right; by left).
    rewrite (Hsame q Hqin) in Hq, Hpre, Hpost.
    split; [done|]. split; [done|]. split; [lia|]. split.
    + intros x [->|Hx]%elem_of_cons; [lia|].
      rewrite <- (Hsame x) by (apply elem_of_app; by left). by apply Hpre.
    + intros x Hx.
      rewrite <- (Hsame x) by (apply elem_of_app; right; by right).
      by apply Hpost.
Qed.

(** [GetBestFont] ends on the first variant of maximal score. *)
Lemma GetBestFont_first_maximal (p_family : family_ptr) (bold italic : bool)
    (c : Z) (s s' : filter_sys_t) (r : option font_ptr) :
  faces_wf s →
  GetBestFont p_family bold italic c s = (r, s') →
  (faces_wf s' ∧ later s s' ∧ family_store s' = family_store s)
  ∧ match family_fonts p_family s with
    | [] => r = None
    | _ => ∃ pre q post,
        family_fonts p_family s = pre ++ q :: post ∧ r = Some q
        ∧ (∀ x, x ∈ pre →
             variant_score s x bold italic c < variant_score s q bold italic c)
        ∧ (∀ x, x ∈ post →
             variant_score s x bold italic c <= variant_score s q bold italic c)
    end.
Proof.
  intros Hwf. unfold GetBestFont. intros Hloop.
  destruct (GetBestFont_loop_wf _ _ _ _ _ _ _ _ _ Hwf Hloop)
    as [Hstate Hcases].
  split; [done|].
  destruct (family_fonts p_family s) as [|p rest] eqn:Hfonts.
  - destruct Hcases as [[-> _]|(pre & q & post & Heq & _)]; [done|].
    by destruct pre.
  - destruct Hcases as [[-> Hle]|(pre & q & post & Heq & -> & _ & Hpre & Hpost)].
    + exists [], p, rest. split; [done|]. split; [done|].
      split; [intros x Hx; by apply elem_of_nil in Hx|].
      intros x Hx.
      pose proof (variant_score_bounds s p bold italic c).
      assert (variant_score s x bold italic c <= 0) by (apply Hle; by right).
      lia.
    + by exists pre, q, post.
Qed.

(** A variant that covers the codepoint outscores one that does not. *)
Lemma variant_score_covers (s : filter_sys_t) (p : font_ptr)
    (bold italic : bool) (c : Z) :
  c ≠ 0 →
  if covers s p c then 1000 <= variant_score s p bold italic c
  else variant_score s p bold italic c <= 110.
Proof.
  intros Hc. unfold covers, variant_score.
  destruct (font_store s !! p) as [f|]; [|lia].
  apply Z.eqb_neq in Hc. rewrite Hc. simpl.
  destruct (font_covers s f c); repeat case_match; lia.
Qed.

(** No variant of the family outscores the one [GetBestFont] returns. *)
Lemma GetBestFont_maximal (p_family : family_ptr) (bold italic : bool)
    (c : Z) (s s' : filter_sys_t) (r : option font_ptr) :
  faces_wf s →
  GetBestFont p_family bold italic c s = (r, s') →
  ∀ q, q ∈ family_fonts p_family s →
    ∃ best, r = Some best ∧ best ∈ family_fonts p_family s
            ∧ variant_score s q bold italic c
              <= variant_score s best bold italic c.
Proof.
  intros Hwf Hbest.
  destruct (GetBestFont_first_maximal _ _ _ _ _ _ _ Hwf Hbest)
    as [_ Hmax].
  destruct (family_fonts p_family s) as [|p rest] eqn:Hfonts.
  { intros q Hq. by apply elem_of_nil in Hq. }
  destruct Hmax as (pre & best & post & Heq & -> & Hpre & Hpost).
  rewrite Heq. intros q Hq. exists best. split; [done|].
  split; [apply elem_of_app; right; by left|].
  apply elem_of_app in Hq as [Hq|[->|Hq]%elem_of_cons]; [|lia|by apply Hpost].
  apply Hpre in Hq. lia.
Qed.

(** C3.  The variant [GetBestFont] returns has the highest score of its
    family, the score being 1000 for covering the codepoint asked for, plus
    100 for the bold flag asked for, plus 10 for the italic flag asked for.
    Hence, when one variant alone covers the codepoint, that variant is
    returned whatever the style asked for. *)
Theorem GetBestFont_highest_score (p_family : family_ptr) (bold italic : bool)
    (c : Z) (s s' : filter_sys_t) (r : option font_ptr) :
  faces_wf s →
  GetBestFont p_family bold italic c s = (r, s') →
  (∀ q, q ∈ family_fonts p_family s →
     ∃ best, r = Some best ∧ best ∈ family_fonts p_family s
             ∧ variant_score s q bold italic c
               <= variant_score s best bold italic c)
  ∧ (c ≠ 0 →
     ∀ q, q ∈ family_fonts p_family s → covers s q c = true →
          (∀ x, x ∈ family_fonts p_family s → x ≠ q → covers s x c = false) →
          r = Some q).
Proof.
  intros Hwf Hbest.
  pose proof (GetBestFont_maximal _ _ _ _ _ _ _ Hwf Hbest) as Hmax.
  split; [exact Hmax|].
  intros Hc q Hq Hcov Hothers.
  destruct (Hmax q Hq) as (best & -> & Hin & Hle).
  destruct (decide (best = q)) as [->|Hne]; [done|].
  pose proof (variant_score_covers s q bold italic c Hc) as Hhigh.
  pose proof (variant_score_covers s best bold italic c Hc) as Hlow.
  rewrite Hcov in Hhigh. rewrite (Hothers best Hin Hne) in Hlow. lia.
Qed.

Lemma GetBestFont_loop_some (fonts : list font_ptr) (bold italic : bool) (c : Z)
    (best : option font_ptr) (best_score : Z) (s : filter_sys_t) :
  is_Some best →
  is_Some (GetBestFont_loop fonts bold italic c best best_score s).1.
Proof.
  revert best best_score s.
  induction fonts as [|p rest IH]; intros best best_score s Hbest; simpl; [done|].
  destruct (font_score p bold italic c s) as [i_score s1].
  destruct (best_score <? i_score); by apply IH.
Qed.

(** C4.  For a family with at least one variant [GetBestFont] returns a
    variant.  The variant returned is the first of those that reach the
    highest score: every variant before it scores less, none after it scores
    more.  When every variant scores zero it is the first of the list. *)
Theorem GetBestFont_first_wins (p_family : family_ptr) (bold italic : bool)
    (c : Z) (s : filter_sys_t) :
  (family_fonts p_family s ≠ [] →
   is_Some (GetBestFont p_family bold italic c s).1)
  ∧ (faces_wf s →
     (∀ best, (GetBestFont p_family bold italic c s).1 = Some best →
        ∃ pre post,
          family_fonts p_family s = pre ++ best :: post
          ∧ (∀ x, x ∈ pre →
               variant_score s x bold italic c < variant_score s best bold italic c)
          ∧ (∀ x, x ∈ post →
               variant_score s x bold italic c <= variant_score s best bold italic c))
     ∧ ((∀ q, q ∈ family_fonts p_family s → variant_score s q bold italic c = 0) →
        (GetBestFont p_family bold italic c s).1 = head (family_fonts p_family s))).
Proof.
  split.
  - intros Hne. unfold GetBestFont. apply GetBestFont_loop_some.
    by destruct (family_fonts p_family s).
  - intros Hwf.
    destruct (GetBestFont p_family bold italic c s) as [r s'] eqn:Hbest.
    destruct (GetBestFont_first_maximal _ _ _ _ _ _ _ Hwf Hbest)
      as [_ Hmax].
    simpl. destruct (family_fonts p_family s) as [|p rest] eqn:Hfonts.
    { subst r. split; [done|]. done. }
    destruct Hmax as (pre & best & post & Heq & -> & Hpre & Hpost).
    split.
    + intros ? [= <-]. by exists pre, post.
    + intros Hzero. simpl. destruct pre as [|p' pre].
      * simpl in Heq. by injection Heq as ->.
      * simpl in Heq. injection Heq as -> Heq.
        assert (Hlt : variant_score s p' bold italic c
                      < variant_score s best bold italic c)
          by (apply Hpre; by left).
        rewrite (Hzero p') in Hlt by by left.
        rewrite (Hzero best) in Hlt
          by (right; rewrite Heq; apply elem_of_app; right; by left).
        lia.
Qed.

End Scorer.

Section ScorerSample.

#[local] Existing Instances Sample.headers Sample.engine.

Lemma sample_fonts_valid (scale : Z) (fallbacks : gmap string (list family_ptr))
    (p_family : family_ptr) :
  fonts_valid (family_fonts p_family (Sample.sys scale fallbacks))
    (Sample.sys scale fallbacks).
Proof.
  unfold fonts_valid, family_fonts. simpl.
  destruct (Sample.families !! p_family) as [fam|] eqn:Hfam; [|done].
  apply (map_Forall_lookup_1
           (λ _ fam, Forall (λ p, is_Some (Sample.fonts !! p)) (p_fonts fam))
           Sample.families p_family fam); [|exact Hfam].
  apply (bool_decide_unpack _). by vm_compute.
Qed.

(** The sample family Arial has a regular, a bold, an italic and a bold
    italic variant, and only the italic one (font 3) has a glyph for 20013:
    a request for the regular style and that codepoint selects it. *)
Lemma GetBestFont_highest_score_witness :
  (GetBestFont 1%positive false false 20013 (Sample.sys 100 ∅)).1 = Some 3%positive
  ∧ family_fonts 1%positive (Sample.sys 100 ∅) = [1; 2; 3; 4]%positive.
Proof.
  split; [|done].
  destruct (GetBestFont_highest_score 1%positive false false 20013
              (Sample.sys 100 ∅)
              (GetBestFont 1%positive false false 20013 (Sample.sys 100 ∅)).2
              (GetBestFont 1%positive false false 20013 (Sample.sys 100 ∅)).1
              (sample_faces_wf 100 ∅))
    as [_ Hdom]; [apply surjective_pairing|].
  apply (Hdom ltac:(done) 3%positive);
    [do 2 right; left|by vm_compute|].
  intros x Hx Hne. change (x ∈ [1; 2; 3; 4]%positive) in Hx.
  repeat (apply elem_of_cons in Hx as [->|Hx]; [first [done|by vm_compute]|]).
  by apply elem_of_nil in Hx.
Defined.

(** The sample family of two regular faces: both score alike for the letter
    A, and the first one (font 5) is returned. *)
Lemma GetBestFont_first_wins_witness :
  (GetBestFont 8%positive false false 65 (Sample.sys 100 ∅)).1 = Some 5%positive
  ∧ variant_score (Sample.sys 100 ∅) 5%positive false false 65
    = variant_score (Sample.sys 100 ∅) 1%positive false false 65
  ∧ family_fonts 8%positive (Sample.sys 100 ∅) = [5; 1]%positive.
Proof.
  destruct (GetBestFont_first_wins 8%positive false false 65 (Sample.sys 100 ∅))
    as [Hsome Hfirst].
  destruct Hsome as [best Hbest]; [done|].
  destruct Hfirst as [Hfirst _]; [apply sample_faces_wf|].
  destruct (Hfirst best Hbest) as (pre & post & Hsplit & Hpre & _).
  change (family_fonts 8%positive (Sample.sys 100 ∅)) with [5; 1]%positive in Hsplit.
  split; [|split; [by vm_compute|done]].
  rewrite Hbest. f_equal. clear Hbest Hfirst.
  destruct pre as [|a [|b pre]]; simpl in Hsplit; simplify_eq.
  - done.
  - exfalso.
    assert (Hlt : variant_score (Sample.sys 100 ∅) 5%positive false false 65
                  < variant_score (Sample.sys 100 ∅) 1%positive false false 65)
      by (apply Hpre; by left).
    by vm_compute in Hlt.
  - by destruct pre.
Defined.

End ScorerSample.

(** ** The fallback search *)

Section Fallbacks.

Context {hdr : Headers} {ft : FreeType}.

(** [GetFace] returns a face exactly when the font covers the codepoint,
    also for a pointer that is no font of the store. *)
Lemma GetFace_covers (p : font_ptr) (c : Z) (s s' : filter_sys_t)
    (r : option FT_Face) :
  faces_wf s → GetFace p c s = (r, s') →
  faces_wf s' ∧ later s s' ∧ family_store s' = family_store s
  ∧ (is_Some r ↔ covers s p c = true).
Proof.
  intros Hwf Hget. unfold covers.
  destruct (font_store s !! p) as [f|] eqn:Hf.
  - by apply (GetFace_wf p c s s' f r).
  - unfold GetFace in Hget. rewrite Hf in Hget. injection Hget as <- <-.
    split; [done|]. split; [apply later_refl|]. split; [done|].
    split; [by intros [? ?]|done].
Qed.

Lemma covers_later (s s' : filter_sys_t) (p : font_ptr) (c : Z) :
  later s s' → covers s' p c = covers s p c.
Proof.
  intros Hl. destruct (font_store s !! p) as [f|] eqn:Hf.
  - apply later_covers; [done|by eexists].
  - unfold covers. by rewrite Hf, (later_fonts_dom _ _ Hl p Hf).
Qed.

Lemma family_fonts_later (s s' : filter_sys_t) (q : family_ptr) :
  later s s' → family_fonts q s ≠ [] → family_fonts q s' = family_fonts q s.
Proof.
  intros Hl. unfold family_fonts.
  destruct (family_store s !! q) as [fam|] eqn:Hq; [|done].
  destruct (later_families _ _ Hl q fam Hq) as (fam' & -> & _ & Hfonts).
  apply Hfonts.
Qed.

Lemma first_covers_later (s s' : filter_sys_t) (q : family_ptr) (c : Z) :
  later s s' → family_fonts q s' = family_fonts q s →
  first_covers s' q c = first_covers s q c.
Proof.
  intros Hl Hsame. unfold first_covers. rewrite Hsame.
  destruct (family_fonts q s); [done|]. by apply covers_later.
Qed.

(** One entry of the list, on a consistent state: the entry gets the fonts
    it is tested with, no other family is written, and the answer is whether
    its first font covers the codepoint. *)
Lemma probe_fallback_wf (p : family_ptr) (c : Z) (s s' : filter_sys_t) (b : bool) :
  faces_wf s → probe_fallback p c s = (b, s') →
  faces_wf s' ∧ later s s'
  ∧ (∀ q, q ≠ p → family_store s' !! q = family_store s !! q)
  ∧ family_fonts p s' = fallback_fonts s p
  ∧ b = first_covers s' p c.
Proof.
  intros Hwf. unfold probe_fallback, fallback_fonts, first_covers.
  destruct (family_store s !! p) as [fam|] eqn:Hp.
  2:{ intros [= <- <-]. unfold family_fonts. rewrite Hp.
      split; [done|]. split; [apply later_refl|]. done. }
  assert (Hown : family_fonts p s = p_fonts fam) by (unfold family_fonts; by rewrite Hp).
  destruct (p_fonts fam) as [|p_font fonts] eqn:Hfonts.
  - destruct (pf_get_family s (psz_name fam)) as [p_temp|] eqn:Hget_temp.
    2:{ intros [= <- <-]. rewrite Hown.
        split; [done|]. split; [apply later_refl|]. done. }
    destruct (family_fonts p_temp s) as [|p_font fonts] eqn:Htemp.
    { intros [= <- <-]. rewrite Hown.
      split; [done|]. split; [apply later_refl|]. done. }
    set (s1 := set_p_fonts p fam (p_font :: fonts) s).
    assert (Hwf1 : faces_wf s1) by (split; apply Hwf).
    assert (Hl1 : later s s1).
    { split; [by split|done|by exists []| |done| | |].
      - intros q f Hq. exists f. split; [done|]. split; [apply same_font_refl|done].
      - intros q fam' Hq. simpl.
        destruct (decide (p = q)) as [<-|Hne].
        + rewrite lookup_insert_eq. eexists. split; [done|].
          assert (fam' = fam) as -> by congruence. by rewrite Hfonts.
        + rewrite lookup_insert_ne by done. by exists fam'.
      - intros q Hq. simpl. rewrite lookup_insert_ne; [done|]. intros <-. congruence.
      - intros q fam1 fam2 Hq. simpl.
        destruct (decide (p = q)) as [<-|Hne].
        + rewrite lookup_insert_eq. intros [= <-] _. simpl.
          assert (fam1 = fam) as -> by congruence.
          right. exists p_temp. split; [done|]. split; [|done].
          unfold family_fonts. simpl.
          destruct (decide (p = p_temp)) as [<-|Hne].
          * unfold family_fonts in Htemp. rewrite Hp, Hfonts in Htemp. done.
          * rewrite lookup_insert_ne by done. by rewrite <- Htemp.
        + rewrite lookup_insert_ne by done. intros Hq2 Hempty. left. congruence. }
    assert (Hp1 : family_fonts p s1 = p_font :: fonts).
    { unfold family_fonts. simpl. by rewrite lookup_insert_eq. }
    destruct (GetFace p_font c s1) as [r s2] eqn:Hget.
    destruct (GetFace_covers p_font c s1 s2 r Hwf1 Hget)
      as (Hwf2 & Hl2 & Hfam2 & Hcov).
    assert (Hp2 : family_fonts p s2 = p_font :: fonts).
    { unfold family_fonts in *. by rewrite Hfam2. }
    rewrite <- (covers_later s1 s2) in Hcov by done.
    intros Hres.
    assert (b = covers s2 p_font c ∧ s' = s2) as [-> ->].
    { destruct r; injection Hres as <- <-; (split; [|done]).
      - symmetry. apply Hcov. by eexists.
      - destruct (covers s2 p_font c); [|done]. by destruct Hcov as [_ [? ?]]. }
    split; [done|]. split; [by eapply later_trans|].
    split; [|by rewrite Hp2].
    intros q Hq. rewrite Hfam2. simpl. by rewrite lookup_insert_ne.
  - destruct (GetFace p_font c s) as [r s2] eqn:Hget.
    destruct (GetFace_covers p_font c s s2 r Hwf Hget)
      as (Hwf2 & Hl2 & Hfam2 & Hcov).
    assert (Hp2 : family_fonts p s2 = p_font :: fonts).
    { unfold family_fonts in *. by rewrite Hfam2. }
    rewrite <- (covers_later s s2) in Hcov by done.
    intros Hres.
    assert (b = covers s2 p_font c ∧ s' = s2) as [-> ->].
    { destruct r; injection Hres as <- <-; (split; [|done]).
      - symmetry. apply Hcov. by eexists.
      - destruct (covers s2 p_font c); [|done]. by destruct Hcov as [_ [? ?]]. }
    split; [done|]. split; [done|].
    split; [|by rewrite Hp2].
    intros q Hq. by rewrite Hfam2.
Qed.

(** The search keeps the state consistent and writes no family outside the
    list. *)
Lemma SearchFallbacks_frame (forest : list family_ptr) (c : Z)
    (s s' : filter_sys_t) (r : option family_ptr) :
  faces_wf s → SearchFallbacks forest c s = (r, s') →
  faces_wf s' ∧ later s s'
  ∧ (∀ q, q ∉ forest → family_store s' !! q = family_store s !! q).
Proof.
  revert s. induction forest as [|x rest IH]; intros s Hwf; simpl.
  { intros [= <- <-]. split; [done|]. split; [apply later_refl|done]. }
  destruct (probe_fallback x c s) as [b s1] eqn:Hprobe.
  destruct (probe_fallback_wf x c s s1 b Hwf Hprobe) as (Hwf1 & Hl1 & Hframe1 & _).
  destruct b.
  - intros [= <- <-]. split; [done|]. split; [done|].
    intros q Hq. apply Hframe1. intros ->. apply Hq. by left.
  - intros Hrest. destruct (IH s1 Hwf1 Hrest) as (Hwf' & Hl' & Hframe').
    split; [done|]. split; [by eapply later_trans|].
    intros q Hq. rewrite Hframe'; [apply Hframe1|].
    + intros ->. apply Hq. by left.
    + intros Hin. apply Hq. by right.
Qed.

Lemma family_fonts_same_record (s s' : filter_sys_t) (q : family_ptr) :
  family_store s' !! q = family_store s !! q → family_fonts q s' = family_fonts q s.
Proof. intros Heq. unfold family_fonts. by rewrite Heq. Qed.

(** An entry registered without fonts ends the search either still without
    fonts or with the fonts of the family the platform resolves for its
    name. *)
Lemma SearchFallbacks_populates (forest : list family_ptr) (c : Z)
    (s s' : filter_sys_t) (r : option family_ptr) :
  faces_wf s → NoDup forest → SearchFallbacks forest c s = (r, s') →
  ∀ q fam, family_store s !! q = Some fam → p_fonts fam = [] →
    family_fonts q s' = []
    ∨ (q ∈ forest
       ∧ ∃ p_temp, pf_get_family s (psz_name fam) = Some p_temp
                   ∧ family_fonts q s' = family_fonts p_temp s'
                   ∧ family_fonts q s' ≠ []).
Proof.
  revert s. induction forest as [|x rest IH]; intros s Hwf Hnodup; simpl.
  { intros [= <- <-] q fam Hq Hempty. left. unfold family_fonts. by rewrite Hq. }
  apply NoDup_cons in Hnodup as [Hx Hnodup].
  destruct (probe_fallback x c s) as [b s1] eqn:Hprobe.
  destruct (probe_fallback_wf x c s s1 b Hwf Hprobe)
    as (Hwf1 & Hl1 & Hframe1 & Hfonts1 & _).
  intros Hres q fam Hq Hempty.
  assert (Hends : later s1 s' ∧ (x ∉ rest → family_fonts x s' = family_fonts x s1)
                  ∧ (b = true → s' = s1)).
  { destruct b.
    - injection Hres as <- <-. split; [apply later_refl|done].
    - destruct (SearchFallbacks_frame rest c s1 s' r Hwf1 Hres) as (_ & Hl' & Hframe').
      split; [done|]. split; [|done].
      intros Hnot. apply family_fonts_same_record. by apply Hframe'. }
  destruct Hends as (Hl' & Hxsame & Hfound).
  destruct (decide (q = x)) as [->|Hne].
  - rewrite Hxsame, Hfonts1 by done. unfold fallback_fonts. rewrite Hq, Hempty.
    destruct (pf_get_family s (psz_name fam)) as [p_temp|] eqn:Hget; [|by left].
    destruct (family_fonts p_temp s) as [|p_font fonts] eqn:Htemp; [by left|].
    right. split; [by left|]. exists p_temp. split; [done|]. split; [|done].
    rewrite <- Htemp. symmetry. apply family_fonts_later.
    + by eapply later_trans.
    + by rewrite Htemp.
  - assert (Hq1 : family_store s1 !! q = Some fam) by (by rewrite Hframe1).
    destruct b.
    + rewrite (Hfound eq_refl). left. unfold family_fonts. by rewrite Hq1, Hempty.
    + destruct (IH s1 Hwf1 Hnodup Hres q fam Hq1 Hempty)
        as [Hnone|(Hin & p_temp & Hget & Hsame & Hsome)]; [by left|].
      right. split; [by right|]. exists p_temp.
      rewrite <- (cfg_get_family _ _ (later_config _ _ Hl1)). done.
Qed.

(** The fonts an entry is tested with do not change once there are some. *)
Lemma fallback_fonts_later (s s' : filter_sys_t) (q : family_ptr) :
  later s s' → fallback_fonts s q ≠ [] → fallback_fonts s' q = fallback_fonts s q.
Proof.
  intros Hl. unfold fallback_fonts.
  destruct (family_store s !! q) as [fam|] eqn:Hq; [|done].
  destruct (later_families _ _ Hl q fam Hq) as (fam' & Hq' & Hname & Hkeep).
  rewrite Hq'.
  destruct (p_fonts fam) as [|p_font fonts] eqn:Hfonts.
  - rewrite Hname, (cfg_get_family _ _ (later_config _ _ Hl)).
    destruct (pf_get_family s (psz_name fam)) as [t|] eqn:Hget; [|done].
    intros Hne.
    destruct (later_populated _ _ Hl q fam fam' Hq Hq' Hfonts)
      as [->|(t' & Hget' & Hpop & Hne')].
    + by apply family_fonts_later.
    + assert (t' = t) as -> by congruence.
      rewrite Hpop. destruct (family_fonts t s') eqn:Ht'; [done|].
      rewrite <- Ht'. by apply family_fonts_later.
  - intros _. rewrite Hkeep by done. done.
Qed.

Lemma fallback_covers_later (s s' : filter_sys_t) (q : family_ptr) (c : Z) :
  later s s' → fallback_covers s q c = true → fallback_covers s' q c = true.
Proof.
  intros Hl. unfold fallback_covers. intros Hcov.
  rewrite (fallback_fonts_later s s') by (by destruct (fallback_fonts s q)).
  destruct (fallback_fonts s q); [done|]. by rewrite (covers_later s s').
Qed.

(** The family the search returns is an entry of the list whose first font
    covers the codepoint. *)
Lemma SearchFallbacks_found (forest : list family_ptr) (c : Z)
    (s s' : filter_sys_t) (p : family_ptr) :
  faces_wf s → SearchFallbacks forest c s = (Some p, s') →
  p ∈ forest ∧ first_covers s' p c = true.
Proof.
  revert s. induction forest as [|x rest IH]; intros s Hwf; simpl; [done|].
  destruct (probe_fallback x c s) as [b s1] eqn:Hprobe.
  destruct (probe_fallback_wf x c s s1 b Hwf Hprobe) as (Hwf1 & _ & _ & _ & Hb).
  destruct b.
  - intros [= <- <-]. split; [by left|done].
  - intros Hrest. destruct (IH s1 Hwf1 Hrest). split; [by right|done].
Qed.

(** The search finds a family as soon as some entry, tested with its fonts,
    covers the codepoint. *)
Lemma SearchFallbacks_finds (forest : list family_ptr) (c : Z)
    (s : filter_sys_t) (q : family_ptr) :
  faces_wf s → q ∈ forest → fallback_covers s q c = true →
  is_Some (SearchFallbacks forest c s).1.
Proof.
  revert s. induction forest as [|x rest IH]; intros s Hwf Hq Hcov; simpl.
  { by apply elem_of_nil in Hq. }
  destruct (probe_fallback x c s) as [b s1] eqn:Hprobe.
  destruct (probe_fallback_wf x c s s1 b Hwf Hprobe)
    as (Hwf1 & Hl1 & _ & Hfonts & Hb).
  destruct b; [by eexists|].
  apply elem_of_cons in Hq as [->|Hq].
  - exfalso. unfold first_covers in Hb. unfold fallback_covers in Hcov.
    rewrite Hfonts in Hb. destruct (fallback_fonts s x); [done|].
    rewrite (covers_later s s1) in Hb by done. congruence.
  - apply IH; [done..|]. by apply (fallback_covers_later s s1).
Qed.

(** An entry with fonts is tested with its own. *)
Lemma fallback_fonts_own (s : filter_sys_t) (q : family_ptr) :
  family_fonts q s ≠ [] → fallback_fonts s q = family_fonts q s.
Proof.
  unfold fallback_fonts, family_fonts.
  destruct (family_store s !! q) as [fam|]; [|done].
  by destruct (p_fonts fam).
Qed.

(** What [probe_fallback] answers, in terms of the state it starts from. *)
Lemma probe_fallback_covers (p : family_ptr) (c : Z) (s s' : filter_sys_t) (b : bool) :
  faces_wf s → probe_fallback p c s = (b, s') → b = fallback_covers s p c.
Proof.
  intros Hwf Hprobe.
  destruct (probe_fallback_wf p c s s' b Hwf Hprobe) as (_ & Hl & _ & Hfonts & ->).
  unfold first_covers, fallback_covers. rewrite Hfonts.
  destruct (fallback_fonts s p); [done|]. by apply covers_later.
Qed.

(** The search, entry by entry, in terms of the state it starts from. *)
Lemma SearchFallbacks_inspected (forest : list family_ptr) (c : Z)
    (s s' : filter_sys_t) (r : option family_ptr) :
  faces_wf s → NoDup forest → SearchFallbacks forest c s = (r, s') →
  match r with
  | Some p =>
      ∃ pre post, forest = pre ++ p :: post
        ∧ first_covers s' p c = true
        ∧ (∀ q, q ∈ pre →
             first_covers s' q c = false ∧ fallback_covers s q c = false)
        ∧ (∀ q, q ∈ pre ++ [p] → fallback_fonts s q ≠ [] →
             family_fonts q s' = fallback_fonts s q)
        ∧ (∀ q, q ∉ pre ++ [p] → family_store s' !! q = family_store s !! q)
        ∧ (∀ post', SearchFallbacks (pre ++ p :: post') c s = (Some p, s'))
  | None =>
      (∀ q, q ∈ forest →
         first_covers s' q c = false ∧ fallback_covers s q c = false)
      ∧ (∀ q, q ∈ forest → fallback_fonts s q ≠ [] →
           family_fonts q s' = fallback_fonts s q)
      ∧ (∀ q, q ∉ forest → family_store s' !! q = family_store s !! q)
  end.
Proof.
  revert s. induction forest as [|x rest IH]; intros s Hwf Hnodup; simpl.
  { intros [= <- <-]. split; [|split; [|done]]; intros q Hq;
      by apply elem_of_nil in Hq. }
  apply NoDup_cons in Hnodup as [Hx Hnodup].
  destruct (probe_fallback x c s) as [b s1] eqn:Hprobe.
  pose proof (probe_fallback_covers x c s s1 b Hwf Hprobe) as Hcov.
  destruct (probe_fallback_wf x c s s1 b Hwf Hprobe)
    as (Hwf1 & Hl1 & Hframe1 & Hfonts1 & Hb).
  destruct b.
  - intros [= <- <-]. exists [], rest. split; [done|]. split; [done|].
    split; [intros q Hq; by apply elem_of_nil in Hq|]. split; [|split].
    + intros q ->%list_elem_of_singleton _. exact Hfonts1.
    + intros q Hq. apply Hframe1. intros ->. apply Hq. by left.
    + intros post'. simpl. by rewrite Hprobe.
  - intros Hrest.
    destruct (SearchFallbacks_frame rest c s1 s' r Hwf1 Hrest) as (_ & Hl' & Hframe').
    assert (Hxs' : family_store s' !! x = family_store s1 !! x) by by apply Hframe'.
    assert (Hxcov : first_covers s' x c = false).
    { rewrite Hb. apply first_covers_later; [done|].
      by apply family_fonts_same_record. }
    assert (Hxfonts : family_fonts x s' = fallback_fonts s x).
    { rewrite <- Hfonts1. by apply family_fonts_same_record. }
    assert (Hinit : ∀ q, fallback_covers s1 q c = false → fallback_covers s q c = false).
    { intros q Hq. destruct (fallback_covers s q c) eqn:Hsq; [|done].
      rewrite (fallback_covers_later s s1) in Hq by done. done. }
    assert (Hkeep : ∀ q, fallback_fonts s q ≠ [] →
              fallback_fonts s1 q ≠ [] ∧ fallback_fonts s1 q = fallback_fonts s q).
    { intros q Hq. rewrite (fallback_fonts_later s s1) by done. done. }
    specialize (IH s1 Hwf1 Hnodup Hrest).
    destruct r as [p|].
    + destruct IH as (pre & post & -> & Hp & Hpre & Hins & Hout & Hshort).
      exists (x :: pre), post. split; [done|]. split; [done|].
      split; [|split; [|split]].
      * intros q [->|Hq]%elem_of_cons; [done|].
        destruct (Hpre q Hq). split; [done|]. by apply Hinit.
      * intros q [->|Hq]%elem_of_cons Hne; [done|].
        destruct (Hkeep q Hne) as [Hne1 <-]. by apply Hins.
      * intros q Hq. rewrite Hout; [apply Hframe1|].
        -- intros ->. apply Hq. by left.
        -- intros Hin. apply Hq. by right.
      * intros post'. simpl. rewrite Hprobe. apply Hshort.
    + destruct IH as (Hnone & Hins & Hout). split; [|split].
      * intros q [->|Hq]%elem_of_cons; [done|].
        destruct (Hnone q Hq). split; [done|]. by apply Hinit.
      * intros q [->|Hq]%elem_of_cons Hne; [done|].
        destruct (Hkeep q Hne) as [Hne1 <-]. by apply Hins.
      * intros q Hq. rewrite Hout; [apply Hframe1|].
        -- intros ->. apply Hq. by left.
        -- intros Hin. apply Hq. by right.
Qed.

(** In a state whose resolved families are settled, the fonts an entry is
    tested with are the same in every state the search reaches. *)
Lemma fallback_fonts_settled (s s' : filter_sys_t) (q : family_ptr) :
  resolves_settled s → populated_from s s' →
  fallback_fonts s' q = fallback_fonts s q.
Proof.
  intros Hset [Hl Hpop].
  assert (Hfonts : ∀ t, (family_fonts t s = [] → fallback_fonts s t = []) →
            family_fonts t s' = family_fonts t s).
  { intros t Ht. destruct (Hpop t) as [Heq|Heq]; [done|].
    destruct (family_fonts t s) as [|h l] eqn:Hts.
    - by rewrite Heq, Ht.
    - rewrite Heq, <- Hts. apply fallback_fonts_own. by rewrite Hts. }
  destruct (family_fonts q s') as [|h l] eqn:Hqs'.
  - assert (Hqs : family_fonts q s = []).
    { destruct (family_fonts q s) as [|h l] eqn:Hq0; [done|].
      assert (Hne : family_fonts q s ≠ []) by (by rewrite Hq0).
      rewrite (family_fonts_later s s' q Hl Hne) in Hqs'. congruence. }
    unfold fallback_fonts. unfold family_fonts in Hqs, Hqs'.
    destruct (family_store s !! q) as [fam|] eqn:Hq.
    + destruct (later_families _ _ Hl q fam Hq) as (fam' & Hq' & Hname & _).
      rewrite Hq' in *. rewrite Hqs, Hqs', Hname.
      rewrite (cfg_get_family _ _ (later_config _ _ Hl)).
      destruct (pf_get_family s (psz_name fam)) as [t|] eqn:Hget; [|done].
      apply Hfonts. by apply (Hset (psz_name fam)).
    + by rewrite (later_families_dom _ _ Hl q Hq).
  - rewrite fallback_fonts_own by (by rewrite Hqs').
    rewrite Hqs'. destruct (Hpop q) as [Heq|Heq]; rewrite Hqs' in Heq.
    + symmetry. rewrite Heq. apply fallback_fonts_own. by rewrite <- Heq.
    + done.
Qed.

Lemma fallback_covers_settled (s s' : filter_sys_t) (q : family_ptr) (c : Z) :
  resolves_settled s → populated_from s s' →
  fallback_covers s' q c = fallback_covers s q c.
Proof.
  intros Hset Hpop. unfold fallback_covers.
  rewrite (fallback_fonts_settled s s') by done.
  destruct (fallback_fonts s q); [done|]. apply covers_later, Hpop.
Qed.

Lemma populated_from_refl (s : filter_sys_t) : populated_from s s.
Proof. split; [apply later_refl|by left]. Qed.

Lemma populated_from_step (s s1 s2 : filter_sys_t) :
  resolves_settled s → populated_from s s1 → later s1 s2 →
  (∀ q, family_fonts q s2 = family_fonts q s1
        ∨ family_fonts q s2 = fallback_fonts s1 q) →
  populated_from s s2.
Proof.
  intros Hset Hpop Hl Hstep. split; [by eapply later_trans; [apply Hpop|]|].
  intros q. destruct (Hstep q) as [->| ->].
  - apply Hpop.
  - right. by apply fallback_fonts_settled.
Qed.

(** A step that writes no family. *)
Lemma populated_from_same_store (s s1 s2 : filter_sys_t) :
  resolves_settled s → populated_from s s1 → later s1 s2 →
  family_store s2 = family_store s1 → populated_from s s2.
Proof.
  intros Hset Hpop Hl Hstore. apply (populated_from_step s s1 s2); [done..|].
  intros q. left. unfold family_fonts. by rewrite Hstore.
Qed.

(** From a state whose resolved families are settled, the search returns
    the first entry that covers the codepoint when tested with the fonts it
    is tested with in that state. *)
Lemma SearchFallbacks_settled (forest : list family_ptr) (c : Z)
    (s0 s s' : filter_sys_t) (r : option family_ptr) :
  resolves_settled s0 → populated_from s0 s → faces_wf s →
  SearchFallbacks forest c s = (r, s') →
  r = List.find (λ q, fallback_covers s0 q c) forest
  ∧ faces_wf s' ∧ populated_from s0 s'.
Proof.
  intros Hset. revert s. induction forest as [|x rest IH]; intros s Hpop Hwf; simpl.
  { by intros [= <- <-]. }
  destruct (probe_fallback x c s) as [b s1] eqn:Hprobe.
  pose proof (probe_fallback_covers x c s s1 b Hwf Hprobe) as Hcov.
  rewrite (fallback_covers_settled s0 s) in Hcov by done.
  destruct (probe_fallback_wf x c s s1 b Hwf Hprobe)
    as (Hwf1 & Hl1 & Hframe1 & Hfonts1 & _).
  assert (Hpop1 : populated_from s0 s1).
  { apply (populated_from_step s0 s s1); [done..|].
    intros q. destruct (decide (q = x)) as [->|Hne]; [by right|].
    left. apply family_fonts_same_record. by apply Hframe1. }
  rewrite <- Hcov. destruct b.
  - by intros [= <- <-].
  - by apply IH.
Qed.

(** C5.  On a consistent state and a list of distinct entries,
    [SearchFallbacks] returns the first entry whose first font covers the
    codepoint, and nothing if there is none; the entries after the one it
    returns are not looked at: they are not written, and the result and the
    final state are the same whatever follows.  An entry that had no fonts
    is given, before it is tested, the fonts of the family the platform
    resolves for its name: every entry the search comes to ends with the
    fonts it is tested with, its own or those of that family, whenever there
    are some.  When there are none the entry stays empty and the search goes
    on.  The entries passed over do not cover the codepoint with the fonts
    they are tested with at the start either; and when the families the
    platform resolves are settled, the entry returned is the first that
    covers it with those.  The search always ends, on a consistent state. *)
Theorem SearchFallbacks_first_covering (forest : list family_ptr) (c : Z)
    (s : filter_sys_t) :
  faces_wf s → NoDup forest →
  ∃ r s', SearchFallbacks forest c s = (r, s')
    ∧ faces_wf s'
    ∧ match r with
      | Some p =>
          ∃ pre post, forest = pre ++ p :: post
            ∧ first_covers s' p c = true
            ∧ (∀ q, q ∈ pre →
                 first_covers s' q c = false ∧ fallback_covers s q c = false)
            ∧ (∀ q, q ∈ pre ++ [p] → fallback_fonts s q ≠ [] →
                 family_fonts q s' = fallback_fonts s q)
            ∧ (∀ q, q ∉ pre ++ [p] → family_store s' !! q = family_store s !! q)
            ∧ (∀ post', SearchFallbacks (pre ++ p :: post') c s = (Some p, s'))
      | None =>
          (∀ q, q ∈ forest →
             first_covers s' q c = false ∧ fallback_covers s q c = false)
          ∧ (∀ q, q ∈ forest → fallback_fonts s q ≠ [] →
               family_fonts q s' = fallback_fonts s q)
          ∧ (∀ q, q ∉ forest → family_store s' !! q = family_store s !! q)
      end
    ∧ (∀ q fam, family_store s !! q = Some fam → p_fonts fam = [] →
         family_fonts q s' = []
         ∨ (q ∈ forest
            ∧ ∃ p_temp, pf_get_family s (psz_name fam) = Some p_temp
                        ∧ family_fonts q s' = family_fonts p_temp s'
                        ∧ family_fonts q s' ≠ []))
    ∧ (resolves_settled s →
       r = List.find (λ q, fallback_covers s q c) forest).
Proof.
  intros Hwf Hnodup.
  destruct (SearchFallbacks forest c s) as [r s'] eqn:Hsearch.
  exists r, s'. split; [done|].
  split; [by destruct (SearchFallbacks_frame forest c s s' r Hwf Hsearch)|].
  split; [by apply (SearchFallbacks_inspected forest c s)|].
  split; [by apply (SearchFallbacks_populates forest c s s' r)|].
  intros Hset.
  by destruct (SearchFallbacks_settled forest c s s s' r Hset
                 (populated_from_refl s) Hwf Hsearch).
Qed.

End Fallbacks.

Section FallbacksSample.

#[local] Existing Instances Sample.headers Sample.engine.

(** The sample platform resolves names to families with fonts only. *)
Lemma sample_resolves_settled (scale : Z)
    (fallbacks : gmap string (list family_ptr)) :
  resolves_settled (Sample.sys scale fallbacks).
Proof.
  intros name t Hget Hempty. exfalso. simpl in Hget. unfold Sample.get_family in Hget.
  repeat case_match; simplify_eq; by vm_compute in Hempty.
Qed.

(** On the sample resolver, a list of three entries: one without fonts that
    the platform does not know, one without fonts that the platform resolves
    to Noto, and the default family.  The search for the ideograph skips the
    first, which stays without fonts, gives the second the font of Noto and
    returns it; the third is not written, and the result and the state are
    those of the search on the first two entries alone. *)
Lemma SearchFallbacks_first_covering_witness :
  ∃ s', SearchFallbacks [4; 5; 2]%positive 20013 (Sample.sys 100 ∅)
        = (Some 5%positive, s')
        ∧ family_fonts 4%positive s' = []
        ∧ family_fonts 5%positive s' = [6%positive]
        ∧ family_store s' !! 2%positive = Sample.families !! 2%positive
        ∧ SearchFallbacks [4; 5]%positive 20013 (Sample.sys 100 ∅)
          = (Some 5%positive, s').
Proof.
  destruct (SearchFallbacks_first_covering [4; 5; 2]%positive 20013
              (Sample.sys 100 ∅) (sample_faces_wf 100 ∅))
    as (r & s' & Hsearch & _ & Hfirst & Hpop & Hexact).
  { apply (bool_decide_unpack _). by vm_compute. }
  rewrite (Hexact (sample_resolves_settled 100 ∅)) in Hsearch, Hfirst.
  change (List.find _ _) with (Some 5%positive) in Hsearch, Hfirst.
  clear Hexact. exists s'. split; [exact Hsearch|].
  destruct Hfirst as (pre & post & Heq & _ & _ & Hins & Hout & Hshort).
  assert (pre = [4%positive]) as ->.
  { clear -Heq. destruct pre as [|a [|b [|d pre]]]; simpl in Heq; simplify_eq;
      [done|by destruct pre]. }
  split; [|split; [|split]].
  - destruct (Hpop 4%positive {| psz_name := "ghost"; p_fonts := [] |})
      as [Hempty|(_ & p_temp & Hget & _)]; [done|done|exact Hempty|].
    by vm_compute in Hget.
  - rewrite (Hins 5%positive); [reflexivity|by right; left|by vm_compute].
  - apply (Hout 2%positive). simpl.
    apply (bool_decide_unpack _). by vm_compute.
  - apply (Hshort []).
Defined.

End FallbacksSample.

(** ** The tiered selection *)

Section Selection.

Context {hdr : Headers} {ft : FreeType}.

Lemma first_covers_GetFace (p : family_ptr) (p_font : font_ptr)
    (fonts : list font_ptr) (c : Z) (s s' : filter_sys_t) (h : FT_Face) :
  faces_wf s → family_fonts p s = p_font :: fonts →
  GetFace p_font c s = (Some h, s') →
  first_covers s' p c = true.
Proof.
  intros Hwf Hfonts Hget.
  destruct (GetFace_covers p_font c s s' (Some h) Hwf Hget) as (_ & Hl & Hfam & Hcov).
  unfold first_covers.
  rewrite (family_fonts_same_record s s') by by rewrite Hfam.
  rewrite Hfonts, (covers_later s s') by done.
  apply Hcov. by eexists.
Qed.

Lemma family_named_same_store (s s' : filter_sys_t) (q : family_ptr) (name : string) :
  family_store s' = family_store s → family_named s' q name = family_named s q name.
Proof. intros Heq. unfold family_named. by rewrite Heq. Qed.

Lemma first_covers_same_store (s s' : filter_sys_t) (q : family_ptr) (c : Z) :
  later s s' → family_store s' = family_store s →
  first_covers s' q c = first_covers s q c.
Proof.
  intros Hlater Heq. apply first_covers_later; [done|].
  unfold family_fonts. by rewrite Heq.
Qed.

Lemma SearchFontByFamilyName_wf (p_list : list family_ptr) (name : string)
    (c : Z) (s s' : filter_sys_t) (r : option family_ptr) :
  faces_wf s → SearchFontByFamilyName p_list name c s = (r, s') →
  faces_wf s' ∧ later s s'
  ∧ (∀ p, r = Some p → p ∈ p_list ∧ first_covers s' p c = true).
Proof.
  revert s. induction p_list as [|x rest IH]; intros s Hwf; simpl.
  { intros [= <- <-]. split; [done|]. split; [apply later_refl|done]. }
  assert (Hskip : SearchFontByFamilyName rest name c s = (r, s') →
    faces_wf s' ∧ later s s'
    ∧ (∀ p, r = Some p → p ∈ x :: rest ∧ first_covers s' p c = true)).
  { intros Hrest. destruct (IH s Hwf Hrest) as (? & ? & Hfound).
    split; [done|]. split; [done|]. intros p Hp.
    destruct (Hfound p Hp). split; [by right|done]. }
  destruct (family_store s !! x) as [fam|] eqn:Hx; [|done].
  destruct (strcasecmp_eq (psz_name fam) name); [|done].
  destruct (p_fonts fam) as [|p_font fonts] eqn:Hfonts; [done|].
  destruct (GetFace p_font c s) as [[h|] s1] eqn:Hget.
  - intros [= <- <-].
    destruct (GetFace_covers p_font c s s1 _ Hwf Hget) as (Hwf1 & Hl1 & _).
    split; [done|]. split; [done|]. intros p [= <-]. split; [by left|].
    apply (first_covers_GetFace x p_font fonts c s s1 h); [done| |done].
    unfold family_fonts. by rewrite Hx.
  - intros Hrest.
    destruct (GetFace_covers p_font c s s1 _ Hwf Hget) as (Hwf1 & Hl1 & _).
    destruct (IH s1 Hwf1 Hrest) as (? & ? & Hfound).
    split; [done|]. split; [by eapply later_trans|]. intros p Hp.
    destruct (Hfound p Hp). split; [by right|done].
Qed.

Lemma select_same_family_cons (name : string) (rest : list string) (c : Z)
    (s : filter_sys_t) :
  select_same_family (name :: rest) c s
  = let '(p_family, s1) :=
      match fallback_list FB_LIST_ATTACHMENTS s with
      | [] => (None, s)
      | p_fallbacks => SearchFontByFamilyName p_fallbacks name c s
      end in
    match p_family with
    | Some p => (Some p, s1)
    | None =>
        match pf_get_family s1 name with
        | Some p =>
            match family_fonts p s1 with
            | p_font :: _ =>
                match GetFace p_font c s1 with
                | (Some _, s2) => (Some p, s2)
                | (None, s2) => select_same_family rest c s2
                end
            | [] => select_same_family rest c s1
            end
        | None => select_same_family rest c s1
        end
    end.
Proof. reflexivity. Qed.

Lemma select_same_family_wf (families : list string) (c : Z)
    (s s' : filter_sys_t) (r : option family_ptr) :
  faces_wf s → select_same_family families c s = (r, s') →
  faces_wf s' ∧ later s s' ∧ (∀ p, r = Some p → first_covers s' p c = true).
Proof.
  revert s. induction families as [|name rest IH]; intros s Hwf.
  { intros [= <- <-]. split; [done|]. split; [apply later_refl|done]. }
  rewrite select_same_family_cons.
  destruct (match fallback_list FB_LIST_ATTACHMENTS s with
            | [] => (None, s) | _ => _ end) as [r1 s1] eqn:Hatt.
  assert (faces_wf s1 ∧ later s s1
          ∧ (∀ p, r1 = Some p → first_covers s1 p c = true))
    as (Hwf1 & Hl1 & Hfound).
  { destruct (fallback_list FB_LIST_ATTACHMENTS s) as [|x l].
    - injection Hatt as <- <-. split; [done|]. split; [apply later_refl|done].
    - destruct (SearchFontByFamilyName_wf _ _ _ _ _ _ Hwf Hatt) as (? & ? & Hfound).
      split; [done|]. split; [done|]. intros p Hp. by apply Hfound. }
  destruct r1 as [p|].
  { intros [= <- <-]. split; [done|]. split; [done|]. intros ? [= <-]. by apply Hfound. }
  assert (Hskip : ∀ s2, faces_wf s2 → later s1 s2 →
    select_same_family rest c s2 = (r, s') →
    faces_wf s' ∧ later s s' ∧ (∀ p, r = Some p → first_covers s' p c = true)).
  { intros s2 Hwf2 Hl2 Hrest. destruct (IH s2 Hwf2 Hrest) as (? & ? & ?).
    split; [done|]. split; [|done].
    eapply later_trans; [done|]. by eapply later_trans. }
  destruct (pf_get_family s1 name) as [p|]; [|by apply Hskip, later_refl].
  destruct (family_fonts p s1) as [|p_font fonts] eqn:Hfonts;
    [by apply Hskip, later_refl|].
  destruct (GetFace p_font c s1) as [[h|] s2] eqn:Hget;
    destruct (GetFace_covers p_font c s1 s2 _ Hwf1 Hget) as (Hwf2 & Hl2 & _).
  - intros [= <- <-]. split; [done|]. split; [by eapply later_trans|].
    intros ? [= <-]. by apply (first_covers_GetFace p p_font fonts c s1 s2 h).
  - by apply Hskip.
Qed.

Lemma SearchFallbacks_wf (forest : list family_ptr) (c : Z)
    (s s' : filter_sys_t) (r : option family_ptr) :
  faces_wf s → SearchFallbacks forest c s = (r, s') →
  faces_wf s' ∧ later s s'
  ∧ (∀ p, r = Some p → p ∈ forest ∧ first_covers s' p c = true).
Proof.
  intros Hwf Hsearch.
  destruct (SearchFallbacks_frame forest c s s' r Hwf Hsearch) as (? & ? & _).
  split; [done|]. split; [done|]. intros p ->.
  by apply (SearchFallbacks_found forest c s s' p).
Qed.

Lemma select_list_wf (key : string) (c : Z) (s s' : filter_sys_t)
    (r : option family_ptr) :
  faces_wf s →
  match fallback_list key s with
  | [] => (None, s)
  | p_fallbacks => SearchFallbacks p_fallbacks c s
  end = (r, s') →
  faces_wf s' ∧ later s s'
  ∧ (∀ p, r = Some p → p ∈ fallback_list key s ∧ first_covers s' p c = true).
Proof.
  intros Hwf. destruct (fallback_list key s) as [|x l].
  - intros [= <- <-]. split; [done|]. split; [apply later_refl|done].
  - by apply SearchFallbacks_wf.
Qed.

Lemma select_system_fallbacks_cons (get : string → Z → list family_ptr)
    (name : string) (rest : list string) (c : Z) (s : filter_sys_t) :
  select_system_fallbacks get (name :: rest) c s
  = match get name c with
    | [] => select_system_fallbacks get rest c s
    | p_fallbacks =>
        match SearchFallbacks p_fallbacks c s with
        | (Some p, s1) =>
            match family_fonts p s1 with
            | [] => select_system_fallbacks get rest c s1
            | _ => (Some p, s1)
            end
        | (None, s1) => select_system_fallbacks get rest c s1
        end
    end.
Proof. reflexivity. Qed.

Lemma select_system_fallbacks_wf (get : string → Z → list family_ptr)
    (families : list string) (c : Z) (s s' : filter_sys_t) (r : option family_ptr) :
  faces_wf s → select_system_fallbacks get families c s = (r, s') →
  faces_wf s' ∧ later s s' ∧ (∀ p, r = Some p → first_covers s' p c = true).
Proof.
  revert s. induction families as [|name rest IH]; intros s Hwf.
  { intros [= <- <-]. split; [done|]. split; [apply later_refl|done]. }
  rewrite select_system_fallbacks_cons.
  destruct (get name c) as [|x l]; [by apply IH|].
  destruct (SearchFallbacks (x :: l) c s) as [r0 s1] eqn:Hsearch.
  destruct (SearchFallbacks_wf _ _ _ _ _ Hwf Hsearch) as (Hwf1 & Hl1 & Hfound).
  assert (Hskip : select_system_fallbacks get rest c s1 = (r, s') →
    faces_wf s' ∧ later s s' ∧ (∀ p, r = Some p → first_covers s' p c = true)).
  { intros Hrest. destruct (IH s1 Hwf1 Hrest) as (? & ? & ?).
    split; [done|]. split; [by eapply later_trans|done]. }
  destruct r0 as [p|]; [|done].
  destruct (family_fonts p s1); [done|].
  intros [= <- <-]. split; [done|]. split; [done|].
  intros ? [= <-]. by apply Hfound.
Qed.

Lemma select_by_codepoint_wf (families : list string) (c : Z)
    (s s' : filter_sys_t) (r : option family_ptr) :
  faces_wf s → select_by_codepoint families c s = (r, s') →
  faces_wf s' ∧ later s s' ∧ (∀ p, r = Some p → first_covers s' p c = true).
Proof.
  intros Hwf. unfold select_by_codepoint.
  destruct (select_same_family families c s) as [r1 s1] eqn:H1.
  destruct (select_same_family_wf _ _ _ _ _ Hwf H1) as (Hwf1 & Hl1 & Hf1).
  destruct r1 as [p1|].
  { destruct (pf_get_fallbacks s1); intros [= <- <-]; by eauto. }
  unfold select_attachments.
  destruct (match fallback_list FB_LIST_ATTACHMENTS s1 with
            | [] => (None, s1) | _ => _ end) as [r2 s2] eqn:H2.
  destruct (select_list_wf _ _ _ _ _ Hwf1 H2) as (Hwf2 & Hl2 & Hf2).
  assert (Hl02 : later s s2) by by eapply later_trans.
  destruct r2 as [p2|].
  { destruct (pf_get_fallbacks s2); intros [= <- <-];
      (split; [done|]; split; [done|]; intros ? [= <-]; by apply Hf2). }
  assert (∃ r3 s3, match pf_get_fallbacks s2 with
                   | Some get => select_system_fallbacks get families c s2
                   | None => (None, s2)
                   end = (r3, s3)
          ∧ faces_wf s3 ∧ later s s3
          ∧ (∀ p, r3 = Some p → first_covers s3 p c = true))
    as (r3 & s3 & -> & Hwf3 & Hl3 & Hf3).
  { destruct (pf_get_fallbacks s2) as [get|].
    - destruct (select_system_fallbacks get families c s2) as [r3 s3] eqn:H3.
      destruct (select_system_fallbacks_wf _ _ _ _ _ _ Hwf2 H3) as (? & ? & ?).
      exists r3, s3. split; [done|]. split; [done|].
      split; [by eapply later_trans|done].
    - by exists None, s2. }
  destruct r3 as [p3|].
  { intros [= <- <-]. by eauto. }
  unfold select_default_list. intros H4.
  destruct (select_list_wf _ _ _ _ _ Hwf3 H4) as (Hwf4 & Hl4 & Hf4).
  split; [done|]. split; [by eapply later_trans|].
  intros p Hp. by apply Hf4.
Qed.

(** In a family whose first font covers the codepoint, the variant chosen
    covers it too, and the selection ends with its file and index. *)
Lemma select_in_family_covering (p : family_ptr) (bold italic : bool) (c : Z)
    (s : filter_sys_t) :
  faces_wf s → c ≠ 0 → first_covers s p c = true →
  ∃ q f s', select_in_family (Some p) bold italic c s
            = (Some (psz_fontfile f, i_index f), s')
    ∧ q ∈ family_fonts p s ∧ font_store s' !! q = Some f
    ∧ font_covers s f c = true ∧ faces_wf s' ∧ later s s'.
Proof.
  intros Hwf Hc Hfirst. unfold first_covers in Hfirst. unfold select_in_family.
  destruct (family_fonts p s) as [|h fonts] eqn:Hfonts; [done|].
  destruct (GetBestFont p bold italic c s) as [r s'] eqn:Hbest.
  destruct (GetBestFont_first_maximal _ _ _ _ _ _ _ Hwf Hbest) as [(Hwf' & Hl & _) _].
  pose proof (GetBestFont_maximal _ _ _ _ _ _ _ Hwf Hbest) as Hmax.
  rewrite Hfonts in Hmax.
  destruct (Hmax h) as (best & -> & Hin & Hle); [by left|].
  pose proof (variant_score_covers s h bold italic c Hc) as Hh.
  pose proof (variant_score_covers s best bold italic c Hc) as Hb.
  rewrite Hfirst in Hh.
  destruct (covers s best c) eqn:Hcov; [|lia].
  unfold covers in Hcov.
  destruct (font_store s !! best) as [f|] eqn:Hf; [|done].
  destruct (later_fonts _ _ Hl best f Hf) as (f' & Hf' & Hsame & _).
  rewrite Hf'. exists best, f', s'.
  split; [done|]. split; [done|]. split; [done|].
  split; [by rewrite (same_font_covers s f f')|done].
Qed.

(** With a codepoint, the file and index the selection returns are those of
    a font that covers it. *)
Lemma SelectFont_covers (families : list string) (p_style : text_style_t)
    (c : Z) (s s' : filter_sys_t) (file : string) (idx : Z) :
  c ≠ 0 → faces_wf s →
  SelectFontWithFamilyFallback families p_style c s = (Some (file, idx), s') →
  ∃ q f, font_store s' !! q = Some f ∧ psz_fontfile f = file
         ∧ i_index f = idx ∧ font_covers s f c = true.
Proof.
  intros Hc Hwf. unfold SelectFontWithFamilyFallback.
  apply Z.eqb_neq in Hc as Hc'. rewrite Hc'. simpl.
  destruct (select_by_codepoint families c s) as [[p|] s1] eqn:Hsbc; [|done].
  destruct (select_by_codepoint_wf families c s s1 (Some p) Hwf Hsbc)
    as (Hwfs1 & Hls1 & Hfs1).
  destruct (select_in_family_covering p
              (has_flag (i_style_flags p_style) STYLE_BOLD)
              (has_flag (i_style_flags p_style) STYLE_ITALIC)
              c s1 Hwfs1 Hc (Hfs1 p eq_refl))
    as (q & f & s'' & Heq & _ & Hq & Hcov & _).
  rewrite Heq. intros [= <- <- <-].
  exists q, f. do 3 (split; [done|]).
  by rewrite <- (same_config_covers s s1) by apply Hls1.
Qed.

(** The search by name, in terms of a state [s0] that has the same
    families. *)
Lemma SearchFontByFamilyName_find (p_list : list family_ptr) (name : string)
    (c : Z) (s0 s s' : filter_sys_t) (r : option family_ptr) :
  faces_wf s → later s0 s → family_store s = family_store s0 →
  SearchFontByFamilyName p_list name c s = (r, s') →
  r = List.find (λ p, family_named s0 p name && first_covers s0 p c) p_list
  ∧ faces_wf s' ∧ later s0 s' ∧ family_store s' = family_store s0.
Proof.
  revert s. induction p_list as [|x rest IH]; intros s Hwf Hl Hstore; simpl.
  { by intros [= <- <-]. }
  rewrite <- (family_named_same_store s0 s x name Hstore).
  rewrite <- (first_covers_same_store s0 s x c Hl Hstore).
  unfold family_named, first_covers, family_fonts.
  destruct (family_store s !! x) as [fam|] eqn:Hx; [|by apply IH].
  destruct (strcasecmp_eq (psz_name fam) name); [|by apply IH].
  destruct (p_fonts fam) as [|p_font fonts] eqn:Hfonts; [by apply IH|]. simpl.
  destruct (GetFace p_font c s) as [r1 s1] eqn:Hget.
  destruct (GetFace_covers p_font c s s1 r1 Hwf Hget) as (Hwf1 & Hl1 & Hfam1 & Hcov).
  destruct r1 as [h|].
  - intros [= <- <-]. rewrite (proj1 Hcov) by by eexists.
    split; [done|]. split; [done|].
    split; [by eapply later_trans|congruence].
  - assert (covers s p_font c = false) as ->.
    { destruct (covers s p_font c); [|done]. by destruct Hcov as [_ [? ?]]. }
    apply IH; [done|by eapply later_trans|congruence].
Qed.

(** The first step of the selection finds the family of the first tier. *)
Lemma select_same_family_tier (families : list string) (c : Z)
    (s0 s s' : filter_sys_t) (r : option family_ptr) :
  faces_wf s → later s0 s → family_store s = family_store s0 →
  select_same_family families c s = (r, s') →
  r = tier_same_family s0 families c
  ∧ faces_wf s' ∧ later s0 s' ∧ family_store s' = family_store s0.
Proof.
  revert s. induction families as [|name rest IH]; intros s Hwf Hl Hstore.
  { by intros [= <- <-]. }
  rewrite select_same_family_cons. simpl. unfold named_covering.
  assert (Hlist : fallback_list FB_LIST_ATTACHMENTS s
                  = fallback_list FB_LIST_ATTACHMENTS s0).
  { unfold fallback_list. by rewrite (cfg_fallback_map _ _ (later_config _ _ Hl)). }
  destruct (match fallback_list FB_LIST_ATTACHMENTS s with
            | [] => (None, s) | _ => _ end) as [r1 s1] eqn:Hatt.
  assert (r1 = List.find (λ p, family_named s0 p name && first_covers s0 p c)
                 (fallback_list FB_LIST_ATTACHMENTS s0)
          ∧ faces_wf s1 ∧ later s0 s1 ∧ family_store s1 = family_store s0)
    as (-> & Hwf1 & Hl1 & Hstore1).
  { rewrite <- Hlist. destruct (fallback_list FB_LIST_ATTACHMENTS s) as [|x l].
    - by injection Hatt as <- <-.
    - by apply (SearchFontByFamilyName_find (x :: l) name c s0 s s1). }
  destruct (List.find _ _) as [p|].
  { by intros [= <- <-]. }
  rewrite (cfg_get_family _ _ (later_config _ _ Hl1)).
  destruct (pf_get_family s0 name) as [p|]; [|by apply IH].
  unfold first_covers.
  rewrite (family_fonts_same_record s0 s1 p) by by rewrite Hstore1.
  destruct (family_fonts p s0) as [|p_font fonts]; [by apply IH|].
  destruct (GetFace p_font c s1) as [r2 s2] eqn:Hget.
  destruct (GetFace_covers p_font c s1 s2 r2 Hwf1 Hget) as (Hwf2 & Hl2 & Hfam2 & Hcov).
  rewrite <- (covers_later s0 s1) by done.
  destruct r2 as [h|].
  - intros [= <- <-]. rewrite (proj1 Hcov) by by eexists.
    split; [done|]. split; [done|].
    split; [by eapply later_trans|congruence].
  - assert (covers s1 p_font c = false) as ->.
    { destruct (covers s1 p_font c); [|done]. by destruct Hcov as [_ [? ?]]. }
    apply IH; [done|by eapply later_trans|congruence].
Qed.

(** The search of a list of the dictionary finds the family of its tier. *)
Lemma select_list_tier (key : string) (c : Z) (s0 s s' : filter_sys_t)
    (r : option family_ptr) :
  resolves_settled s0 → populated_from s0 s → faces_wf s →
  match fallback_list key s with
  | [] => (None, s)
  | p_fallbacks => SearchFallbacks p_fallbacks c s
  end = (r, s') →
  r = tier_list s0 key c ∧ faces_wf s' ∧ populated_from s0 s'.
Proof.
  intros Hset Hpop Hwf. unfold tier_list.
  assert (Hlist : fallback_list key s = fallback_list key s0).
  { unfold fallback_list.
    by rewrite (cfg_fallback_map _ _ (later_config _ _ (proj1 Hpop))). }
  rewrite <- Hlist. destruct (fallback_list key s) as [|x l].
  - by intros [= <- <-].
  - by apply SearchFallbacks_settled.
Qed.

(** The search of the fallbacks of the platform finds the family of the
    third tier. *)
Lemma select_system_fallbacks_tier (get : string → Z → list family_ptr)
    (families : list string) (c : Z) (s0 s s' : filter_sys_t)
    (r : option family_ptr) :
  resolves_settled s0 → populated_from s0 s → faces_wf s →
  select_system_fallbacks get families c s = (r, s') →
  r = tier_system_fallbacks s0 get families c
  ∧ faces_wf s' ∧ populated_from s0 s'.
Proof.
  intros Hset. revert s. induction families as [|name rest IH]; intros s Hpop Hwf.
  { by intros [= <- <-]. }
  rewrite select_system_fallbacks_cons. cbn [tier_system_fallbacks].
  destruct (get name c) as [|x l] eqn:Hget; [by apply IH|].
  destruct (SearchFallbacks (x :: l) c s) as [r0 s1] eqn:Hsearch.
  destruct (SearchFallbacks_settled _ _ _ _ _ _ Hset Hpop Hwf Hsearch)
    as (Hr0 & Hwf1 & Hpop1).
  destruct (SearchFallbacks_wf _ _ _ _ _ Hwf Hsearch) as (_ & _ & Hfound).
  rewrite <- Hr0. destruct r0 as [p|]; [|by apply IH].
  destruct (Hfound p eq_refl) as [_ Hcov]. unfold first_covers in Hcov.
  destruct (family_fonts p s1); [done|]. by intros [= <- <-].
Qed.

(** The block under [if( codepoint )] finds the family of the first tier
    that finds one. *)
Lemma select_by_codepoint_tiers (families : list string) (c : Z)
    (s s' : filter_sys_t) (r : option family_ptr) :
  resolves_settled s → faces_wf s →
  select_by_codepoint families c s = (r, s') →
  r = tiers s families c ∧ faces_wf s' ∧ populated_from s s'.
Proof.
  intros Hset Hwf. unfold select_by_codepoint, tiers.
  destruct (select_same_family families c s) as [r1 s1] eqn:H1.
  destruct (select_same_family_tier families c s s s1 r1 Hwf (later_refl s)
              eq_refl H1) as (<- & Hwf1 & Hl1 & Hstore1).
  assert (Hpop1 : populated_from s s1).
  { by apply (populated_from_same_store s s s1);
      [|apply populated_from_refl|..]. }
  destruct r1 as [p1|].
  { destruct (pf_get_fallbacks s1); by intros [= <- <-]. }
  unfold select_attachments.
  destruct (match fallback_list FB_LIST_ATTACHMENTS s1 with
            | [] => (None, s1) | _ => _ end) as [r2 s2] eqn:H2.
  destruct (select_list_tier _ _ _ _ _ _ Hset Hpop1 Hwf1 H2) as (<- & Hwf2 & Hpop2).
  destruct r2 as [p2|].
  { destruct (pf_get_fallbacks s2); by intros [= <- <-]. }
  rewrite (cfg_get_fallbacks _ _ (later_config _ _ (proj1 Hpop2))).
  assert (∃ r3 s3, match pf_get_fallbacks s with
                   | Some get => select_system_fallbacks get families c s2
                   | None => (None, s2)
                   end = (r3, s3)
          ∧ r3 = match pf_get_fallbacks s with
                 | Some get => tier_system_fallbacks s get families c
                 | None => None
                 end
          ∧ faces_wf s3 ∧ populated_from s s3)
    as (r3 & s3 & -> & <- & Hwf3 & Hpop3).
  { destruct (pf_get_fallbacks s) as [get|].
    - destruct (select_system_fallbacks get families c s2) as [r3 s3] eqn:H3.
      exists r3, s3. split; [done|].
      by apply (select_system_fallbacks_tier get families c s s2 s3 r3).
    - by exists None, s2. }
  destruct r3 as [p3|].
  { by intros [= <- <-]. }
  unfold select_default_list. intros H4.
  by apply (select_list_tier _ _ _ _ _ _ Hset Hpop3 Hwf3 H4).
Qed.

(** The fonts of a family that has some, in a state the selection has
    reached, are those it is tested with at the start. *)
Lemma populated_from_fonts (s s' : filter_sys_t) (p : family_ptr) :
  populated_from s s' → family_fonts p s' ≠ [] →
  family_fonts p s' = fallback_fonts s p.
Proof.
  intros [_ Hpop] Hne. destruct (Hpop p) as [Heq|Heq]; [|done].
  rewrite Heq. symmetry. apply fallback_fonts_own. by rewrite <- Heq.
Qed.

(** A list of the dictionary one of whose entries covers the codepoint, in
    a state [s0] before, is searched with success. *)
Lemma select_list_finds (key : string) (c : Z) (s0 s : filter_sys_t) :
  faces_wf s → later s0 s → is_Some (tier_list s0 key c) →
  is_Some (match fallback_list key s with
           | [] => (None, s)
           | p_fallbacks => SearchFallbacks p_fallbacks c s
           end).1.
Proof.
  intros Hwf Hl [q Hq]. apply find_some in Hq as [Hin Hcov].
  apply list_elem_of_In in Hin.
  assert (Hlist : fallback_list key s = fallback_list key s0).
  { unfold fallback_list. by rewrite (cfg_fallback_map _ _ (later_config _ _ Hl)). }
  rewrite Hlist. destruct (fallback_list key s0) as [|x l] eqn:Hkey.
  { by apply elem_of_nil in Hin. }
  apply (SearchFallbacks_finds (x :: l) c s q); [done..|].
  by apply (fallback_covers_later s0 s).
Qed.

Lemma select_system_fallbacks_finds (get : string → Z → list family_ptr)
    (families : list string) (c : Z) (s0 s : filter_sys_t) :
  faces_wf s → later s0 s →
  is_Some (tier_system_fallbacks s0 get families c) →
  is_Some (select_system_fallbacks get families c s).1.
Proof.
  revert s. induction families as [|name rest IH]; intros s Hwf Hl.
  { by intros [? ?]. }
  rewrite select_system_fallbacks_cons. cbn [tier_system_fallbacks].
  destruct (get name c) as [|x l] eqn:Hget; [by apply IH|].
  destruct (SearchFallbacks (x :: l) c s) as [r0 s1] eqn:Hsearch.
  destruct (SearchFallbacks_wf _ _ _ _ _ Hwf Hsearch) as (Hwf1 & Hl1 & Hfound).
  destruct r0 as [p|].
  - destruct (Hfound p eq_refl) as [_ Hcov]. unfold first_covers in Hcov.
    destruct (family_fonts p s1); [done|]. by eexists.
  - destruct (List.find _ (x :: l)) as [q|] eqn:Hfind.
    + apply find_some in Hfind as [Hin Hcov]. apply list_elem_of_In in Hin.
      assert (Hs : fallback_covers s q c = true) by by apply (fallback_covers_later s0 s).
      pose proof (SearchFallbacks_finds (x :: l) c s q Hwf Hin Hs) as [? Hsome].
      rewrite Hsearch in Hsome. done.
    + apply IH; [done|]. by eapply later_trans.
Qed.

(** When a tier can serve the request in the state the selection starts
    from, the block under [if( codepoint )] finds a family. *)
Lemma select_by_codepoint_finds (families : list string) (c : Z) (s : filter_sys_t) :
  faces_wf s → is_Some (tiers s families c) →
  is_Some (select_by_codepoint families c s).1.
Proof.
  intros Hwf. unfold select_by_codepoint, tiers.
  destruct (select_same_family families c s) as [r1 s1] eqn:H1.
  destruct (select_same_family_tier families c s s s1 r1 Hwf (later_refl s)
              eq_refl H1) as (<- & Hwf1 & Hl1 & Hstore1).
  destruct r1 as [p1|].
  { intros _. destruct (pf_get_fallbacks s1); by eexists. }
  unfold select_attachments.
  pose proof (select_list_finds FB_LIST_ATTACHMENTS c s s1 Hwf1 Hl1) as Hfinds2.
  destruct (match fallback_list FB_LIST_ATTACHMENTS s1 with
            | [] => (None, s1) | _ => _ end) as [r2 s2] eqn:H2.
  destruct (select_list_wf _ _ _ _ _ Hwf1 H2) as (Hwf2 & Hl2 & _).
  assert (Hl02 : later s s2) by by eapply later_trans.
  destruct r2 as [p2|].
  { intros _. destruct (pf_get_fallbacks s2); by eexists. }
  destruct (tier_list s FB_LIST_ATTACHMENTS c) as [q2|].
  { by destruct Hfinds2 as [? ?]; [by eexists|]. }
  rewrite (cfg_get_fallbacks _ _ (later_config _ _ Hl02)).
  assert (∃ r3 s3, match pf_get_fallbacks s with
                   | Some get => select_system_fallbacks get families c s2
                   | None => (None, s2)
                   end = (r3, s3)
          ∧ faces_wf s3 ∧ later s s3
          ∧ (r3 = None →
             match pf_get_fallbacks s with
             | Some get => tier_system_fallbacks s get families c
             | None => None
             end = None))
    as (r3 & s3 & -> & Hwf3 & Hl3 & Hnone3).
  { destruct (pf_get_fallbacks s) as [get|].
    - pose proof (select_system_fallbacks_finds get families c s s2 Hwf2 Hl02)
        as Hfinds3.
      destruct (select_system_fallbacks get families c s2) as [r3 s3] eqn:H3.
      destruct (select_system_fallbacks_wf _ _ _ _ _ _ Hwf2 H3) as (? & ? & _).
      exists r3, s3. split; [done|]. split; [done|].
      split; [by eapply later_trans|]. intros ->.
      destruct (tier_system_fallbacks s get families c); [|done].
      by destruct Hfinds3 as [? ?]; [by eexists|].
    - by exists None, s2. }
  destruct r3 as [p3|]; [intros _; by eexists|].
  rewrite Hnone3 by done. unfold select_default_list.
  by apply select_list_finds.
Qed.

(** C1.  With a codepoint, on a consistent state,
    [SelectFontWithFamilyFallback] serves the request from four tiers in
    their order.  The tiers are: the requested names, each as the attachment
    of that name or the family the platform resolves it to, if its first
    font covers the codepoint; the first entry of the attachment list that
    covers the codepoint; for the requested names in turn, the first entry
    of the fallbacks of the platform that covers it; the first entry of the
    default fallback list that covers it.  An answer is the file and the
    face index of a font that covers the codepoint, and there is an answer
    whenever a tier can serve the request in the state the selection starts
    from.  When the families the platform resolves are settled, the family
    used is the one the first tier that finds a family finds, whatever a
    later tier would find, and the answer is a variant of that family; in
    particular, when the first three tiers find nothing and an entry of the
    default list covers the codepoint, the request is served from the
    default list, and when no tier finds a family the answer is none. *)
Theorem SelectFont_tiers (families : list string) (p_style : text_style_t)
    (c : Z) (s : filter_sys_t) :
  c ≠ 0 → faces_wf s →
  let answer := (SelectFontWithFamilyFallback families p_style c s).1 in
  let tier3 :=
    match pf_get_fallbacks s with
    | Some get => tier_system_fallbacks s get families c
    | None => None
    end in
  let served (p : family_ptr) :=
    ∃ q f, q ∈ fallback_fonts s p ∧ font_store s !! q = Some f
           ∧ font_covers s f c = true
           ∧ answer = Some (psz_fontfile f, i_index f) in
  (∀ file idx, answer = Some (file, idx) →
     ∃ q f, font_store s !! q = Some f ∧ psz_fontfile f = file
            ∧ i_index f = idx ∧ font_covers s f c = true)
  ∧ (is_Some (tiers s families c) → is_Some answer)
  ∧ faces_wf (SelectFontWithFamilyFallback families p_style c s).2
  ∧ (resolves_settled s →
     (select_by_codepoint families c s).1 = tiers s families c
     ∧ match tiers s families c with
       | Some p => served p
       | None => answer = None
       end
     ∧ (tier_same_family s families c = None →
        tier_list s FB_LIST_ATTACHMENTS c = None → tier3 = None →
        ∀ q, q ∈ fallback_list FB_LIST_DEFAULT s → fallback_covers s q c = true →
             ∃ p, p ∈ fallback_list FB_LIST_DEFAULT s
                  ∧ fallback_covers s p c = true ∧ served p)
     ∧ (tier_same_family s families c = None →
        tier_list s FB_LIST_ATTACHMENTS c = None → tier3 = None →
        tier_list s FB_LIST_DEFAULT c = None → answer = None)).
Proof.
  intros Hc Hwf answer tier3 served.
  set (bold := has_flag (i_style_flags p_style) STYLE_BOLD).
  set (italic := has_flag (i_style_flags p_style) STYLE_ITALIC).
  assert (Hsel : SelectFontWithFamilyFallback families p_style c s
                 = match select_by_codepoint families c s with
                   | (None, s1) => (None, s1)
                   | (Some p, s1) => select_in_family (Some p) bold italic c s1
                   end).
  { unfold SelectFontWithFamilyFallback. apply Z.eqb_neq in Hc. by rewrite Hc. }
  pose proof (select_by_codepoint_finds families c s Hwf) as Hfinds.
  destruct (select_by_codepoint families c s) as [r s1] eqn:Hby.
  destruct (select_by_codepoint_wf families c s s1 r Hwf Hby) as (Hwf1 & Hl1 & Hfirst).
  assert (Hin : ∀ p, r = Some p →
            ∃ q f s', select_in_family (Some p) bold italic c s1
                      = (Some (psz_fontfile f, i_index f), s')
              ∧ q ∈ family_fonts p s1 ∧ font_store s' !! q = Some f
              ∧ font_covers s1 f c = true ∧ faces_wf s' ∧ later s1 s').
  { intros p ->. by apply select_in_family_covering, Hfirst. }
  split; [|split; [|split]].
  - intros file idx. subst answer. rewrite Hsel. destruct r as [p|]; [|done].
    destruct (Hin p eq_refl) as (q & f & s' & Heq & _ & Hf & Hcov & _ & Hl').
    rewrite Heq. intros [= <- <-].
    assert (Hl0 : later s s') by by eapply later_trans.
    destruct (font_store s !! q) as [f0|] eqn:Hf0.
    2:{ rewrite (later_fonts_dom _ _ Hl0 q Hf0) in Hf. done. }
    destruct (later_fonts _ _ Hl0 q f0 Hf0) as (f' & Hf' & Hsame & _).
    assert (f' = f) as -> by congruence.
    exists q, f0. split; [done|]. pose proof Hsame as (Hfile & Hidx & _).
    split; [done|]. split; [done|].
    rewrite <- (same_config_covers s s1) by apply Hl1.
    rewrite <- Hcov. symmetry. by apply same_font_covers.
  - intros Hsome. destruct (Hfinds Hsome) as [p Hp]. simpl in Hp. subst r.
    destruct (Hin p eq_refl) as (q & f & s' & Heq & _).
    subst answer. rewrite Hsel, Heq. by eexists.
  - rewrite Hsel. destruct r as [p|]; [|done].
    by destruct (Hin p eq_refl) as (q & f & s' & -> & _ & _ & _ & ? & _).
  - intros Hset.
    destruct (select_by_codepoint_tiers families c s s1 r Hset Hwf Hby)
      as (Hr & _ & Hpop1).
    assert (Hfound : match r with
                     | Some p => served p
                     | None => answer = None
                     end).
    { subst served answer. cbv beta. rewrite Hsel. destruct r as [p|]; [|done].
      destruct (Hin p eq_refl) as (q & f & s' & Heq & Hq & Hf & Hcov & Hwf' & Hl').
      rewrite Heq.
      assert (Hne : family_fonts p s1 ≠ []).
      { intros Hnil. rewrite Hnil in Hq. by apply elem_of_nil in Hq. }
      rewrite (populated_from_fonts s s1 p Hpop1 Hne) in Hq.
      assert (Hl0 : later s s') by by eapply later_trans.
      destruct (font_store s !! q) as [f0|] eqn:Hf0.
      2:{ rewrite (later_fonts_dom _ _ Hl0 q Hf0) in Hf. done. }
      destruct (later_fonts _ _ Hl0 q f0 Hf0) as (f' & Hf' & Hsame & _).
      assert (f' = f) as -> by congruence.
      exists q, f0. split; [done|]. split; [done|].
      destruct Hsame as (Hfile & Hidx & Hrest). split.
      - rewrite <- (same_config_covers s s1) by apply Hl1.
        rewrite <- Hcov. symmetry. by apply same_font_covers.
      - simpl. by rewrite Hfile, Hidx. }
    rewrite Hr in Hfound.
    split; [done|]. split; [exact Hfound|]. split.
    + intros H1 H2 H3 q Hq Hcov. unfold tiers in Hfound. fold tier3 in Hfound.
      rewrite H1, H2, H3 in Hfound.
      destruct (tier_list s FB_LIST_DEFAULT c) as [p|] eqn:H4.
      * apply find_some in H4 as [Hin4 Hp]. exists p.
        split; [by apply list_elem_of_In|]. by split.
      * exfalso. apply list_elem_of_In in Hq.
        pose proof (find_none _ _ H4 q Hq) as Hno. simpl in Hno. congruence.
    + intros H1 H2 H3 H4. unfold tiers in Hfound. fold tier3 in Hfound.
      by rewrite H1, H2, H3, H4 in Hfound.
Qed.

(** Without a codepoint no face is loaded: the scorer leaves the state as
    it is, and what it returns is a variant of the family. *)
Lemma GetBestFont_loop_no_codepoint (fonts : list font_ptr) (bold italic : bool)
    (best : option font_ptr) (best_score : Z) (s : filter_sys_t) :
  (GetBestFont_loop fonts bold italic 0 best best_score s).2 = s
  ∧ ((GetBestFont_loop fonts bold italic 0 best best_score s).1 = best
     ∨ ∃ q, q ∈ fonts
            ∧ (GetBestFont_loop fonts bold italic 0 best best_score s).1 = Some q).
Proof.
  revert best best_score.
  induction fonts as [|p rest IH]; intros best best_score; simpl; [by split; [|left]|].
  assert (Hscore : (font_score p bold italic 0 s).2 = s).
  { unfold font_score. simpl. by destruct (font_store s !! p). }
  destruct (font_score p bold italic 0 s) as [i_score s1]. simpl in Hscore. subst s1.
  destruct (best_score <? i_score).
  - destruct (IH (Some p) i_score) as [-> [->|(q & Hq & ->)]].
    + split; [done|]. right. exists p. split; [by left|done].
    + split; [done|]. right. exists q. split; [by right|done].
  - destruct (IH best best_score) as [-> [->|(q & Hq & ->)]].
    + split; [done|]. by left.
    + split; [done|]. right. exists q. split; [by right|done].
Qed.

(** Without a codepoint the scorer goes by the style alone: it ends on the
    first variant of the highest score. *)
Lemma GetBestFont_loop_style (fonts : list font_ptr) (bold italic : bool)
    (best : option font_ptr) (best_score : Z) (s : filter_sys_t) :
  let r := (GetBestFont_loop fonts bold italic 0 best best_score s).1 in
  (r = best ∧ ∀ q, q ∈ fonts → variant_score s q bold italic 0 <= best_score)
  ∨ ∃ pre q post,
      fonts = pre ++ q :: post ∧ r = Some q
      ∧ best_score < variant_score s q bold italic 0
      ∧ (∀ x, x ∈ pre →
           variant_score s x bold italic 0 < variant_score s q bold italic 0)
      ∧ (∀ x, x ∈ post →
           variant_score s x bold italic 0 <= variant_score s q bold italic 0).
Proof.
  revert best best_score.
  induction fonts as [|p rest IH]; intros best best_score; simpl.
  { left. split; [done|]. intros q Hq. by apply elem_of_nil in Hq. }
  assert (Hscore : font_score p bold italic 0 s = (variant_score s p bold italic 0, s)).
  { unfold font_score, variant_score. simpl.
    destruct (font_store s !! p) as [f|]; [|done].
    by destruct (eqb (b_bold f) bold), (eqb (b_italic f) italic). }
  rewrite Hscore.
  destruct (best_score <? variant_score s p bold italic 0) eqn:Hlt.
  - apply Z.ltb_lt in Hlt.
    destruct (IH (Some p) (variant_score s p bold italic 0))
      as [[-> Hle]|(pre & q & post & -> & -> & Hq & Hpre & Hpost)]; right.
    + exists [], p, rest. split; [done|]. split; [done|]. split; [done|].
      split; [intros x Hx; by apply elem_of_nil in Hx|done].
    + exists (p :: pre), q, post. split; [done|]. split; [done|]. split; [lia|].
      split; [|done]. intros x [->|Hx]%elem_of_cons; [lia|by apply Hpre].
  - apply Z.ltb_ge in Hlt.
    destruct (IH best best_score)
      as [[-> Hle]|(pre & q & post & -> & -> & Hq & Hpre & Hpost)].
    + left. split; [done|]. intros x [->|Hx]%elem_of_cons; [done|by apply Hle].
    + right. exists (p :: pre), q, post. split; [done|]. split; [done|].
      split; [done|]. split; [|done].
      intros x [->|Hx]%elem_of_cons; [lia|by apply Hpre].
Qed.

(** C2, as the code has it.  Without a codepoint the requested families play
    no part: the answer is the same for every list of names, and the family
    used is the default family as the platform resolves it.  The answer is
    none when the default family does not resolve or has no fonts.
    Otherwise it is the choice of the scorer in the default family: the file
    and the face index of the first variant of the highest score for the
    style, 100 for the weight asked for and 10 for the slant asked for. *)
Theorem SelectFont_no_codepoint (families : list string) (p_style : text_style_t)
    (s : filter_sys_t) :
  let bold := has_flag (i_style_flags p_style) STYLE_BOLD in
  let italic := has_flag (i_style_flags p_style) STYLE_ITALIC in
  (∀ families',
     SelectFontWithFamilyFallback families' p_style 0 s
     = SelectFontWithFamilyFallback families p_style 0 s)
  ∧ (pf_get_family s DEFAULT_FAMILY = None →
     (SelectFontWithFamilyFallback families p_style 0 s).1 = None)
  ∧ (∀ p, pf_get_family s DEFAULT_FAMILY = Some p → family_fonts p s = [] →
          (SelectFontWithFamilyFallback families p_style 0 s).1 = None)
  ∧ (∀ p, pf_get_family s DEFAULT_FAMILY = Some p →
          family_fonts p s ≠ [] → fonts_valid (family_fonts p s) s →
          ∃ pre q post f,
            family_fonts p s = pre ++ q :: post
            ∧ font_store s !! q = Some f
            ∧ (SelectFontWithFamilyFallback families p_style 0 s).1
              = Some (psz_fontfile f, i_index f)
            ∧ (∀ x, x ∈ pre →
                 variant_score s x bold italic 0 < variant_score s q bold italic 0)
            ∧ (∀ x, x ∈ post →
                 variant_score s x bold italic 0 <= variant_score s q bold italic 0)).
Proof.
  intros bold italic. split; [done|].
  unfold SelectFontWithFamilyFallback, select_in_family, GetBestFont. simpl.
  fold bold italic.
  destruct (pf_get_family s DEFAULT_FAMILY) as [p|]; [|done].
  destruct (GetBestFont_loop_no_codepoint (family_fonts p s) bold italic
              (head (family_fonts p s)) 0 s) as [Hstate _].
  pose proof (GetBestFont_loop_style (family_fonts p s) bold italic
                (head (family_fonts p s)) 0 s) as Hbest.
  cbv zeta in Hbest.
  destruct (GetBestFont_loop _ _ _ _ _ _ _) as [r s1]. simpl in Hstate, Hbest.
  subst s1. split; [done|split].
  - intros ? [= <-] Hnone. rewrite Hnone in Hbest.
    destruct Hbest as [[-> _]|(pre & q & post & Heq & _)]; [done|by destruct pre].
  - intros ? [= <-] Hne Hvalid.
    assert (Hscore : ∀ x, 0 <= variant_score s x bold italic 0).
    { intros x. unfold variant_score. simpl.
      destruct (font_store s !! x) as [f|]; [|done].
      by destruct (eqb (b_bold f) bold), (eqb (b_italic f) italic). }
    assert (∃ pre q post, family_fonts p s = pre ++ q :: post ∧ r = Some q
              ∧ (∀ x, x ∈ pre →
                   variant_score s x bold italic 0 < variant_score s q bold italic 0)
              ∧ (∀ x, x ∈ post →
                   variant_score s x bold italic 0 <= variant_score s q bold italic 0))
      as (pre & q & post & Heq & -> & Hpre & Hpost).
    { destruct Hbest as [[-> Hle]|(pre & q & post & Heq & -> & _ & Hpre & Hpost)].
      - destruct (family_fonts p s) as [|h l]; [done|].
        exists [], h, l. split; [done|]. split; [done|].
        split; [intros x Hx; by apply elem_of_nil in Hx|].
        intros x Hx. specialize (Hle x (list_elem_of_further _ _ _ Hx)).
        specialize (Hscore h). lia.
      - by exists pre, q, post. }
    unfold fonts_valid in Hvalid. rewrite Forall_forall in Hvalid.
    destruct (Hvalid q) as [f Hf].
    { rewrite Heq. apply elem_of_app. right. by left. }
    exists pre, q, post, f. by rewrite Hf.
Qed.

(** The selection keeps the state consistent. *)
Lemma select_in_family_wf (p_family : option family_ptr) (bold italic : bool)
    (c : Z) (s s' : filter_sys_t) (r : option (string * Z)) :
  faces_wf s → select_in_family p_family bold italic c s = (r, s') →
  faces_wf s' ∧ later s s'.
Proof.
  intros Hwf. unfold select_in_family.
  destruct (match p_family with
            | Some p => match family_fonts p s with
                        | [] => pf_get_family s DEFAULT_FAMILY
                        | _ => Some p
                        end
            | None => pf_get_family s DEFAULT_FAMILY
            end) as [p|].
  2:{ intros [= <- <-]. split; [done|apply later_refl]. }
  destruct (GetBestFont p bold italic c s) as [q s1] eqn:Hbest.
  destruct (GetBestFont_first_maximal _ _ _ _ _ _ _ Hwf Hbest) as [(? & ? & _) _].
  destruct q as [q|]; [destruct (font_store s1 !! q)|]; by intros [= <- <-].
Qed.

Lemma SelectFontWithFamilyFallback_wf (families : list string)
    (p_style : text_style_t) (c : Z) (s s' : filter_sys_t)
    (r : option (string * Z)) :
  faces_wf s → SelectFontWithFamilyFallback families p_style c s = (r, s') →
  faces_wf s' ∧ later s s'.
Proof.
  intros Hwf. unfold SelectFontWithFamilyFallback.
  destruct (negb (c =? 0)); [|by apply select_in_family_wf].
  destruct (select_by_codepoint families c s) as [[p|] s1] eqn:Hby;
    destruct (select_by_codepoint_wf _ _ _ _ _ Hwf Hby) as (Hwf1 & Hl1 & _).
  - intros Hin. destruct (select_in_family_wf _ _ _ _ _ _ _ Hwf1 Hin).
    split; [done|by eapply later_trans].
  - by intros [= <- <-].
Qed.

(** From the request to the face: with a codepoint, a face that
    [SelectAndLoadFace] returns has a glyph for it, and the state stays
    consistent. *)
Lemma SelectAndLoadFace_covers (p_style : text_style_t) (c : Z)
    (s s' : filter_sys_t) (r : option FT_Face) :
  faces_wf s → SelectAndLoadFace p_style c s = (r, s') →
  faces_wf s' ∧ later s s'
  ∧ (c ≠ 0 → ∀ h, r = Some h → FT_Get_Char_Index h c s' ≠ 0).
Proof.
  intros Hwf. unfold SelectAndLoadFace.
  destruct (SplitIntoSingleFamily _ []) as [|name names].
  { intros [= <- <-]. split; [done|]. split; [apply later_refl|done]. }
  destruct (SelectFontWithFamilyFallback (name :: names) p_style c s)
    as [sel s1] eqn:Hsel.
  destruct (SelectFontWithFamilyFallback_wf _ _ _ _ _ _ Hwf Hsel) as (Hwf1 & Hl1).
  assert (Hnone : (None, msg_Warn "SelectAndLoadFace: no font found" s1) = (r, s') →
    faces_wf s' ∧ later s s'
    ∧ (c ≠ 0 → ∀ h, r = Some h → FT_Get_Char_Index h c s' ≠ 0)).
  { intros [= <- <-]. split; [by split; apply Hwf1|].
    split; [|done]. eapply later_trans; [done|apply later_log_event]. }
  destruct sel as [[[|ch file] idx]|]; [done| |done].
  intros Hload.
  destruct (LoadFace_wf _ _ _ _ _ _ Hwf1 Hload) as (Hwf' & Hl' & _ & _ & _ & Hkey).
  split; [done|]. split; [by eapply later_trans|].
  intros Hc h ->.
  destruct (FT_Get_Char_Index_cached s' _ _ _ _ h c Hwf' (Hkey h eq_refl))
    as (src & Hsrc & _ & ->).
  destruct (SelectFont_covers _ _ _ _ _ _ _ Hc Hwf Hsel)
    as (q & f & _ & Hfile & Hidx & Hf).
  unfold font_covers in Hf. rewrite Hfile, Hidx in Hf.
  assert (Hcfg : same_config s s').
  { eapply same_config_trans; [apply Hl1|apply Hl']. }
  rewrite (same_config_source s s') in Hsrc by done. rewrite Hsrc in Hf.
  apply andb_true_iff in Hf as [_ Hglyph].
  by apply negb_true_iff, Z.eqb_neq in Hglyph.
Qed.

End Selection.

Section SelectionSample.

#[local] Existing Instances Sample.headers Sample.engine.

Lemma with_fallbacks_settled (fallbacks : gmap string (list family_ptr)) :
  faces_wf (SampleLists.with_fallbacks fallbacks)
  ∧ resolves_settled (SampleLists.with_fallbacks fallbacks).
Proof.
  split.
  - apply faces_wf_fresh_state; [done..|].
    apply (bool_decide_unpack _). by vm_compute.
  - intros name t Hget Hempty. exfalso. simpl in Hget.
    unfold Sample.get_family in Hget.
    repeat case_match; simplify_eq; by vm_compute in Hempty.
Qed.

(** Requests for the ideograph on the sample platform, one for each tier.
    A request for Noto is served by the family the platform resolves the
    name to.  A request for Arial, whose regular face lacks the ideograph,
    is served by the attached font when there is an attachment list; by
    Noto, the second of the fallbacks of the platform for Arial, when the
    platform has fallbacks; and otherwise by the entry for Noto of a default
    list of three entries, of which the first stays without fonts.  With
    none of these there is no answer. *)
Lemma SelectFont_tiers_witness :
  (let s := Sample.sys 100 {[ "default" := [4; 5; 2]%positive ]} in
   tiers s ["Noto"; "Arial"] 20013 = Some 3%positive
   ∧ ∃ q f, q ∈ fallback_fonts s 3%positive ∧ font_store s !! q = Some f
       ∧ (SelectFontWithFamilyFallback ["Noto"; "Arial"] (Sample.style 0 0) 20013 s).1
         = Some (psz_fontfile f, i_index f))
  ∧ (let s := Sample.sys 100 {[ "attachments" := [6%positive];
                                "default" := [4; 5; 2]%positive ]} in
     tier_same_family s ["Arial"] 20013 = None
     ∧ tiers s ["Arial"] 20013 = Some 6%positive
     ∧ ∃ q f, q ∈ fallback_fonts s 6%positive ∧ font_store s !! q = Some f
         ∧ (SelectFontWithFamilyFallback ["Arial"] (Sample.style 0 0) 20013 s).1
           = Some (psz_fontfile f, i_index f))
  ∧ (let s := SampleLists.with_fallbacks {[ "default" := [4; 5; 2]%positive ]} in
     tier_same_family s ["Arial"] 20013 = None
     ∧ tier_list s "attachments" 20013 = None
     ∧ tiers s ["Arial"] 20013 = Some 3%positive
     ∧ ∃ q f, q ∈ fallback_fonts s 3%positive ∧ font_store s !! q = Some f
         ∧ (SelectFontWithFamilyFallback ["Arial"] (Sample.style 0 0) 20013 s).1
           = Some (psz_fontfile f, i_index f))
  ∧ (let s := Sample.sys 100 {[ "default" := [4; 5; 2]%positive ]} in
     tier_same_family s ["Arial"] 20013 = None
     ∧ tier_list s "attachments" 20013 = None
     ∧ ∃ p q f, p ∈ fallback_list "default" s
         ∧ fallback_covers s p 20013 = true
         ∧ q ∈ fallback_fonts s p ∧ font_store s !! q = Some f
         ∧ (SelectFontWithFamilyFallback ["Arial"] (Sample.style 0 0) 20013 s).1
           = Some (psz_fontfile f, i_index f))
  ∧ (SelectFontWithFamilyFallback ["Arial"] (Sample.style 0 0) 20013
       (Sample.sys 100 ∅)).1 = None.
Proof.
  split; [|split; [|split; [|split]]].
  - intros s.
    destruct (SelectFont_tiers ["Noto"; "Arial"] (Sample.style 0 0) 20013 s)
      as (_ & _ & _ & Hexact); [done|apply sample_faces_wf|].
    destruct (Hexact (sample_resolves_settled _ _)) as (_ & Hfound & _).
    assert (Ht : tiers s ["Noto"; "Arial"] 20013 = Some 3%positive) by by vm_compute.
    rewrite Ht in Hfound. split; [done|].
    destruct Hfound as (q & f & Hq & Hf & _ & Hans).
    exists q, f. split; [exact Hq|]. split; [exact Hf|exact Hans].
  - intros s.
    destruct (SelectFont_tiers ["Arial"] (Sample.style 0 0) 20013 s)
      as (_ & _ & _ & Hexact); [done|apply sample_faces_wf|].
    destruct (Hexact (sample_resolves_settled _ _)) as (_ & Hfound & _).
    assert (Ht : tiers s ["Arial"] 20013 = Some 6%positive) by by vm_compute.
    rewrite Ht in Hfound. split; [by vm_compute|]. split; [done|].
    destruct Hfound as (q & f & Hq & Hf & _ & Hans).
    exists q, f. split; [exact Hq|]. split; [exact Hf|exact Hans].
  - intros s.
    destruct (SelectFont_tiers ["Arial"] (Sample.style 0 0) 20013 s)
      as (_ & _ & _ & Hexact); [done|apply with_fallbacks_settled|].
    destruct (Hexact (proj2 (with_fallbacks_settled _))) as (_ & Hfound & _).
    assert (Ht : tiers s ["Arial"] 20013 = Some 3%positive) by by vm_compute.
    rewrite Ht in Hfound. split; [by vm_compute|]. split; [by vm_compute|].
    split; [done|].
    destruct Hfound as (q & f & Hq & Hf & _ & Hans).
    exists q, f. split; [exact Hq|]. split; [exact Hf|exact Hans].
  - intros s.
    destruct (SelectFont_tiers ["Arial"] (Sample.style 0 0) 20013 s)
      as (_ & _ & _ & Hexact); [done|apply sample_faces_wf|].
    destruct (Hexact (sample_resolves_settled _ _)) as (_ & _ & Hdefault & _).
    split; [by vm_compute|]. split; [by vm_compute|].
    destruct (Hdefault eq_refl eq_refl eq_refl 5%positive)
      as (p & Hp & Hcov & q & f & Hq & Hf & _ & Hans).
    + change (5%positive ∈ [4; 5; 2]%positive). right. by left.
    + by vm_compute.
    + exists p, q, f. split; [exact Hp|]. split; [exact Hcov|].
      split; [exact Hq|]. split; [exact Hf|exact Hans].
  - destruct (SelectFont_tiers ["Arial"] (Sample.style 0 0) 20013 (Sample.sys 100 ∅))
      as (_ & _ & _ & Hexact); [done|apply sample_faces_wf|].
    destruct (Hexact (sample_resolves_settled _ _)) as (_ & _ & _ & Hnone).
    by apply Hnone.
Defined.

(** The sample platform resolves Arial, a family with four fonts, and yet a
    request for Arial without a codepoint is answered with the file of the
    default family. *)
Lemma SelectFont_no_codepoint_ignores_request :
  pf_get_family (Sample.sys 100 ∅) "Arial" = Some 1%positive
  ∧ family_fonts 1%positive (Sample.sys 100 ∅) = [1; 2; 3; 4]%positive
  ∧ font_store (Sample.sys 100 ∅) !! 1%positive
    = Some (Sample.font "arial.ttf" false false)
  ∧ (SelectFontWithFamilyFallback ["Arial"] (Sample.style 0 0) 0
       (Sample.sys 100 ∅)).1 = Some ("serif.ttf", 0).
Proof. repeat split; by vm_compute. Qed.

(** A request without a codepoint, in bold, for a family the sample platform
    does not know, where the default family has four variants: the answer is
    the bold variant of the default family, the first of the highest score
    for the style. *)
Lemma SelectFont_no_codepoint_witness :
  pf_get_family SampleLists.styled_default "Unknown" = None
  ∧ (SelectFontWithFamilyFallback ["Unknown"] (Sample.style 1 0) 0
       SampleLists.styled_default).1 = Some ("arial-bold.ttf", 0)
  ∧ ∃ pre q post f,
      family_fonts 2%positive SampleLists.styled_default = pre ++ q :: post
      ∧ font_store SampleLists.styled_default !! q = Some f
      ∧ (SelectFontWithFamilyFallback ["Unknown"] (Sample.style 1 0) 0
           SampleLists.styled_default).1 = Some (psz_fontfile f, i_index f)
      ∧ (∀ x, x ∈ pre →
           variant_score SampleLists.styled_default x true false 0
           < variant_score SampleLists.styled_default q true false 0)
      ∧ (∀ x, x ∈ post →
           variant_score SampleLists.styled_default x true false 0
           <= variant_score SampleLists.styled_default q true false 0).
Proof.
  split; [by vm_compute|]. split; [by vm_compute|].
  destruct (SelectFont_no_codepoint ["Unknown"] (Sample.style 1 0)
              SampleLists.styled_default)
    as (_ & _ & _ & Hdefault).
  apply (Hdefault 2%positive); [by vm_compute|by vm_compute|].
  repeat constructor; by eexists.
Defined.

End SelectionSample.

(** * Further properties *)

(** ** The face cache *)

(** X1.  The key of the face cache tells requests apart: the keys of two
    requests are equal exactly when file, face index, size and width are. *)
Theorem face_key_separates (file file' : string)
    (idx idx' size size' width width' : Z) :
  face_key file idx size width = face_key file' idx' size' width'
  ↔ file = file' ∧ idx = idx' ∧ size = size' ∧ width = width'.
Proof. split; [apply face_key_inj|]. by intros (-> & -> & -> & ->). Qed.

Section FaceCacheMore.

Context {hdr : Headers} {ft : FreeType}.

#[local] Ltac same_maps Hcfg :=
  destruct Hcfg; repeat split; try done; by intros.

(** X2.  On a consistent state [LoadFace] returns a face exactly when the
    name denotes a source that the engine opens, with a Unicode charmap, at
    the size and width of the request.  The face returned is cached under
    the key of the request and is set to these pixel sizes.  When no face is
    returned the cache and the faces of the engine are as before: a face
    that was opened has been released.  The state stays consistent. *)
Theorem LoadFace_returns_iff_opens (file : string) (idx : Z)
    (p_style : text_style_t) (s : filter_sys_t) :
  let size := ConvertToLiveSize s p_style in
  let width := live_width p_style size in
  let key := face_key file idx size width in
  faces_wf s →
  ∃ r s', LoadFace file idx p_style s = (r, s')
    ∧ faces_wf s' ∧ later s s'
    ∧ (is_Some r ↔ face_opens s file idx width size = true)
    ∧ (∀ h, r = Some h →
         ∃ src, source_of s file = Some src
                ∧ face_map s' !! key = Some h
                ∧ ft_faces s' !! h = Some (loaded_face src idx width size))
    ∧ (r = None → face_map s' = face_map s ∧ ft_faces s' = ft_faces s).
Proof.
  intros size width key Hwf.
  destruct (LoadFace file idx p_style s) as [r s'] eqn:Hload.
  exists r, s'. split; [done|].
  destruct (LoadFace_wf _ _ _ _ _ _ Hwf Hload)
    as (Hwf' & Hlater & _ & _ & Hiff & Hcached).
  fold size width in Hiff, Hcached. fold key in Hcached.
  do 3 (split; [done|]). split.
  - intros h ->. specialize (Hcached h eq_refl).
    destruct (wf_cached _ Hwf' _ _ _ _ _ Hcached) as (src & Hsrc & _ & Hrec).
    exists src. rewrite (same_config_source s s') in Hsrc by apply Hlater.
    done.
  - intros ->.
    destruct (face_map s !! key) as [h|] eqn:Hkey.
    { rewrite (LoadFace_hit _ _ _ _ h) in Hload by done. done. }
    destruct (face_opens s file idx width size) eqn:Hopens.
    { destruct Hiff as [_ Hiff]. by destruct Hiff. }
    destruct (LoadFace_miss_fails file idx p_style s Hkey
                (faces_wf_next_free s Hwf) Hopens)
      as (s1 & events & Hload1 & Hmap & Hfaces & _).
    rewrite Hload in Hload1. by injection Hload1 as <-.
Qed.

(** X3.  Whatever the state, [LoadFace] writes neither a font nor a family
    nor the configuration; the cache only grows, by the key of the request
    at most; and a call that returns no face leaves the cache as it was. *)
Theorem LoadFace_writes_one_key (file : string) (idx : Z)
    (p_style : text_style_t) (s : filter_sys_t) :
  let key := face_key file idx (ConvertToLiveSize s p_style)
               (live_width p_style (ConvertToLiveSize s p_style)) in
  let s' := (LoadFace file idx p_style s).2 in
  font_store s' = font_store s
  ∧ family_store s' = family_store s
  ∧ same_config s s'
  ∧ face_map s ⊆ face_map s'
  ∧ (∀ key', key' ≠ key → face_map s' !! key' = face_map s !! key')
  ∧ ((LoadFace file idx p_style s).1 = None → face_map s' = face_map s).
Proof.
  intros key s'. subst s'. unfold LoadFace. fold key.
  destruct (face_map s !! key) as [h0|] eqn:Hkey.
  { simpl. split; [done|]. split; [done|]. split; [apply same_config_refl|done]. }
  pose proof (open_face_config file idx key s) as Hcfg.
  assert (Hstores : font_store (open_face file idx key s).2 = font_store s
                    ∧ family_store (open_face file idx key s).2 = family_store s
                    ∧ face_map (open_face file idx key s).2 = face_map s).
  { pose proof (open_face_source file idx key s) as Hof.
    destruct (source_of s file) as [src|].
    - rewrite Hof. unfold ft_open. by destruct (FT_Open src idx =? 0).
    - by destruct Hof as [msg ->]. }
  destruct (open_face file idx key s) as [[p_face|] s1]; simpl in *.
  2:{ destruct Hstores as (-> & -> & ->). same_maps Hcfg. }
  destruct Hstores as (Hfonts & Hfams & Hmap).
  destruct (negb (FT_Select_Charmap p_face s1 =? 0)); simpl.
  { rewrite Hfonts, Hfams, Hmap. same_maps Hcfg. }
  unfold FT_Set_Pixel_Sizes.
  destruct (ft_faces s1 !! p_face) as [r|]; simpl.
  2:{ rewrite Hfonts, Hfams, Hmap. same_maps Hcfg. }
  destruct (FT_Set_Pixel_Sizes_err _ _ _ _ =? 0) eqn:Herr; simpl;
    rewrite Herr; simpl.
  - rewrite Hfonts, Hfams, Hmap. destruct Hcfg.
    split; [done|]. split; [done|]. split; [by split|].
    split; [by apply insert_subseteq|].
    split; [|done]. intros key' Hne. by rewrite lookup_insert_ne.
  - rewrite Hfonts, Hfams, Hmap. same_maps Hcfg.
Qed.

(** X4.  A name that starts with [:/] and whose number, as [atoi] reads it,
    is not the index of an attachment is refused before the engine is called: [LoadFace] returns
    no face and the only thing it does is to log the error. *)
Theorem LoadFace_invalid_attachment (file : string) (idx : Z)
    (p_style : text_style_t) (s : filter_sys_t) :
  faces_wf s →
  String.prefix ":/" file = true →
  ¬ (0 <= atoi (string_drop 2 file) < Z.of_nat (length (pp_font_attachments s))) →
  LoadFace file idx p_style s
  = (None, msg_Err "LoadFace: Invalid font attachment index" s).
Proof.
  intros Hwf Hprefix Hrange.
  pose proof (source_of_bad_attachment s file Hprefix Hrange) as Hsrc.
  unfold LoadFace.
  destruct (face_map s !! _) as [h|] eqn:Hkey.
  { destruct (wf_cached _ Hwf _ _ _ _ _ Hkey) as (src & Hsrc' & _). congruence. }
  unfold open_face. rewrite Hprefix.
  destruct (_ || _) eqn:Hor; [done|].
  apply orb_false_iff in Hor as [Hneg Hlen].
  destruct Hrange. lia.
Qed.

End FaceCacheMore.

(** ** The face of a font, once more *)

Section FontFaceMore.

Context {hdr : Headers} {ft : FreeType}.

(** A record whose face is [NULL] is the record with the face set to
    [NULL]. *)
Lemma set_p_face_None (p : font_ptr) (f : vlc_font_t) (s : filter_sys_t) :
  font_store s !! p = Some f → p_face f = None →
  font_store (set_p_face p f None s) = font_store s.
Proof.
  intros Hf Hface. simpl. apply insert_id.
  rewrite Hf. f_equal. destruct f. simpl in *. by subst.
Qed.

Lemma same_config_face_opens (s s' : filter_sys_t) (file : string)
    (idx width size : Z) :
  same_config s s' → face_opens s' file idx width size = face_opens s file idx width size.
Proof. intros Hcfg. unfold face_opens. by rewrite (same_config_source s s'). Qed.

(** X5.  [GetFace] remembers the face of a font.  On a consistent state, if
    the face of the font can be loaded at the default style, then after one
    call the font holds a face, and every further call, for whatever
    codepoint, returns that face or nothing, according to the glyph, and
    leaves the state as it is: the cache is not consulted and the engine
    opens nothing. *)
Theorem GetFace_remembers_face (p : font_ptr) (c : Z) (s : filter_sys_t)
    (f : vlc_font_t) :
  faces_wf s →
  font_store s !! p = Some f →
  face_opens s (psz_fontfile f) (i_index f) (default_width s) (default_size s) = true →
  let s' := (GetFace p c s).2 in
  ∃ h f', font_store s' !! p = Some f' ∧ p_face f' = Some h
    ∧ ∀ c', GetFace p c' s'
            = (if negb (FT_Get_Char_Index h c' s' =? 0) then Some h else None, s').
Proof.
  intros Hwf Hf Hopens s'. subst s'.
  assert (Hagain : ∀ s' h f',
    font_store s' !! p = Some f' → p_face f' = Some h →
    ∀ c', GetFace p c' s'
          = (if negb (FT_Get_Char_Index h c' s' =? 0) then Some h else None, s')).
  { intros s' h f' Hf' Hface c'. unfold GetFace. rewrite Hf', Hface.
    by destruct (negb _). }
  unfold GetFace. rewrite Hf.
  destruct (p_face f) as [h|] eqn:Hface.
  - exists h, f.
    assert ((if negb (FT_Get_Char_Index h c s =? 0)
             then (Some h, s) else (None, s)).2 = s) as -> by by destruct (negb _).
    split; [done|]. split; [done|]. by apply (Hagain s h f).
  - destruct (LoadFace (psz_fontfile f) (i_index f) (p_default_style s) s)
      as [r0 s1] eqn:Hload.
    destruct (LoadFace_wf _ _ _ _ _ _ Hwf Hload) as (_ & _ & _ & _ & Hiff & _).
    fold (default_size s) in Hiff. fold (default_width s) in Hiff.
    destruct Hiff as [_ [h ->]]; [done|].
    set (f' := {| psz_fontfile := psz_fontfile f; i_index := i_index f;
                  b_bold := b_bold f; b_italic := b_italic f;
                  p_face := Some h |}).
    set (s2 := set_p_face p f (Some h) s1).
    assert (Hf' : font_store s2 !! p = Some f') by apply lookup_insert_eq.
    exists h, f'.
    assert ((if negb (FT_Get_Char_Index h c s2 =? 0)
             then (Some h, s2) else (None, s2)).2 = s2) as -> by by destruct (negb _).
    split; [done|]. split; [done|]. by apply (Hagain s2 h f').
Qed.

(** X6.  [GetFace] does not remember a failure.  On a consistent state, if
    the face of the font cannot be loaded at the default style, a call
    returns nothing, adds to the log, and leaves the fonts and the cache as
    they were, in a consistent state where the face still cannot be loaded:
    so every call makes the attempt again. *)
Theorem GetFace_repeats_failed_load (p : font_ptr) (c : Z) (s : filter_sys_t)
    (f : vlc_font_t) :
  faces_wf s →
  font_store s !! p = Some f →
  face_opens s (psz_fontfile f) (i_index f) (default_width s) (default_size s) = false →
  ∃ s' events, GetFace p c s = (None, s')
    ∧ sys_log s' = events ++ sys_log s ∧ events ≠ []
    ∧ font_store s' = font_store s ∧ face_map s' = face_map s
    ∧ faces_wf s'
    ∧ face_opens s' (psz_fontfile f) (i_index f) (default_width s') (default_size s')
      = false.
Proof.
  intros Hwf Hf Hopens.
  destruct (GetFace p c s) as [r s'] eqn:Hget.
  destruct (GetFace_wf _ _ _ _ _ _ Hwf Hf Hget) as (Hwf' & Hlater & _ & _).
  assert (Hface : p_face f = None).
  { destruct (p_face f) as [h|] eqn:Hface; [|done].
    pose proof (wf_fonts _ Hwf _ _ _ Hf Hface) as Hh.
    destruct (wf_cached _ Hwf _ _ _ _ _ Hh) as (src & Hsrc & Hok & _).
    unfold face_opens in Hopens. rewrite Hsrc in Hopens. congruence. }
  assert (Hkey : face_map s !! face_key (psz_fontfile f) (i_index f)
                   (default_size s) (default_width s) = None).
  { destruct (face_map s !! _) as [h|] eqn:Hh; [|done].
    destruct (wf_cached _ Hwf _ _ _ _ _ Hh) as (src & Hsrc & Hok & _).
    unfold face_opens in Hopens. rewrite Hsrc in Hopens. congruence. }
  destruct (LoadFace_miss_fails (psz_fontfile f) (i_index f) (p_default_style s) s
              Hkey (faces_wf_next_free s Hwf) Hopens)
    as (s1 & events & Hload & Hmap & _ & _ & Hlog & Hne & _ & Hfonts & _ & Hcfg).
  unfold GetFace in Hget. rewrite Hf, Hface, Hload in Hget.
  injection Hget as <- <-.
  exists (set_p_face p f None s1), events.
  split; [done|]. split; [done|]. split; [done|].
  split; [rewrite set_p_face_None; [done|by rewrite Hfonts|done]|].
  split; [done|]. split; [done|].
  rewrite (same_config_default_size s), (same_config_default_width s),
    (same_config_face_opens s); [done|apply Hlater..].
Qed.

(** X7.  The face [GetFace] returns is the face of the font's file and face
    index at the default style of the renderer, whatever the style of the
    text being laid out: it is the one cached under the key of the default
    size and width, it is set to these pixel sizes, and it has a glyph for
    the codepoint. *)
Theorem GetFace_face_of_default_style (p : font_ptr) (c : Z)
    (s s' : filter_sys_t) (f : vlc_font_t) (h : FT_Face) :
  faces_wf s →
  font_store s !! p = Some f →
  GetFace p c s = (Some h, s') →
  face_map s' !! face_key (psz_fontfile f) (i_index f)
                   (default_size s) (default_width s) = Some h
  ∧ FT_Get_Char_Index h c s' ≠ 0
  ∧ ∃ src, source_of s (psz_fontfile f) = Some src
           ∧ ft_faces s' !! h
             = Some (loaded_face src (i_index f) (default_width s) (default_size s)).
Proof.
  intros Hwf Hf Hget.
  destruct (GetFace_wf _ _ _ _ _ _ Hwf Hf Hget) as (Hwf' & Hlater & _ & _).
  assert (Hkey : face_map s' !! face_key (psz_fontfile f) (i_index f)
                   (default_size s) (default_width s) = Some h
                 ∧ FT_Get_Char_Index h c s' ≠ 0).
  { unfold GetFace in Hget. rewrite Hf in Hget.
    destruct (p_face f) as [h0|] eqn:Hface.
    - destruct (negb (FT_Get_Char_Index h0 c s =? 0)) eqn:Hglyph; [|done].
      injection Hget as <- <-.
      split; [by apply (wf_fonts _ Hwf _ _ _ Hf)|].
      by apply negb_true_iff, Z.eqb_neq in Hglyph.
    - destruct (LoadFace (psz_fontfile f) (i_index f) (p_default_style s) s)
        as [r0 s1] eqn:Hload.
      destruct (LoadFace_wf _ _ _ _ _ _ Hwf Hload) as (_ & _ & _ & _ & _ & Hcached).
      destruct r0 as [h0|]; [|done].
      destruct (negb (FT_Get_Char_Index h0 c _ =? 0)) eqn:Hglyph; [|done].
      injection Hget as <- <-.
      split; [by apply Hcached|].
      by apply negb_true_iff, Z.eqb_neq in Hglyph. }
  destruct Hkey as [Hkey Hglyph]. do 2 (split; [done|]).
  destruct (wf_cached _ Hwf' _ _ _ _ _ Hkey) as (src & Hsrc & _ & Hrec).
  exists src. rewrite (same_config_source s s') in Hsrc by apply Hlater. done.
Qed.

End FontFaceMore.

(** ** The scorer, once more *)

Section ScorerMore.

Context {hdr : Headers} {ft : FreeType}.

Lemma variant_score_sum (s : filter_sys_t) (p : font_ptr) (f : vlc_font_t)
    (bold italic : bool) (c : Z) :
  c ≠ 0 → font_store s !! p = Some f →
  variant_score s p bold italic c
  = (if font_covers s f c then 1000 else 0)
    + (if eqb (b_bold f) bold then 100 else 0)
    + (if eqb (b_italic f) italic then 10 else 0).
Proof.
  intros Hc Hf. unfold variant_score. rewrite Hf.
  apply Z.eqb_neq in Hc. by rewrite Hc.
Qed.

(** X8.  Coverage comes before style, and bold before italic.  With a
    codepoint, on a consistent state: if a variant of the family covers the
    codepoint, [GetBestFont] returns a variant that covers it; if the
    covering variant has the weight asked for, so has the one returned; and
    if it has the weight and the slant asked for, so has the one
    returned. *)
Theorem GetBestFont_coverage_before_style (p_family : family_ptr)
    (bold italic : bool) (c : Z) (s s' : filter_sys_t) (r : option font_ptr) :
  faces_wf s → c ≠ 0 →
  GetBestFont p_family bold italic c s = (r, s') →
  ∀ q fq, q ∈ family_fonts p_family s → font_store s !! q = Some fq →
    font_covers s fq c = true →
    ∃ best fb, r = Some best ∧ best ∈ family_fonts p_family s
      ∧ font_store s !! best = Some fb
      ∧ font_covers s fb c = true
      ∧ (b_bold fq = bold →
         b_bold fb = bold ∧ (b_italic fq = italic → b_italic fb = italic)).
Proof.
  intros Hwf Hc Hbest q fq Hq Hfq Hcov.
  destruct (GetBestFont_maximal _ _ _ _ _ _ _ Hwf Hbest q Hq)
    as (best & -> & Hin & Hle).
  rewrite (variant_score_sum s q fq) in Hle by done. rewrite Hcov in Hle.
  destruct (font_store s !! best) as [fb|] eqn:Hfb.
  2:{ unfold variant_score in Hle at 1. rewrite Hfb in Hle.
      destruct (eqb (b_bold fq) bold), (eqb (b_italic fq) italic); lia. }
  rewrite (variant_score_sum s best fb) in Hle by done.
  exists best, fb. do 3 (split; [done|]).
  destruct (font_covers s fb c).
  2:{ destruct (eqb (b_bold fq) bold), (eqb (b_italic fq) italic),
        (eqb (b_bold fb) bold), (eqb (b_italic fb) italic); lia. }
  split; [done|]. intros Hbold.
  rewrite Hbold, eqb_reflx in Hle.
  destruct (eqb (b_bold fb) bold) eqn:Hb.
  2:{ destruct (eqb (b_italic fq) italic), (eqb (b_italic fb) italic); lia. }
  apply eqb_prop in Hb. split; [done|]. intros Hitalic.
  rewrite Hitalic, eqb_reflx in Hle.
  destruct (eqb (b_italic fb) italic) eqn:Hi; [by apply eqb_prop in Hi|lia].
Qed.

(** With a codepoint, the state the scoring of a variant leaves is the
    state [GetFace] leaves. *)
Lemma font_score_state (p : font_ptr) (bold italic : bool) (c : Z)
    (s : filter_sys_t) :
  c ≠ 0 → (font_score p bold italic c s).2 = (GetFace p c s).2.
Proof.
  intros Hc. unfold font_score. apply Z.eqb_neq in Hc. rewrite Hc. simpl.
  destruct (GetFace p c s) as [[h|] s1]; simpl; by destruct (font_store s1 !! p).
Qed.

(** A font of a consistent state that holds a face is a font whose face
    can be loaded. *)
Lemma faces_wf_font_opens (s : filter_sys_t) (p : font_ptr) (f : vlc_font_t) :
  faces_wf s → font_store s !! p = Some f → is_Some (p_face f) →
  font_opens s f = true.
Proof.
  intros Hwf Hf [h Hface].
  pose proof (wf_fonts _ Hwf _ _ _ Hf Hface) as Hh.
  destruct (wf_cached _ Hwf _ _ _ _ _ Hh) as (src & Hsrc & Hok & _).
  unfold font_opens, face_opens. by rewrite Hsrc.
Qed.

Lemma font_opens_later (s s' : filter_sys_t) (f f' : vlc_font_t) :
  later s s' → same_font f f' → font_opens s' f' = font_opens s f.
Proof.
  intros Hlater (Hfile & Hidx & _). unfold font_opens.
  rewrite Hfile, Hidx.
  rewrite (same_config_default_size s s'), (same_config_default_width s s')
    by apply Hlater.
  apply same_config_face_opens, Hlater.
Qed.

(** After [GetFace], the font holds a face exactly when its face can be
    loaded. *)
Lemma GetFace_loads (p : font_ptr) (c : Z) (s : filter_sys_t) (f : vlc_font_t) :
  faces_wf s → font_store s !! p = Some f →
  ∃ f', font_store (GetFace p c s).2 !! p = Some f'
        ∧ (is_Some (p_face f') ↔ font_opens s f = true).
Proof.
  intros Hwf Hf.
  destruct (GetFace p c s) as [r s'] eqn:Hget.
  destruct (GetFace_wf _ _ _ _ _ _ Hwf Hf Hget) as (Hwf' & Hlater & _ & _).
  destruct (later_fonts _ _ Hlater _ _ Hf) as (f' & Hf' & Hsame & Hkeep).
  exists f'. split; [done|]. split.
  - intros Hface. rewrite <- (font_opens_later s s' f f') by done.
    by eapply faces_wf_font_opens.
  - intros Hopens. unfold GetFace in Hget. rewrite Hf in Hget.
    destruct (p_face f) as [h|] eqn:Hface.
    { rewrite Hkeep by done. done. }
    destruct (LoadFace (psz_fontfile f) (i_index f) (p_default_style s) s)
      as [r0 s1] eqn:Hload.
    destruct (LoadFace_wf _ _ _ _ _ _ Hwf Hload) as (_ & _ & _ & _ & Hiff & _).
    destruct Hiff as [_ [h ->]]; [done|].
    assert (s' = set_p_face p f (Some h) s1) as ->.
    { by destruct (negb (FT_Get_Char_Index h c _ =? 0)); injection Hget as _ <-. }
    simpl in Hf'. rewrite lookup_insert_eq in Hf'. by injection Hf' as <-.
Qed.

Lemma GetBestFont_loop_loads (fonts : list font_ptr) (bold italic : bool) (c : Z)
    (best : option font_ptr) (best_score : Z) (s s' : filter_sys_t)
    (r : option font_ptr) :
  faces_wf s → c ≠ 0 →
  GetBestFont_loop fonts bold italic c best best_score s = (r, s') →
  ∀ q fq, q ∈ fonts → font_store s !! q = Some fq →
    ∃ fq', font_store s' !! q = Some fq'
           ∧ (is_Some (p_face fq') ↔ font_opens s fq = true).
Proof.
  intros Hwf Hc. revert best best_score s Hwf.
  induction fonts as [|p rest IH]; intros best best_score s Hwf Hloop q fq Hq Hfq.
  { by apply elem_of_nil in Hq. }
  simpl in Hloop.
  pose proof (font_score_state p bold italic c s Hc) as Hstate.
  destruct (font_score p bold italic c s) as [i_score s1] eqn:Hscore.
  destruct (font_score_wf _ _ _ _ _ _ _ Hwf Hscore) as (_ & Hwf1 & Hl1 & _).
  simpl in Hstate.
  assert (∃ b bs, GetBestFont_loop rest bold italic c b bs s1 = (r, s'))
    as (b & bs & Hrest).
  { destruct (best_score <? i_score); by eexists _, _. }
  destruct (GetBestFont_loop_wf _ _ _ _ _ _ _ _ _ Hwf1 Hrest) as ((Hwf' & Hl' & _) & _).
  destruct (decide (q ∈ rest)) as [Hin|Hnotin].
  - destruct (later_fonts _ _ Hl1 _ _ Hfq) as (fq1 & Hfq1 & Hsame & _).
    destruct (IH _ _ _ Hwf1 Hrest q fq1 Hin Hfq1) as (fq' & Hfq' & Hiff).
    exists fq'. split; [done|].
    by rewrite <- (font_opens_later s s1 fq fq1).
  - apply elem_of_cons in Hq as [->|?]; [|done].
    destruct (GetFace_loads p c s fq Hwf Hfq) as (f1 & Hf1 & Hiff).
    rewrite <- Hstate in Hf1.
    destruct (later_fonts _ _ Hl' _ _ Hf1) as (fq' & Hfq' & Hsame & Hkeep).
    exists fq'. split; [done|]. split.
    + intros Hface.
      assert (Hsame1 : same_font fq f1).
      { destruct (later_fonts _ _ Hl1 _ _ Hfq) as (f1' & Hf1' & ? & _).
        by assert (f1' = f1) as -> by congruence. }
      rewrite <- (font_opens_later s s1 fq f1) by done.
      rewrite <- (font_opens_later s1 s' f1 fq') by done.
      by eapply faces_wf_font_opens.
    + intros Hopens. apply Hiff in Hopens. by rewrite Hkeep.
Qed.

(** X9.  With a codepoint, [GetBestFont] tries every variant of the family,
    not only those it needs to settle the answer: on a consistent state,
    every variant holds a face afterwards exactly when its face can be
    loaded at the default style. *)
Theorem GetBestFont_loads_every_variant (p_family : family_ptr)
    (bold italic : bool) (c : Z) (s s' : filter_sys_t) (r : option font_ptr) :
  faces_wf s → c ≠ 0 →
  GetBestFont p_family bold italic c s = (r, s') →
  ∀ q fq, q ∈ family_fonts p_family s → font_store s !! q = Some fq →
    ∃ fq', font_store s' !! q = Some fq'
           ∧ (is_Some (p_face fq') ↔ font_opens s fq = true).
Proof.
  intros Hwf Hc Hbest. unfold GetBestFont in Hbest.
  by eapply GetBestFont_loop_loads.
Qed.

End ScorerMore.

(** ** The search by name *)

Section SearchByName.

Context {hdr : Headers} {ft : FreeType}.

(** X10.  On a consistent state [SearchFontByFamilyName] returns the first
    family of the list that bears the name, whatever the case of the
    letters, and whose first font covers the codepoint; it returns nothing
    exactly when the list holds no such family.  Families of another name
    and families without fonts are passed over, and no family is written. *)
Theorem SearchFontByFamilyName_first_match (p_list : list family_ptr)
    (name : string) (c : Z) (s s' : filter_sys_t) (r : option family_ptr) :
  faces_wf s →
  SearchFontByFamilyName p_list name c s = (r, s') →
  family_store s' = family_store s
  ∧ match r with
    | Some p =>
        ∃ pre post, p_list = pre ++ p :: post
          ∧ family_named s p name = true ∧ first_covers s p c = true
          ∧ ∀ q, q ∈ pre → family_named s q name && first_covers s q c = false
    | None =>
        ∀ q, q ∈ p_list → family_named s q name && first_covers s q c = false
    end.
Proof.
  revert s. induction p_list as [|p rest IH]; intros s Hwf Hsearch.
  { injection Hsearch as <- <-. split; [done|]. by intros q ?%elem_of_nil. }
  simpl in Hsearch.
  assert (Hskip : ∀ s1, faces_wf s1 → later s s1 →
    family_store s1 = family_store s →
    family_named s p name && first_covers s p c = false →
    SearchFontByFamilyName rest name c s1 = (r, s') →
    family_store s' = family_store s
    ∧ match r with
      | Some p0 =>
          ∃ pre post, p :: rest = pre ++ p0 :: post
            ∧ family_named s p0 name = true ∧ first_covers s p0 c = true
            ∧ ∀ q, q ∈ pre → family_named s q name && first_covers s q c = false
      | None =>
          ∀ q, q ∈ p :: rest → family_named s q name && first_covers s q c = false
      end).
  { intros s1 Hwf1 Hl1 Hstore Hp Hrest.
    destruct (IH s1 Hwf1 Hrest) as [Hstore' Hr].
    split; [congruence|].
    assert (Hsame : ∀ q, family_named s1 q name && first_covers s1 q c
                         = family_named s q name && first_covers s q c).
    { intros q. by rewrite (family_named_same_store s s1),
        (first_covers_same_store s s1). }
    destruct r as [p0|].
    - destruct Hr as (pre & post & -> & Hname & Hcov & Hpre).
      exists (p :: pre), post. split; [done|].
      rewrite (family_named_same_store s s1) in Hname by done.
      rewrite (first_covers_same_store s s1) in Hcov by done.
      do 2 (split; [done|]).
      intros q [->|Hq]%elem_of_cons; [done|]. rewrite <- Hsame. by apply Hpre.
    - intros q [->|Hq]%elem_of_cons; [done|]. rewrite <- Hsame. by apply Hr. }
  unfold family_named, first_covers, family_fonts in Hskip.
  destruct (family_store s !! p) as [fam|] eqn:Hfam.
  2:{ apply (Hskip s); [done|apply later_refl|done|done|done]. }
  destruct (strcasecmp_eq (psz_name fam) name) eqn:Hname.
  2:{ apply (Hskip s); [done|apply later_refl|done|done|done]. }
  destruct (p_fonts fam) as [|p_font fonts] eqn:Hfonts.
  { apply (Hskip s); [done|apply later_refl|done|done|done]. }
  destruct (GetFace p_font c s) as [face s1] eqn:Hget.
  destruct (GetFace_covers _ _ _ _ _ Hwf Hget) as (Hwf1 & Hl1 & Hstore & Hiff).
  destruct face as [h|].
  - injection Hsearch as <- <-. split; [done|].
    exists [], rest. split; [done|].
    unfold family_named, first_covers, family_fonts. rewrite Hfam, Hfonts.
    split; [done|]. split; [by apply Hiff; eexists|]. by intros q ?%elem_of_nil.
  - apply (Hskip s1); [done..| |done].
    simpl. destruct (covers s p_font c); [|done].
    by destruct Hiff as [_ [? ?]].
Qed.

End SearchByName.

(** ** The parser, once more *)

Section ParserMore.

Import FamilySpec.

Lemma every_app (P : ascii → bool) (a b : string) :
  every P (a +:+ b) = every P a && every P b.
Proof.
  induction a as [|c a IH]; [by rewrite string_app_nil_l|].
  rewrite string_app_cons. simpl. by rewrite IH, andb_assoc.
Qed.

Lemma string_app_nil_r (a : string) : a +:+ EmptyString = a.
Proof.
  induction a as [|c a IH]; [by rewrite string_app_nil_l|].
  by rewrite string_app_cons, IH.
Qed.

Lemma trim_start_spec (s : string) :
  ∃ pre, s = pre +:+ trim_start s ∧ all_blank pre = true
         ∧ ∀ c, first_char (trim_start s) = Some c → is_blank c = false.
Proof.
  induction s as [|c rest IH].
  { exists EmptyString. by rewrite string_app_nil_l. }
  simpl. destruct (is_blank c) eqn:Hc.
  - destruct IH as (pre & Heq & Hpre & Hfirst).
    exists (String c pre). rewrite string_app_cons, <- Heq.
    split; [done|]. split; [|done]. unfold all_blank in *. simpl. by rewrite Hc.
  - exists EmptyString. rewrite string_app_nil_l.
    split; [done|]. split; [done|]. simpl. by intros ? [= <-].
Qed.

Lemma trim_end_spec (s : string) :
  ∃ post, s = trim_end s +:+ post ∧ all_blank post = true
          ∧ (∀ c, last_char (trim_end s) = Some c → is_blank c = false)
          ∧ (∀ c, first_char (trim_end s) = Some c → first_char s = Some c).
Proof.
  induction s as [|c rest IH].
  { exists EmptyString. by rewrite string_app_nil_l. }
  destruct IH as (post & Heq & Hpost & Hlast & Hfirst).
  simpl. destruct (trim_end rest) as [|c' r] eqn:Hrest.
  - rewrite string_app_nil_l in Heq. subst post.
    destruct (is_blank c) eqn:Hc.
    + exists (String c rest). rewrite string_app_nil_l.
      split; [done|]. split; [|done]. unfold all_blank in *. simpl. by rewrite Hc.
    + exists rest. rewrite string_app_cons, string_app_nil_l.
      split; [done|]. split; [done|]. split; [|done]. simpl. by intros ? [= <-].
  - exists post. rewrite string_app_cons, <- Heq.
    split; [done|]. split; [done|]. split; [|done].
    intros c0 Hc0. apply Hlast. exact Hc0.
Qed.

(** X11.  [TrimWhiteSpace] removes blanks, spaces and tabs, from the two
    ends of the token and nothing else: the token is what it leaves, between
    two strings of blanks, and what it leaves neither starts nor ends with a
    blank. *)
Theorem TrimWhiteSpace_strips_blanks (tok : string) :
  ∃ pre post, tok = pre +:+ TrimWhiteSpace tok +:+ post
    ∧ all_blank pre = true ∧ all_blank post = true
    ∧ trimmed (TrimWhiteSpace tok).
Proof.
  unfold TrimWhiteSpace.
  destruct (trim_start_spec tok) as (pre & Heq & Hpre & Hfirst).
  destruct (trim_end_spec (trim_start tok)) as (post & Heq' & Hpost & Hlast & Hsame).
  exists pre, post. split; [by rewrite <- Heq'|]. do 2 (split; [done|]).
  split; [|done]. intros c Hc. by apply Hfirst, Hsame.
Qed.

Lemma TrimWhiteSpace_trimmed (tok : string) : trimmed (TrimWhiteSpace tok).
Proof.
  unfold TrimWhiteSpace.
  destruct (trim_start_spec tok) as (pre & Heq & Hpre & Hfirst).
  destruct (trim_end_spec (trim_start tok)) as (post & Heq' & Hpost & Hlast & Hsame).
  split; [|done]. intros c Hc. by apply Hfirst, Hsame.
Qed.

Lemma TrimWhiteSpace_every (P : ascii → bool) (tok : string) :
  every P tok = true → every P (TrimWhiteSpace tok) = true.
Proof.
  unfold TrimWhiteSpace.
  destruct (trim_start_spec tok) as (pre & Heq & _).
  destruct (trim_end_spec (trim_start tok)) as (post & Heq' & _).
  intros Hall. rewrite Heq, Heq', !every_app in Hall.
  by apply andb_true_iff in Hall as [_ [? _]%andb_true_iff].
Qed.

Lemma drop_last_every (P : ascii → bool) (s : string) :
  every P s = true → every P (drop_last s) = true.
Proof.
  induction s as [|c [|c' rest] IH]; [done..|].
  intros [Hc Hrest]%andb_true_iff.
  change (P c && every P (drop_last (String c' rest)) = true).
  by rewrite Hc, IH.
Qed.

Lemma basic_unquote_every (P : ascii → bool) (t : string) :
  every P t = true → every P (basic_unquote t) = true.
Proof.
  destruct t as [|c rest]; [done|]. intros Hall. unfold basic_unquote.
  destruct (_ && _); [|done].
  apply andb_true_iff in Hall as [_ Hrest]. by apply drop_last_every.
Qed.

Lemma basic_unquote_quote_free (t : string) :
  quote_free t = true → basic_unquote t = t.
Proof.
  destruct t as [|c rest]; [done|]. unfold quote_free. simpl.
  intros [Hc _]%andb_true_iff. apply negb_true_iff in Hc. by rewrite Hc.
Qed.

(** The pieces between the commas hold no comma, and no character the
    input does not hold. *)
Lemma split_on_commas_every (P : ascii → bool) (s : string) :
  every P s = true → Forall (λ tok, every P tok = true) (split_on_commas s).
Proof.
  induction s as [|c rest IH]; intros Hall; [by repeat constructor|].
  apply andb_true_iff in Hall as [Hc Hrest]. specialize (IH Hrest).
  simpl. destruct (is_delim c); [by constructor|].
  destruct (split_on_commas rest) as [|tok toks].
  - constructor; [|done]. simpl. by rewrite Hc.
  - inversion IH as [|? ? Htok Htoks]; subst.
    constructor; [|done]. simpl. by rewrite Hc.
Qed.

Lemma split_on_commas_comma_free (s : string) :
  Forall (λ tok, comma_free tok = true) (split_on_commas s).
Proof.
  induction s as [|c rest IH]; [by repeat constructor|].
  simpl. destruct (is_delim c) eqn:Hc; [by constructor|].
  destruct (split_on_commas rest) as [|tok toks]; [constructor; [|done]|].
  - unfold comma_free. simpl. by rewrite Hc.
  - inversion IH as [|? ? Htok Htoks]; subst.
    constructor; [|done]. unfold comma_free in *. simpl. by rewrite Hc.
Qed.

(** X12.  Every name the parser adds is a name one can look up: it is not
    empty and holds no comma, quoted or not; and when the input holds no
    double quote, no name starts or ends with a blank.  The names already in
    the vector stay in front, in their order. *)
Theorem SplitIntoSingleFamily_names (spec : string) (families : list string) :
  ∃ added, SplitIntoSingleFamily (Some spec) families = families ++ added
    ∧ ∀ name, name ∈ added →
        name ≠ EmptyString ∧ comma_free name = true
        ∧ (quote_free spec = true → trimmed name).
Proof.
  rewrite SplitIntoSingleFamily_tokens. eexists. split; [done|].
  intros name [Hne Hin]%list_elem_of_filter.
  apply list_elem_of_In, in_map_iff in Hin as (tok & <- & Htok).
  apply list_elem_of_In in Htok.
  split; [done|]. split.
  - apply basic_unquote_every, TrimWhiteSpace_every.
    pose proof (split_on_commas_comma_free spec) as Hall.
    rewrite Forall_forall in Hall. by apply Hall.
  - intros Hq.
    pose proof (split_on_commas_every _ spec Hq) as Hall.
    rewrite Forall_forall in Hall. specialize (Hall tok Htok).
    rewrite basic_unquote_quote_free; [apply TrimWhiteSpace_trimmed|].
    by apply TrimWhiteSpace_every.
Qed.

(** X13.  The loop of the parser comes to its end: it calls [strtok_r] at
    most once more than the input has characters, so that any larger bound
    on its iterations gives the same vector.  What it adds to the vector are
    the pieces between the commas, in their order, each trimmed and then
    unquoted, without those that are empty by then.  A [NULL] input adds
    nothing. *)
Theorem SplitIntoSingleFamily_terminates (spec : string) (families : list string)
    (fuel : nat) :
  (String.length spec < fuel)%nat →
  split_loop fuel spec families = SplitIntoSingleFamily (Some spec) families
  ∧ SplitIntoSingleFamily (Some spec) families
    = families ++ filter (λ t, t ≠ EmptyString)
                    (map (λ tok, basic_unquote (TrimWhiteSpace tok))
                       (split_on_commas spec))
  ∧ SplitIntoSingleFamily None families = families.
Proof.
  intros Hfuel. rewrite SplitIntoSingleFamily_tokens.
  split; [by apply split_loop_tokens|done].
Qed.

Lemma TrimWhiteSpace_all_blank (tok : string) :
  all_blank tok = true → TrimWhiteSpace tok = EmptyString.
Proof.
  intros Hall. pose proof (TrimWhiteSpace_every _ tok Hall) as Hblank.
  destruct (TrimWhiteSpace_trimmed tok) as [Hfirst _].
  destruct (TrimWhiteSpace tok) as [|c rest]; [done|].
  apply andb_true_iff in Hblank as [Hc _].
  specialize (Hfirst c eq_refl). congruence.
Qed.

Lemma split_on_commas_all_blank (s : string) :
  every (λ c, is_blank c || is_delim c) s = true →
  Forall (λ tok, all_blank tok = true) (split_on_commas s).
Proof.
  induction s as [|c rest IH]; intros Hall; [by repeat constructor|].
  apply andb_true_iff in Hall as [Hc Hrest]. specialize (IH Hrest).
  simpl. destruct (is_delim c) eqn:Hd; [by constructor|].
  rewrite orb_false_r in Hc.
  destruct (split_on_commas rest) as [|tok toks]; [constructor; [|done]|].
  - unfold all_blank. simpl. by rewrite Hc.
  - inversion IH as [|? ? Htok Htoks]; subst.
    constructor; [|done]. unfold all_blank in *. simpl. by rewrite Hc.
Qed.

Lemma SplitIntoSingleFamily_blank (spec : string) :
  every (λ c, is_blank c || is_delim c) spec = true →
  SplitIntoSingleFamily (Some spec) [] = [].
Proof.
  intros Hall. rewrite SplitIntoSingleFamily_tokens. simpl.
  pose proof (split_on_commas_all_blank spec Hall) as Htoks.
  induction Htoks as [|tok toks Htok _ IH]; [done|].
  simpl. rewrite TrimWhiteSpace_all_blank by done. simpl.
  by rewrite filter_cons_False by tauto.
Qed.

End ParserMore.

(** ** From the request to the face *)

Section RequestMore.

Context {hdr : Headers} {ft : FreeType}.

(** X14.  A request that names no family is answered at once.  When the
    font name of the style, the monospace one for a monospaced style, is
    [NULL] or holds nothing but blanks and commas, [SelectAndLoadFace]
    returns no face and leaves the state as it is: nothing is searched,
    nothing is loaded, and no warning is logged. *)
Theorem SelectAndLoadFace_without_names (p_style : text_style_t) (c : Z)
    (s : filter_sys_t) :
  (∀ name,
     (if has_flag (i_style_flags p_style) STYLE_MONOSPACED
      then psz_monofontname p_style else psz_fontname p_style) = Some name →
     every (λ ch, is_blank ch || is_delim ch) name = true) →
  SelectAndLoadFace p_style c s = (None, s).
Proof.
  intros Hname. unfold SelectAndLoadFace.
  destruct (if has_flag (i_style_flags p_style) STYLE_MONOSPACED
            then psz_monofontname p_style else psz_fontname p_style) as [name|].
  - by rewrite SplitIntoSingleFamily_blank by by apply Hname.
  - done.
Qed.

(** X15.  The face [SelectAndLoadFace] returns is loaded for the request: on
    a consistent state, it is the face of a file and face index of the
    engine, cached under the key of the size and width of the style of the
    request and set to these pixel sizes; and when a codepoint is asked for,
    the face has a glyph for it.  The state stays consistent. *)
Theorem SelectAndLoadFace_face_of_request (p_style : text_style_t) (c : Z)
    (s s' : filter_sys_t) (h : FT_Face) :
  let size := ConvertToLiveSize s p_style in
  let width := live_width p_style size in
  faces_wf s →
  SelectAndLoadFace p_style c s = (Some h, s') →
  faces_wf s' ∧ later s s'
  ∧ ∃ file idx src,
      face_map s' !! face_key file idx size width = Some h
      ∧ source_of s file = Some src
      ∧ ft_faces s' !! h = Some (loaded_face src idx width size)
      ∧ (c ≠ 0 → FT_Char_Index src idx c ≠ 0).
Proof.
  intros size width Hwf Hsel.
  destruct (SelectAndLoadFace_covers _ _ _ _ _ Hwf Hsel) as (Hwf' & Hlater & Hglyph).
  do 2 (split; [done|]).
  unfold SelectAndLoadFace in Hsel.
  destruct (SplitIntoSingleFamily _ []) as [|name names]; [done|].
  destruct (SelectFontWithFamilyFallback (name :: names) p_style c s)
    as [sel s1] eqn:Hfont.
  destruct (SelectFontWithFamilyFallback_wf _ _ _ _ _ _ Hwf Hfont) as (Hwf1 & Hl1).
  destruct sel as [[[|ch file] idx]|]; [done| |done].
  destruct (LoadFace_wf _ _ _ _ _ _ Hwf1 Hsel) as (_ & _ & _ & _ & _ & Hkey).
  specialize (Hkey h eq_refl).
  rewrite (same_config_size s s1) in Hkey by apply Hl1. fold size width in Hkey.
  destruct (wf_cached _ Hwf' _ _ _ _ _ Hkey) as (src & Hsrc & _ & Hrec).
  rewrite (same_config_source s s') in Hsrc by apply Hlater.
  exists (String ch file), idx, src. do 3 (split; [done|]).
  intros Hc. specialize (Hglyph Hc h eq_refl).
  unfold FT_Get_Char_Index in Hglyph. by rewrite Hrec in Hglyph.
Qed.

End RequestMore.

(** ** Chains of families *)

Section Chains.

Implicit Types (next : gmap positive positive) (p : option positive)
  (l : list positive).

Lemma chain_inj next p l l' : chain next p l → chain next p l' → l = l'.
Proof.
  revert p l'. induction l as [|q l IH]; intros p [|q' l']; simpl.
  - done.
  - intros -> [? _]. done.
  - intros [-> _] ?. done.
  - intros [-> Hl] [[= <-] Hl']. f_equal. by eapply IH.
Qed.

(** The chain from a record of a chain is the rest of the chain. *)
Lemma chain_suffix next p l1 q l2 :
  chain next p (l1 ++ q :: l2) → chain next (Some q) (q :: l2).
Proof.
  revert p. induction l1 as [|x l1 IH]; intros p; simpl.
  - intros [_ Hl]. done.
  - intros [_ Hl]. by eapply IH.
Qed.

(** A chain that ends passes through no record twice. *)
Lemma chain_NoDup next p l : chain next p l → NoDup l.
Proof.
  revert p. induction l as [|q l IH]; intros p; [constructor|].
  intros [-> Hl]. constructor; [|by eapply IH].
  intros Hin. apply list_elem_of_split in Hin as (l1 & l2 & ->).
  pose proof (chain_suffix _ _ _ _ _ Hl) as [_ Hq].
  pose proof (chain_inj _ _ _ _ Hl Hq) as Heq.
  apply (f_equal length) in Heq. rewrite length_app in Heq. simpl in Heq. lia.
Qed.

(** Every record of a chain but the last has a link; the last has none. *)
Lemma chain_links next p l x :
  chain next p (l ++ [x]) →
  next !! x = None ∧ ∀ q, q ∈ l → is_Some (next !! q).
Proof.
  revert p. induction l as [|y l IH]; intros p; simpl.
  - intros [_ Hx]. split; [done|]. by intros q ?%elem_of_nil.
  - intros [_ Hl]. destruct (IH _ Hl) as [Hx Hall]. split; [done|].
    intros q [->|Hq]%elem_of_cons; [|by apply Hall].
    destruct l; simpl in Hl; destruct Hl as [Hy _]; by eexists.
Qed.

(** A chain that ends has no more links than the map holds. *)
Lemma chain_length next p l : chain next p l → (length l ≤ S (size next))%nat.
Proof.
  intros Hl. destruct (decide (l = [])) as [->|Hne]; [simpl; lia|].
  destruct (exists_last Hne) as (l' & x & ->).
  destruct (chain_links _ _ _ _ Hl) as [_ Hall].
  apply chain_NoDup, NoDup_app in Hl as (Hnd & _ & _).
  rewrite length_app. simpl.
  assert (length l' ≤ size next)%nat; [|lia].
  rewrite <- (size_dom (D := gset positive)).
  rewrite <- (size_list_to_set (C := gset positive) l') by done.
  apply subseteq_size. intros q Hq%elem_of_list_to_set.
  by apply elem_of_dom, Hall.
Qed.

(** Writing the link of a record that is not on a chain leaves the chain
    alone. *)
Lemma chain_insert_ne next p l x y :
  x ∉ l → chain next p l → chain (<[x := y]> next) p l.
Proof.
  revert p. induction l as [|q l IH]; intros p Hx; [done|].
  intros [-> Hl]. split; [done|].
  rewrite lookup_insert_ne by (intros ->; apply Hx; by left).
  apply IH; [|done]. intros ?. apply Hx. by right.
Qed.

Lemma chain_delete_ne next p l x :
  x ∉ l → chain next p l → chain (delete x next) p l.
Proof.
  revert p. induction l as [|q l IH]; intros p Hx; [done|].
  intros [-> Hl]. split; [done|].
  rewrite lookup_delete_ne by (intros ->; apply Hx; by left).
  apply IH; [|done]. intros ?. apply Hx. by right.
Qed.

(** Writing the link of the last record of a chain to a record that has no
    link and is not on the chain makes the chain one longer. *)
Lemma chain_snoc next p l x y :
  chain next p (l ++ [x]) → y ∉ l ++ [x] → next !! y = None →
  chain (<[x := y]> next) p ((l ++ [x]) ++ [y]).
Proof.
  revert p. induction l as [|z l IH]; intros p; simpl.
  - intros [-> _] Hy Hnone. split; [done|].
    rewrite lookup_insert_eq. split; [done|].
    rewrite lookup_insert_ne; [done|]. intros ->. apply Hy. by left.
  - intros [-> Hl] Hy Hnone. split; [done|].
    pose proof (chain_NoDup next (Some z) (z :: l ++ [x]) (conj eq_refl Hl)) as Hnd.
    apply NoDup_cons in Hnd as [Hz _].
    rewrite lookup_insert_ne.
    2:{ intros ->. apply Hz. apply elem_of_app. right. by left. }
    apply IH; [done| |done]. intros ?. apply Hy. by right.
Qed.

(** On a chain that ends the loop of [AppendFamily] comes to the last
    record and writes its link. *)
Lemma AppendFamily_from_chain (fuel : nat) next (q : positive) l x y :
  chain next (Some q) (l ++ [x]) → (length (l ++ [x]) ≤ fuel)%nat →
  AppendFamily_from fuel q y next = Returns (<[x := y]> next).
Proof.
  revert q fuel. induction l as [|z l IH]; intros q fuel; simpl.
  - intros [[= <-] Hx] Hfuel. destruct fuel as [|fuel]; [lia|].
    simpl. by rewrite Hx.
  - intros [[= <-] Hl] Hfuel. destruct fuel as [|fuel]; [lia|].
    simpl. destruct (next !! q) as [q'|] eqn:Hq.
    + apply IH; [done|lia].
    + destruct l; simpl in Hl; by destruct Hl.
Qed.

(** On a record that is linked to itself the loop has no end. *)
Lemma AppendFamily_from_self (fuel : nat) next (q y : positive) :
  next !! q = Some q → AppendFamily_from fuel q y next = Loops.
Proof. intros Hq. induction fuel as [|fuel IH]; simpl; [done|]. by rewrite Hq. Qed.

(** The list of a chain that ends, and only of such a chain. *)
Lemma family_chain_chain (fuel : nat) next p l :
  chain next p l → (length l ≤ fuel)%nat → family_chain fuel next p = Returns l.
Proof.
  revert p fuel. induction l as [|q l IH]; intros p fuel; simpl.
  - intros -> _. by destruct fuel.
  - intros [-> Hl] Hfuel. destruct fuel as [|fuel]; [lia|].
    simpl. rewrite (IH _ fuel) by (done || lia). done.
Qed.

Lemma family_chain_Returns (fuel : nat) next p l :
  family_chain fuel next p = Returns l → chain next p l.
Proof.
  revert p l. induction fuel as [|fuel IH]; intros [q|] l; simpl; try done.
  - by intros [= <-].
  - destruct (family_chain fuel next (next !! q)) as [l'| |] eqn:Hl'; try done.
    intros [= <-]. split; [done|]. by apply IH.
  - by intros [= <-].
Qed.

(** Writing the link of the last record of a chain to the head of a second
    chain, which has no record in common with the first, makes one chain of
    the two. *)
Lemma chain_link next p l x (y : positive) l2 :
  chain next p (l ++ [x]) → chain next (Some y) l2 →
  (∀ q, q ∈ l ++ [x] → q ∉ l2) →
  chain (<[x := y]> next) p ((l ++ [x]) ++ l2).
Proof.
  intros Hl Hl2 Hdisj.
  assert (Hx : x ∉ l2) by (apply Hdisj, elem_of_app; right; by left).
  pose proof (chain_insert_ne next (Some y) l2 x y Hx Hl2) as Hl2'.
  pose proof (chain_NoDup _ _ _ Hl) as Hnd.
  clear Hl2 Hdisj Hx. revert p Hl Hnd.
  induction l as [|z l IH]; intros p; simpl.
  - intros [-> _] _. split; [done|]. by rewrite lookup_insert_eq.
  - intros [-> Hl] [Hz Hnd]%NoDup_cons. split; [done|].
    rewrite lookup_insert_ne.
    2:{ intros ->. apply Hz. apply elem_of_app. right. by left. }
    by apply IH.
Qed.

(** A list that runs into a record linked to itself has no end. *)
Lemma family_chain_knot (fuel : nat) next (q x : positive) l :
  chain (delete x next) (Some q) (l ++ [x]) → next !! x = Some x →
  family_chain fuel next (Some q) = Loops.
Proof.
  intros Hl Hx.
  pose proof (chain_NoDup _ _ _ Hl) as Hnd.
  revert q fuel Hl Hnd. induction l as [|z l IH]; intros q fuel; simpl.
  - intros [[= <-] _] _. induction fuel as [|fuel IHf]; [done|].
    simpl. rewrite Hx. by rewrite IHf.
  - intros [[= <-] Hl] [Hq Hnd]%NoDup_cons.
    destruct fuel as [|fuel]; [done|]. simpl.
    rewrite lookup_delete_ne in Hl.
    2:{ intros ->. apply Hq. apply elem_of_app. right. by left. }
    destruct (next !! q) as [q'|].
    + by rewrite IH.
    + destruct l; simpl in Hl; by destruct Hl.
Qed.

Lemma AppendFamily_from_knot (fuel : nat) next (q x y : positive) l :
  chain (delete x next) (Some q) (l ++ [x]) → next !! x = Some x →
  AppendFamily_from fuel q y next = Loops.
Proof.
  intros Hl Hx.
  pose proof (chain_NoDup _ _ _ Hl) as Hnd.
  revert q fuel Hl Hnd. induction l as [|z l IH]; intros q fuel; simpl.
  - intros [[= <-] _] _. by apply AppendFamily_from_self.
  - intros [[= <-] Hl] [Hq Hnd]%NoDup_cons.
    destruct fuel as [|fuel]; [done|]. simpl.
    rewrite lookup_delete_ne in Hl.
    2:{ intros ->. apply Hq. apply elem_of_app. right. by left. }
    destruct (next !! q) as [q'|].
    + by apply IH.
    + destruct l; simpl in Hl; by destruct Hl.
Qed.

End Chains.

(** ** Registration, once more *)

Section RegistrationMore.

Context {hdr : Headers} {ft : FreeType}.

(** What [NewFont] writes, whatever the parent. *)
Lemma NewFont_writes file idx bold italic p_parent (s : filter_sys_t) :
  let p_font := fresh (dom (font_store s)) in
  let s' := (NewFont file idx bold italic p_parent s).2 in
  (NewFont file idx bold italic p_parent s).1 = p_font
  ∧ font_store s'
    = <[p_font := {| psz_fontfile := file; i_index := idx; b_bold := bold;
                     b_italic := italic; p_face := None |}]> (font_store s)
  ∧ same_config s s' ∧ face_map s' = face_map s ∧ ft_faces s' = ft_faces s
  ∧ ft_next s' = ft_next s ∧ sys_log s' = sys_log s
  ∧ (p_parent ≫= (λ p, family_store s !! p) = None →
     family_store s' = family_store s).
Proof.
  intros p_font s'. subst s'.
  destruct p_parent as [p|]; [|by repeat split].
  destruct (family_store s !! p) as [fam|] eqn:Hfam.
  - rewrite (NewFont_parent file idx bold italic p fam s Hfam). cbv zeta.
    fold p_font. simpl. rewrite Hfam.
    destruct (_ && _); simpl.
    + by repeat split.
    + destruct (AppendFont_fields p fam p_font
                  (set_font_store
                     (<[p_font := {| psz_fontfile := file; i_index := idx;
                                     b_bold := bold; b_italic := italic;
                                     p_face := None |}]> (font_store s)) s))
        as (-> & -> & -> & -> & -> & Hcfg).
      split; [done|]. split; [done|]. split; [|done].
      destruct Hcfg. by split.
  - unfold NewFont. simpl. rewrite Hfam. by repeat split.
Qed.

(** The families after [NewFont] for a family of the store: the parent has
    the font in front or at the end, and a family whose list ends where the
    list of the parent ended has it at the end when the parent has. *)
Lemma NewFont_families file idx bold italic (p : family_ptr) (fam : vlc_family_t)
    (s : filter_sys_t) (q : family_ptr) :
  family_store s !! p = Some fam →
  fonts_valid (p_fonts fam) s →
  let n := fresh (dom (font_store s)) in
  let in_front := first_is_styled (p_fonts fam) s && negb bold && negb italic in
  family_store (NewFont file idx bold italic (Some p) s).2 !! q
  = (λ other,
       {| psz_name := psz_name other;
          p_fonts :=
            if bool_decide (q = p)
            then (if in_front then n :: p_fonts other else p_fonts other ++ [n])
            else if negb in_front && same_end (p_fonts fam) (p_fonts other)
                 then p_fonts other ++ [n]
                 else p_fonts other |}) <$> family_store s !! q.
Proof.
  intros Hfam Hvalid n in_front.
  rewrite (NewFont_parent file idx bold italic p fam s Hfam). cbv zeta. fold n.
  set (s1 := set_font_store _ s).
  assert (Hhead : first_is_styled (p_fonts fam) s1 = first_is_styled (p_fonts fam) s).
  { destruct (p_fonts fam) as [|h rest] eqn:Hl; [done|]. simpl.
    rewrite lookup_insert_ne; [done|]. intros Heq.
    unfold fonts_valid in Hvalid. apply Forall_cons in Hvalid as [[f Hf] _].
    assert (font_store s !! n = None) by apply not_elem_of_dom, is_fresh.
    congruence. }
  rewrite Hhead. fold in_front. cbn [snd].
  destruct in_front.
  - simpl. destruct (decide (q = p)) as [->|Hne].
    + rewrite lookup_insert_eq, Hfam. simpl. by rewrite bool_decide_eq_true_2.
    + rewrite lookup_insert_ne by done.
      rewrite (bool_decide_eq_false_2 (q = p)) by done.
      by destruct (family_store s !! q) as [[? ?]|].
  - rewrite (AppendFont_store p fam n s1 q) by done.
    change (family_store s1) with (family_store s).
    destruct (family_store s !! q) as [other|] eqn:Hq; [|done]. simpl.
    destruct (decide (q = p)) as [->|Hne].
    + by rewrite bool_decide_eq_true_2.
    + rewrite (bool_decide_eq_false_2 (q = p)) by done. simpl.
      destruct (same_end _ _); [done|by destruct other].
Qed.

(** Every family keeps its name, and the parent has the font first or
    last, whatever the fonts are. *)
Lemma NewFont_names file idx bold italic p_parent (s : filter_sys_t)
    (q : family_ptr) :
  psz_name <$> family_store (NewFont file idx bold italic p_parent s).2 !! q
  = psz_name <$> family_store s !! q.
Proof.
  destruct (NewFont_writes file idx bold italic p_parent s)
    as (_ & _ & _ & _ & _ & _ & _ & Hnone).
  destruct p_parent as [p|]; [|by rewrite Hnone].
  destruct (family_store s !! p) as [fam|] eqn:Hfam;
    [|by rewrite Hnone by (simpl; by rewrite Hfam)].
  rewrite (NewFont_parent file idx bold italic p fam s Hfam). cbv zeta.
  destruct (_ && _); cbn [snd].
  - simpl. destruct (decide (q = p)) as [->|Hne].
    + by rewrite lookup_insert_eq, Hfam.
    + by rewrite lookup_insert_ne.
  - rewrite AppendFont_store by done. simpl.
    destruct (family_store s !! q) as [other|]; [|done]. simpl.
    by destruct (_ || _).
Qed.

Lemma NewFont_parent_list file idx bold italic (p : family_ptr)
    (fam : vlc_family_t) (s : filter_sys_t) :
  family_store s !! p = Some fam →
  let p_font := (NewFont file idx bold italic (Some p) s).1 in
  let s' := (NewFont file idx bold italic (Some p) s).2 in
  family_fonts p s' = p_font :: p_fonts fam
  ∨ family_fonts p s' = p_fonts fam ++ [p_font].
Proof.
  intros Hfam. rewrite (NewFont_parent file idx bold italic p fam s Hfam).
  cbv zeta. unfold family_fonts. destruct (_ && _); cbn [fst snd].
  - left. simpl. by rewrite lookup_insert_eq.
  - right. rewrite AppendFont_store by done. simpl. rewrite Hfam. simpl.
    by rewrite bool_decide_eq_true_2.
Qed.

(** A record that ends a chain is on another chain only as its end. *)
Lemma chain_end_shared (next : gmap positive positive) (p p' : option positive)
    (l l' : list positive) (x : positive) :
  chain next p (l ++ [x]) → chain next p' l' → x ∈ l' → last l' = Some x.
Proof.
  intros Hl Hl' Hx. destruct (chain_links _ _ _ _ Hl) as [Hnone _].
  apply list_elem_of_split in Hx as (l1 & l2 & ->).
  apply chain_suffix in Hl' as [_ Hrest]. rewrite Hnone in Hrest.
  destruct l2 as [|y l2]; [|by destruct Hrest].
  by rewrite last_snoc.
Qed.

(** X16.  [NewFont] keeps the state consistent.  The font it allocates is
    new and holds no face; the other fonts, the face cache, the faces of the
    engine and the log are as before; the families keep their names, and
    with a [NULL] parent the font is linked to no family.  The list of the
    parent gets the new font once and keeps what it had, so that a list of
    distinct, allocated fonts stays one.  The lists of the families stay the
    chains of their records: where they are the chains for some links of
    the font records before the call, they are afterwards the chains for
    these links and the one link the call writes, so that a family that
    shares the end of the chain of the parent has the font behind it too. *)
Theorem NewFont_keeps_consistent file idx bold italic
    (p_parent : option family_ptr) (s : filter_sys_t) :
  faces_wf s →
  let p_font := (NewFont file idx bold italic p_parent s).1 in
  let s' := (NewFont file idx bold italic p_parent s).2 in
  faces_wf s'
  ∧ font_store s !! p_font = None
  ∧ (∃ f, font_store s' !! p_font = Some f ∧ p_face f = None)
  ∧ (∀ p, p ≠ p_font → font_store s' !! p = font_store s !! p)
  ∧ face_map s' = face_map s ∧ ft_faces s' = ft_faces s ∧ sys_log s' = sys_log s
  ∧ (p_parent = None → family_store s' = family_store s)
  ∧ (∀ q, psz_name <$> family_store s' !! q = psz_name <$> family_store s !! q)
  ∧ (∀ p fam, p_parent = Some p → family_store s !! p = Some fam →
       family_fonts p s' ≡ₚ p_font :: p_fonts fam
       ∧ (fonts_valid (p_fonts fam) s → NoDup (p_fonts fam) →
          fonts_valid (family_fonts p s') s' ∧ NoDup (family_fonts p s')))
  ∧ (families_valid s → families_valid s')
  ∧ (∀ next, families_valid s → font_chains next s → next !! p_font = None →
       font_chains (font_link_written p_parent p_font bold italic s next) s').
Proof.
  intros Hwf p_font s'.
  pose proof (NewFont_fresh file idx bold italic p_parent s) as Hfresh.
  destruct (NewFont_writes file idx bold italic p_parent s)
    as (Hptr & Hfonts & Hcfg & Hmap & Hfaces & Hnext & Hlog & Hnone).
  fold p_font in Hfresh, Hptr. fold s' in Hfonts, Hcfg, Hmap, Hfaces, Hnext, Hlog, Hnone.
  rewrite <- Hptr in Hfonts.
  assert (Hfams : ∀ p fam q, p_parent = Some p → family_store s !! p = Some fam →
            fonts_valid (p_fonts fam) s →
            family_store s' !! q
            = (λ other,
                 {| psz_name := psz_name other;
                    p_fonts :=
                      if bool_decide (q = p)
                      then (if first_is_styled (p_fonts fam) s && negb bold
                               && negb italic
                            then p_font :: p_fonts other
                            else p_fonts other ++ [p_font])
                      else if negb (first_is_styled (p_fonts fam) s && negb bold
                                    && negb italic)
                              && same_end (p_fonts fam) (p_fonts other)
                           then p_fonts other ++ [p_font]
                           else p_fonts other |}) <$> family_store s !! q).
  { intros p fam q -> Hfam Hvalid. subst s'. rewrite Hptr.
    by apply NewFont_families. }
  assert (Hkeep : ∀ l, fonts_valid l s → fonts_valid l s' ∧ p_font ∉ l).
  { intros l Hl. unfold fonts_valid in *. rewrite Forall_forall in Hl. split.
    - rewrite Forall_forall. intros q Hq. rewrite Hfonts.
      destruct (decide (p_font = q)) as [<-|Hne];
        [rewrite lookup_insert_eq; by eexists|].
      rewrite lookup_insert_ne by done. by apply Hl.
    - intros Hin. apply Hl in Hin as [f Hf]. congruence. }
  assert (Hself : fonts_valid [p_font] s').
  { repeat constructor. rewrite Hfonts, lookup_insert_eq. by eexists. }
  split; [|split; [done|split; [|split; [|split; [done|split; [done|split;
    [done|split; [|split; [|split; [|split]]]]]]]]]].
  - split.
    + intros file' idx' size width h. rewrite Hmap, Hfaces.
      rewrite (same_config_source s s') by done. apply Hwf.
    + intros key h. rewrite Hmap, Hfaces. apply Hwf.
    + intros key1 key2 h. rewrite Hmap. apply Hwf.
    + intros h. rewrite Hfaces, Hnext. apply Hwf.
    + intros p f h. rewrite Hfonts, Hmap.
      rewrite (same_config_default_size s s'), (same_config_default_width s s')
        by done.
      destruct (decide (p_font = p)) as [<-|Hne].
      * rewrite lookup_insert_eq. by intros [= <-].
      * rewrite lookup_insert_ne by done. apply Hwf.
  - eexists. rewrite Hfonts, lookup_insert_eq. done.
  - intros p Hp. rewrite Hfonts. by rewrite lookup_insert_ne.
  - intros ->. by apply Hnone.
  - intros q. apply NewFont_names.
  - intros p fam -> Hfam.
    assert (Hperm : family_fonts p s' ≡ₚ p_font :: p_fonts fam).
    { destruct (NewFont_parent_list file idx bold italic p fam s Hfam) as [Hl|Hl];
        fold s' p_font in Hl; rewrite Hl; [done|].
      by rewrite Permutation_app_comm. }
    split; [done|]. intros Hvalid Hnodup.
    destruct (Hkeep _ Hvalid) as [Hvalid' Hnew].
    split.
    + unfold fonts_valid. rewrite Hperm. constructor; [|exact Hvalid'].
      rewrite Hfonts, lookup_insert_eq. by eexists.
    + rewrite Hperm. by constructor.
  - intros Hvalid q fam' Hq.
    destruct (p_parent ≫= (λ p, family_store s !! p)) as [fam|] eqn:Hparent.
    + destruct p_parent as [p|]; [|done]. simpl in Hparent.
      rewrite (Hfams p fam q eq_refl Hparent (Hvalid _ _ Hparent)) in Hq.
      destruct (family_store s !! q) as [other|] eqn:Hother; [|done].
      injection Hq as <-. simpl.
      destruct (Hkeep _ (Hvalid _ _ Hother)) as [Hother' _].
      unfold fonts_valid in *.
      repeat case_match; rewrite ?Forall_app, ?Forall_cons;
        repeat split; try done; by apply Forall_cons in Hself as [? _].
    + rewrite Hnone in Hq by done. by apply Hkeep, (Hvalid q).
  - intros next Hvalid Hchains Hfree q fam' Hq. unfold font_link_written.
    destruct (p_parent ≫= (λ p, family_store s !! p)) as [fam|] eqn:Hparent.
    2:{ rewrite Hnone in Hq by done. by apply (Hchains q). }
    destruct p_parent as [p|]; [|done]. simpl in Hparent.
    rewrite (Hfams p fam q eq_refl Hparent (Hvalid _ _ Hparent)) in Hq.
    destruct (family_store s !! q) as [other|] eqn:Hother; [|done].
    injection Hq as <-. simpl.
    pose proof (Hchains _ _ Hparent) as Hp.
    pose proof (Hchains _ _ Hother) as Ho.
    destruct (Hkeep _ (Hvalid _ _ Hparent)) as [_ Hnp].
    destruct (Hkeep _ (Hvalid _ _ Hother)) as [_ Hno].
    destruct (first_is_styled (p_fonts fam) s && negb bold && negb italic)
      eqn:Hfront; simpl.
    + destruct (p_fonts fam) as [|h rest] eqn:HL; [done|]. simpl.
      destruct (decide (q = p)) as [->|Hne].
      * rewrite bool_decide_eq_true_2 by done.
        assert (other = fam) as -> by congruence. rewrite HL. simpl.
        split; [done|]. rewrite lookup_insert_eq.
        by apply (chain_insert_ne next (Some h) (h :: rest)).
      * rewrite bool_decide_eq_false_2 by done. by apply chain_insert_ne.
    + destruct (decide (p_fonts fam = [])) as [HL|HL].
      * unfold same_end. rewrite HL. simpl.
        destruct (decide (q = p)) as [->|Hne].
        -- rewrite bool_decide_eq_true_2 by done.
           assert (other = fam) as -> by congruence. rewrite HL. simpl. done.
        -- by rewrite bool_decide_eq_false_2.
      * destruct (exists_last HL) as (l0 & t & HL'). rewrite HL' in *.
        unfold same_end. rewrite !last_snoc.
        assert (Happ : ∀ l, chain next (head l) l → p_font ∉ l → last l = Some t →
                  chain (<[t := p_font]> next) (head (l ++ [p_font])) (l ++ [p_font])).
        { intros l Hl Hnl Hlast.
          destruct (decide (l = [])) as [->|Hne0]; [done|].
          destruct (exists_last Hne0) as (l1 & x & ->).
          rewrite last_snoc in Hlast. injection Hlast as ->.
          replace (head ((l1 ++ [t]) ++ [p_font])) with (head (l1 ++ [t]))
            by (by destruct l1).
          by apply chain_snoc. }
        destruct (decide (q = p)) as [->|Hne].
        -- rewrite bool_decide_eq_true_2 by done.
           assert (other = fam) as -> by congruence. rewrite HL'.
           apply Happ; [done..|by rewrite last_snoc].
        -- rewrite (bool_decide_eq_false_2 (q = p)) by done.
           destruct (decide (last (p_fonts other) = Some t)) as [Hlast|Hlast].
           ++ rewrite bool_decide_eq_true_2 by done. by apply Happ.
           ++ rewrite bool_decide_eq_false_2 by done.
              apply chain_insert_ne; [|done]. intros Hin. apply Hlast.
              by eapply (chain_end_shared next _ _ l0).
Qed.

End RegistrationMore.

(** ** [AppendFamily] and [NewFamily] *)

Section NewFamilies.

Context {hdr : Headers} {ft : FreeType} {phdr : PlatformHeaders}.

(** What [AppendFamily] comes to on a list that ends. *)
Lemma AppendFamily_returns (p_list : option family_ptr) (p_family : family_ptr)
    (l : list family_ptr) (r : family_sys_t) :
  chain (family_p_next r) p_list l →
  AppendFamily p_list p_family r
  = Returns (Some (default p_family p_list),
             match last l with
             | Some x => set_family_p_next (<[x := p_family]> (family_p_next r)) r
             | None => r
             end).
Proof.
  intros Hl. destruct (decide (l = [])) as [->|Hne].
  { simpl in Hl. by subst p_list. }
  destruct (exists_last Hne) as (l' & x & ->). rewrite last_snoc.
  destruct p_list as [q|]; [|by destruct l'; destruct Hl].
  unfold AppendFamily.
  rewrite (AppendFamily_from_chain _ _ _ l' x); [done|done|].
  by eapply chain_length.
Qed.

(** X17.  [AppendFamily] on a list that ends returns, and the list is then
    the list as it was followed by the chain of the family given, provided
    the two have no record in common; the head is the old head, or the family
    when the list was empty.  Nothing but one link is written: a chain that
    does not pass through the last record of the list is as before, while
    every chain that ends in that record is extended in the same way. *)
Theorem AppendFamily_appends (p_list : option family_ptr) (p_family : family_ptr)
    (l l2 : list family_ptr) (r : family_sys_t) :
  chain (family_p_next r) p_list l →
  chain (family_p_next r) (Some p_family) l2 →
  (∀ q, q ∈ l → q ∉ l2) →
  ∃ r', AppendFamily p_list p_family r = Returns (Some (default p_family p_list), r')
    ∧ chain (family_p_next r') (Some (default p_family p_list)) (l ++ l2)
    ∧ base_sys r' = base_sys r ∧ p_families r' = p_families r
    ∧ family_map r' = family_map r
    ∧ (∀ p' l', chain (family_p_next r) p' l' →
         (∀ x, last l = Some x → x ∉ l') → chain (family_p_next r') p' l')
    ∧ (∀ p' l' x, chain (family_p_next r) p' l' →
         last l = Some x → last l' = Some x → (∀ q, q ∈ l' → q ∉ l2) →
         chain (family_p_next r') p' (l' ++ l2)).
Proof.
  intros Hl Hl2 Hdisj. rewrite (AppendFamily_returns _ _ l) by done.
  eexists. split; [done|].
  destruct (decide (l = [])) as [->|Hne].
  { simpl in *. subst p_list. simpl. split; [done|]. do 3 (split; [done|]).
    split; [done|]. by intros. }
  destruct (exists_last Hne) as (l' & x & ->). rewrite last_snoc. simpl.
  destruct p_list as [q|]; [|by destruct l'; destruct Hl]. simpl.
  split; [by apply chain_link|]. do 3 (split; [done|]). split.
  - intros p' l0 Hl0 Hx. apply chain_insert_ne; [by apply Hx|done].
  - intros p' l0 x0 Hl0 [= <-] Hlast Hdisj0.
    destruct (decide (l0 = [])) as [->|Hne0]; [done|].
    destruct (exists_last Hne0) as (l0' & x0 & ->).
    rewrite last_snoc in Hlast. injection Hlast as ->.
    by apply chain_link.
Qed.

(** A record that is not in the store has no link and no link leads to
    it. *)
Lemma links_closed_fresh (r : family_sys_t) (p : family_ptr) :
  links_closed r → family_store (base_sys r) !! p = None →
  family_p_next r !! p = None
  ∧ ∀ q l, chain (family_p_next r) q l → q ≠ Some p → p ∉ l.
Proof.
  intros Hclosed Hp. split.
  - destruct (family_p_next r !! p) as [q|] eqn:Hq; [|done].
    destruct (Hclosed _ _ Hq) as [[? ?] _]. congruence.
  - intros q l. revert q. induction l as [|z l IH]; intros q Hl Hne.
    { by intros ?%elem_of_nil. }
    destruct Hl as [-> Hl]. intros [->|Hin]%elem_of_cons; [done|].
    revert Hin. apply (IH _ Hl). intros Hz.
    destruct (Hclosed _ _ Hz) as [_ [? ?]]. congruence.
Qed.

(** What [NewFamily] comes to when the list ends and the dictionary does not
    hold the key. *)
Lemma NewFamily_returns (psz_family : option string)
    (pp_list : option (option family_ptr))
    (p_dict : option (gmap string family_ptr)) (psz_key : option string)
    (r : family_sys_t) (l : list family_ptr) :
  let name :=
    match psz_family with
    | Some (String c rest) => ToLower (String c rest)
    | _ => FB_NAME +:+ "-" +:+ fmt_04d (i_fallback_counter r)
    end in
  let counter :=
    match psz_family with
    | Some (String c rest) => i_fallback_counter r
    | _ => int_wrap (i_fallback_counter r + 1)
    end in
  let key := match psz_key with Some k => ToLower k | None => name end in
  let p := fresh (dom (family_store (base_sys r))) in
  links_closed r →
  chain (family_p_next r) (default None pp_list) l →
  (∀ dict, p_dict = Some dict → dict !! key = None) →
  NewFamily psz_family pp_list p_dict psz_key r
  = Returns
      (p, (λ head, Some (default p head)) <$> pp_list,
       (λ dict, <[key := p]> dict) <$> p_dict,
       family_added r p name (pp_list ≫= λ _, last l) counter).
Proof.
  intros name counter key p Hclosed Hl Hkey.
  assert (Hp : family_store (base_sys r) !! p = None).
  { apply not_elem_of_dom, is_fresh. }
  destruct (links_closed_fresh r p Hclosed Hp) as [Hnone _].
  assert (Hdel : delete p (family_p_next r) = family_p_next r)
    by by apply delete_id.
  unfold NewFamily.
  assert (Hstep : ∀ r0 : family_sys_t,
    base_sys r0 = base_sys r → family_p_next r0 = family_p_next r →
    (let '(p_family, r1) := calloc_family name r0 in
     '(pp_list0, r2) ←
       match pp_list with
       | Some p_list =>
           '(p_list, r2) ← AppendFamily p_list p_family r1; mret (Some p_list, r2)
       | None => mret (None, r1)
       end;
     match p_dict with
     | Some dict =>
         match dict !! key with
         | Some p_root =>
             '(_, r3) ← AppendFamily (Some p_root) p_family r2;
             mret (p_family, pp_list0, Some dict, r3)
         | None => mret (p_family, pp_list0, Some (<[key := p_family]> dict), r2)
         end
     | None => mret (p_family, pp_list0, None, r2)
     end)
    = Returns
        (p, (λ head, Some (default p head)) <$> pp_list,
         (λ dict, <[key := p]> dict) <$> p_dict,
         family_added r0 p name (pp_list ≫= λ _, last l) (i_fallback_counter r0))).
  { intros r0 Hbase Hnext. unfold calloc_family, family_added.
    rewrite Hbase, Hnext. fold p. rewrite Hdel.
    destruct pp_list as [p_list|]; simpl.
    - rewrite (AppendFamily_returns _ _ l) by done. simpl.
      destruct p_dict as [dict|]; simpl.
      + rewrite (Hkey dict eq_refl). simpl. by destruct (last l).
      + by destruct (last l).
    - destruct p_dict as [dict|]; simpl.
      + by rewrite (Hkey dict eq_refl).
      + done. }
  subst name counter key.
  destruct psz_family as [[|c rest]|]; by rewrite Hstep.
Qed.

(** The state with one more family, a record that was not in the store,
    behind the last record of a list that ends: the list is one longer, the
    links stay within the store, and the links of the other records are as
    they were. *)
Lemma family_added_chain (r : family_sys_t) (p : family_ptr) (name : string)
    (counter : Z) (p_list : option family_ptr) (l : list family_ptr) :
  links_closed r → allocated r l →
  family_store (base_sys r) !! p = None →
  chain (family_p_next r) p_list l →
  let r' := family_added r p name (last l) counter in
  chain (family_p_next r') (Some (default p p_list)) (l ++ [p])
  ∧ links_closed r' ∧ allocated r' (l ++ [p])
  ∧ (∀ q, last l ≠ Some q → family_p_next r' !! q = family_p_next r !! q).
Proof.
  intros Hclosed Halloc Hp Hl r'.
  destruct (links_closed_fresh r p Hclosed Hp) as [Hnone _].
  assert (Hpl : p ∉ l).
  { intros Hin. unfold allocated in Halloc. rewrite Forall_forall in Halloc.
    apply Halloc in Hin as [? ?]. congruence. }
  assert (Hstore : ∀ q, is_Some (family_store (base_sys r) !! q) →
                        is_Some (family_store (base_sys r') !! q)).
  { intros q [fam Hq]. simpl. rewrite lookup_insert_ne by congruence. by eexists. }
  split; [|split; [|split]].
  - subst r'. unfold family_added. simpl.
    destruct (decide (l = [])) as [->|Hne].
    { simpl in *. by subst p_list. }
    destruct (exists_last Hne) as (l' & x & ->). rewrite last_snoc.
    destruct p_list as [q|]; [|by destruct l'; destruct Hl]. simpl.
    by apply chain_snoc.
  - intros q q'. simpl.
    destruct (last l) as [x|] eqn:Hlast.
    + destruct (decide (x = q)) as [->|Hne].
      * rewrite lookup_insert_eq. intros [= <-]. split.
        -- apply Hstore. apply last_Some_elem_of in Hlast.
           unfold allocated in Halloc. rewrite Forall_forall in Halloc.
           by apply Halloc.
        -- rewrite lookup_insert_eq. by eexists.
      * rewrite lookup_insert_ne by done. intros Hq.
        destruct (Hclosed _ _ Hq). split; by apply Hstore.
    + intros Hq. destruct (Hclosed _ _ Hq). split; by apply Hstore.
  - unfold allocated in *. rewrite Forall_app. split.
    + eapply Forall_impl; [exact Halloc|]. intros q. apply Hstore.
    + constructor; [|done]. simpl. rewrite lookup_insert_eq. by eexists.
  - intros q Hq. simpl. destruct (last l) as [x|]; [|done].
    rewrite lookup_insert_ne; [done|congruence].
Qed.

(** X18.  [NewFamily], given a list that ends and a key the dictionary does
    not hold, either of which may be [NULL], returns a record that was not in
    the store.  The family has no fonts; its name is the name given in lower
    case or, for a name that is [NULL] or empty, the prefix for fallbacks
    followed by the counter, which then goes up by one.  The family is the
    new last record of the list and the dictionary maps the key, in lower
    case, or the name of the family when the key is [NULL], to it.  Nothing
    else is written, and the links stay within the store. *)
Theorem NewFamily_registers (psz_family : option string)
    (pp_list : option (option family_ptr))
    (p_dict : option (gmap string family_ptr)) (psz_key : option string)
    (r : family_sys_t) (l : list family_ptr) :
  let name :=
    match psz_family with
    | Some (String c rest) => ToLower (String c rest)
    | _ => FB_NAME +:+ "-" +:+ fmt_04d (i_fallback_counter r)
    end in
  let key := match psz_key with Some k => ToLower k | None => name end in
  links_closed r → allocated r l →
  chain (family_p_next r) (default None pp_list) l →
  (∀ dict, p_dict = Some dict → dict !! key = None) →
  ∃ p r',
    NewFamily psz_family pp_list p_dict psz_key r
    = Returns (p, (λ head, Some (default p head)) <$> pp_list,
               (λ dict, <[key := p]> dict) <$> p_dict, r')
    ∧ family_store (base_sys r) !! p = None
    ∧ base_sys r'
      = set_family_store
          (<[p := {| psz_name := name; p_fonts := [] |}]> (family_store (base_sys r)))
          (base_sys r)
    ∧ (∀ head, pp_list = Some head →
         chain (family_p_next r') (Some (default p head)) (l ++ [p]))
    ∧ (pp_list = None → family_p_next r' = family_p_next r)
    ∧ links_closed r'
    ∧ p_families r' = p_families r ∧ family_map r' = family_map r
    ∧ i_fallback_counter r'
      = match psz_family with
        | Some (String c rest) => i_fallback_counter r
        | _ => int_wrap (i_fallback_counter r + 1)
        end.
Proof.
  intros name key Hclosed Halloc Hl Hkey.
  pose proof (NewFamily_returns psz_family pp_list p_dict psz_key r l
                Hclosed Hl Hkey) as Hret.
  cbv zeta in Hret. fold name in Hret. fold key in Hret.
  set (p := fresh (dom (family_store (base_sys r)))) in *.
  assert (Hp : family_store (base_sys r) !! p = None).
  { apply not_elem_of_dom, is_fresh. }
  clearbody p name.
  eexists p, _. split; [exact Hret|].
  split; [done|]. split; [done|].
  destruct pp_list as [head|]; simpl in *.
  - destruct (family_added_chain r p name
                match psz_family with
                | Some (String _ _) => i_fallback_counter r
                | _ => int_wrap (i_fallback_counter r + 1)
                end head l Hclosed Halloc Hp Hl) as (Hchain & Hclosed' & _).
    split; [intros ? [= <-]; exact Hchain|].
    split; [done|]. split; [exact Hclosed'|done].
  - destruct l as [|? ?]; [|by destruct Hl].
    destruct (family_added_chain r p name
                match psz_family with
                | Some (String _ _) => i_fallback_counter r
                | _ => int_wrap (i_fallback_counter r + 1)
                end None [] Hclosed Halloc Hp eq_refl) as (_ & Hclosed' & _).
    split; [done|]. split; [done|]. split; [exact Hclosed'|done].
Qed.

(** X19.  [NewFamily] must not be given a list together with a dictionary
    that holds the key already, when the family it holds is on the list.
    The family is then appended twice, to the list and to the chain of the
    family of the dictionary, through the same links, and the second time
    the last record of the chain is the family itself: the family ends up
    linked to itself.  From then on the list has no end, and a further
    [AppendFamily] to it does not return. *)
Theorem NewFamily_ties_knot (psz_family : option string)
    (p_list : option family_ptr) (dict : gmap string family_ptr)
    (psz_key : option string) (r : family_sys_t) (l : list family_ptr)
    (p_root : family_ptr) :
  let name :=
    match psz_family with
    | Some (String c rest) => ToLower (String c rest)
    | _ => FB_NAME +:+ "-" +:+ fmt_04d (i_fallback_counter r)
    end in
  let key := match psz_key with Some k => ToLower k | None => name end in
  links_closed r → allocated r l →
  chain (family_p_next r) p_list l →
  dict !! key = Some p_root → p_root ∈ l →
  ∃ p r',
    NewFamily psz_family (Some p_list) (Some dict) psz_key r
    = Returns (p, Some p_list, Some dict, r')
    ∧ family_p_next r' !! p = Some p
    ∧ (∀ fuel, family_chain fuel (family_p_next r') p_list = Loops)
    ∧ (∀ p_family, AppendFamily p_list p_family r' = Loops).
Proof.
  intros name key Hclosed Halloc Hl Hkey Hroot.
  set (p := fresh (dom (family_store (base_sys r)))).
  assert (Hp : family_store (base_sys r) !! p = None).
  { apply not_elem_of_dom, is_fresh. }
  destruct (links_closed_fresh r p Hclosed Hp) as [Hnone _].
  assert (Hdel : delete p (family_p_next r) = family_p_next r)
    by by apply delete_id.
  assert (Hpl : p ∉ l).
  { intros Hin. unfold allocated in Halloc. rewrite Forall_forall in Halloc.
    apply Halloc in Hin as [? ?]. congruence. }
  assert (Hne : l ≠ []) by (intros ->; by apply elem_of_nil in Hroot).
  destruct (exists_last Hne) as (l' & x & ->).
  destruct p_list as [q|]; [|by destruct l'; destruct Hl].
  set (next1 := <[x := p]> (family_p_next r)).
  assert (Hl1 : chain next1 (Some q) ((l' ++ [x]) ++ [p])) by by apply chain_snoc.
  assert (Hroot1 : ∃ l2, chain next1 (Some p_root) (l2 ++ [p])) .
  { apply list_elem_of_split in Hroot as (la & lb & Heq).
    rewrite Heq, <- app_assoc in Hl1. simpl in Hl1.
    apply chain_suffix in Hl1. by exists (p_root :: lb). }
  destruct Hroot1 as (l2 & Hl2).
  set (next2 := <[p := p]> next1).
  assert (Hknot : chain (delete p next2) (Some q) ((l' ++ [x]) ++ [p])).
  { subst next2. rewrite delete_insert_eq.
    rewrite delete_id; [done|]. subst next1.
    rewrite lookup_insert_ne; [done|].
    intros ->. apply Hpl. apply elem_of_app. right. by left. }
  assert (Hstep : ∀ r0 : family_sys_t,
    base_sys r0 = base_sys r → family_p_next r0 = family_p_next r →
    ∃ r', (let '(p_family, r1) := calloc_family name r0 in
      '(pp_list0, r2) ←
        ('(p_list, r2) ← AppendFamily (Some q) p_family r1; mret (Some p_list, r2));
      match dict !! key with
      | Some p_root =>
          '(_, r3) ← AppendFamily (Some p_root) p_family r2;
          mret (p_family, pp_list0, Some dict, r3)
      | None => mret (p_family, pp_list0, Some (<[key := p_family]> dict), r2)
      end) = Returns (p, Some (Some q), Some dict, r')
      ∧ family_p_next r' = next2).
  { intros r0 Hbase Hnext. unfold calloc_family. rewrite Hbase, Hnext.
    fold p. rewrite Hdel. cbv beta iota zeta.
    rewrite (AppendFamily_returns _ _ (l' ++ [x])) by done.
    rewrite last_snoc, Hkey.
    cbv beta iota zeta delta [mbind result_bind mret result_ret].
    rewrite (AppendFamily_returns _ _ (l2 ++ [p])) by done.
    rewrite last_snoc. by eexists. }
  assert (∃ r', NewFamily psz_family (Some (Some q)) (Some dict) psz_key r
                = Returns (p, Some (Some q), Some dict, r')
                ∧ family_p_next r' = next2) as (r' & Hnew & Hnext').
  { unfold NewFamily. subst name key.
    destruct psz_family as [[|c rest]|]; by apply Hstep. }
  exists p, r'. split; [done|]. rewrite Hnext'.
  split; [by apply lookup_insert_eq|]. split.
  - intros fuel. apply (family_chain_knot _ _ _ p (l' ++ [x])); [done|].
    by apply lookup_insert_eq.
  - intros p_family. unfold AppendFamily. rewrite Hnext'.
    rewrite (AppendFamily_from_knot _ _ _ p _ (l' ++ [x])); [done|done|].
    by apply lookup_insert_eq.
Qed.

End NewFamilies.

(** ** Names without regard to case *)

Lemma tolower_idemp (c : ascii) : tolower (tolower c) = tolower c.
Proof. by destruct c as [[] [] [] [] [] [] [] []]; vm_compute. Qed.

Lemma ToLower_idemp (s : string) : ToLower (ToLower s) = ToLower s.
Proof. induction s as [|c s IH]; [done|]. simpl. by rewrite tolower_idemp, IH. Qed.

Lemma strcasecmp_eq_ToLower (a b : string) :
  strcasecmp_eq a b = true ↔ ToLower a = ToLower b.
Proof. unfold strcasecmp_eq. apply String.eqb_eq. Qed.

Lemma ToLower_nonempty (s : string) : s ≠ EmptyString → ToLower s ≠ EmptyString.
Proof. by destruct s. Qed.

(** ** The static map of families *)

Section StaticMap.

Context {hdr : Headers} {ft : FreeType} {phdr : PlatformHeaders}.

(** X20.  [MakeFilePath] always gives a path for a file name: the name itself
    when it starts with the separator, the name under the directory of the
    system fonts otherwise; only [NULL] gives [NULL].  When that directory is
    itself a full path, or empty, what [MakeFilePath] returns is a full
    path, which a second application returns unchanged. *)
Theorem MakeFilePath_full_path (name : string) :
  SYSTEM_FONT_PATH = EmptyString ∨ char_at0 SYSTEM_FONT_PATH = DIR_SEP_CHAR →
  MakeFilePath None = None
  ∧ ∃ path, MakeFilePath (Some name) = Some path
      ∧ char_at0 path = DIR_SEP_CHAR
      ∧ MakeFilePath (Some path) = Some path
      ∧ (char_at0 name = DIR_SEP_CHAR → path = name)
      ∧ (char_at0 name ≠ DIR_SEP_CHAR →
         path = SYSTEM_FONT_PATH +:+ DIR_SEP +:+ name).
Proof.
  intros Hsys. split; [done|]. unfold MakeFilePath.
  destruct (Ascii.eqb_spec (char_at0 name) DIR_SEP_CHAR) as [Heq|Hne].
  - exists name. rewrite <- Heq at 2. rewrite Ascii.eqb_refl. by repeat split.
  - eexists. split; [done|].
    assert (Hfirst : char_at0 (SYSTEM_FONT_PATH +:+ DIR_SEP +:+ name) = DIR_SEP_CHAR).
    { destruct Hsys as [->|Hsys].
      - by rewrite string_app_nil_l.
      - destruct SYSTEM_FONT_PATH as [|c rest]; [by rewrite string_app_nil_l|].
        by rewrite string_app_cons. }
    rewrite Hfirst, Ascii.eqb_refl. by repeat split.
Qed.

Lemma AppendFamily_fields (p_list : option family_ptr) (p_family : family_ptr)
    (r r' : family_sys_t) (head : option family_ptr) :
  AppendFamily p_list p_family r = Returns (head, r') →
  base_sys r' = base_sys r ∧ family_map r' = family_map r
  ∧ p_families r' = p_families r.
Proof.
  unfold AppendFamily. destruct p_list as [q|]; [|by intros [= <- <-]].
  destruct (AppendFamily_from (S (size (family_p_next r))) q p_family
              (family_p_next r)) as [next| |]; [|done..].
  by intros [= <- <-].
Qed.

(** What [NewFamily] leaves in a dictionary that does not hold the key, if
    it returns. *)
Lemma NewFamily_dict (psz_family : option string)
    (pp_list : option (option family_ptr)) (dict : gmap string family_ptr)
    (key : string) (r r' : family_sys_t) (p : family_ptr)
    (pp_list' : option (option family_ptr))
    (p_dict' : option (gmap string family_ptr)) :
  dict !! ToLower key = None →
  NewFamily psz_family pp_list (Some dict) (Some key) r
  = Returns (p, pp_list', p_dict', r') →
  p_dict' = Some (<[ToLower key := p]> dict)
  ∧ family_map r' = family_map r.
Proof.
  intros Hkey. unfold NewFamily.
  assert (Hstep : ∀ name (r0 : family_sys_t), family_map r0 = family_map r →
    (let '(p_family, r1) := calloc_family name r0 in
     '(pp_list0, r2) ←
       match pp_list with
       | Some p_list =>
           '(p_list, r2) ← AppendFamily p_list p_family r1; mret (Some p_list, r2)
       | None => mret (None, r1)
       end;
     match dict !! ToLower key with
     | Some p_root =>
         '(_, r3) ← AppendFamily (Some p_root) p_family r2;
         mret (p_family, pp_list0, Some dict, r3)
     | None => mret (p_family, pp_list0, Some (<[ToLower key := p_family]> dict), r2)
     end) = Returns (p, pp_list', p_dict', r') →
    p_dict' = Some (<[ToLower key := p]> dict) ∧ family_map r' = family_map r).
  { intros name r0 Hmap. unfold calloc_family. cbv beta iota zeta.
    rewrite Hkey.
    destruct pp_list as [p_list|].
    - destruct (AppendFamily p_list _ _) as [[head r2]| |] eqn:Happ; [|done..].
      apply AppendFamily_fields in Happ as (_ & Hmap2 & _).
      intros [= <- <- <- <-]. split; [done|]. by rewrite Hmap2.
    - intros [= <- <- <- <-]. done. }
  destruct psz_family as [[|c rest]|]; by apply Hstep.
Qed.

Lemma NewFont_family_store file idx bold italic (p : family_ptr)
    (fam : vlc_family_t) (s : filter_sys_t) :
  family_store s !! p = Some fam → p_fonts fam = [] →
  family_store (NewFont file idx bold italic (Some p) s).2
  = <[p := {| psz_name := psz_name fam;
              p_fonts := [fresh (dom (font_store s))] |}]> (family_store s).
Proof.
  intros Hfam Hfonts.
  rewrite (NewFont_parent file idx bold italic p fam s Hfam). cbv zeta.
  rewrite Hfonts. simpl. unfold AppendFont. by rewrite Hfonts.
Qed.

(** X21.  [StaticMap_GetFamily] creates the two default families when they
    are first asked for.  For a name that is, whatever the case of its
    letters, the name of the default family or of the default monospace
    family, and that the dictionary does not hold yet, it returns a new
    family whose name is the name asked for in lower case; the dictionary
    maps that name to it and it is the new last record of the list of all
    families.  The family has one font, regular, of face index 0 and without
    a face, whose file is the file the user has configured for that family
    or else the default file, made a path by [MakeFilePath]. *)
Theorem StaticMap_GetFamily_creates_default (psz_family : string)
    (r : family_sys_t) (l : list family_ptr) :
  let psz_file :=
    if strcasecmp_eq psz_family DEFAULT_FAMILY
    then default DEFAULT_FONT_FILE (sys_psz_fontfile r)
    else default DEFAULT_MONOSPACE_FONT_FILE (sys_psz_monofontfile r) in
  links_closed r → allocated r l →
  chain (family_p_next r) (p_families r) l →
  psz_family ≠ EmptyString →
  family_map r !! ToLower psz_family = None →
  strcasecmp_eq psz_family DEFAULT_FAMILY
  || strcasecmp_eq psz_family DEFAULT_MONOSPACE_FAMILY = true →
  ∃ p q path r',
    StaticMap_GetFamily psz_family r = Returns (Some p, r')
    ∧ family_store (base_sys r) !! p = None
    ∧ font_store (base_sys r) !! q = None
    ∧ MakeFilePath (Some psz_file) = Some path
    ∧ family_store (base_sys r')
      = <[p := {| psz_name := ToLower psz_family; p_fonts := [q] |}]>
          (family_store (base_sys r))
    ∧ font_store (base_sys r')
      = <[q := {| psz_fontfile := path; i_index := 0; b_bold := false;
                  b_italic := false; p_face := None |}]> (font_store (base_sys r))
    ∧ family_map r' = <[ToLower psz_family := p]> (family_map r)
    ∧ chain (family_p_next r') (p_families r') (l ++ [p])
    ∧ links_closed r'.
Proof.
  intros psz_file Hclosed Halloc Hl Hne Hmap Hdefault.
  assert (Hlc : ∃ c rest, ToLower psz_family = String c rest).
  { destruct psz_family as [|c rest]; [done|]. by eexists _, _. }
  destruct Hlc as (c & rest & Hlc).
  pose proof (NewFamily_returns (Some (ToLower psz_family)) (Some (p_families r))
                (Some (family_map r)) (Some (ToLower psz_family)) r l Hclosed Hl)
    as Hnew.
  cbv zeta in Hnew. rewrite Hlc in Hnew. rewrite <- Hlc in Hnew.
  rewrite !ToLower_idemp in Hnew.
  specialize (Hnew ltac:(by intros dict [= <-])).
  change (Some (p_families r) ≫= λ _, last l) with (last l) in Hnew.
  set (p := fresh (dom (family_store (base_sys r)))) in *.
  assert (Hp : family_store (base_sys r) !! p = None).
  { apply not_elem_of_dom, is_fresh. }
  set (r1 := family_added r p (ToLower psz_family) (last l) (i_fallback_counter r))
    in *.
  destruct (family_added_chain r p (ToLower psz_family) (i_fallback_counter r)
              (p_families r) l Hclosed Halloc Hp Hl) as (Hchain & Hclosed1 & _).
  fold r1 in Hchain, Hclosed1.
  assert (Hbase : base_sys r1
                  = set_family_store
                      (<[p := {| psz_name := ToLower psz_family; p_fonts := [] |}]>
                         (family_store (base_sys r))) (base_sys r)) by done.
  clearbody r1 p.
  assert (∃ path, MakeFilePath (Some psz_file) = Some path) as (path & Hpath).
  { unfold MakeFilePath. destruct (_ =? _)%char; by eexists. }
  set (q := fresh (dom (font_store (base_sys r)))).
  assert (Hq : font_store (base_sys r) !! q = None).
  { apply not_elem_of_dom, is_fresh. }
  set (s' := (NewFont path 0 false false (Some p) (base_sys r1)).2).
  exists p, q, path,
    (set_base_sys s'
       (set_p_families (Some (default p (p_families r)))
          (set_family_map (<[ToLower psz_family := p]> (family_map r)) r1))).
  split.
  { unfold StaticMap_GetFamily. rewrite Hmap.
    assert ((if strcasecmp_eq psz_family DEFAULT_FAMILY
             then Some (default DEFAULT_FONT_FILE (sys_psz_fontfile r))
             else if strcasecmp_eq psz_family DEFAULT_MONOSPACE_FAMILY
                  then Some (default DEFAULT_MONOSPACE_FONT_FILE
                               (sys_psz_monofontfile r))
                  else None) = Some psz_file) as ->.
    { subst psz_file. destruct (strcasecmp_eq psz_family DEFAULT_FAMILY); [done|].
      simpl in Hdefault. by rewrite Hdefault. }
    rewrite Hnew. cbv beta iota zeta delta [mbind result_bind mret result_ret].
    rewrite Hpath. subst s'.
    change (base_sys (set_p_families ?a (set_family_map ?b r1))) with (base_sys r1).
    by destruct (NewFont path 0 false false (Some p) (base_sys r1)). }
  simpl.
  pose proof (NewFont_writes path 0 false false (Some p) (base_sys r1)) as Hw.
  pose proof (NewFont_family_store path 0 false false p
                {| psz_name := ToLower psz_family; p_fonts := [] |} (base_sys r1))
    as Hstore.
  fold s' in Hw, Hstore.
  rewrite Hbase in Hw, Hstore. simpl in Hw, Hstore.
  rewrite lookup_insert_eq in Hstore. specialize (Hstore eq_refl eq_refl).
  fold q in Hw, Hstore.
  destruct Hw as (_ & Hfonts & _).
  clearbody s'.
  split; [done|]. split; [done|]. split; [done|].
  split; [by rewrite Hstore, insert_insert_eq|].
  split; [done|]. split; [done|].
  split; [exact Hchain|].
  intros a b Hab. simpl in *. rewrite Hstore, insert_insert_eq.
  destruct (Hclosed1 _ _ Hab) as [Ha Hb]. rewrite Hbase in Ha, Hb. simpl in *.
  split.
  - destruct (decide (p = a)) as [->|?];
      [rewrite lookup_insert_eq; by eexists|].
    by rewrite lookup_insert_ne in Ha |- * by done.
  - destruct (decide (p = b)) as [->|?];
      [rewrite lookup_insert_eq; by eexists|].
    by rewrite lookup_insert_ne in Hb |- * by done.
Qed.

(** [StaticMap_GetFamily] by cases, for a call that returns. *)
Lemma StaticMap_GetFamily_cases (psz_family : string) (r r' : family_sys_t)
    (res : option family_ptr) :
  StaticMap_GetFamily psz_family r = Returns (res, r') →
  (is_Some res ∧ family_map r !! ToLower psz_family = res ∧ r' = r)
  ∨ (family_map r !! ToLower psz_family = None
     ∧ strcasecmp_eq psz_family DEFAULT_FAMILY
       || strcasecmp_eq psz_family DEFAULT_MONOSPACE_FAMILY = false
     ∧ res = None ∧ r' = r)
  ∨ (family_map r !! ToLower psz_family = None
     ∧ strcasecmp_eq psz_family DEFAULT_FAMILY
       || strcasecmp_eq psz_family DEFAULT_MONOSPACE_FAMILY = true
     ∧ ∃ p, res = Some p
            ∧ family_map r' = <[ToLower psz_family := p]> (family_map r)).
Proof.
  unfold StaticMap_GetFamily. intros Hget.
  destruct (family_map r !! ToLower psz_family) as [p0|] eqn:Hmap.
  { injection Hget as <- <-. left. by split; [eexists|]. }
  right.
  destruct (if strcasecmp_eq psz_family DEFAULT_FAMILY
            then Some (default DEFAULT_FONT_FILE (sys_psz_fontfile r))
            else if strcasecmp_eq psz_family DEFAULT_MONOSPACE_FAMILY
                 then Some (default DEFAULT_MONOSPACE_FONT_FILE
                              (sys_psz_monofontfile r))
                 else None) as [psz_file|] eqn:Hfile.
  2:{ injection Hget as <- <-. left. split; [done|]. split; [|done].
      destruct (strcasecmp_eq psz_family DEFAULT_FAMILY); [done|].
      by destruct (strcasecmp_eq psz_family DEFAULT_MONOSPACE_FAMILY). }
  right. split; [done|]. split.
  { destruct (strcasecmp_eq psz_family DEFAULT_FAMILY); [done|].
    by destruct (strcasecmp_eq psz_family DEFAULT_MONOSPACE_FAMILY). }
  destruct (NewFamily _ _ _ _ r) as [[[[p pp_list] p_dict] r1]| |] eqn:Hnew;
    [|done..].
  apply NewFamily_dict in Hnew as [-> Hdict]; [|by rewrite ToLower_idemp].
  rewrite ToLower_idemp in Hget.
  cbv beta iota zeta delta [mbind result_bind mret result_ret] in Hget.
  destruct (MakeFilePath (Some psz_file)) as [path|].
  - destruct (NewFont path 0 false false (Some p) _) as [q s'].
    injection Hget as <- <-. exists p. done.
  - injection Hget as <- <-. exists p. done.
Qed.

(** X22.  What [StaticMap_GetFamily] has returned once it returns again.
    After a call that returned a family, a call for the same name, whatever
    the case of its letters, returns the same family and leaves the state as
    it is: the family is in the dictionary under the name in lower case, and
    nothing is created twice. *)
Theorem StaticMap_GetFamily_again (psz_family psz_again : string)
    (r r' : family_sys_t) (p : family_ptr) :
  StaticMap_GetFamily psz_family r = Returns (Some p, r') →
  strcasecmp_eq psz_again psz_family = true →
  family_map r' !! ToLower psz_family = Some p
  ∧ StaticMap_GetFamily psz_again r' = Returns (Some p, r').
Proof.
  intros Hget Hsame%strcasecmp_eq_ToLower.
  assert (Hmap : family_map r' !! ToLower psz_family = Some p).
  { apply StaticMap_GetFamily_cases in Hget
      as [(_ & Hmap & ->)|[(_ & _ & ? & _)|(_ & _ & p' & [= <-] & ->)]];
      [done|done|].
    by rewrite lookup_insert_eq. }
  split; [done|]. unfold StaticMap_GetFamily. by rewrite Hsame, Hmap.
Qed.

(** X23.  [StaticMap_GetFamily] knows the families of the dictionary and the
    two default families, and no other.  A call that returns has either
    found the name, in lower case, in the dictionary, or created one of the
    two default families, or, for any other name, returned [NULL] and left
    the state as it is.  So the dictionary only ever gains the names of the
    two default families, in lower case. *)
Theorem StaticMap_GetFamily_only_defaults (psz_family : string)
    (r r' : family_sys_t) (res : option family_ptr) :
  StaticMap_GetFamily psz_family r = Returns (res, r') →
  (res = None
   ↔ family_map r !! ToLower psz_family = None
     ∧ strcasecmp_eq psz_family DEFAULT_FAMILY = false
     ∧ strcasecmp_eq psz_family DEFAULT_MONOSPACE_FAMILY = false)
  ∧ (res = None → r' = r)
  ∧ (∀ key, family_map r' !! key ≠ family_map r !! key →
       key = ToLower DEFAULT_FAMILY ∨ key = ToLower DEFAULT_MONOSPACE_FAMILY).
Proof.
  intros Hget.
  apply StaticMap_GetFamily_cases in Hget
    as [([p ->] & Hmap & ->)|[(Hmap & Hno & -> & ->)|(Hmap & Hyes & p & -> & Hnew)]].
  - split; [|done]. split; [done|]. intros [? _]. congruence.
  - apply orb_false_iff in Hno as [? ?]. done.
  - split; [|split; [done|]].
    + split; [done|]. intros (_ & H1 & H2). by rewrite H1, H2 in Hyes.
    + intros key Hkey. rewrite Hnew in Hkey.
      destruct (decide (ToLower psz_family = key)) as [<-|Hne];
        [|by rewrite lookup_insert_ne in Hkey].
      by apply orb_true_iff in Hyes
        as [->%strcasecmp_eq_ToLower| ->%strcasecmp_eq_ToLower]; [left|right].
Qed.

End StaticMap.

(** ** The default fallback list *)

Section DefaultList.

Context {hdr : Headers} {ft : FreeType} {phdr : PlatformHeaders}.

Lemma resolved_names_elem (s : filter_sys_t) (names : list string)
    (name : string) (q : family_ptr) :
  (name, q) ∈ resolved_names s names →
  name ∈ names ∧ pf_get_family s name = Some q.
Proof.
  unfold resolved_names. intros (n & Hn & Hq)%list_elem_of_omap.
  destruct (pf_get_family s n) as [q'|] eqn:Hget; [|done].
  injection Hq as -> ->. done.
Qed.

(** The loop of [InitDefaultList], from a state whose links stay within the
    store and a list that ends: it returns, and the list has grown by one
    new family for every name that the platform resolves. *)
Lemma InitDefaultList_loop_returns (names : list string)
    (p_default : option family_ptr) (r : family_sys_t) (l : list family_ptr) :
  links_closed r → resolver_valid (base_sys r) → allocated r l →
  chain (family_p_next r) p_default l →
  Forall (λ name, name ≠ EmptyString) names →
  ∃ head r' added,
    InitDefaultList_loop names p_default r = Returns (head, r')
    ∧ chain (family_p_next r') head (l ++ added)
    ∧ links_closed r' ∧ allocated r' (l ++ added)
    ∧ Forall2 (default_entry (base_sys r) (base_sys r')) added
        (resolved_names (base_sys r) names)
    ∧ (∀ p, p ∈ added → family_store (base_sys r) !! p = None)
    ∧ (∀ p, p ∉ added → family_store (base_sys r') !! p = family_store (base_sys r) !! p)
    ∧ base_sys r' = set_family_store (family_store (base_sys r')) (base_sys r)
    ∧ p_families r' = p_families r ∧ family_map r' = family_map r
    ∧ (added = [] → r' = r)
    ∧ (∀ q, q ∉ added → last l ≠ Some q →
         family_p_next r' !! q = family_p_next r !! q).
Proof.
  intros Hclosed Hvalid Halloc Hl Hnames.
  revert p_default r l Hclosed Hvalid Halloc Hl.
  induction Hnames as [|name names Hname _ IH];
    intros p_default r l Hclosed Hvalid Halloc Hl.
  { exists p_default, r, []. rewrite app_nil_r. simpl.
    split; [done|]. split; [done|]. split; [done|]. split; [done|].
    split; [constructor|]. split; [by intros p ?%elem_of_nil|].
    split; [done|]. split; [by destruct r as [[]]|]. done. }
  simpl. unfold resolved_names. simpl. fold (resolved_names (base_sys r) names).
  destruct (pf_get_family (base_sys r) name) as [q|] eqn:Hq; simpl.
  2:{ by apply IH. }
  destruct name as [|c rest]; [done|].
  pose proof (NewFamily_returns (Some (String c rest)) (Some p_default) None None
                r l Hclosed Hl) as Hnew.
  cbv beta iota zeta in Hnew. specialize (Hnew ltac:(done)).
  change (Some p_default ≫= λ _, last l) with (last l) in Hnew.
  set (p := fresh (dom (family_store (base_sys r)))) in *.
  assert (Hp : family_store (base_sys r) !! p = None).
  { apply not_elem_of_dom, is_fresh. }
  set (name := String c rest) in *.
  destruct (family_added_chain r p (ToLower name) (i_fallback_counter r)
              p_default l Hclosed Halloc Hp Hl)
    as (Hchain1 & Hclosed1 & Halloc1 & Hlinks1).
  set (r1 := family_added r p (ToLower name) (last l) (i_fallback_counter r)) in *.
  rewrite Hnew. cbv beta iota zeta delta [mbind result_bind mret result_ret].
  assert (Hr1p : family_store (base_sys r1) !! p
                 = Some {| psz_name := ToLower name; p_fonts := [] |}).
  { simpl. by rewrite lookup_insert_eq. }
  rewrite Hr1p.
  destruct (Hvalid _ _ Hq) as [famq Hfamq].
  assert (Hqp : q ≠ p) by congruence.
  assert (Hfontsq : family_fonts q (base_sys r1) = family_fonts q (base_sys r)).
  { unfold family_fonts. simpl. by rewrite lookup_insert_ne. }
  rewrite Hfontsq.
  set (r2 := set_base_sys
               (set_p_fonts p {| psz_name := ToLower name; p_fonts := [] |}
                  (family_fonts q (base_sys r)) (base_sys r1)) r1).
  assert (Hstore2 : family_store (base_sys r2)
                    = <[p := {| psz_name := ToLower name;
                                p_fonts := family_fonts q (base_sys r) |}]>
                        (family_store (base_sys r))).
  { simpl. by rewrite insert_insert_eq. }
  assert (Hsome : ∀ x, is_Some (family_store (base_sys r1) !! x) →
                       is_Some (family_store (base_sys r2) !! x)).
  { intros x. rewrite Hstore2. simpl.
    destruct (decide (p = x)) as [->|?];
      [rewrite !lookup_insert_eq; by eexists|by rewrite !lookup_insert_ne]. }
  destruct (IH (Some (default p p_default)) r2 (l ++ [p]))
    as (head & r' & added & Hloop & Hchain & Hclosed' & Halloc' & Hentries
        & Hnew' & Hold' & Hbase' & Hfams' & Hmap' & _ & Hlinks').
  { intros x y Hxy. destruct (Hclosed1 _ _ Hxy). split; by apply Hsome. }
  { intros n x Hx. apply Hsome. simpl.
    destruct (Hvalid n x Hx) as [? ?].
    rewrite lookup_insert_ne by congruence. by eexists. }
  { unfold allocated in *. eapply Forall_impl; [exact Halloc1|]. apply Hsome. }
  { exact Hchain1. }
  simpl default. rewrite Hloop.
  exists head, r', (p :: added).
  assert (Hpadded : p ∉ added).
  { intros Hin. apply Hnew' in Hin. rewrite Hstore2, lookup_insert_eq in Hin. done. }
  split; [done|]. split; [by rewrite <- app_assoc in Hchain|].
  split; [done|]. split; [by rewrite <- app_assoc in Halloc'|].
  split; [|split; [|split; [|split; [|split; [done|split; [done|split; [done|]]]]]]].
  - constructor.
    + unfold default_entry. simpl. rewrite Hold' by done.
      by rewrite Hstore2, lookup_insert_eq.
    + assert (Hsame : resolved_names (base_sys r2) names
                      = resolved_names (base_sys r) names) by done.
      rewrite Hsame in Hentries.
      apply Forall2_same_length_lookup in Hentries as [Hlen Hentries].
      apply Forall2_same_length_lookup. split; [done|].
      intros i x [n y] Hx Hy. specialize (Hentries i x (n, y) Hx Hy).
      unfold default_entry in *. simpl in *. rewrite Hentries.
      do 2 f_equal. unfold family_fonts. simpl. rewrite insert_insert_eq.
      apply list_elem_of_lookup_2, resolved_names_elem in Hy as [_ Hy].
      destruct (Hvalid _ _ Hy) as [? ?].
      rewrite lookup_insert_ne; [done|congruence].
  - intros x [->|Hx]%elem_of_cons; [done|].
    apply Hnew' in Hx. rewrite Hstore2 in Hx.
    destruct (decide (p = x)) as [->|?]; [by rewrite lookup_insert_eq in Hx|].
    by rewrite lookup_insert_ne in Hx.
  - intros x Hx. apply not_elem_of_cons in Hx as [? ?].
    rewrite Hold' by done. rewrite Hstore2. by rewrite lookup_insert_ne.
  - rewrite Hbase'. done.
  - intros x Hx Hlast. apply not_elem_of_cons in Hx as [? ?].
    rewrite Hlinks'; [by apply Hlinks1|done|].
    rewrite last_snoc. congruence.
Qed.

(** What [InitDefaultList] comes to. *)
Lemma InitDefaultList_returns (names : list string) (r : family_sys_t) :
  links_closed r → resolver_valid (base_sys r) →
  Forall (λ name, name ≠ EmptyString) names →
  ∃ head r1 l,
    InitDefaultList_loop names None r = Returns (head, r1)
    ∧ InitDefaultList names r
      = Returns (head,
                 match l with
                 | [] => r1
                 | _ => set_base_sys
                          (set_fallback_map
                             (<[FB_LIST_DEFAULT := l]> (fallback_map (base_sys r1)))
                             (base_sys r1)) r1
                 end)
    ∧ chain (family_p_next r1) head l
    ∧ links_closed r1
    ∧ Forall2 (default_entry (base_sys r) (base_sys r1)) l
        (resolved_names (base_sys r) names)
    ∧ (∀ p, p ∈ l → family_store (base_sys r) !! p = None)
    ∧ (∀ p, p ∉ l → family_store (base_sys r1) !! p = family_store (base_sys r) !! p)
    ∧ base_sys r1 = set_family_store (family_store (base_sys r1)) (base_sys r)
    ∧ p_families r1 = p_families r ∧ family_map r1 = family_map r
    ∧ (l = [] → r1 = r)
    ∧ (∀ q, q ∉ l → family_p_next r1 !! q = family_p_next r !! q).
Proof.
  intros Hclosed Hvalid Hnames.
  destruct (InitDefaultList_loop_returns names None r [] Hclosed Hvalid)
    as (head & r1 & l & Hloop & Hchain & Hclosed1 & _ & Hentries & Hnew & Hold
        & Hbase & Hfams & Hmap & Hnil & Hlinks); [constructor|done|done|].
  simpl in Hchain.
  exists head, r1, l. split; [done|].
  split; [|split; [done|split; [done|split; [done|split; [done|split;
    [done|split; [done|split; [done|split; [done|split; [done|]]]]]]]]]].
  - unfold InitDefaultList. rewrite Hloop.
    cbv beta iota zeta delta [mbind result_bind mret result_ret].
    destruct head as [q|].
    + rewrite (family_chain_chain _ _ _ l); [|done|by eapply chain_length].
      by destruct l; simpl in Hchain.
    + destruct l; simpl in Hchain; [done|by destruct Hchain].
  - intros q Hq. by apply Hlinks.
Qed.

(** X24.  [InitDefaultList], in a state whose links stay within the store
    and where the platform resolves names to records of the store, returns a
    list with one new family for every name of the array that the platform
    resolves, in the order of the array; names that are not resolved are
    passed over.  Each family bears its name in lower case and has the fonts
    of the family the name resolves to.  The list is filed as the default
    fallback list, unless it is empty: then [NULL] is returned and nothing is
    written at all.  The families and the links that were there, the list of
    all families and the dictionary of families are as before. *)
Theorem InitDefaultList_builds (names : list string) (r : family_sys_t) :
  links_closed r → resolver_valid (base_sys r) →
  Forall (λ name, name ≠ EmptyString) names →
  ∃ head r' l,
    InitDefaultList names r = Returns (head, r')
    ∧ chain (family_p_next r') head l
    ∧ Forall2 (default_entry (base_sys r) (base_sys r')) l
        (resolved_names (base_sys r) names)
    ∧ (∀ p, p ∈ l → family_store (base_sys r) !! p = None)
    ∧ (∀ p, p ∉ l → family_store (base_sys r') !! p = family_store (base_sys r) !! p)
    ∧ (∀ q, q ∉ l → family_p_next r' !! q = family_p_next r !! q)
    ∧ (l = [] → head = None ∧ r' = r)
    ∧ (l ≠ [] →
       base_sys r'
       = set_fallback_map (<[FB_LIST_DEFAULT := l]> (fallback_map (base_sys r)))
           (set_family_store (family_store (base_sys r')) (base_sys r)))
    ∧ p_families r' = p_families r ∧ family_map r' = family_map r
    ∧ links_closed r'.
Proof.
  intros Hclosed Hvalid Hnames.
  destruct (InitDefaultList_returns names r Hclosed Hvalid Hnames)
    as (head & r1 & l & _ & Hinit & Hchain & Hclosed1 & Hentries & Hnew & Hold
        & Hbase & Hfams & Hmap & Hnil & Hlinks).
  eexists head, _, l. split; [exact Hinit|].
  destruct l as [|p l].
  - specialize (Hnil eq_refl). subst r1. simpl in Hchain.
    split; [done|]. split; [done|]. split; [done|]. split; [done|].
    split; [done|]. split; [done|]. split; [by intros []|done].
  - set (l' := p :: l) in *. assert (Hl : l' ≠ []) by done. clearbody l'.
    split; [done|]. split; [done|]. split; [done|]. split; [done|].
    split; [done|]. split; [done|]. split; [|done].
    intros _. simpl. by rewrite Hbase.
Qed.

Lemma faces_wf_families (s : filter_sys_t)
    (fams : gmap family_ptr vlc_family_t) (m : gmap string (list family_ptr)) :
  faces_wf s → faces_wf (set_fallback_map m (set_family_store fams s)).
Proof. intros Hwf. split; apply Hwf. Qed.

(** X25.  The list [InitDefaultList] files serves the last step of the
    selection.  After [InitDefaultList], in a state where the cache of faces
    is consistent: for a codepoint that the first font of the family of one
    of the names covers, the search of the default fallback list finds a
    family of that list whose first font covers the codepoint. *)
Theorem InitDefaultList_serves_codepoint (names : list string) (r : family_sys_t)
    (name : string) (q : family_ptr) (c : Z) :
  links_closed r → resolver_valid (base_sys r) →
  Forall (λ name, name ≠ EmptyString) names →
  faces_wf (base_sys r) →
  name ∈ names → pf_get_family (base_sys r) name = Some q →
  first_covers (base_sys r) q c = true →
  ∃ head r' p s',
    InitDefaultList names r = Returns (head, r')
    ∧ fallback_list FB_LIST_DEFAULT (base_sys r') ≠ []
    ∧ select_default_list c (base_sys r') = (Some p, s')
    ∧ p ∈ fallback_list FB_LIST_DEFAULT (base_sys r')
    ∧ first_covers s' p c = true.
Proof.
  intros Hclosed Hvalid Hnames Hwf Hname Hq Hcovers.
  destruct (InitDefaultList_returns names r Hclosed Hvalid Hnames)
    as (head & r1 & l & _ & Hinit & _ & _ & Hentries & _ & _ & Hbase & _).
  assert (Hin : (name, q) ∈ resolved_names (base_sys r) names).
  { unfold resolved_names. apply list_elem_of_omap. exists name.
    by rewrite Hq. }
  apply list_elem_of_lookup_1 in Hin as [i Hi].
  destruct (Forall2_lookup_r _ _ _ _ _ Hentries Hi) as (p0 & Hp0 & Hentry).
  unfold default_entry in Hentry. simpl in Hentry.
  assert (Hl : l ≠ []) by (intros ->; done).
  set (s1 := set_fallback_map (<[FB_LIST_DEFAULT := l]> (fallback_map (base_sys r1)))
               (base_sys r1)).
  assert (Hinit' : InitDefaultList names r = Returns (head, set_base_sys s1 r1)).
  { rewrite Hinit. by destruct l. }
  assert (Hlist : fallback_list FB_LIST_DEFAULT s1 = l).
  { unfold fallback_list. simpl. by rewrite lookup_insert_eq. }
  assert (Hwf1 : faces_wf s1).
  { subst s1. rewrite Hbase. by apply faces_wf_families. }
  assert (Hcov : fallback_covers s1 p0 c = true).
  { unfold fallback_covers, fallback_fonts. simpl. rewrite Hentry. simpl.
    unfold first_covers in Hcovers.
    destruct (family_fonts q (base_sys r)) as [|f fonts]; [done|].
    subst s1. rewrite Hbase. exact Hcovers. }
  destruct (SearchFallbacks l c s1) as [res s'] eqn:Hsearch.
  pose proof (SearchFallbacks_finds l c s1 p0 Hwf1
                (list_elem_of_lookup_2 _ _ _ Hp0) Hcov) as [p Hp].
  rewrite Hsearch in Hp. simpl in Hp. subst res.
  destruct (SearchFallbacks_wf _ _ _ _ _ Hwf1 Hsearch) as (_ & _ & Hres).
  destruct (Hres p eq_refl) as [Hpin Hpcov].
  exists head, (set_base_sys s1 r1), p, s'.
  split; [done|]. simpl. rewrite Hlist.
  split; [done|]. split; [|done].
  unfold select_default_list. rewrite Hlist. by destruct l.
Qed.

End DefaultList.

(** ** Freeing the lists *)

Section Freeing.

Context {hdr : Headers} {ft : FreeType} {phdr : PlatformHeaders}.

(** The loop over the fonts of a family frees them all exactly when they
    are records of the store and no record is listed twice; it leaves the
    store without them, and everything else as it was. *)
Lemma free_fonts_cases (fonts : list font_ptr) (s : filter_sys_t) :
  match free_fonts fonts s with
  | Returns s' =>
      NoDup fonts ∧ Forall (λ f, is_Some (font_store s !! f)) fonts
      ∧ s' = set_font_store (font_store s') s
      ∧ ∀ f, font_store s' !! f
             = if decide (f ∈ fonts) then None else font_store s !! f
  | Faults => ¬ (NoDup fonts ∧ Forall (λ f, is_Some (font_store s !! f)) fonts)
  | Loops => False
  end.
Proof.
  revert s. induction fonts as [|p rest IH]; intros s; simpl.
  { split; [constructor|]. split; [constructor|]. split; [by destruct s|].
    intros f. by destruct (decide (f ∈ [])) as [?%elem_of_nil|]. }
  destruct (font_store s !! p) as [rec|] eqn:Hp.
  2:{ intros [_ [[? ?] _]%Forall_cons]. congruence. }
  specialize (IH (set_font_store (delete p (font_store s)) s)).
  destruct (free_fonts rest _) as [s'| |]; [|intros [Hnd Hall]; apply IH|done].
  - destruct IH as (Hnd & Hall & Hs' & Hlook). simpl in Hall.
    assert (Hprest : p ∉ rest).
    { intros Hin. rewrite Forall_forall in Hall. apply Hall in Hin as [? Hin].
      by rewrite lookup_delete_eq in Hin. }
    split; [by constructor|]. split; [|split].
    + constructor; [by eexists|].
      eapply Forall_impl; [exact Hall|]. intros f [x Hf].
      apply lookup_delete_Some in Hf as [_ Hf]. by eexists.
    + rewrite Hs' at 1. done.
    + intros f. rewrite Hlook. simpl.
      destruct (decide (f ∈ rest)) as [Hin|Hnotin].
      * rewrite decide_True; [done|by right].
      * destruct (decide (f = p)) as [->|Hne].
        -- rewrite decide_True by by left. by rewrite lookup_delete_eq.
        -- rewrite decide_False.
           ++ by rewrite lookup_delete_ne.
           ++ by intros [?|?]%elem_of_cons.
  - apply NoDup_cons in Hnd as [Hp' Hnd]. apply Forall_cons in Hall as [_ Hall].
    split; [done|]. simpl.
    rewrite Forall_forall in Hall |- *. intros f Hf.
    destruct (Hall f Hf) as [x Hx]. exists x.
    rewrite lookup_delete_ne; [done|]. by intros ->.
Qed.

(** What [FreeFamiliesAndFonts] comes to on a list of records of the store
    that ends. *)
Lemma FreeFamiliesAndFonts_cases (fuel : nat) (p : family_ptr)
    (l : list family_ptr) (r : family_sys_t) :
  chain (family_p_next r) (Some p) l → allocated r l → (length l ≤ fuel)%nat →
  match FreeFamiliesAndFonts fuel p r with
  | Returns r' =>
      NoDup (fonts_of r l)
      ∧ Forall (λ f, is_Some (font_store (base_sys r) !! f)) (fonts_of r l)
      ∧ (∀ q, family_store (base_sys r') !! q
              = if decide (q ∈ l) then None else family_store (base_sys r) !! q)
      ∧ (∀ f, font_store (base_sys r') !! f
              = if decide (f ∈ fonts_of r l) then None
                else font_store (base_sys r) !! f)
      ∧ (∀ q, family_p_next r' !! q
              = if decide (q ∈ l) then None else family_p_next r !! q)
      ∧ base_sys r'
        = set_family_store (family_store (base_sys r'))
            (set_font_store (font_store (base_sys r')) (base_sys r))
      ∧ p_families r' = p_families r ∧ family_map r' = family_map r
  | Faults =>
      ¬ (NoDup (fonts_of r l)
         ∧ Forall (λ f, is_Some (font_store (base_sys r) !! f)) (fonts_of r l))
  | Loops => False
  end.
Proof.
  revert p fuel. induction l as [|p0 l IH]; intros p fuel Hl Halloc Hfuel.
  { done. }
  destruct Hl as [[= <-] Hl]. apply Forall_cons in Halloc as [[fam Hfam] Halloc].
  destruct fuel as [|fuel]; [simpl in Hfuel; lia|]. simpl in Hfuel.
  pose proof (chain_NoDup (family_p_next r) (Some p) (p :: l) (conj eq_refl Hl))
    as [Hpl Hnd]%NoDup_cons.
  simpl. rewrite Hfam.
  change (fonts_of r (p :: l)) with (family_fonts p (base_sys r) ++ fonts_of r l).
  assert (Hfonts : family_fonts p (base_sys r) = p_fonts fam).
  { unfold family_fonts. by rewrite Hfam. }
  rewrite Hfonts.
  (* the state after the families behind [p] have been freed *)
  assert (Hrest :
    match (match family_p_next r !! p with
           | Some p_next => FreeFamiliesAndFonts fuel p_next r
           | None => Returns r
           end) with
    | Returns r1 =>
        NoDup (fonts_of r l)
        ∧ Forall (λ f, is_Some (font_store (base_sys r) !! f)) (fonts_of r l)
        ∧ (∀ q, family_store (base_sys r1) !! q
                = if decide (q ∈ l) then None else family_store (base_sys r) !! q)
        ∧ (∀ f, font_store (base_sys r1) !! f
                = if decide (f ∈ fonts_of r l) then None
                  else font_store (base_sys r) !! f)
        ∧ (∀ q, family_p_next r1 !! q
                = if decide (q ∈ l) then None else family_p_next r !! q)
        ∧ base_sys r1
          = set_family_store (family_store (base_sys r1))
              (set_font_store (font_store (base_sys r1)) (base_sys r))
        ∧ p_families r1 = p_families r ∧ family_map r1 = family_map r
    | Faults =>
        ¬ (NoDup (fonts_of r l)
           ∧ Forall (λ f, is_Some (font_store (base_sys r) !! f)) (fonts_of r l))
    | Loops => False
    end).
  { destruct l as [|q l'].
    - simpl in Hl. rewrite Hl. split; [constructor|]. split; [constructor|].
      split; [intros q; by destruct (decide (q ∈ [])) as [?%elem_of_nil|]|].
      split; [intros q; by destruct (decide (q ∈ fonts_of r []))
                             as [?%elem_of_nil|]|].
      split; [intros q; by destruct (decide (q ∈ [])) as [?%elem_of_nil|]|].
      split; [by destruct r as [[]]|done].
    - destruct Hl as [Hq Hl]. rewrite Hq.
      apply IH; [by split|done|simpl in *; lia]. }
  destruct (match family_p_next r !! p with
            | Some p_next => FreeFamiliesAndFonts fuel p_next r
            | None => Returns r
            end) as [r1| |]; simpl; [|intros [Hnd' Hall']|done].
  2:{ apply Hrest. apply NoDup_app in Hnd' as (_ & _ & ?).
      apply Forall_app in Hall' as [_ ?]. done. }
  destruct Hrest as (Hndl & Halll & Hfams1 & Hfonts1 & Hnext1 & Hbase1 & Hpf1 & Hmap1).
  rewrite Hfams1, decide_False, Hfam by done.
  pose proof (free_fonts_cases (p_fonts fam) (base_sys r1)) as Hfree.
  assert (Hiff : ∀ f, f ∈ p_fonts fam → f ∉ fonts_of r l →
                      font_store (base_sys r1) !! f = font_store (base_sys r) !! f).
  { intros f _ Hf. by rewrite Hfonts1, decide_False. }
  destruct (free_fonts (p_fonts fam) (base_sys r1)) as [s2| |]; simpl;
    [|intros [Hnd' Hall']|done].
  2:{ apply Hfree. apply NoDup_app in Hnd' as (Hnd1 & Hdisj & _).
      apply Forall_app in Hall' as [Hall1 _]. split; [done|].
      rewrite Forall_forall in Hall1 |- *. intros f Hf.
      rewrite Hiff; [by apply Hall1|done|by apply Hdisj]. }
  destruct Hfree as (Hnd2 & Hall2 & Hs2 & Hlook2).
  unfold free_family. simpl.
  assert (Hfam2 : family_store s2 !! p = Some fam).
  { rewrite Hs2. simpl. by rewrite Hfams1, decide_False. }
  rewrite Hfam2.
  assert (Hdisj : ∀ f, f ∈ p_fonts fam → f ∉ fonts_of r l).
  { intros f Hf Hin. rewrite Forall_forall in Hall2.
    destruct (Hall2 f Hf) as [x Hx]. by rewrite Hfonts1, decide_True in Hx. }
  split; [by apply NoDup_app|]. split; [|split; [|split; [|split; [|split]]]].
  - apply Forall_app. split; [|done].
    rewrite Forall_forall in Hall2 |- *. intros f Hf.
    rewrite <- Hiff; [by apply Hall2|done|by apply Hdisj].
  - intros q. simpl. rewrite Hs2. simpl.
    destruct (decide (q = p)) as [->|Hne].
    + rewrite lookup_delete_eq. by rewrite decide_True by by left.
    + rewrite lookup_delete_ne by done. rewrite Hfams1.
      destruct (decide (q ∈ l)) as [Hin|Hnotin].
      * by rewrite decide_True by by right.
      * rewrite decide_False; [done|]. by intros [?|?]%elem_of_cons.
  - intros f. simpl. rewrite Hlook2, Hfonts1.
    destruct (decide (f ∈ p_fonts fam)) as [Hin|Hnotin].
    + rewrite decide_True; [done|]. apply elem_of_app. by left.
    + destruct (decide (f ∈ fonts_of r l)) as [Hin'|Hnotin'].
      * rewrite decide_True; [done|]. apply elem_of_app. by right.
      * rewrite decide_False; [done|]. by intros [?|?]%elem_of_app.
  - intros q. simpl.
    destruct (decide (q = p)) as [->|Hne].
    + rewrite lookup_delete_eq. by rewrite decide_True by by left.
    + rewrite lookup_delete_ne by done. rewrite Hnext1.
      destruct (decide (q ∈ l)) as [Hin|Hnotin].
      * by rewrite decide_True by by right.
      * rewrite decide_False; [done|]. by intros [?|?]%elem_of_cons.
  - simpl. rewrite Hs2. simpl. rewrite Hbase1. done.
  - done.
Qed.

(** What [FreeFamilies] comes to on a list of records of the store that
    ends. *)
Lemma FreeFamilies_returns (fuel : nat) (p : family_ptr) (l : list family_ptr)
    (r : family_sys_t) :
  chain (family_p_next r) (Some p) l → allocated r l → (length l ≤ fuel)%nat →
  ∃ r', FreeFamilies fuel p r = Returns r'
    ∧ (∀ q, family_store (base_sys r') !! q
            = if decide (q ∈ l) then None else family_store (base_sys r) !! q)
    ∧ (∀ q, family_p_next r' !! q
            = if decide (q ∈ l) then None else family_p_next r !! q)
    ∧ base_sys r' = set_family_store (family_store (base_sys r')) (base_sys r)
    ∧ p_families r' = p_families r ∧ family_map r' = family_map r.
Proof.
  revert p fuel. induction l as [|p0 l IH]; intros p fuel Hl Halloc Hfuel.
  { done. }
  destruct Hl as [[= <-] Hl]. apply Forall_cons in Halloc as [[fam Hfam] Halloc].
  destruct fuel as [|fuel]; [simpl in Hfuel; lia|]. simpl in Hfuel.
  pose proof (chain_NoDup (family_p_next r) (Some p) (p :: l) (conj eq_refl Hl))
    as [Hpl Hnd]%NoDup_cons.
  simpl. rewrite Hfam.
  assert (Hrest : ∃ r1,
    (match family_p_next r !! p with
     | Some p_next => FreeFamilies fuel p_next r
     | None => Returns r
     end) = Returns r1
    ∧ (∀ q, family_store (base_sys r1) !! q
            = if decide (q ∈ l) then None else family_store (base_sys r) !! q)
    ∧ (∀ q, family_p_next r1 !! q
            = if decide (q ∈ l) then None else family_p_next r !! q)
    ∧ base_sys r1 = set_family_store (family_store (base_sys r1)) (base_sys r)
    ∧ p_families r1 = p_families r ∧ family_map r1 = family_map r).
  { destruct l as [|q l'].
    - simpl in Hl. rewrite Hl. exists r. split; [done|].
      split; [intros q; by destruct (decide (q ∈ [])) as [?%elem_of_nil|]|].
      split; [intros q; by destruct (decide (q ∈ [])) as [?%elem_of_nil|]|].
      split; [by destruct r as [[]]|done].
    - destruct Hl as [Hq Hl]. rewrite Hq.
      apply IH; [by split|done|simpl in *; lia]. }
  destruct Hrest as (r1 & -> & Hfams1 & Hnext1 & Hbase1 & Hpf1 & Hmap1). simpl.
  unfold free_family. rewrite Hfams1, decide_False, Hfam by done.
  eexists. split; [done|]. simpl.
  split; [|split; [|split; [by rewrite Hbase1|done]]].
  - intros q.
    destruct (decide (q = p)) as [->|Hne].
    + rewrite lookup_delete_eq. by rewrite decide_True by by left.
    + rewrite lookup_delete_ne by done. rewrite Hfams1.
      destruct (decide (q ∈ l)) as [Hin|Hnotin].
      * by rewrite decide_True by by right.
      * rewrite decide_False; [done|]. by intros [?|?]%elem_of_cons.
  - intros q.
    destruct (decide (q = p)) as [->|Hne].
    + rewrite lookup_delete_eq. by rewrite decide_True by by left.
    + rewrite lookup_delete_ne by done. rewrite Hnext1.
      destruct (decide (q ∈ l)) as [Hin|Hnotin].
      * by rewrite decide_True by by right.
      * rewrite decide_False; [done|]. by intros [?|?]%elem_of_cons.
Qed.

(** X26.  [FreeFamilies] frees the families of a list and nothing else.  On
    a list of records of the store that ends it returns; the families of the
    list are then gone from the store, with their links, and every other
    family, every font, and the cache of faces are as before: the fonts a
    fallback list shares with the families of the platform stay valid.
    Freeing the same list a second time is a fault. *)
Theorem FreeFamilies_keeps_fonts (fuel : nat) (p : family_ptr)
    (l : list family_ptr) (r : family_sys_t) :
  chain (family_p_next r) (Some p) l → allocated r l → (length l ≤ fuel)%nat →
  ∃ r', FreeFamilies fuel p r = Returns r'
    ∧ (∀ q, family_store (base_sys r') !! q
            = if decide (q ∈ l) then None else family_store (base_sys r) !! q)
    ∧ (∀ q, family_p_next r' !! q
            = if decide (q ∈ l) then None else family_p_next r !! q)
    ∧ font_store (base_sys r') = font_store (base_sys r)
    ∧ face_map (base_sys r') = face_map (base_sys r)
    ∧ ft_faces (base_sys r') = ft_faces (base_sys r)
    ∧ fallback_map (base_sys r') = fallback_map (base_sys r)
    ∧ p_families r' = p_families r ∧ family_map r' = family_map r
    ∧ ∀ fuel', FreeFamilies (S fuel') p r' = Faults.
Proof.
  intros Hl Halloc Hfuel.
  destruct (FreeFamilies_returns fuel p l r Hl Halloc Hfuel)
    as (r' & Hfree & Hfams & Hnext & Hbase & Hpf & Hmap).
  exists r'. split; [done|]. split; [done|]. split; [done|].
  rewrite Hbase. do 4 (split; [done|]). split; [done|]. split; [done|].
  intros fuel'. simpl.
  assert (Hp : family_store (base_sys r') !! p = None).
  { rewrite Hfams. rewrite decide_True; [done|]. destruct l; [done|].
    destruct Hl as [[= <-] _]. by left. }
  simpl in Hp. by rewrite Hp.
Qed.

(** X27.  [FreeFamiliesAndFonts] is safe on the lists whose families share
    no font.  On a list of records of the store that ends it always comes to
    an end; it returns exactly when the fonts of the families of the list are
    records of the store and none of them is listed twice, in one family or
    in two.  It then leaves the store without these families and fonts; the
    other records and the cache of faces are as before, and no face is
    released.  In every other case it reads or frees a record that it has
    freed already: so it is when two families of the list have a font in
    common. *)
Theorem FreeFamiliesAndFonts_safe_iff_unshared (fuel : nat) (p : family_ptr)
    (l : list family_ptr) (r : family_sys_t) :
  chain (family_p_next r) (Some p) l → allocated r l → (length l ≤ fuel)%nat →
  match FreeFamiliesAndFonts fuel p r with
  | Returns r' =>
      NoDup (fonts_of r l)
      ∧ Forall (λ f, is_Some (font_store (base_sys r) !! f)) (fonts_of r l)
      ∧ (∀ q, family_store (base_sys r') !! q
              = if decide (q ∈ l) then None else family_store (base_sys r) !! q)
      ∧ (∀ f, font_store (base_sys r') !! f
              = if decide (f ∈ fonts_of r l) then None
                else font_store (base_sys r) !! f)
      ∧ face_map (base_sys r') = face_map (base_sys r)
      ∧ ft_faces (base_sys r') = ft_faces (base_sys r)
      ∧ sys_log (base_sys r') = sys_log (base_sys r)
  | Faults =>
      ¬ (NoDup (fonts_of r l)
         ∧ Forall (λ f, is_Some (font_store (base_sys r) !! f)) (fonts_of r l))
  | Loops => False
  end
  ∧ (∀ i j q1 q2 f, i ≠ j → l !! i = Some q1 → l !! j = Some q2 →
       f ∈ family_fonts q1 (base_sys r) → f ∈ family_fonts q2 (base_sys r) →
       FreeFamiliesAndFonts fuel p r = Faults).
Proof.
  intros Hl Halloc Hfuel.
  pose proof (FreeFamiliesAndFonts_cases fuel p l r Hl Halloc Hfuel) as Hcases.
  assert (Hshared : ∀ i j q1 q2 f, i ≠ j → l !! i = Some q1 → l !! j = Some q2 →
    f ∈ family_fonts q1 (base_sys r) → f ∈ family_fonts q2 (base_sys r) →
    ¬ NoDup (fonts_of r l)).
  { clear. unfold fonts_of. induction l as [|q l IH]; intros i j q1 q2 f Hij Hi Hj H1 H2.
    { done. }
    simpl. intros (Hnd1 & Hdisj & Hnd2)%NoDup_app.
    assert (Hin : ∀ k q', l !! k = Some q' → f ∈ family_fonts q' (base_sys r) →
                          f ∈ concat (map (λ p, family_fonts p (base_sys r)) l)).
    { intros k q' Hk Hf. apply list_elem_of_In, in_concat.
      exists (family_fonts q' (base_sys r)). split; [|by apply list_elem_of_In].
      apply in_map_iff. exists q'. split; [done|].
      apply list_elem_of_In. by eapply list_elem_of_lookup_2. }
    destruct i as [|i], j as [|j]; simpl in *; try done.
    - injection Hi as ->. by apply (Hdisj f), (Hin j q2).
    - injection Hj as ->. by apply (Hdisj f), (Hin i q1).
    - apply (IH i j q1 q2 f); [congruence|done..]. }
  split.
  - destruct (FreeFamiliesAndFonts fuel p r) as [r'| |]; [|done..].
    destruct Hcases as (? & ? & ? & ? & _ & Hbase & _).
    do 4 (split; [done|]). by rewrite Hbase.
  - intros i j q1 q2 f Hij Hi Hj H1 H2.
    pose proof (Hshared i j q1 q2 f Hij Hi Hj H1 H2) as Hdup.
    destruct (FreeFamiliesAndFonts fuel p r) as [r'| |]; [|done..].
    by destruct Hcases as (? & _).
Qed.

End Freeing.

(** ** Lower case *)

Lemma tolower_not_upper (c : ascii) : is_upper (tolower c) = false.
Proof. by destruct c as [[] [] [] [] [] [] [] []]; vm_compute. Qed.

Lemma tolower_fixes (c : ascii) : is_upper c = false → tolower c = c.
Proof. unfold tolower, is_upper. by intros ->. Qed.

(** X28.  [ToLower] returns a string of the same length without an upper-case
    letter of ASCII; it changes nothing in a string that has none, so that
    applying it twice is applying it once, and it goes through the
    concatenation of strings.  Two names are equal for [strcasecmp] exactly
    when they have the same lower case. *)
Theorem ToLower_normalises (s t : string) :
  String.length (ToLower s) = String.length s
  ∧ every (λ c, negb (is_upper c)) (ToLower s) = true
  ∧ (every (λ c, negb (is_upper c)) s = true → ToLower s = s)
  ∧ ToLower (ToLower s) = ToLower s
  ∧ ToLower (s +:+ t) = ToLower s +:+ ToLower t
  ∧ (strcasecmp_eq s t = true ↔ ToLower s = ToLower t).
Proof.
  split; [|split; [|split; [|split; [|split]]]].
  - induction s as [|c s IH]; [done|]. simpl. by rewrite IH.
  - induction s as [|c s IH]; [done|]. simpl. by rewrite tolower_not_upper, IH.
  - induction s as [|c s IH]; [done|]. simpl.
    intros [Hc Hs]%andb_prop. apply negb_true_iff in Hc.
    by rewrite tolower_fixes, IH.
  - apply ToLower_idemp.
  - induction s as [|c s IH]; [by rewrite !string_app_nil_l|].
    simpl. by rewrite !string_app_cons, IH.
  - apply strcasecmp_eq_ToLower.
Qed.

(** ** The names of the families without a name *)

Lemma pretty_N_go_first (x : N) (s : string) :
  (0 < x)%N →
  ∃ c rest, pretty_N_go x s = String c rest ∧ c ≠ "0"%char ∧ c ≠ "-"%char.
Proof.
  revert s. induction (N.lt_wf_0 x) as [x _ IH]; intros s Hx.
  rewrite pretty_N_go_step by done.
  destruct (decide (x `div` 10 = 0)%N) as [Hz|Hnz].
  - rewrite Hz, pretty_N_go_0. eexists _, _. split; [done|].
    assert (Hlt : (x < 10)%N).
    { pose proof (N.div_mod x 10 ltac:(done)).
      pose proof (N.mod_lt x 10 ltac:(done)). lia. }
    rewrite N.mod_small by done.
    assert (x = 1 ∨ x = 2 ∨ x = 3 ∨ x = 4 ∨ x = 5 ∨ x = 6
            ∨ x = 7 ∨ x = 8 ∨ x = 9)%N as Hcases by lia.
    by repeat (destruct Hcases as [->|Hcases]); [..|subst x].
  - apply IH; [apply N.div_lt; lia|by apply N.neq_0_lt_0].
Qed.

Lemma pretty_Z_first (n : Z) :
  0 < n → ∃ c rest, pretty n = String c rest ∧ c ≠ "0"%char ∧ c ≠ "-"%char.
Proof.
  destruct n as [|x|x]; [lia| |lia]. intros _.
  change (pretty (Z.pos x)) with (pretty_N_go (N.pos x) "").
  by apply pretty_N_go_first.
Qed.

(** The digits of a number that is not negative, behind zeros, give the
    number. *)
Lemma zeros_pretty_inj (i j : nat) (a b : Z) :
  0 ≤ a → 0 ≤ b → zeros i +:+ pretty a = zeros j +:+ pretty b → a = b.
Proof.
  assert (Hzero : ∀ (k : nat) (a b : Z), 0 ≤ a → 0 ≤ b →
            pretty a = String "0" (zeros k +:+ pretty b) → False).
  { intros k a0 b0 Ha Hb Heq.
    destruct (decide (a0 = 0)) as [->|Hne].
    - injection Heq as Heq. destruct k; simpl in Heq.
      + rewrite string_app_nil_l in Heq.
        destruct (decide (b0 = 0)) as [->|Hne]; [done|].
        destruct (pretty_Z_first b0) as (c & rest & Hb0 & _); [lia|]. congruence.
      + by rewrite string_app_cons in Heq.
    - destruct (pretty_Z_first a0) as (c & rest & Ha0 & Hc & _); [lia|]. congruence. }
  revert j. induction i as [|i IH]; intros [|j] Ha Hb; simpl;
    rewrite ?string_app_nil_l, ?string_app_cons.
  - apply (inj pretty).
  - intros Heq. by destruct (Hzero j a b).
  - intros Heq. by destruct (Hzero i b a).
  - intros [= Heq]. by apply (IH j).
Qed.

Lemma fmt_04d_inj (a b : Z) : fmt_04d a = fmt_04d b → a = b.
Proof.
  assert (Hmixed : ∀ (i j : nat) (a b : Z), 0 ≤ b →
            "-" +:+ zeros i +:+ pretty a = zeros j +:+ pretty b → False).
  { intros i j a0 b0 Hb. rewrite string_app_cons, string_app_nil_l.
    destruct j; simpl; rewrite ?string_app_nil_l, ?string_app_cons; [|done].
    destruct (decide (b0 = 0)) as [->|Hne]; [done|].
    destruct (pretty_Z_first b0) as (c & rest & -> & _ & Hc); [lia|]. congruence. }
  unfold fmt_04d.
  destruct (Z.ltb_spec a 0) as [Ha|Ha], (Z.ltb_spec b 0) as [Hb|Hb].
  - rewrite !(string_app_cons _ ""), !string_app_nil_l. intros [= Heq].
    apply zeros_pretty_inj in Heq; lia.
  - intros Heq. by destruct (Hmixed _ _ _ _ Hb Heq).
  - intros Heq. symmetry in Heq. by destruct (Hmixed _ _ _ _ Ha Heq).
  - by apply zeros_pretty_inj.
Qed.

Lemma int_wrap_succ_ne (c : Z) : int_wrap (c + 1) ≠ c.
Proof.
  unfold int_wrap. intros Heq.
  pose proof (Z.mod_pos_bound (c + 1 + 2 ^ 31) (2 ^ 32) ltac:(lia)) as Hb.
  pose proof (Z.div_mod (c + 1 + 2 ^ 31) (2 ^ 32) ltac:(lia)) as Hd.
  lia.
Qed.

Section FallbackNames.

Context {hdr : Headers} {ft : FreeType} {phdr : PlatformHeaders}.

Lemma fallback_name_inj (a b : Z) : fallback_name a = fallback_name b → a = b.
Proof.
  unfold fallback_name. intros Heq.
  apply (inj (String.app FB_NAME)), (inj (String.app "-")) in Heq.
  by apply fmt_04d_inj.
Qed.

(** X29.  Families created without a name, [NULL] or the empty string, are
    named by the counter: one counter gives one name.  Two such families
    created one after the other for a dictionary that holds neither name
    are two records with two names, and the dictionary then maps each name
    to its family. *)
Theorem NewFamily_fallback_names_distinct (psz_first psz_second : option string)
    (dict : gmap string family_ptr) (r : family_sys_t) :
  let c := i_fallback_counter r in
  let c' := int_wrap (c + 1) in
  (psz_first = None ∨ psz_first = Some EmptyString) →
  (psz_second = None ∨ psz_second = Some EmptyString) →
  links_closed r →
  dict !! fallback_name c = None → dict !! fallback_name c' = None →
  (∀ a b, fallback_name a = fallback_name b → a = b)
  ∧ ∃ p1 r1 p2 r2 dict',
      NewFamily psz_first None (Some dict) None r
      = Returns (p1, None, Some (<[fallback_name c := p1]> dict), r1)
      ∧ NewFamily psz_second None (Some (<[fallback_name c := p1]> dict)) None r1
        = Returns (p2, None, Some dict', r2)
      ∧ p1 ≠ p2 ∧ fallback_name c ≠ fallback_name c'
      ∧ dict' !! fallback_name c = Some p1 ∧ dict' !! fallback_name c' = Some p2
      ∧ psz_name <$> family_store (base_sys r2) !! p1 = Some (fallback_name c)
      ∧ psz_name <$> family_store (base_sys r2) !! p2 = Some (fallback_name c')
      ∧ i_fallback_counter r2 = int_wrap (c' + 1).
Proof.
  intros c c' Hfirst Hsecond Hclosed Hc Hc'.
  split; [apply fallback_name_inj|].
  assert (Hne : fallback_name c ≠ fallback_name c').
  { intros Heq%fallback_name_inj. by destruct (int_wrap_succ_ne c). }
  set (p1 := fresh (dom (family_store (base_sys r)))).
  assert (Hp1 : family_store (base_sys r) !! p1 = None).
  { apply not_elem_of_dom, is_fresh. }
  set (r1 := family_added r p1 (fallback_name c) None c').
  assert (Hnew1 : NewFamily psz_first None (Some dict) None r
                  = Returns (p1, None, Some (<[fallback_name c := p1]> dict), r1)).
  { pose proof (NewFamily_returns psz_first None (Some dict) None r []
                  Hclosed eq_refl) as Hret.
    destruct Hfirst as [-> | ->]; apply Hret; by intros ? [= <-]. }
  assert (Hclosed1 : links_closed r1).
  { by destruct (family_added_chain r p1 (fallback_name c) c' None []
                   Hclosed (Forall_nil_2 _) Hp1 eq_refl) as (_ & ? & _). }
  set (p2 := fresh (dom (family_store (base_sys r1)))).
  assert (Hp2 : family_store (base_sys r1) !! p2 = None).
  { apply not_elem_of_dom, is_fresh. }
  set (r2 := family_added r1 p2 (fallback_name c') None (int_wrap (c' + 1))).
  assert (Hnew2 : NewFamily psz_second None (Some (<[fallback_name c := p1]> dict))
                    None r1
                  = Returns (p2, None,
                             Some (<[fallback_name c' := p2]>
                                     (<[fallback_name c := p1]> dict)), r2)).
  { pose proof (NewFamily_returns psz_second None
                  (Some (<[fallback_name c := p1]> dict)) None r1 []
                  Hclosed1 eq_refl) as Hret.
    destruct Hsecond as [-> | ->]; apply Hret; intros ? [= <-];
      by rewrite lookup_insert_ne. }
  assert (Hp12 : p1 ≠ p2).
  { intros Heq. rewrite <- Heq in Hp2. simpl in Hp2.
    by rewrite lookup_insert_eq in Hp2. }
  exists p1, r1, p2, r2, (<[fallback_name c' := p2]> (<[fallback_name c := p1]> dict)).
  split; [exact Hnew1|]. split; [exact Hnew2|]. split; [exact Hp12|].
  split; [exact Hne|].
  split; [by rewrite lookup_insert_ne, lookup_insert_eq|].
  split; [by rewrite lookup_insert_eq|].
  simpl. rewrite lookup_insert_ne, !lookup_insert_eq by done. done.
Qed.

End FallbackNames.

(** ** The sample registry *)

Section MoreSamples.

#[local] Existing Instances Sample.headers Sample.engine SampleLists.platform.

Lemma with_font_faces_wf (file : string) : faces_wf (SampleLists.with_font file).
Proof.
  apply faces_wf_fresh_state; [done..|].
  unfold SampleLists.with_font. simpl.
  apply map_Forall_insert_2; [done|].
  apply (bool_decide_unpack _). by vm_compute.
Qed.

(** The regular face of Arial opens at the default size of the sample, and
    is cached with the pixel sizes 20 by 20. *)
Lemma LoadFace_returns_iff_opens_witness :
  ∃ s', LoadFace "arial.ttf" 0 (Sample.style 0 0) (Sample.sys 100 ∅)
        = (Some 1%positive, s')
    ∧ ft_faces s' !! 1%positive
      = Some (loaded_face (FromFile "arial.ttf") 0 20 20).
Proof.
  destruct (LoadFace_returns_iff_opens "arial.ttf" 0 (Sample.style 0 0)
              (Sample.sys 100 ∅) (sample_faces_wf 100 ∅))
    as (r & s' & Hload & _ & _ & Hiff & Hface & _).
  assert (Hr : r = Some 1%positive).
  { apply (f_equal fst) in Hload. cbn [fst] in Hload. rewrite <- Hload. by vm_compute. }
  subst r. exists s'. split; [done|].
  destruct (Hface _ eq_refl) as (src & Hsrc & _ & Hrec).
  assert (src = FromFile "arial.ttf") as -> by (vm_compute in Hsrc; congruence).
  exact Hrec.
Defined.

(** The sample has one attachment: the name [:/7] denotes none. *)
Lemma LoadFace_invalid_attachment_witness :
  LoadFace ":/7" 0 (Sample.style 0 0) (Sample.sys 100 ∅)
  = (None, msg_Err "LoadFace: Invalid font attachment index" (Sample.sys 100 ∅)).
Proof.
  apply LoadFace_invalid_attachment; [apply sample_faces_wf|done|].
  vm_compute. intros [_ H]. discriminate H.
Defined.

(** The number of an attachment is read as [atoi] reads it: a number beyond
    the range of [int] keeps its low 32 bits, so that [:/4294967296] denotes
    the first attachment of the sample, as [:/0] does. *)
Example LoadFace_attachment_number_wraps :
  atoi "4294967296" = 0 ∧ atoi "4294967303" = 7 ∧ atoi "-3" = -3
  ∧ source_of (Sample.sys 100 ∅) ":/4294967296"
    = source_of (Sample.sys 100 ∅) ":/0"
  ∧ is_Some (LoadFace ":/4294967296" 0 (Sample.style 0 0) (Sample.sys 100 ∅)).1.
Proof. repeat split; try reflexivity. vm_compute. by eexists. Qed.

(** After the regular face of Arial has been asked for the ideograph, which
    it lacks, the font holds its face. *)
Lemma GetFace_remembers_face_witness :
  let s' := (GetFace 1%positive 20013 (Sample.sys 100 ∅)).2 in
  ∃ h f', font_store s' !! 1%positive = Some f' ∧ p_face f' = Some h
    ∧ GetFace 1%positive 65 s' = (Some h, s').
Proof.
  intros s'.
  destruct (GetFace_remembers_face 1%positive 20013 (Sample.sys 100 ∅)
              (Sample.font "arial.ttf" false false) (sample_faces_wf 100 ∅))
    as (h & f' & Hf' & Hface & Hagain); [done|by vm_compute|].
  exists h, f'. split; [exact Hf'|]. split; [exact Hface|].
  fold s' in Hagain, Hf'. rewrite (Hagain 65).
  assert (Hh : h = 1%positive).
  { assert (Hp : (font_store s' !! 1%positive) ≫= p_face = Some 1%positive)
      by by vm_compute.
    rewrite Hf' in Hp. simpl in Hp. congruence. }
  subst h.
  assert (Hglyph : negb (FT_Get_Char_Index 1%positive 65 s' =? 0) = true)
    by by vm_compute.
  by rewrite Hglyph.
Defined.

(** A font of the file the sample engine cannot select a charmap for. *)
Lemma GetFace_repeats_failed_load_witness :
  ∃ s' events, GetFace 8%positive 65 (SampleLists.with_font "symbol.ttf") = (None, s')
    ∧ sys_log s' = events ++ sys_log (SampleLists.with_font "symbol.ttf")
    ∧ events ≠ []
    ∧ font_store s' = font_store (SampleLists.with_font "symbol.ttf").
Proof.
  destruct (GetFace_repeats_failed_load 8%positive 65
              (SampleLists.with_font "symbol.ttf")
              (Sample.font "symbol.ttf" false false)
              (with_font_faces_wf "symbol.ttf"))
    as (s' & events & Hget & Hlog & Hne & Hfonts & _); [done|by vm_compute|].
  by exists s', events.
Defined.

(** The attached font of the sample covers the ideograph. *)
Lemma GetFace_face_of_default_style_witness :
  ∃ h s', GetFace 7%positive 20013 (Sample.sys 100 ∅) = (Some h, s')
    ∧ face_map s' !! face_key ":/0" 0 20 20 = Some h
    ∧ FT_Get_Char_Index h 20013 s' ≠ 0.
Proof.
  destruct (GetFace 7%positive 20013 (Sample.sys 100 ∅)) as [r s'] eqn:Hget.
  assert (Hr : r = Some 1%positive).
  { apply (f_equal fst) in Hget. cbn [fst] in Hget. rewrite <- Hget. by vm_compute. }
  subst r. exists 1%positive, s'. split; [done|].
  destruct (GetFace_face_of_default_style 7%positive 20013 (Sample.sys 100 ∅) s'
              (Sample.font ":/0" false false) 1%positive
              (sample_faces_wf 100 ∅) eq_refl Hget) as (Hkey & Hglyph & _).
  split; [exact Hkey|exact Hglyph].
Defined.

(** The italic face of Arial is asked for with the ideograph, which only the
    italic face has: it is returned, italic as asked. *)
Lemma GetBestFont_coverage_before_style_witness :
  ∃ best fb, (GetBestFont 1%positive false true 20013 (Sample.sys 100 ∅)).1 = Some best
    ∧ font_store (Sample.sys 100 ∅) !! best = Some fb
    ∧ font_covers (Sample.sys 100 ∅) fb 20013 = true
    ∧ b_bold fb = false ∧ b_italic fb = true.
Proof.
  destruct (GetBestFont 1%positive false true 20013 (Sample.sys 100 ∅))
    as [r s'] eqn:Hbest.
  destruct (GetBestFont_coverage_before_style 1%positive false true 20013
              (Sample.sys 100 ∅) s' r (sample_faces_wf 100 ∅) ltac:(done) Hbest
              3%positive (Sample.font "arial-italic.ttf" false true))
    as (best & fb & -> & _ & Hfb & Hcov & Hstyle);
    [apply (bool_decide_unpack _); by vm_compute|reflexivity|by vm_compute|].
  exists best, fb. destruct (Hstyle eq_refl) as [Hbold Hitalic].
  split; [done|]. split; [done|]. split; [done|]. split; [done|by apply Hitalic].
Defined.

(** After the best variant of Arial has been chosen for the ideograph, the
    bold face, which was not chosen, holds its face. *)
Lemma GetBestFont_loads_every_variant_witness :
  ∃ fq', font_store (GetBestFont 1%positive false false 20013 (Sample.sys 100 ∅)).2
           !! 2%positive = Some fq'
         ∧ is_Some (p_face fq').
Proof.
  destruct (GetBestFont 1%positive false false 20013 (Sample.sys 100 ∅))
    as [r s'] eqn:Hbest.
  destruct (GetBestFont_loads_every_variant 1%positive false false 20013
              (Sample.sys 100 ∅) s' r (sample_faces_wf 100 ∅) ltac:(done) Hbest
              2%positive (Sample.font "arial-bold.ttf" true false))
    as (fq' & Hfq' & Hiff);
    [apply (bool_decide_unpack _); by vm_compute|reflexivity|].
  exists fq'. split; [exact Hfq'|]. apply Hiff. by vm_compute.
Defined.

(** In a list of families of the sample, the name Noto, in capitals, finds
    the family 3 and not the family 5, which bears the name but has no
    fonts. *)
Lemma SearchFontByFamilyName_first_match_witness :
  ∃ s', SearchFontByFamilyName [1; 5; 3]%positive "NOTO" 20013 (Sample.sys 100 ∅)
        = (Some 3%positive, s')
    ∧ family_named (Sample.sys 100 ∅) 5%positive "NOTO" = true
    ∧ first_covers (Sample.sys 100 ∅) 5%positive 20013 = false.
Proof.
  destruct (SearchFontByFamilyName [1; 5; 3]%positive "NOTO" 20013 (Sample.sys 100 ∅))
    as [r s'] eqn:Hsearch.
  assert (Hr : r = Some 3%positive).
  { apply (f_equal fst) in Hsearch. cbn [fst] in Hsearch. rewrite <- Hsearch.
    by vm_compute. }
  subst r. exists s'. split; [done|].
  destruct (SearchFontByFamilyName_first_match _ _ _ _ _ _
              (sample_faces_wf 100 ∅) Hsearch)
    as (_ & pre & post & Hlist & _ & _ & Hpre).
  assert (H5 : 5%positive ∈ pre).
  { destruct pre as [|a [|b [|c pre]]]; [done|..].
    - injection Hlist as <- ?. done.
    - injection Hlist as <- <- ?. right. by left.
    - injection Hlist as _ _ _ Hnil. by destruct pre. }
  specialize (Hpre _ H5). apply andb_false_iff in Hpre as [Hname|Hcov].
  - vm_compute in Hname. done.
  - split; [by vm_compute|exact Hcov].
Defined.

(** A bound of twenty iterations on an input of eleven characters. *)
Lemma SplitIntoSingleFamily_terminates_witness :
  split_loop 20 "Arial, Noto" [] = SplitIntoSingleFamily (Some "Arial, Noto") []
  ∧ SplitIntoSingleFamily (Some "Arial, Noto") [] = ["Arial"; "Noto"].
Proof.
  destruct (SplitIntoSingleFamily_terminates "Arial, Noto" [] 20) as (Hloop & Hsplit & _).
  - simpl. lia.
  - split; [exact Hloop|]. rewrite Hsplit. reflexivity.
Defined.

(** A font name of blanks and commas. *)
Lemma SelectAndLoadFace_without_names_witness :
  SelectAndLoadFace SampleLists.blank_style 65 (Sample.sys 100 ∅)
  = (None, Sample.sys 100 ∅).
Proof.
  apply SelectAndLoadFace_without_names.
  intros name [= <-]. reflexivity.
Defined.

(** The sample request for Arial or Noto at size 30 and the ideograph is
    answered with a face set to 30 pixels that has the ideograph. *)
Lemma SelectAndLoadFace_face_of_request_witness :
  ∃ h s' file idx src,
    SelectAndLoadFace (Sample.style 0 30) 20013 (Sample.sys 100 ∅) = (Some h, s')
    ∧ face_map s' !! face_key file idx 30 30 = Some h
    ∧ ft_faces s' !! h = Some (loaded_face src idx 30 30)
    ∧ FT_Char_Index src idx 20013 ≠ 0.
Proof.
  destruct (SelectAndLoadFace (Sample.style 0 30) 20013 (Sample.sys 100 ∅))
    as [r s'] eqn:Hsel.
  assert (Hr : is_Some r).
  { apply (f_equal fst) in Hsel. cbn [fst] in Hsel. rewrite <- Hsel.
    vm_compute. by eexists. }
  destruct Hr as [h ->].
  destruct (SelectAndLoadFace_face_of_request (Sample.style 0 30) 20013
              (Sample.sys 100 ∅) s' h (sample_faces_wf 100 ∅) Hsel)
    as (_ & _ & file & idx & src & Hkey & _ & Hrec & Hglyph).
  exists h, s', file, idx, src.
  split; [done|]. split; [exact Hkey|]. split; [exact Hrec|]. by apply Hglyph.
Defined.

Lemma shared_faces_wf : faces_wf SampleLists.shared.
Proof.
  apply faces_wf_fresh_state; [done..|].
  apply (bool_decide_unpack _). by vm_compute.
Qed.

Lemma shared_families_valid : families_valid SampleLists.shared.
Proof.
  intros q fam Hq.
  apply (map_Forall_lookup_1
           (λ _ fam, Forall (λ p, is_Some (Sample.fonts !! p)) (p_fonts fam))
           (family_store SampleLists.shared) q fam); [|exact Hq].
  apply (bool_decide_unpack _). by vm_compute.
Qed.

Lemma shared_font_chains : font_chains SampleLists.shared_links SampleLists.shared.
Proof.
  intros q fam Hq.
  apply (map_Forall_lookup_1
           (λ _ fam, chain SampleLists.shared_links (head (p_fonts fam)) (p_fonts fam))
           (family_store SampleLists.shared) q fam); [|exact Hq].
  unfold SampleLists.shared. simpl.
  repeat apply map_Forall_insert_2; [by repeat split..|apply map_Forall_empty].
Qed.

(** A bold face registered for Arial in the sample state where an entry of
    a fallback list holds the fonts of Arial: the font is new, it goes to
    the end of the chain, behind the last of the four variants, and the
    entry has it as Arial has.  The family of Noto is as it was. *)
Lemma NewFont_keeps_consistent_witness :
  let r := NewFont "arial-black.ttf" 0 true false (Some 1%positive)
             SampleLists.shared in
  faces_wf r.2
  ∧ font_store SampleLists.shared !! r.1 = None
  ∧ font_chains (<[4%positive := r.1]> SampleLists.shared_links) r.2
  ∧ family_fonts 1%positive r.2 = [1; 2; 3; 4; r.1]%positive
  ∧ family_fonts 9%positive r.2 = [1; 2; 3; 4; r.1]%positive
  ∧ family_fonts 3%positive r.2 = [6%positive].
Proof.
  intros r.
  destruct (NewFont_keeps_consistent "arial-black.ttf" 0 true false
              (Some 1%positive) SampleLists.shared shared_faces_wf)
    as (Hwf & Hnew & _ & _ & _ & _ & _ & _ & _ & _ & _ & Hchains).
  split; [exact Hwf|]. split; [exact Hnew|]. split.
  - apply (Hchains SampleLists.shared_links);
      [apply shared_families_valid|apply shared_font_chains|reflexivity].
  - repeat split; reflexivity.
Defined.

Lemma lists_links_closed : links_closed SampleLists.lists.
Proof.
  intros p q Hpq.
  apply (map_Forall_lookup_1
           (λ p q, is_Some (Sample.families !! p) ∧ is_Some (Sample.families !! q))
           (family_p_next SampleLists.lists) p q); [|exact Hpq].
  apply (bool_decide_unpack _). by vm_compute.
Qed.

Lemma two_lists_links_closed : links_closed SampleLists.two_lists.
Proof.
  intros p q Hpq.
  apply (map_Forall_lookup_1
           (λ p q, is_Some (Sample.families !! p) ∧ is_Some (Sample.families !! q))
           (family_p_next SampleLists.two_lists) p q); [|exact Hpq].
  apply (bool_decide_unpack _). by vm_compute.
Qed.

Lemma sample_allocated (r : family_sys_t) (l : list family_ptr) :
  base_sys r = Sample.sys 100 ∅ →
  bool_decide (Forall (λ p, is_Some (Sample.families !! p)) l) = true →
  allocated r l.
Proof.
  intros Hbase Hall%bool_decide_eq_true. unfold allocated. by rewrite Hbase.
Qed.

Lemma lists_chain :
  chain (family_p_next SampleLists.lists) (Some 1%positive) [1; 2; 3]%positive.
Proof. by repeat split. Qed.

Lemma sample_resolver_valid : resolver_valid (Sample.sys 100 ∅).
Proof.
  intros name q. simpl. unfold Sample.get_family.
  repeat (destruct (strcasecmp_eq name _)); intros [= <-]; by eexists.
Qed.

(** The family 4 of the sample, which has no link, behind the list of all
    families. *)
Lemma AppendFamily_appends_witness :
  ∃ r', AppendFamily (Some 1%positive) 4%positive SampleLists.lists
        = Returns (Some 1%positive, r')
    ∧ chain (family_p_next r') (Some 1%positive) [1; 2; 3; 4]%positive.
Proof.
  destruct (AppendFamily_appends (Some 1%positive) 4%positive [1; 2; 3]%positive
              [4%positive] SampleLists.lists lists_chain)
    as (r' & Happ & Hchain & _).
  - by repeat split.
  - intros q Hq ->%list_elem_of_singleton. revert Hq.
    apply (bool_decide_unpack _). by vm_compute.
  - by exists r'.
Defined.

Lemma lists_allocated : allocated SampleLists.lists [1; 2; 3]%positive.
Proof. apply sample_allocated; [done|by vm_compute]. Qed.

(** A family for Courier New, filed in the list of all families and in the
    dictionary of the sample under its name. *)
Lemma NewFamily_registers_witness :
  ∃ p r',
    NewFamily (Some "Courier New") (Some (Some 1%positive))
      (Some (family_map SampleLists.lists)) None SampleLists.lists
    = Returns (p, Some (Some 1%positive),
               Some (<["courier new" := p]> (family_map SampleLists.lists)), r')
    ∧ family_store (base_sys r') !! p
      = Some {| psz_name := "courier new"; p_fonts := [] |}
    ∧ chain (family_p_next r') (Some 1%positive) [1; 2; 3; p]%positive.
Proof.
  destruct (NewFamily_registers (Some "Courier New") (Some (Some 1%positive))
              (Some (family_map SampleLists.lists)) None SampleLists.lists
              [1; 2; 3]%positive lists_links_closed lists_allocated lists_chain)
    as (p & r' & Hnew & _ & Hbase & Hchain & _).
  - by intros dict [= <-].
  - exists p, r'. split; [exact Hnew|]. split.
    + rewrite Hbase. simpl. by rewrite lookup_insert_eq.
    + by apply (Hchain (Some 1%positive)).
Defined.

(** A second family for Arial, which the dictionary of the sample holds
    already, given with the list of all families. *)
Lemma NewFamily_ties_knot_witness :
  ∃ p r',
    NewFamily (Some "Arial") (Some (Some 1%positive))
      (Some (family_map SampleLists.lists)) None SampleLists.lists
    = Returns (p, Some (Some 1%positive), Some (family_map SampleLists.lists), r')
    ∧ family_p_next r' !! p = Some p
    ∧ family_chain 1000 (family_p_next r') (Some 1%positive) = Loops.
Proof.
  destruct (NewFamily_ties_knot (Some "Arial") (Some 1%positive)
              (family_map SampleLists.lists) None SampleLists.lists
              [1; 2; 3]%positive 1%positive
              lists_links_closed lists_allocated lists_chain)
    as (p & r' & Hnew & Hself & Hloops & _).
  - reflexivity.
  - by left.
  - exists p, r'. split; [exact Hnew|]. split; [exact Hself|]. apply Hloops.
Defined.

(** The default font file of the sample under the directory of the system
    fonts. *)
Lemma MakeFilePath_full_path_witness :
  MakeFilePath (Some "serif.ttf") = Some "/usr/share/fonts/serif.ttf"
  ∧ MakeFilePath (Some "/usr/share/fonts/serif.ttf")
    = Some "/usr/share/fonts/serif.ttf".
Proof.
  destruct (MakeFilePath_full_path "serif.ttf") as (_ & path & Hpath & _ & Hagain & _).
  - by right.
  - assert (path = "/usr/share/fonts/serif.ttf") as ->.
    { vm_compute in Hpath. congruence. }
    by split.
Defined.

(** The default family of the sample, asked for in capitals. *)
Lemma StaticMap_GetFamily_creates_default_witness :
  ∃ p q r',
    StaticMap_GetFamily "SERIF FAMILY" SampleLists.lists = Returns (Some p, r')
    ∧ family_store (base_sys r') !! p
      = Some {| psz_name := "serif family"; p_fonts := [q] |}
    ∧ font_store (base_sys r') !! q
      = Some {| psz_fontfile := "/usr/share/fonts/serif.ttf"; i_index := 0;
                b_bold := false; b_italic := false; p_face := None |}
    ∧ family_map r' !! "serif family" = Some p
    ∧ chain (family_p_next r') (p_families r') [1; 2; 3; p]%positive.
Proof.
  destruct (StaticMap_GetFamily_creates_default "SERIF FAMILY" SampleLists.lists
              [1; 2; 3]%positive lists_links_closed lists_allocated lists_chain)
    as (p & q & path & r' & Hget & _ & _ & Hpath & Hfams & Hfonts & Hmap & Hchain & _);
    [done|done|done|].
  assert (path = "/usr/share/fonts/serif.ttf") as ->.
  { vm_compute in Hpath. congruence. }
  exists p, q, r'. split; [exact Hget|].
  split; [by rewrite Hfams, lookup_insert_eq|].
  split; [by rewrite Hfonts, lookup_insert_eq|].
  split; [by rewrite Hmap, lookup_insert_eq|exact Hchain].
Defined.

(** The default family is not in the dictionary of the sample: the first
    call, for the name in capitals, creates it, a record that was not in the
    store, and the second call, for the name in another case, returns that
    family and leaves the state as the first call left it. *)
Lemma StaticMap_GetFamily_again_witness :
  ∃ p r',
    StaticMap_GetFamily "SERIF FAMILY" SampleLists.lists = Returns (Some p, r')
    ∧ family_map SampleLists.lists !! "serif family" = None
    ∧ family_store (base_sys SampleLists.lists) !! p = None
    ∧ family_map r' !! "serif family" = Some p
    ∧ StaticMap_GetFamily "Serif Family" r' = Returns (Some p, r').
Proof.
  destruct (StaticMap_GetFamily "SERIF FAMILY" SampleLists.lists)
    as [[[p|] r']| |] eqn:Hget; [|by vm_compute in Hget..].
  assert (Hp : 9%positive = p).
  { pose proof (f_equal (λ x, match x with
                              | Returns (Some q, _) => q
                              | _ => 1%positive
                              end) Hget) as Hq.
    vm_compute in Hq. exact Hq. }
  destruct (StaticMap_GetFamily_again "SERIF FAMILY" "Serif Family"
              SampleLists.lists r' p Hget) as [Hmap Hagain]; [reflexivity|].
  exists p, r'. split; [reflexivity|]. split; [reflexivity|].
  split; [by rewrite <- Hp|]. split; [exact Hmap|exact Hagain].
Defined.

(** Helvetica is neither in the dictionary of the sample nor the name of a
    default family. *)
Lemma StaticMap_GetFamily_only_defaults_witness :
  ∃ r', StaticMap_GetFamily "Helvetica" SampleLists.lists = Returns (None, r')
        ∧ r' = SampleLists.lists.
Proof.
  destruct (StaticMap_GetFamily "Helvetica" SampleLists.lists)
    as [[res r']| |] eqn:Hget; [|by vm_compute in Hget..].
  destruct (StaticMap_GetFamily_only_defaults _ _ _ _ Hget) as ([_ Hnone] & Hsame & _).
  assert (res = None) as -> by by apply Hnone.
  exists r'. split; [done|by apply Hsame].
Defined.

(** The default list of the sample for three names, of which the platform
    resolves the first and the last. *)
Lemma InitDefaultList_builds_witness :
  ∃ head r' p1 p2,
    InitDefaultList ["Arial"; "Helvetica"; "Noto"] SampleLists.lists
    = Returns (head, r')
    ∧ fallback_list "default" (base_sys r') = [p1; p2]
    ∧ family_store (base_sys r') !! p1
      = Some {| psz_name := "arial"; p_fonts := [1; 2; 3; 4]%positive |}
    ∧ family_store (base_sys r') !! p2
      = Some {| psz_name := "noto"; p_fonts := [6%positive] |}.
Proof.
  destruct (InitDefaultList_builds ["Arial"; "Helvetica"; "Noto"] SampleLists.lists
              lists_links_closed sample_resolver_valid)
    as (head & r' & l & Hinit & _ & Hentries & _ & _ & _ & _ & Hbase & _).
  { by repeat constructor. }
  assert (Hres : resolved_names (Sample.sys 100 ∅) ["Arial"; "Helvetica"; "Noto"]
                 = [("Arial", 1%positive); ("Noto", 3%positive)]) by by vm_compute.
  change (base_sys SampleLists.lists) with (Sample.sys 100 ∅) in Hentries, Hbase.
  rewrite Hres in Hentries.
  apply Forall2_cons_inv_r in Hentries as (p1 & l1 & Hp1 & Hentries & ->).
  apply Forall2_cons_inv_r in Hentries as (p2 & l2 & Hp2 & Hentries & ->).
  apply Forall2_nil_inv_r in Hentries as ->.
  exists head, r', p1, p2. split; [exact Hinit|].
  split; [|split; [exact Hp1|exact Hp2]].
  rewrite Hbase by done. unfold fallback_list. simpl. by rewrite lookup_insert_eq.
Defined.

(** The ideograph, which the font of Noto covers, is served by the default
    list made for Arial and Noto. *)
Lemma InitDefaultList_serves_codepoint_witness :
  ∃ head r' p s',
    InitDefaultList ["Arial"; "Noto"] SampleLists.lists = Returns (head, r')
    ∧ select_default_list 20013 (base_sys r') = (Some p, s')
    ∧ first_covers s' p 20013 = true.
Proof.
  destruct (InitDefaultList_serves_codepoint ["Arial"; "Noto"] SampleLists.lists
              "Noto" 3%positive 20013 lists_links_closed sample_resolver_valid)
    as (head & r' & p & s' & Hinit & _ & Hsel & _ & Hcov).
  - by repeat constructor.
  - apply sample_faces_wf.
  - right. by left.
  - by vm_compute.
  - by vm_compute.
  - by exists head, r', p, s'.
Defined.

Lemma two_lists_chain_shared :
  chain (family_p_next SampleLists.two_lists) (Some 1%positive) [1; 7; 8]%positive.
Proof. by repeat split. Qed.

Lemma two_lists_chain_unshared :
  chain (family_p_next SampleLists.two_lists) (Some 2%positive) [2; 3]%positive.
Proof. by repeat split. Qed.

(** The list of the families 1, 7 and 8 freed without the fonts. *)
Lemma FreeFamilies_keeps_fonts_witness :
  ∃ r', FreeFamilies 3 1%positive SampleLists.two_lists = Returns r'
    ∧ family_store (base_sys r') !! 7%positive = None
    ∧ font_store (base_sys r') = Sample.fonts
    ∧ FreeFamilies 3 1%positive r' = Faults.
Proof.
  destruct (FreeFamilies_keeps_fonts 3 1%positive [1; 7; 8]%positive
              SampleLists.two_lists two_lists_chain_shared)
    as (r' & Hfree & Hfams & _ & Hfonts & _ & _ & _ & _ & _ & Htwice).
  - apply sample_allocated; [done|by vm_compute].
  - simpl. lia.
  - exists r'. split; [exact Hfree|]. split; [|split; [exact Hfonts|apply Htwice]].
    rewrite Hfams. by rewrite decide_True by (right; by left).
Defined.

(** The families 1 and 7 of the sample both list the bold face of Arial:
    their list cannot be freed with the fonts.  The list of the families 2
    and 3 can. *)
Lemma FreeFamiliesAndFonts_safe_iff_unshared_witness :
  FreeFamiliesAndFonts 3 1%positive SampleLists.two_lists = Faults
  ∧ ∃ r', FreeFamiliesAndFonts 3 2%positive SampleLists.two_lists = Returns r'
      ∧ font_store (base_sys r') !! 5%positive = None
      ∧ font_store (base_sys r') !! 1%positive
        = Some (Sample.font "arial.ttf" false false).
Proof.
  split.
  - destruct (FreeFamiliesAndFonts_safe_iff_unshared 3 1%positive [1; 7; 8]%positive
                SampleLists.two_lists two_lists_chain_shared)
      as [_ Hshared].
    + apply sample_allocated; [done|by vm_compute].
    + simpl. lia.
    + apply (Hshared 0%nat 1%nat 1%positive 7%positive 2%positive);
        [done|done|done|..]; apply (bool_decide_unpack _); by vm_compute.
  - destruct (FreeFamiliesAndFonts_safe_iff_unshared 3 2%positive [2; 3]%positive
                SampleLists.two_lists two_lists_chain_unshared)
      as [Hcases _].
    + apply sample_allocated; [done|by vm_compute].
    + simpl. lia.
    + destruct (FreeFamiliesAndFonts 3 2%positive SampleLists.two_lists)
        as [r'| |] eqn:Hfree.
      * destruct Hcases as (_ & _ & _ & Hfonts & _).
        exists r'. split; [done|]. rewrite !Hfonts.
        split; [by rewrite decide_True by (apply (bool_decide_unpack _); by vm_compute)|].
        by rewrite decide_False by (apply (bool_decide_unpack _); by vm_compute).
      * destruct Hcases. split; [|apply (bool_decide_unpack _); by vm_compute].
        apply (bool_decide_unpack _). by vm_compute.
      * done.
Defined.

(** Two families without a name for the dictionary of the sample, the
    first for [NULL] and the second for the empty string. *)
Lemma NewFamily_fallback_names_distinct_witness :
  ∃ p1 r1 p2 r2 dict',
    NewFamily None None (Some (family_map SampleLists.lists)) None SampleLists.lists
    = Returns (p1, None,
               Some (<["fallback-0000" := p1]> (family_map SampleLists.lists)), r1)
    ∧ NewFamily (Some EmptyString) None
        (Some (<["fallback-0000" := p1]> (family_map SampleLists.lists))) None r1
      = Returns (p2, None, Some dict', r2)
    ∧ p1 ≠ p2
    ∧ dict' !! "fallback-0000" = Some p1 ∧ dict' !! "fallback-0001" = Some p2.
Proof.
  assert (Hc : fallback_name (i_fallback_counter SampleLists.lists)
               = "fallback-0000") by by vm_compute.
  assert (Hc' : fallback_name (int_wrap (i_fallback_counter SampleLists.lists + 1))
                = "fallback-0001") by by vm_compute.
  destruct (NewFamily_fallback_names_distinct None (Some EmptyString)
              (family_map SampleLists.lists) SampleLists.lists)
    as (_ & p1 & r1 & p2 & r2 & dict' & Hnew1 & Hnew2 & Hne & _ & Hd1 & Hd2 & _).
  - by left.
  - by right.
  - exact lists_links_closed.
  - rewrite Hc. reflexivity.
  - rewrite Hc'. reflexivity.
  - rewrite Hc in Hnew1, Hnew2, Hd1. rewrite Hc' in Hd2.
    by exists p1, r1, p2, r2, dict'.
Defined.

End MoreSamples.
